(** * GhostSweep sweep pipeline: a shallow embedding and its properties

    The development follows the source tree of the worker:
    - [Str]        : the string primitives the TypeScript code relies on
                     (toLowerCase, includes, split, join, trim);
    - [Helpers]    : src/utils/helpers.ts (confidence score, spam filter);
    - [Extraction] : extraction.ts (sender address, canonical domain, name);
    - [Js], [Effects], [Store] : the values, the programs with their
                     external calls, and the calls of the worker;
    - [Reasoning]  : predicates on every run of a program (outcomes,
                     numbers of calls, a state followed along the calls);
    - [Summarize]  : src/utils/summarize-by-domain.ts;
    - [Cache]      : src/utils/cache.ts, notify.ts, get-user.ts;
    - [Worker]     : src/worker.ts (token lifecycle, persistence, the sweep);
    - [Fetcher]    : fetch-metadata-for-messages.ts (backoff, worker pool);
    - [Vault]      : src/utils/encryption.ts (sealing of the tokens);
    - [Lister]     : list-emails.ts (queries, pagination, deduplication);
    - [Cached]     : src/utils/cache.ts (the cached result of a sweep);
    - [Poller]     : src/worker.ts (the poll for the next job).

    Strings are modelled as Rocq [string]s, i.e. sequences of 8-bit
    characters; [toLowerCase] acts on the letters A-Z and the white space
    recognised by [trim] is the ASCII white space (TAB, LF, VT, FF, CR,
    SPACE).  Numbers that the code only uses as integers are [Z]. *)

From Stdlib Require Import String Ascii List ZArith NArith Bool Lia Permutation.
From Stdlib Require Import DecimalString QArith Sorted.
Import ListNotations.
Open Scope string_scope.
Open Scope Z_scope.

(* ===================================================================== *)
(** ** String primitives *)
(* ===================================================================== *)

Module Str.

(** [c.toLowerCase()] on one character. *)
Definition lower_ascii (c : ascii) : ascii :=
  let n := N_of_ascii c in
  if ((65 <=? n) && (n <=? 90))%N then ascii_of_N (n + 32) else c.

(** [c.toUpperCase()] on one character. *)
Definition upper_ascii (c : ascii) : ascii :=
  let n := N_of_ascii c in
  if ((97 <=? n) && (n <=? 122))%N then ascii_of_N (n - 32) else c.

(** [s.toLowerCase()]. *)
Fixpoint toLowerCase (s : string) : string :=
  match s with
  | EmptyString => EmptyString
  | String c s' => String (lower_ascii c) (toLowerCase s')
  end.

(** [s.startsWith(p)]. *)
Fixpoint startsWith (s p : string) {struct p} : bool :=
  match p, s with
  | EmptyString, _ => true
  | String _ _, EmptyString => false
  | String a p', String b s' => Ascii.eqb a b && startsWith s' p'
  end.

(** [s.includes(p)]: [p] occurs in [s] as a contiguous substring. *)
Fixpoint includes (s p : string) : bool :=
  startsWith s p ||
  match s with
  | EmptyString => false
  | String _ s' => includes s' p
  end.

(** [parts.join(sep)]. *)
Fixpoint join (sep : string) (parts : list string) : string :=
  match parts with
  | [] => EmptyString
  | [x] => x
  | x :: rest => x ++ sep ++ join sep rest
  end.

(** Truthiness of a string value: [Boolean(s)]. *)
Definition truthy (s : string) : bool :=
  match s with EmptyString => false | _ => true end.

(** [re.test(s)] for a regular expression that is a plain alternation of
    literal strings, [/lit1|lit2|.../]. *)
Definition test_any (alts : list string) (s : string) : bool :=
  existsb (includes s) alts.

(** White space removed by [trim] and matched by [\s]. *)
Definition isSpace (c : ascii) : bool :=
  let n := N_of_ascii c in (((9 <=? n) && (n <=? 13)) || (n =? 32))%N.

(** Line terminators, which [.] does not match. *)
Definition isLineTerminator (c : ascii) : bool :=
  let n := N_of_ascii c in ((n =? 10) || (n =? 13))%N.

Fixpoint dropWhile (f : ascii -> bool) (s : string) : string :=
  match s with
  | EmptyString => EmptyString
  | String c s' => if f c then dropWhile f s' else s
  end.

Fixpoint dropEndWhile (f : ascii -> bool) (s : string) : string :=
  match s with
  | EmptyString => EmptyString
  | String c s' =>
      match dropEndWhile f s' with
      | EmptyString => if f c then EmptyString else String c EmptyString
      | t => String c t
      end
  end.

(** [s.trim()]. *)
Definition trim (s : string) : string := dropEndWhile isSpace (dropWhile isSpace s).

(** [s.split(c)] for a one-character separator: never the empty list. *)
Fixpoint split (c : ascii) (s : string) : list string :=
  match s with
  | EmptyString => [EmptyString]
  | String a s' =>
      if Ascii.eqb a c then EmptyString :: split c s'
      else match split c s' with
           | [] => [String a EmptyString]
           | w :: ws => String a w :: ws
           end
  end.

(** [s.endsWith(p)]. *)
Definition endsWith (s p : string) : bool :=
  (String.length p <=? String.length s)%nat
  && String.eqb (substring (String.length s - String.length p) (String.length p) s) p.

(** Membership in an array or a [Set] of strings. *)
Definition mem (x : string) (l : list string) : bool := existsb (String.eqb x) l.

(** Own-property lookup [table[key]] in a [Record<string,string>]. *)
Fixpoint lookup (key : string) (table : list (string * string)) : option string :=
  match table with
  | [] => None
  | (k, v) :: rest => if String.eqb key k then Some v else lookup key rest
  end.

(** [l.slice(-n)]. *)
Definition lastn {A} (n : nat) (l : list A) : list A := skipn (List.length l - n) l.

(** *** Basic facts *)

Lemma startsWith_app (s t p : string) :
  startsWith s p = true -> startsWith (s ++ t) p = true.
Proof.
  revert p; induction s as [|c s IH]; intros [|a p] H; simpl in *; auto; try discriminate.
  apply andb_true_iff in H as [H1 H2]. rewrite H1. simpl. auto.
Qed.

Lemma includes_app_l (s t p : string) :
  includes s p = true -> includes (s ++ t) p = true.
Proof.
  induction s as [|c s IH]; simpl; intros H.
  - rewrite orb_false_r in H. destruct p; [|discriminate].
    destruct t; reflexivity.
  - apply orb_true_iff in H as [H|H].
    + pose proof (startsWith_app (String c s) t p H) as H'.
      simpl in H'. rewrite H'. reflexivity.
    + rewrite (IH H). apply orb_true_r.
Qed.

Lemma includes_app_r (s t p : string) :
  includes t p = true -> includes (s ++ t) p = true.
Proof.
  induction s as [|c s IH]; simpl; intros H; auto.
  rewrite (IH H). apply orb_true_r.
Qed.

Lemma toLowerCase_app (s t : string) :
  toLowerCase (s ++ t) = toLowerCase s ++ toLowerCase t.
Proof. induction s as [|c s IH]; simpl; congruence. Qed.

Lemma includes_empty_false (p : string) :
  includes EmptyString p = true -> p = EmptyString.
Proof. destruct p; simpl; [reflexivity|discriminate]. Qed.

(** Every character of [s] satisfies [f]. *)
Fixpoint allb (f : ascii -> bool) (s : string) : bool :=
  match s with
  | EmptyString => true
  | String c s' => f c && allb f s'
  end.

Definition isLowered (c : ascii) : bool := Ascii.eqb (lower_ascii c) c.
Definition notChar (c : ascii) (a : ascii) : bool := negb (Ascii.eqb a c).

Lemma lower_ascii_isLowered (c : ascii) : isLowered (lower_ascii c) = true.
Proof.
  destruct c as [[] [] [] [] [] [] [] []]; reflexivity.
Qed.

Lemma toLowerCase_allb (s : string) : allb isLowered (toLowerCase s) = true.
Proof.
  induction s as [|c s IH]; simpl; [reflexivity|].
  rewrite lower_ascii_isLowered, IH. reflexivity.
Qed.

Lemma toLowerCase_fixed (s : string) : allb isLowered s = true -> toLowerCase s = s.
Proof.
  induction s as [|c s IH]; simpl; intros H; [reflexivity|].
  apply andb_true_iff in H as [H1 H2]. unfold isLowered in H1.
  apply Ascii.eqb_eq in H1. rewrite H1, IH; auto.
Qed.

Lemma allb_app (f : ascii -> bool) (s t : string) :
  allb f (s ++ t) = allb f s && allb f t.
Proof. induction s as [|c s IH]; simpl; [reflexivity|]. rewrite IH, andb_assoc. reflexivity. Qed.

Lemma allb_dropWhile (f g : ascii -> bool) (s : string) :
  allb f s = true -> allb f (dropWhile g s) = true.
Proof.
  induction s as [|c s IH]; simpl; intros H; [reflexivity|].
  apply andb_true_iff in H as [H1 H2].
  destruct (g c); simpl; auto. rewrite H1, H2. reflexivity.
Qed.

Lemma allb_dropEndWhile (f g : ascii -> bool) (s : string) :
  allb f s = true -> allb f (dropEndWhile g s) = true.
Proof.
  induction s as [|c s IH]; simpl; intros H; [reflexivity|].
  apply andb_true_iff in H as [H1 H2]. specialize (IH H2).
  destruct (dropEndWhile g s) eqn:E.
  - destruct (g c); simpl; auto. rewrite H1. reflexivity.
  - simpl. rewrite H1. exact IH.
Qed.

Lemma allb_trim (f : ascii -> bool) (s : string) :
  allb f s = true -> allb f (trim s) = true.
Proof. intros H. unfold trim. apply allb_dropEndWhile, allb_dropWhile, H. Qed.

Lemma dropEndWhile_idem (f : ascii -> bool) (s : string) :
  dropEndWhile f (dropEndWhile f s) = dropEndWhile f s.
Proof.
  induction s as [|c s IH]; simpl; [reflexivity|].
  destruct (dropEndWhile f s) as [|a t] eqn:E.
  - destruct (f c) eqn:Ec; simpl; [reflexivity|]. rewrite Ec. reflexivity.
  - simpl in *. rewrite IH. reflexivity.
Qed.

Lemma dropEndWhile_app (f : ascii -> bool) (s t : string) :
  dropEndWhile f t <> EmptyString ->
  dropEndWhile f (s ++ t) = s ++ dropEndWhile f t.
Proof.
  intros H. induction s as [|c s IH]; simpl; [reflexivity|].
  rewrite IH. destruct (s ++ dropEndWhile f t) eqn:E; [|reflexivity].
  destruct s; simpl in E; [contradiction|discriminate].
Qed.

Lemma dropEndWhile_none (f : ascii -> bool) (s : string) :
  allb (fun c => negb (f c)) s = true -> dropEndWhile f s = s.
Proof.
  induction s as [|c s IH]; simpl; intros H; [reflexivity|].
  apply andb_true_iff in H as [H1 H2]. rewrite (IH H2).
  destruct s; [|reflexivity]. apply negb_true_iff in H1. rewrite H1. reflexivity.
Qed.

(** *** [split] and [join] *)

Lemma split_not_nil (c : ascii) (s : string) : split c s <> [].
Proof.
  induction s as [|a s IH]; simpl; [discriminate|].
  destruct (Ascii.eqb a c); [discriminate|].
  destruct (split c s); discriminate.
Qed.

Lemma split_parts (c : ascii) (f : ascii -> bool) (s : string) :
  allb f s = true ->
  Forall (fun x => allb f x = true /\ allb (notChar c) x = true) (split c s).
Proof.
  induction s as [|a s IH]; simpl; intros H.
  - constructor; auto.
  - apply andb_true_iff in H as [H1 H2]. specialize (IH H2).
    destruct (Ascii.eqb a c) eqn:E.
    + constructor; auto.
    + destruct (split c s) as [|w ws]; [constructor; simpl; auto|].
      * unfold notChar. rewrite H1, E. auto.
      * inversion IH as [|? ? [Hw1 Hw2] Hws]; subst. constructor; auto.
        simpl. unfold notChar at 1. rewrite H1, E, Hw1, Hw2. auto.
Qed.

Lemma split_no_sep (c : ascii) (x : string) :
  allb (notChar c) x = true -> split c x = [x].
Proof.
  induction x as [|a x IH]; simpl; intros H; [reflexivity|].
  apply andb_true_iff in H as [H1 H2]. unfold notChar in H1.
  apply negb_true_iff in H1. rewrite H1, (IH H2). reflexivity.
Qed.

Lemma split_app_sep (c : ascii) (x rest : string) :
  allb (notChar c) x = true ->
  split c (x ++ String c rest) = x :: split c rest.
Proof.
  induction x as [|a x IH]; simpl; intros H.
  - rewrite Ascii.eqb_refl. reflexivity.
  - apply andb_true_iff in H as [H1 H2]. unfold notChar in H1.
    apply negb_true_iff in H1. rewrite H1, (IH H2). reflexivity.
Qed.

Lemma split_join (c : ascii) (parts : list string) :
  parts <> [] ->
  Forall (fun x => allb (notChar c) x = true) parts ->
  split c (join (String c EmptyString) parts) = parts.
Proof.
  induction parts as [|x parts IH]; intros Hne HF; [contradiction|].
  inversion HF as [|? ? Hx Hrest]; subst.
  destruct parts as [|y parts].
  - simpl. apply split_no_sep; assumption.
  - change (join (String c "") (x :: y :: parts))
      with (x ++ String c (join (String c "") (y :: parts))).
    rewrite split_app_sep by assumption.
    rewrite IH; [reflexivity|discriminate|assumption].
Qed.

Lemma allb_join (f : ascii -> bool) (sep : string) (parts : list string) :
  allb f sep = true ->
  Forall (fun x => allb f x = true) parts ->
  allb f (join sep parts) = true.
Proof.
  intros Hsep HF. induction HF as [|x parts Hx HF IH]; [reflexivity|].
  destruct parts as [|y parts]; [exact Hx|].
  change (join sep (x :: y :: parts)) with (x ++ sep ++ join sep (y :: parts)).
  rewrite !allb_app, Hx, Hsep, IH. reflexivity.
Qed.

Lemma lastn_incl {A} (n : nat) (l : list A) (x : A) : In x (lastn n l) -> In x l.
Proof.
  unfold lastn. intros H. rewrite <- (firstn_skipn (List.length l - n) l).
  apply in_or_app. right. exact H.
Qed.

Lemma lastn_length {A} (n : nat) (l : list A) :
  (n <= List.length l)%nat -> List.length (lastn n l) = n.
Proof. intros H. unfold lastn. rewrite length_skipn. lia. Qed.

Lemma lastn_all {A} (l : list A) : lastn (List.length l) l = l.
Proof. unfold lastn. rewrite Nat.sub_diag. reflexivity. Qed.

Lemma lastn_lastn {A} (m n : nat) (l : list A) :
  (m <= n)%nat -> (n <= List.length l)%nat -> lastn m (lastn n l) = lastn m l.
Proof.
  intros Hmn Hn. unfold lastn. rewrite length_skipn, skipn_skipn.
  f_equal. lia.
Qed.

End Str.

(* ===================================================================== *)
(** ** src/utils/helpers.ts *)
(* ===================================================================== *)

Module Helpers.
Import Str.

(** [interface Summary]: every field is optional. *)
Record Summary := {
  domain : option string;
  subject : option string;
  subjects : option (list string);
  from : option string;
  emailCount : option Z
}.

(** [(x || "")] for an optional string. *)
Definition orEmpty (x : option string) : string :=
  match x with Some s => s | None => "" end.

(** [(summary.subjects || [summary.subject] || []).filter(Boolean)
      .join(" ").toLowerCase()].
    An array is always truthy, so the second alternative is taken exactly
    when [subjects] is absent; an absent [subject] is dropped by the
    filter, like an empty one. *)
Definition allSubjectsOf (summary : Summary) : string :=
  let arr :=
    match subjects summary with
    | Some l => l
    | None => match subject summary with Some s => [s] | None => [] end
    end in
  toLowerCase (join " " (filter truthy arr)).

(** The alternations of the subject-line regular expressions. *)
Definition re_created := ["account created"; "welcome to"; "registration successful"; "you're all set"].
Definition re_verify := ["verify your email"; "confirm your email"; "verify your account"].
Definition re_security := ["password reset"; "security alert"; "two-factor"; "2fa"; "verification code"].
Definition re_transactional := ["receipt"; "order confirmation"; "invoice"; "payment received"; "purchase"].
Definition re_billing := ["subscription"; "trial started"; "billing"; "renewed"].
Definition re_management := ["account closed"; "account deletion"; "reactivate"].
Definition re_auto_from := ["noreply@"; "no-reply@"; "notifications@"; "accounts@"].
Definition re_auto_domain := ["noreply"; "no-reply"; "notifications"; "accounts"].
Definition re_freemail := ["gmail.com"; "yahoo.com"; "hotmail.com"; "outlook.com"; "aol.com"; "icloud.com"].

(** [calculateConfidenceScore]. *)
Definition calculateConfidenceScore (summary : Summary) : Z :=
  let score := 0 in
  let domain := toLowerCase (orEmpty (domain summary)) in
  let allSubjects := allSubjectsOf summary in
  let from := toLowerCase (orEmpty (from summary)) in
  (* Subject line signals *)
  let score := if test_any re_created allSubjects then score + 10 else score in
  let score := if test_any re_verify allSubjects then score + 9 else score in
  let score := if test_any re_security allSubjects then score + 8 else score in
  let score := if test_any re_transactional allSubjects then score + 7 else score in
  let score := if test_any re_billing allSubjects then score + 6 else score in
  let score := if test_any re_management allSubjects then score + 5 else score in
  (* Sender signals *)
  let score :=
    if test_any re_auto_from from || test_any re_auto_domain domain
    then score + 4 else score in
  let score := if negb (test_any re_freemail domain) then score + 3 else score in
  (* Email volume *)
  let emailCount := match emailCount summary with Some n => n | None => 0 end in
  let score :=
    if emailCount >=? 20 then score + 6
    else if emailCount >=? 10 then score + 4
    else if emailCount >=? 5 then score + 2
    else if emailCount >=? 2 then score + 1
    else score in
  score.

(** The alternation of [spamPatterns] (each has the [i] flag, and is tested
    against the lower-cased text) and the [spamDomains]. *)
Definition spamPatterns := ["unsubscribe"; "newsletter"; "daily digest"; "weekly summary";
  "promotional"; "limited time offer"; "act now"; "click here"].
Definition spamDomains := ["mailchimp"; "sendgrid"; "constantcontact"].

(** [isLikelySpam]. *)
Definition isLikelySpam (summary : Summary) : bool :=
  let domain := toLowerCase (orEmpty (domain summary)) in
  let allSubjects := allSubjectsOf summary in
  let hasSpamPattern := existsb (fun p => includes allSubjects p) spamPatterns in
  let hasSpamDomain := existsb (fun d => includes domain d) spamDomains in
  hasSpamPattern || hasSpamDomain.

(** [categorizeService]. *)
Definition categorizeService (domain : string) (subjects : list string) : string :=
  let d := toLowerCase domain in
  let s := toLowerCase (join " " subjects) in
  if test_any ["facebook"; "instagram"; "twitter"; "tiktok"; "snapchat"; "linkedin"; "reddit"; "pinterest"] d
  then "Social Media"
  else if test_any ["netflix"; "spotify"; "hulu"; "disney"; "hbo"; "youtube"; "twitch"; "pandora"; "music"] d
  then "Streaming & Entertainment"
  else if test_any ["amazon"; "ebay"; "etsy"; "shopify"; "walmart"; "target"; "shop"; "store"] d
       || test_any ["order"; "purchase"; "shipped"; "delivered"] s
  then "Shopping & E-commerce"
  else if test_any ["paypal"; "venmo"; "stripe"; "bank"; "cash"; "robinhood"; "coinbase"; "payment"] d
  then "Financial & Payments"
  else if test_any ["slack"; "notion"; "dropbox"; "github"; "zoom"; "asana"; "trello"; "figma"; "docs"] d
  then "Productivity & Work"
  else if test_any ["airbnb"; "booking"; "expedia"; "uber"; "lyft"; "hotel"; "flight"; "travel"] d
  then "Travel & Transportation"
  else if test_any ["doordash"; "ubereats"; "grubhub"; "postmates"; "food"; "delivery"; "restaurant"] d
  then "Food & Delivery"
  else if test_any ["steam"; "epic"; "playstation"; "xbox"; "nintendo"; "gaming"; "game"] d
  then "Gaming"
  else if test_any ["fitness"; "health"; "gym"; "peloton"; "strava"; "workout"] d
  then "Health & Fitness"
  else if test_any ["news"; "medium"; "substack"; "times"; "post"; "journalism"] d
  then "News & Media"
  else if test_any ["gmail"; "outlook"; "yahoo"; "mail"; "email"] d
  then "Email & Communication"
  else "Other".

(** [s.replace(/^(p1|p2|...)\./, "")]: the first listed prefix that is
    followed by a dot is removed together with the dot. *)
Definition stripPrefixDot (prefixes : list string) (s : string) : string :=
  match find (fun p => startsWith s (p ++ ".")) prefixes with
  | Some p => substring (S (String.length p)) (String.length s - S (String.length p)) s
  | None => s
  end.

(** [getServiceLogoUrl]; the publishable key is the module constant read
    from the process environment. *)
Definition getServiceLogoUrl (LOGO_DEV_PUBLISHABLE_KEY : string) (domain : string) : string :=
  let cleanDomain :=
    toLowerCase
      (stripPrefixDot ["www"; "noreply"; "no-reply"; "info"; "support"; "notifications"] domain) in
  "https://img.logo.dev/" ++ cleanDomain ++ "?token=" ++ LOGO_DEV_PUBLISHABLE_KEY.

(** The subject-line phrases on which the score depends. *)
Definition signalPhrases : list string :=
  re_created ++ re_verify ++ re_security ++ re_transactional ++ re_billing ++ re_management.

(** The same aggregate with another subjects list. *)
Definition withSubjects (summary : Summary) (l : list string) : Summary :=
  {| domain := domain summary; subject := subject summary; subjects := Some l;
     from := from summary; emailCount := emailCount summary |}.

(** No signal phrase is matched across the blank that [join] puts between
    two subjects: a phrase found in the joined text is found in one of the
    subjects. *)
Definition straddleFree (l : list string) : bool :=
  forallb
    (fun p => implb (includes (toLowerCase (join " " (filter truthy l))) p)
                    (existsb (fun s => includes (toLowerCase s) p) l))
    signalPhrases.

(** *** Order of the subjects *)

Lemma includes_join_member (l : list string) (s p : string) :
  In s l -> includes s p = true -> includes (join " " l) p = true.
Proof.
  induction l as [|x l IH]; intros Hin Hp; [contradiction|].
  destruct Hin as [->|Hin].
  - destruct l as [|y l]; simpl; auto. apply includes_app_l; exact Hp.
  - destruct l as [|y l]; [contradiction|].
    change (join " " (x :: y :: l)) with (x ++ " " ++ join " " (y :: l)).
    apply includes_app_r. apply includes_app_r. auto.
Qed.

Lemma toLowerCase_join (sep : string) (l : list string) :
  toLowerCase (join sep l) = join (toLowerCase sep) (map toLowerCase l).
Proof.
  induction l as [|x l IH]; [reflexivity|].
  destruct l as [|y l]; [reflexivity|].
  change (join sep (x :: y :: l)) with (x ++ sep ++ join sep (y :: l)).
  rewrite !toLowerCase_app, IH. reflexivity.
Qed.

Lemma member_in_all (l : list string) (s p : string) :
  p <> "" -> In s l -> includes (toLowerCase s) p = true ->
  includes (toLowerCase (join " " (filter truthy l))) p = true.
Proof.
  intros Hp Hin Hinc.
  rewrite toLowerCase_join.
  apply includes_join_member with (s := toLowerCase s); [|exact Hinc].
  apply in_map. apply filter_In. split; [exact Hin|].
  destruct s; [|reflexivity].
  apply includes_empty_false in Hinc. contradiction.
Qed.

Lemma signalPhrases_nonempty (p : string) : In p signalPhrases -> p <> "".
Proof.
  unfold signalPhrases, re_created, re_verify, re_security, re_transactional,
    re_billing, re_management. simpl.
  intros H. repeat (destruct H as [<-|H]; [discriminate|]). contradiction.
Qed.

Lemma phrase_same (l l' : list string) (p : string) :
  Permutation l l' -> straddleFree l = true -> straddleFree l' = true ->
  In p signalPhrases ->
  includes (toLowerCase (join " " (filter truthy l))) p
  = includes (toLowerCase (join " " (filter truthy l'))) p.
Proof.
  intros HP Hl Hl' Hin.
  assert (Hdir : forall a b, Permutation a b -> straddleFree a = true ->
     includes (toLowerCase (join " " (filter truthy a))) p = true ->
     includes (toLowerCase (join " " (filter truthy b))) p = true).
  { intros a b Hab Ha Hinc.
    unfold straddleFree in Ha. rewrite forallb_forall in Ha.
    specialize (Ha p Hin). rewrite Hinc in Ha. simpl in Ha.
    apply existsb_exists in Ha as [s [Hs Hsp]].
    apply member_in_all with (s := s); auto using signalPhrases_nonempty.
    eapply Permutation_in; eauto. }
  destruct (includes (toLowerCase (join " " (filter truthy l))) p) eqn:E.
  - symmetry. eapply Hdir; eauto.
  - destruct (includes (toLowerCase (join " " (filter truthy l'))) p) eqn:E'; auto.
    rewrite (Hdir l' l (Permutation_sym HP) Hl' E') in E. discriminate.
Qed.

Lemma test_any_same (alts : list string) (l l' : list string) :
  Permutation l l' -> straddleFree l = true -> straddleFree l' = true ->
  incl alts signalPhrases ->
  test_any alts (toLowerCase (join " " (filter truthy l)))
  = test_any alts (toLowerCase (join " " (filter truthy l'))).
Proof.
  intros HP Hl Hl' Hincl. unfold test_any.
  induction alts as [|a alts IH]; [reflexivity|]. simpl.
  rewrite (phrase_same l l' a HP Hl Hl') by (apply Hincl; left; reflexivity).
  rewrite IH; [reflexivity|]. intros x Hx. apply Hincl. right. exact Hx.
Qed.

(** C6 (as stated, refuted).  The subjects are joined with a blank before
    the patterns are tested, so a phrase can be matched across two
    neighbouring subjects: "... your account" followed by "Created for
    you ..." matches [account created], the reverse order does not, and the
    two permuted aggregates score 14 and 4. *)
Lemma score_depends_on_subject_order :
  let a := {| domain := Some "example.com"; subject := Some "Action needed on your account";
              subjects := Some ["Action needed on your account"; "Created for you: weekly mix"];
              from := None; emailCount := Some 2 |} in
  let l' := ["Created for you: weekly mix"; "Action needed on your account"] in
  Permutation ["Action needed on your account"; "Created for you: weekly mix"] l' /\
  calculateConfidenceScore a = 14 /\
  calculateConfidenceScore (withSubjects a l') = 4 /\
  calculateConfidenceScore (withSubjects a l') <> calculateConfidenceScore a.
Proof.
  cbv zeta. split; [apply perm_swap|].
  split; [vm_compute; reflexivity|].
  split; [vm_compute; reflexivity|].
  vm_compute. discriminate.
Qed.

(** C6 (amended).  For every aggregate and every permutation of its
    collected subjects, the confidence score is unchanged provided that, in
    both orders, no signal phrase is matched across the boundary between two
    subjects (every phrase found in the joined text is found inside one
    subject). *)
Theorem score_permutation_invariant (summary : Summary) (l l' : list string) :
  Permutation l l' ->
  straddleFree l = true ->
  straddleFree l' = true ->
  calculateConfidenceScore (withSubjects summary l')
  = calculateConfidenceScore (withSubjects summary l).
Proof.
  intros HP Hl Hl'.
  assert (T : forall alts, incl alts signalPhrases ->
    test_any alts (allSubjectsOf (withSubjects summary l'))
    = test_any alts (allSubjectsOf (withSubjects summary l))).
  { intros alts Hi. unfold allSubjectsOf, withSubjects; cbn [subjects].
    symmetry. apply test_any_same; assumption. }
  unfold calculateConfidenceScore.
  rewrite (T re_created), (T re_verify), (T re_security), (T re_transactional),
    (T re_billing), (T re_management); [reflexivity|..];
    unfold signalPhrases; intros x Hx; repeat rewrite in_app_iff; tauto.
Qed.

Lemma score_permutation_invariant_witness :
  let a := {| domain := Some "spotify.com"; subject := Some "Welcome to Spotify! Account created";
              subjects := None; from := None; emailCount := Some 3 |} in
  let l := ["Welcome to Spotify! Account created"; "Your receipt from Spotify";
            "Password reset for your Spotify account"] in
  let l' := ["Password reset for your Spotify account"; "Welcome to Spotify! Account created";
             "Your receipt from Spotify"] in
  calculateConfidenceScore (withSubjects a l') = calculateConfidenceScore (withSubjects a l)
  /\ calculateConfidenceScore (withSubjects a l) = 29.
Proof.
  cbv zeta. split.
  - apply score_permutation_invariant.
    + apply Permutation_sym. apply Permutation_cons_append with (l := [_; _]).
    + vm_compute; reflexivity.
    + vm_compute; reflexivity.
  - vm_compute; reflexivity.
Defined.

(** *** The range of the score and the reach of the subjects *)

Lemma bump_bounds (b : bool) (y k lo hi : Z) :
  lo <= y <= hi - k -> 0 <= k -> lo <= (if b then y + k else y) <= hi.
Proof. destruct b; lia. Qed.

(** The points for the number of messages, on top of [x]. *)
Lemma volume_bounds (x k : Z) :
  x <= (if k >=? 20 then x + 6
        else if k >=? 10 then x + 4
        else if k >=? 5 then x + 2
        else if k >=? 2 then x + 1
        else x) <= x + 6.
Proof. destruct (k >=? 20), (k >=? 10), (k >=? 5), (k >=? 2); lia. Qed.

Lemma volume_monotone (x n m : Z) :
  n <= m ->
  (if n >=? 20 then x + 6
   else if n >=? 10 then x + 4
   else if n >=? 5 then x + 2
   else if n >=? 2 then x + 1
   else x)
  <= (if m >=? 20 then x + 6
      else if m >=? 10 then x + 4
      else if m >=? 5 then x + 2
      else if m >=? 2 then x + 1
      else x).
Proof.
  intros H.
  destruct (Z.geb_spec n 20), (Z.geb_spec n 10), (Z.geb_spec n 5), (Z.geb_spec n 2),
    (Z.geb_spec m 20), (Z.geb_spec m 10), (Z.geb_spec m 5), (Z.geb_spec m 2); lia.
Qed.

(** X15. The confidence score lies between 0 and 58, and it does not
    decrease when the number of messages of the aggregate grows and
    nothing else changes. *)
Theorem score_bounded_and_monotone (summary : Summary) (n m : Z) :
  let counting k := {| domain := domain summary; subject := subject summary;
                       subjects := subjects summary; from := from summary;
                       emailCount := Some k |} in
  0 <= calculateConfidenceScore summary <= 58
  /\ (n <= m -> calculateConfidenceScore (counting n) <= calculateConfidenceScore (counting m)).
Proof.
  cbv zeta. unfold calculateConfidenceScore.
  cbn [domain subject subjects from emailCount]. cbv zeta. split.
  - match goal with
    | |- _ <= (if _ then ?x + 6 else _) <= _ =>
        assert (Hx : 0 <= x <= 52)
          by (repeat (apply bump_bounds; [|lia]); lia);
        generalize dependent x
    end.
    intros x Hx.
    pose proof (volume_bounds x match emailCount summary with Some k => k | None => 0 end).
    lia.
  - intros Hnm. apply volume_monotone. exact Hnm.
Qed.

Lemma score_bounded_and_monotone_witness :
  let a := {| domain := Some "spotify.com"; subject := Some "Welcome to Spotify! Account created";
              subjects := None; from := None; emailCount := Some 3 |} in
  0 <= calculateConfidenceScore a <= 58
  /\ calculateConfidenceScore (withSubjects a ["Your receipt"])
     <= calculateConfidenceScore
          {| domain := Some "spotify.com"; subject := Some "Welcome to Spotify! Account created";
             subjects := Some ["Your receipt"]; from := None; emailCount := Some 12 |}.
Proof.
  cbv zeta. split.
  - exact (proj1 (score_bounded_and_monotone
                    {| domain := Some "spotify.com";
                       subject := Some "Welcome to Spotify! Account created";
                       subjects := None; from := None; emailCount := Some 3 |} 3 12)).
  - exact (proj2 (score_bounded_and_monotone
                    {| domain := Some "spotify.com";
                       subject := Some "Welcome to Spotify! Account created";
                       subjects := Some ["Your receipt"]; from := None;
                       emailCount := Some 3 |} 3 12) ltac:(lia)).
Defined.

(** X16. The subject lines can only move a service into the category
    [Shopping & E-commerce]: whatever the subjects, the category is that
    of the domain alone or it is this one; and a domain of social media or
    of streaming keeps its category whatever the subjects. *)
Theorem subjects_only_add_shopping (domain : string) (subjects : list string) :
  (categorizeService domain subjects = categorizeService domain []
   \/ categorizeService domain subjects = "Shopping & E-commerce")
  /\ (categorizeService domain [] = "Social Media"
      \/ categorizeService domain [] = "Streaming & Entertainment" ->
      categorizeService domain subjects = categorizeService domain []).
Proof.
  unfold categorizeService. cbv zeta.
  change (test_any ["order"; "purchase"; "shipped"; "delivered"] (toLowerCase (join " " [])))
    with false.
  generalize (toLowerCase domain) (toLowerCase (join " " subjects)). intros d s.
  destruct (test_any ["facebook"; "instagram"; "twitter"; "tiktok"; "snapchat"; "linkedin";
                      "reddit"; "pinterest"] d); [split; auto|].
  destruct (test_any ["netflix"; "spotify"; "hulu"; "disney"; "hbo"; "youtube"; "twitch";
                      "pandora"; "music"] d); [split; auto|].
  destruct (test_any ["amazon"; "ebay"; "etsy"; "shopify"; "walmart"; "target"; "shop";
                      "store"] d); cbn [orb].
  - split; [auto|]. intros [H|H]; discriminate.
  - destruct (test_any ["order"; "purchase"; "shipped"; "delivered"] s).
    + split; [auto|].
      repeat match goal with
             | |- context [if ?b then _ else _] => destruct b
             end; intros [H|H]; discriminate.
    + split; [auto|]. intros _. reflexivity.
Qed.

End Helpers.

(* ===================================================================== *)
(** ** The sweep's extraction helpers (extractEmailAddress, toBaseDomain,
       extractDomain, extractName) *)
(* ===================================================================== *)

Module Extraction.
Import Str.

(** The text before the first [>] of [s], if [s] has one. *)
Fixpoint beforeGt (s : string) : option string :=
  match s with
  | EmptyString => None
  | String c s' =>
      if Ascii.eqb c ">" then Some EmptyString
      else option_map (String c) (beforeGt s')
  end.

(** Group 1 of [from.match(/<([^>]+)>/)]: the leftmost [<] that is followed
    by at least one character other than [>] and then by [>]. *)
Fixpoint matchAngle (s : string) : option string :=
  match s with
  | EmptyString => None
  | String c s' =>
      if Ascii.eqb c "<" then
        match beforeGt s' with
        | Some (String a inner) => Some (String a inner)
        | _ => matchAngle s'
        end
      else matchAngle s'
  end.

Definition isLetter (c : ascii) : bool :=
  let n := N_of_ascii c in (((65 <=? n) && (n <=? 90)) || ((97 <=? n) && (n <=? 122)))%N.
Definition isDigit (c : ascii) : bool :=
  let n := N_of_ascii c in ((48 <=? n) && (n <=? 57))%N.
(** [[a-zA-Z0-9._%+-]] *)
Definition isLocalChar (c : ascii) : bool :=
  isLetter c || isDigit c || existsb (Ascii.eqb c) ["."; "_"; "%"; "+"; "-"]%char.
(** [[a-zA-Z0-9.-]] *)
Definition isHostChar (c : ascii) : bool :=
  isLetter c || isDigit c || existsb (Ascii.eqb c) ["."; "-"]%char.

(** The longest prefix of [s] whose characters satisfy [f], and the rest. *)
Fixpoint span (f : ascii -> bool) (s : string) : string * string :=
  match s with
  | EmptyString => (EmptyString, EmptyString)
  | String c s' =>
      if f c then let (a, b) := span f s' in (String c a, b)
      else (EmptyString, s)
  end.

(** [\.[a-zA-Z]{2,}] anchored at the start of [s]: the matched text. *)
Definition matchTld (s : string) : option string :=
  match s with
  | String "."%char rest =>
      let (letters, _) := span isLetter rest in
      if (2 <=? String.length letters)%nat then Some (String "."%char letters) else None
  | _ => None
  end.

(** [[a-zA-Z0-9.-]+\.[a-zA-Z]{2,}] anchored at the start of a run [d] of
    host characters: the greedy first part is as long as backtracking
    allows, so the last position (after at least one character) where the
    top-level-domain part matches wins.  [pre] is the text already passed,
    in reverse. *)
Fixpoint matchHostIn (pre : string) (d : string) (best : option string) : option string :=
  match d with
  | EmptyString => best
  | String c d' =>
      let best' :=
        match pre, matchTld d with
        | String _ _, Some tld => Some (string_of_list_ascii (rev (list_ascii_of_string pre)) ++ tld)
        | _, _ => best
        end in
      matchHostIn (String c pre) d' best'
  end.

(** [[a-zA-Z0-9._%+-]+@[a-zA-Z0-9.-]+\.[a-zA-Z]{2,}] anchored at the
    start of [s]. *)
Definition matchSimpleAt (s : string) : option string :=
  match span isLocalChar s with
  | (String a loc, String "@"%char rest) =>
      let (run, _) := span isHostChar rest in
      match matchHostIn EmptyString run None with
      | Some host => Some (String a loc ++ "@" ++ host)
      | None => None
      end
  | _ => None
  end.

(** The leftmost match of the simple address pattern in [s]. *)
Fixpoint matchSimple (s : string) : option string :=
  match matchSimpleAt s with
  | Some m => Some m
  | None => match s with
            | EmptyString => None
            | String _ s' => matchSimple s'
            end
  end.

(** [extractEmailAddress]. *)
Definition extractEmailAddress (from : string) : option string :=
  if negb (truthy from) then None else
  match matchAngle from with
  | Some g => Some (trim g)
  | None => option_map trim (matchSimple from)
  end.

(** [IGNORED_PREFIXES], [MULTIPART_SUFFIXES], [ALIAS_EXACT], [ALIAS_SUFFIX].
    The two records are looked up by their own keys. *)
Definition IGNORED_PREFIXES : list string :=
  ["www"; "noreply"; "no-reply"; "info"; "support"; "notifications"; "accounts";
   "team"; "hello"; "mail"; "updates"; "announce"; "auth"; "auths"; "app"].

Definition MULTIPART_SUFFIXES : list string :=
  ["co.uk"; "com.au"; "co.jp"; "com.br"; "com.gh"; "com.ng"; "co.za"].

Definition ALIAS_EXACT : list (string * string) :=
  [("facebookmail.com", "facebook.com");
   ("amazonses.com", "amazon.com");
   ("reply.github.com", "github.com");
   ("githubmail.com", "github.com");
   ("mail.twitter.com", "twitter.com");
   ("e.uber.com", "uber.com");
   ("mail.netflix.com", "netflix.com")].

Definition ALIAS_SUFFIX : list (string * string) :=
  [("github.com", "github.com");
   ("twitter.com", "twitter.com");
   ("uber.com", "uber.com");
   ("netflix.com", "netflix.com")].

Definition dot : ascii := "."%char.

(** [while (parts.length > 2 && IGNORED_PREFIXES.includes(parts[0]))
      parts = parts.slice(1)]. *)
Fixpoint dropIgnored (parts : list string) : list string :=
  match parts with
  | [] => []
  | p :: rest =>
      if (2 <? List.length parts)%nat && mem p IGNORED_PREFIXES
      then dropIgnored rest else parts
  end.

(** [toBaseDomain]. *)
Definition toBaseDomain (host : string) : string :=
  let parts := filter truthy (split dot (trim (toLowerCase host))) in
  if (List.length parts <=? 1)%nat then host else
  let parts := dropIgnored parts in
  if (List.length parts <=? 2)%nat then join "." parts else
  let lastTwo := join "." (lastn 2 parts) in
  let lastThree := join "." (lastn 3 parts) in
  if mem lastTwo MULTIPART_SUFFIXES && (3 <=? List.length parts)%nat
  then lastThree else lastTwo.

(** The text after the first character of a [(.+?)>] group: everything
    before the first [>], provided no line terminator comes first. *)
Fixpoint lazyBeforeGt (s : string) : option string :=
  match s with
  | EmptyString => None
  | String c s' =>
      if Ascii.eqb c ">" then Some EmptyString
      else if isLineTerminator c then None
      else option_map (String c) (lazyBeforeGt s')
  end.

(** Group 1 of [email.match(/<(.+?)>/)]. *)
Fixpoint matchAngleLazy (s : string) : option string :=
  match s with
  | EmptyString => None
  | String c s' =>
      if Ascii.eqb c "<" then
        match s' with
        | String a rest =>
            if isLineTerminator a then matchAngleLazy s'
            else match lazyBeforeGt rest with
                 | Some inner => Some (String a inner)
                 | None => matchAngleLazy s'
                 end
        | EmptyString => None
        end
      else matchAngleLazy s'
  end.

(** The part of [extractDomain] that canonicalises the host: from
    [let host = parts[1].toLowerCase().trim()] to the end.
    [ALIAS_EXACT[host]] is looked up among the keys of the table itself:
    the two hosts that name a property which the table inherits (see
    [inheritedKeys] below) are not modelled; there the source returns the
    inherited value, which is not a domain. *)
Definition canonicalHost (h : string) : option string :=
  let host := trim (toLowerCase h) in
  (* host.replace(/\.+$/, "") *)
  let host := dropEndWhile (Ascii.eqb dot) host in
  if negb (truthy host) then None else
  match lookup host ALIAS_EXACT with
  | Some v => Some v
  | None =>
      let base := toBaseDomain host in
      match find (fun sc => String.eqb base (fst sc) || endsWith base ("." ++ fst sc)) ALIAS_SUFFIX with
      | Some sc => Some (snd sc)
      | None => Some base
      end
  end.

(** [extractDomain]. *)
Definition extractDomain (email : option string) : option string :=
  match email with
  | None => None
  | Some email =>
      if negb (truthy email) then None else
      let raw := match matchAngleLazy email with Some g => g | None => email end in
      match split "@" raw with
      | [_; h] => canonicalHost h
      | _ => None
      end
  end.

Example extractDomain_facebookmail :
  extractDomain (Some "alerts@facebookmail.com") = Some "facebook.com".
Proof. reflexivity. Qed.

Example extractDomain_airtimetools :
  extractDomain (Some "no-reply@announce.airtimetools.com") = Some "airtimetools.com".
Proof. reflexivity. Qed.

Example extractDomain_netflix :
  extractDomain (Some "notifications@mail.netflix.com") = Some "netflix.com".
Proof. reflexivity. Qed.

Example extractEmailAddress_bracketed :
  extractEmailAddress "Spotify <no-reply@spotify.com>" = Some "no-reply@spotify.com".
Proof. reflexivity. Qed.

Example extractEmailAddress_bare :
  extractEmailAddress "mail from billing@shop.example.co.uk, thanks" = Some "billing@shop.example.co.uk".
Proof. reflexivity. Qed.

(** [[^>]+>$] anchored at the start of [r]; [seen] tells whether a
    character of the group has been read. *)
Fixpoint bodyThenEnd (r : string) (seen : bool) : bool :=
  match r with
  | EmptyString => false
  | String c r' =>
      if Ascii.eqb c ">" then seen && negb (truthy r') else bodyThenEnd r' true
  end.

(** [\s*<[^>]+>$] anchored at the start of [s]. *)
Definition bracketTail (s : string) : bool :=
  match dropWhile isSpace s with
  | String c r => Ascii.eqb c "<" && bodyThenEnd r false
  | EmptyString => false
  end.

(** Group 1 of [from.match(/^(.*?)\s*<[^>]+>$/)]: the shortest prefix
    without line terminators after which the rest matches. *)
Fixpoint matchNamePart (s : string) : option string :=
  if bracketTail s then Some EmptyString else
  match s with
  | EmptyString => None
  | String c s' =>
      if isLineTerminator c then None else option_map (String c) (matchNamePart s')
  end.

(** The double quote character. *)
Definition dquote : ascii := ascii_of_N 34.

Fixpoint dropLastQuote (t : string) : string :=
  match t with
  | EmptyString => EmptyString
  | String c r =>
      match r with
      | EmptyString => if Ascii.eqb c dquote then EmptyString else t
      | _ => String c (dropLastQuote r)
      end
  end.

(** [s.replace(/(^Q|Q$)/g, empty)] where [Q] is the double quote: a
    leading quote is removed, then a trailing one of what is left. *)
Definition stripQuotes (s : string) : string :=
  dropLastQuote
    match s with
    | String c r => if Ascii.eqb c dquote then r else s
    | EmptyString => s
    end.

(** [x || null] for a string. *)
Definition orNull (s : string) : option string := if truthy s then Some s else None.

(** [s.charAt(0).toUpperCase() + s.slice(1)] *)
Definition capitalize (s : string) : string :=
  match s with
  | EmptyString => EmptyString
  | String c r => String (upper_ascii c) r
  end.

(** [extractName]. *)
Definition extractName (from : string) : option string :=
  if negb (truthy from) then None else
  match matchNamePart from with
  | Some g => orNull (trim (stripQuotes g))
  | None =>
      if negb (includes from "@") then orNull (trim (stripQuotes from))
      else
        match extractEmailAddress from with
        | Some email =>
            match extractDomain (Some email) with
            | Some domain =>
                if truthy domain
                then match split dot domain with
                     | brandName :: _ => Some (capitalize brandName)
                     | [] => None
                     end
                else None
            | None => None
            end
        | None => None
        end
  end.

Example extractName_quoted :
  extractName (String dquote ("Spotify" ++ String dquote " <no-reply@spotify.com>")) = Some "Spotify".
Proof. reflexivity. Qed.

Example extractName_bare_address :
  extractName "billing@shop.example.co.uk" = Some "Example".
Proof. reflexivity. Qed.

(** [d] is an ignored prefix followed by a multi-part public suffix, such
    as [mail.co.uk]. *)
Definition noisySuffixForm (d : string) : bool :=
  match split dot d with
  | [x; s1; s2] => mem x IGNORED_PREFIXES && mem (join "." [s1; s2]) MULTIPART_SUFFIXES
  | _ => false
  end.

(** A label of a canonical domain: not empty, without dots, lower-cased. *)
Definition isLabel (x : string) : Prop :=
  truthy x = true /\ allb (notChar dot) x = true /\ allb isLowered x = true.

Lemma host_parts_labels (host : string) :
  Forall isLabel (filter truthy (split dot (trim (toLowerCase host)))).
Proof.
  apply Forall_forall. intros x Hx. apply filter_In in Hx as [Hin Ht].
  pose proof (split_parts dot isLowered (trim (toLowerCase host))
                (allb_trim _ _ (toLowerCase_allb host))) as HF.
  rewrite Forall_forall in HF. destruct (HF x Hin) as [H1 H2].
  repeat split; assumption.
Qed.

Lemma dropIgnored_incl (l : list string) (x : string) :
  In x (dropIgnored l) -> In x l.
Proof.
  induction l as [|p l IH]; [auto|].
  cbn [dropIgnored]. destruct ((2 <? List.length (p :: l))%nat && mem p IGNORED_PREFIXES).
  - intros H. right. auto.
  - auto.
Qed.

Lemma dropIgnored_length (l : list string) :
  (2 <= List.length l)%nat -> (2 <= List.length (dropIgnored l))%nat.
Proof.
  induction l as [|p l IH]; [simpl; lia|]. intros H.
  cbn [dropIgnored].
  destruct (2 <? List.length (p :: l))%nat eqn:E; [|rewrite andb_false_l; exact H].
  rewrite andb_true_l.
  destruct (mem p IGNORED_PREFIXES); [|exact H].
  apply Nat.ltb_lt in E. simpl in E. apply IH. lia.
Qed.

Lemma dropIgnored_head (l : list string) :
  (2 < List.length (dropIgnored l))%nat ->
  exists p rest, dropIgnored l = p :: rest /\ mem p IGNORED_PREFIXES = false.
Proof.
  induction l as [|p l IH]; [simpl; lia|].
  cbn [dropIgnored].
  destruct (2 <? List.length (p :: l))%nat eqn:E.
  - rewrite andb_true_l. destruct (mem p IGNORED_PREFIXES) eqn:M; [exact IH|].
    intros _. exists p, l. auto.
  - rewrite andb_false_l. intros H. apply Nat.ltb_ge in E. lia.
Qed.

Lemma dropIgnored_fixed (p : string) (rest : list string) :
  mem p IGNORED_PREFIXES = false -> dropIgnored (p :: rest) = p :: rest.
Proof. intros M. cbn [dropIgnored]. rewrite M, andb_false_r. reflexivity. Qed.

Lemma labels_filter (q : list string) : Forall isLabel q -> filter truthy q = q.
Proof.
  induction 1 as [|x q [Hx _] _ IH]; [reflexivity|].
  simpl. rewrite Hx, IH. reflexivity.
Qed.

Lemma labels_join (q : list string) :
  q <> [] -> Forall isLabel q ->
  split dot (join "." q) = q
  /\ toLowerCase (join "." q) = join "." q
  /\ dropEndWhile (Ascii.eqb dot) (join "." q) = join "." q
  /\ truthy (join "." q) = true.
Proof.
  intros Hne HF. split; [|split].
  - apply (split_join dot); [exact Hne|].
    eapply Forall_impl; [|exact HF]. intros x [_ [H _]]. exact H.
  - apply toLowerCase_fixed. apply allb_join; [reflexivity|].
    eapply Forall_impl; [|exact HF]. intros x [_ [_ H]]. exact H.
  - induction HF as [|x q [Hx1 [Hx2 Hx3]] HF IH]; [contradiction|].
    assert (Hx : dropEndWhile (Ascii.eqb dot) x = x).
    { apply dropEndWhile_none. etransitivity; [|exact Hx2].
      clear. induction x as [|a x IH]; cbn [allb]; [reflexivity|].
      rewrite IH. unfold notChar. rewrite (Ascii.eqb_sym dot a). reflexivity. }
    destruct q as [|y q].
    + simpl. split; [exact Hx|exact Hx1].
    + destruct IH as [IH1 IH2]; [discriminate|].
      change (join "." (x :: y :: q)) with (x ++ "." ++ join "." (y :: q)).
      split.
      * rewrite dropEndWhile_app.
        -- f_equal. change ("." ++ join "." (y :: q)) with (String dot (join "." (y :: q))).
           change (String dot (join "." (y :: q))) with (String dot EmptyString ++ join "." (y :: q)).
           rewrite dropEndWhile_app; rewrite IH1; [reflexivity|].
           intros E. rewrite E in IH2. discriminate.
        -- change ("." ++ join "." (y :: q)) with (String dot EmptyString ++ join "." (y :: q)).
           rewrite dropEndWhile_app; rewrite IH1.
           ++ discriminate.
           ++ intros E. rewrite E in IH2. discriminate.
      * destruct x; [discriminate|reflexivity].
Qed.

(** A two-label domain is a fixed point of [toBaseDomain]. *)
Lemma toBaseDomain_two (a b : string) :
  isLabel a -> isLabel b -> trim (join "." [a; b]) = join "." [a; b] ->
  toBaseDomain (join "." [a; b]) = join "." [a; b].
Proof.
  intros Ha Hb Ht.
  assert (HF : Forall isLabel [a; b]) by auto using Forall_cons, Forall_nil.
  destruct (labels_join [a; b] ltac:(discriminate) HF) as [Hs [Hl _]].
  unfold toBaseDomain. rewrite Hl, Ht, Hs, (labels_filter _ HF).
  reflexivity.
Qed.

(** So is a three-label domain over a multi-part suffix whose first label
    is not an ignored prefix. *)
Lemma toBaseDomain_three (x a b : string) :
  isLabel x -> isLabel a -> isLabel b ->
  trim (join "." [x; a; b]) = join "." [x; a; b] ->
  mem x IGNORED_PREFIXES = false ->
  mem (join "." [a; b]) MULTIPART_SUFFIXES = true ->
  toBaseDomain (join "." [x; a; b]) = join "." [x; a; b].
Proof.
  intros Hx Ha Hb Ht Hm Hs.
  assert (HF : Forall isLabel [x; a; b]) by auto using Forall_cons, Forall_nil.
  destruct (labels_join [x; a; b] ltac:(discriminate) HF) as [Hsp [Hl _]].
  unfold toBaseDomain. rewrite Hl, Ht, Hsp, (labels_filter _ HF).
  cbn [List.length Nat.leb]. rewrite (dropIgnored_fixed _ _ Hm).
  cbn [List.length Nat.leb]. unfold lastn. cbn [List.length Nat.sub skipn].
  rewrite Hs. reflexivity.
Qed.

Lemma three_elements {A} (l : list A) :
  List.length l = 3%nat -> exists x a b, l = [x; a; b].
Proof.
  destruct l as [|x [|a [|b [|? ?]]]]; simpl; try discriminate. eauto.
Qed.

Lemma two_elements {A} (l : list A) :
  List.length l = 2%nat -> exists a b, l = [a; b].
Proof.
  destruct l as [|a [|b [|? ?]]]; simpl; try discriminate. eauto.
Qed.

Lemma Forall_lastn {A} (P : A -> Prop) (n : nat) (l : list A) :
  Forall P l -> Forall P (lastn n l).
Proof.
  intros H. apply Forall_forall. intros x Hx. rewrite Forall_forall in H.
  apply H. eapply lastn_incl; eauto.
Qed.

(** The base domain of a host with at least two labels is made of the
    last two labels, or of the last three over a multi-part suffix. *)
Lemma toBaseDomain_shape (host : string) :
  (2 <= List.length (filter truthy (split dot (trim (toLowerCase host)))))%nat ->
  (exists a b, isLabel a /\ isLabel b /\ toBaseDomain host = join "." [a; b])
  \/ (exists x a b, isLabel x /\ isLabel a /\ isLabel b
        /\ mem (join "." [a; b]) MULTIPART_SUFFIXES = true
        /\ toBaseDomain host = join "." [x; a; b]).
Proof.
  intros Hlen.
  pose proof (host_parts_labels host) as HF0.
  unfold toBaseDomain.
  set (parts0 := filter truthy (split dot (trim (toLowerCase host)))) in *.
  destruct (List.length parts0 <=? 1)%nat eqn:E1; [apply Nat.leb_le in E1; lia|].
  assert (HF : Forall isLabel (dropIgnored parts0)).
  { apply Forall_forall. intros x Hx. rewrite Forall_forall in HF0.
    apply HF0. apply dropIgnored_incl. exact Hx. }
  pose proof (dropIgnored_length parts0 Hlen) as Hlen1.
  set (parts := dropIgnored parts0) in *.
  destruct (List.length parts <=? 2)%nat eqn:E2.
  - apply Nat.leb_le in E2.
    destruct (two_elements parts ltac:(lia)) as [a [b Hab]]. rewrite Hab in *.
    inversion HF as [|? ? Ha HF']; subst. inversion HF' as [|? ? Hb _]; subst.
    left. exists a, b. auto.
  - apply Nat.leb_gt in E2.
    assert (H3 : (3 <=? List.length parts)%nat = true) by (apply Nat.leb_le; lia).
    rewrite H3, andb_true_r.
    destruct (mem (join "." (lastn 2 parts)) MULTIPART_SUFFIXES) eqn:EM.
    + pose proof (Forall_lastn _ 3 _ HF) as HF3.
      destruct (three_elements (lastn 3 parts) (lastn_length 3 parts ltac:(lia)))
        as [x [a [b Hxab]]].
      assert (H2 : lastn 2 parts = [a; b]).
      { rewrite <- (lastn_lastn 2 3 parts) by lia. rewrite Hxab. reflexivity. }
      rewrite Hxab in *. rewrite H2 in EM.
      inversion HF3 as [|? ? Hx HF3']; subst. inversion HF3' as [|? ? Ha HF3'']; subst.
      inversion HF3'' as [|? ? Hb _]; subst.
      right. exists x, a, b. auto.
    + pose proof (Forall_lastn _ 2 _ HF) as HF2.
      destruct (two_elements (lastn 2 parts) (lastn_length 2 parts ltac:(lia)))
        as [a [b Hab]].
      rewrite Hab in *.
      inversion HF2 as [|? ? Ha HF2']; subst. inversion HF2' as [|? ? Hb _]; subst.
      left. exists a, b. auto.
Qed.

(** Such a base domain is a fixed point of [toBaseDomain], unless it has
    leading or trailing white space or is an ignored prefix over a
    multi-part suffix. *)
Lemma toBaseDomain_idem (host : string) :
  (2 <= List.length (filter truthy (split dot (trim (toLowerCase host)))))%nat ->
  trim (toBaseDomain host) = toBaseDomain host ->
  noisySuffixForm (toBaseDomain host) = false ->
  toBaseDomain (toBaseDomain host) = toBaseDomain host
  /\ dropEndWhile (Ascii.eqb dot) (toBaseDomain host) = toBaseDomain host
  /\ toLowerCase (toBaseDomain host) = toBaseDomain host
  /\ truthy (toBaseDomain host) = true.
Proof.
  intros Hlen.
  destruct (toBaseDomain_shape host Hlen)
    as [(a & b & Ha & Hb & ->)|(x & a & b & Hx & Ha & Hb & HM & ->)]; intros Ht Hn.
  - assert (HF : Forall isLabel [a; b]) by auto using Forall_cons, Forall_nil.
    destruct (labels_join [a; b] ltac:(discriminate) HF) as [_ [Hl [Hd Htr]]].
    repeat split; auto using toBaseDomain_two.
  - assert (HF : Forall isLabel [x; a; b]) by auto using Forall_cons, Forall_nil.
    destruct (labels_join [x; a; b] ltac:(discriminate) HF) as [Hsp [Hl [Hd Htr]]].
    unfold noisySuffixForm in Hn. rewrite Hsp, HM, andb_true_r in Hn.
    repeat split; auto using toBaseDomain_three.
Qed.

Lemma alias_exact_fixed (host v : string) :
  lookup host ALIAS_EXACT = Some v -> canonicalHost v = Some v.
Proof.
  unfold ALIAS_EXACT. cbn [lookup].
  repeat (destruct (String.eqb host _); [intros [= <-]; reflexivity|]).
  discriminate.
Qed.

Lemma alias_suffix_fixed (base : string) (sc : string * string) :
  find (fun sc => String.eqb base (fst sc) || endsWith base ("." ++ fst sc)) ALIAS_SUFFIX = Some sc ->
  canonicalHost (snd sc) = Some (snd sc).
Proof.
  unfold ALIAS_SUFFIX. cbn [find fst].
  repeat (match goal with
          | |- context [if ?c then _ else _] => destruct c; [intros [= <-]; reflexivity|]
          end).
  discriminate.
Qed.

(** Every domain that [extractDomain] returns is returned by
    [canonicalHost] for the host of the address. *)
Lemma extractDomain_canonicalHost (email : option string) (d : string) :
  extractDomain email = Some d -> exists h, canonicalHost h = Some d.
Proof.
  unfold extractDomain. destruct email as [e|]; [|discriminate].
  destruct (negb (truthy e)); [discriminate|].
  destruct (split "@" _) as [|a [|h [|? ?]]]; try discriminate.
  eauto.
Qed.

Lemma canonicalHost_again (h d : string) :
  canonicalHost h = Some d ->
  trim d = d ->
  lookup d ALIAS_EXACT = None ->
  noisySuffixForm d = false ->
  canonicalHost d = Some d.
Proof.
  unfold canonicalHost at 1.
  set (host := dropEndWhile (Ascii.eqb dot) (trim (toLowerCase h))).
  assert (Hlow : allb isLowered host = true).
  { apply allb_dropEndWhile, allb_trim, toLowerCase_allb. }
  destruct (truthy host) eqn:Etr; [|discriminate]. cbn [negb].
  destruct (lookup host ALIAS_EXACT) as [v|] eqn:Elk.
  { intros [= <-] _ _ _. eapply alias_exact_fixed; eauto. }
  destruct (find _ ALIAS_SUFFIX) as [sc|] eqn:Efind.
  { intros [= <-] _ _ _. eapply alias_suffix_fixed; eauto. }
  intros [= <-] Ht Hk Hn.
  destruct (Nat.le_gt_cases (List.length (filter truthy (split dot (trim (toLowerCase host))))) 1)
    as [Hle|Hgt].
  - (* a host of at most one label is returned as it is *)
    assert (Hb : toBaseDomain host = host).
    { unfold toBaseDomain. apply Nat.leb_le in Hle. rewrite Hle. reflexivity. }
    rewrite Hb in *.
    unfold canonicalHost.
    assert (Hd : dropEndWhile (Ascii.eqb dot) host = host)
      by (unfold host; apply dropEndWhile_idem).
    rewrite (toLowerCase_fixed _ Hlow), Ht, !Hd.
    rewrite Etr, Elk. cbn [negb]. rewrite Hb, Efind. reflexivity.
  - destruct (toBaseDomain_idem host Hgt Ht Hn) as (Hb & Hd & Hl & Htr).
    unfold canonicalHost.
    rewrite Hl, Ht, Hd, Htr, Hk. cbn [negb]. rewrite Hb, Efind. reflexivity.
Qed.

(** C5 (as stated, refuted).  Three canonical domains that canonicalise to
    something else: an exact-alias key reached as a base domain, an ignored
    prefix over a multi-part suffix, and (on a malformed host) a domain
    that keeps a trailing blank. *)
Lemma canonicalization_not_idempotent :
  (extractDomain (Some "bounce@em.amazonses.com") = Some "amazonses.com"
   /\ extractDomain (Some "bounce@amazonses.com") = Some "amazon.com")
  /\ (extractDomain (Some "orders@shop.mail.co.uk") = Some "mail.co.uk"
      /\ extractDomain (Some "orders@mail.co.uk") = Some "co.uk")
  /\ (extractDomain (Some "u@x .") = Some "x "
      /\ extractDomain (Some "u@x ") = Some "x").
Proof. repeat split; vm_compute; reflexivity. Qed.

(** C5 (amended).  A canonical domain [d] (an output of [extractDomain]) is
    returned unchanged when the canonicalisation is run over it again,
    provided [d] has no leading or trailing white space, is not a key of
    the exact-alias table, and is not an ignored prefix followed by a
    multi-part public suffix. *)
Theorem canonical_domain_fixed (email : option string) (d : string) :
  extractDomain email = Some d ->
  trim d = d ->
  lookup d ALIAS_EXACT = None ->
  noisySuffixForm d = false ->
  canonicalHost d = Some d.
Proof.
  intros He Ht Hk Hn.
  destruct (extractDomain_canonicalHost email d He) as [h Hh].
  eapply canonicalHost_again; eauto.
Qed.

Lemma canonical_domain_fixed_witness :
  extractDomain (Some "Amazon UK <no-reply@mail.orders.amazon.co.uk>") = Some "amazon.co.uk"
  /\ canonicalHost "amazon.co.uk" = Some "amazon.co.uk".
Proof.
  split; [reflexivity|].
  apply (canonical_domain_fixed (Some "Amazon UK <no-reply@mail.orders.amazon.co.uk>"));
    reflexivity.
Defined.

(** *** The form of a canonical domain *)

Lemma canonicalHost_form (h d : string) :
  canonicalHost h = Some d -> truthy d = true /\ toLowerCase d = d.
Proof.
  unfold canonicalHost.
  set (host := dropEndWhile (Ascii.eqb dot) (trim (toLowerCase h))).
  assert (Hlow : allb isLowered host = true).
  { apply allb_dropEndWhile, allb_trim, toLowerCase_allb. }
  destruct (truthy host) eqn:Etr; [|discriminate]. cbn [negb].
  destruct (lookup host ALIAS_EXACT) as [v|] eqn:Elk.
  { intros [= <-]. revert Elk. unfold ALIAS_EXACT. cbn [lookup].
    repeat (destruct (String.eqb host _); [intros [= <-]; split; reflexivity|]).
    discriminate. }
  destruct (find _ ALIAS_SUFFIX) as [sc|] eqn:Efind.
  { intros [= <-]. revert Efind. unfold ALIAS_SUFFIX. cbn [find fst].
    repeat (match goal with
            | |- context [if ?c then _ else _] =>
                destruct c; [intros [= <-]; split; reflexivity|]
            end).
    discriminate. }
  intros [= <-].
  destruct (Nat.le_gt_cases (List.length (filter truthy (split dot (trim (toLowerCase host))))) 1)
    as [Hle|Hgt].
  - assert (Hb : toBaseDomain host = host).
    { unfold toBaseDomain. apply Nat.leb_le in Hle. rewrite Hle. reflexivity. }
    rewrite Hb. split; [exact Etr|apply toLowerCase_fixed, Hlow].
  - destruct (toBaseDomain_shape host Hgt)
      as [(a & b & Ha & Hb & ->)|(x & a & b & Hx & Ha & Hb & HM & ->)].
    + assert (HF : Forall isLabel [a; b]) by auto using Forall_cons, Forall_nil.
      destruct (labels_join [a; b] ltac:(discriminate) HF) as [_ [Hl [_ Htr]]]. auto.
    + assert (HF : Forall isLabel [x; a; b]) by auto using Forall_cons, Forall_nil.
      destruct (labels_join [x; a; b] ltac:(discriminate) HF) as [_ [Hl [_ Htr]]]. auto.
Qed.

(** The names that the alias table inherits from [Object.prototype] and
    that a lower-cased host can be.  For such a host [ALIAS_EXACT[host]]
    is the inherited value in the source, which [extractDomain] then
    returns in place of a domain; [canonicalHost] looks among the keys
    of the table itself, so these hosts are outside of what it models. *)
Definition inheritedKeys : list string := ["constructor"; "__proto__"].

(** X17. A domain that [extractDomain] returns is not empty and is in
    lower case, whatever the case of the address; this for the addresses
    whose host is not a name that the alias table inherits
    ([constructor], [__proto__]), for which the model returns that name. *)
Theorem canonical_domain_lowercase_nonempty (email : option string) (d : string) :
  extractDomain email = Some d ->
  mem d inheritedKeys = false ->
  truthy d = true /\ toLowerCase d = d.
Proof.
  intros He _. destruct (extractDomain_canonicalHost email d He) as [h Hh].
  exact (canonicalHost_form h d Hh).
Qed.

Lemma canonical_domain_lowercase_nonempty_witness :
  extractDomain (Some "Amazon UK <No-Reply@Mail.Orders.AMAZON.co.uk>") = Some "amazon.co.uk"
  /\ truthy "amazon.co.uk" = true /\ toLowerCase "amazon.co.uk" = "amazon.co.uk".
Proof.
  split; [reflexivity|].
  exact (canonical_domain_lowercase_nonempty
           (Some "Amazon UK <No-Reply@Mail.Orders.AMAZON.co.uk>") "amazon.co.uk"
           eq_refl eq_refl).
Defined.

(** The hosts left out above are returned as they are by the model. *)
Example inherited_hosts_in_the_model :
  extractDomain (Some "x@constructor") = Some "constructor"
  /\ extractDomain (Some "x@__proto__") = Some "__proto__".
Proof. split; vm_compute; reflexivity. Qed.

End Extraction.

(* ===================================================================== *)
(** ** JavaScript values and effectful programs *)
(* ===================================================================== *)

Module Js.
Import Str.
Set Warnings "-register-all".

(** The values that reach the code as parsed JSON or as thrown errors.
    Numbers are the integers; [JError] is an instance of [Error] with its
    message and the properties assigned to it afterwards. *)
Inductive JsVal : Type :=
| JUndefined
| JNull
| JBool (b : bool)
| JNum (n : Z)
| JStr (s : string)
| JArr (items : list JsVal)
| JObj (fields : list (string * JsVal))
| JError (name message : string) (props : list (string * JsVal)).

Fixpoint assoc (k : string) (fields : list (string * JsVal)) : JsVal :=
  match fields with
  | [] => JUndefined
  | (k', v) :: rest => if String.eqb k k' then v else assoc k rest
  end.

(** [v?.k] *)
Definition get (v : JsVal) (k : string) : JsVal :=
  match v with
  | JObj fields => assoc k fields
  | JError n m props =>
      match assoc k props with
      | JUndefined =>
          if String.eqb k "message" then JStr m
          else if String.eqb k "name" then JStr n
          else JUndefined
      | x => x
      end
  | _ => JUndefined
  end.

(** [a ?? b] *)
Definition nullish (a b : JsVal) : JsVal :=
  match a with JUndefined | JNull => b | _ => a end.

(** [v === "s"] and [v === n] *)
Definition isStr (v : JsVal) (s : string) : bool :=
  match v with JStr t => String.eqb t s | _ => false end.
Definition isNum (v : JsVal) (n : Z) : bool :=
  match v with JNum m => Z.eqb m n | _ => false end.

(** [new Error(msg)], and the errors the runtime itself throws. *)
Definition newError (msg : string) : JsVal := JError "Error" msg [].
Definition typeError (msg : string) : JsVal := JError "TypeError" msg [].
Definition rangeError (msg : string) : JsVal := JError "RangeError" msg [].
Definition syntaxError (msg : string) : JsVal := JError "SyntaxError" msg [].

(** [Boolean(v)]: objects, arrays and errors are truthy. *)
Definition truthyVal (v : JsVal) : bool :=
  match v with
  | JUndefined | JNull => false
  | JBool b => b
  | JNum n => negb (Z.eqb n 0)
  | JStr s => truthy s
  | _ => true
  end.

(** The decimal text of an integer. *)
Definition Z_to_string (n : Z) : string := NilZero.string_of_int (Z.to_int n).

(** [String(v)]. *)
Fixpoint toStr (v : JsVal) : string :=
  match v with
  | JUndefined => "undefined"
  | JNull => "null"
  | JBool true => "true"
  | JBool false => "false"
  | JNum n => Z_to_string n
  | JStr s => s
  | JArr items =>
      join "," (List.map (fun e => match e with
                                   | JUndefined | JNull => ""
                                   | _ => toStr e
                                   end) items)
  | JObj _ => "[object Object]"
  | JError n m _ => if truthy m then n ++ ": " ++ m else n
  end.

(** The result of running a piece of code: a value or a thrown exception. *)
Inductive Outcome (A : Type) : Type :=
| Returned (a : A)
| Thrown (e : JsVal).
Arguments Returned {A} a.
Arguments Thrown {A} e.

(** The [{ data, error }] pair with which a store call resolves. *)
Record DbResult (A : Type) : Type := { data : option A; error : option JsVal }.
Arguments data {A} _.
Arguments error {A} _.

(** What [fetch] resolves with: the status and the body, both as text and
    parsed as JSON when it parses; or the rejection of the call. *)
Inductive HttpResult : Type :=
| NetworkFailure (e : JsVal)
| Response (status : Z) (json : option JsVal) (text : string).

(** [res.ok] *)
Definition ok (status : Z) : bool := (200 <=? status) && (status <=? 299).

(** [isGmailAuthError], as worker.ts and the metadata fetcher both define
    it.  [payload.errors.some(e => e.reason === 'authError')] reads a
    property of each element in turn and so throws a [TypeError] on a
    [null] element that comes before a match. *)
Fixpoint someAuthReason (errors : list JsVal) : Outcome bool :=
  match errors with
  | [] => Returned false
  | e :: rest =>
      match e with
      | JNull | JUndefined =>
          Thrown (typeError "Cannot read properties of null (reading 'reason')")
      | _ => if isStr (get e "reason") "authError" then Returned true else someAuthReason rest
      end
  end.

Definition isGmailAuthError (err : JsVal) : Outcome bool :=
  if negb (truthyVal err) then Returned false else
  let code := nullish (get err "code") (get err "status") in
  if isNum code 401 then Returned true else
  let payload := nullish (get err "error") err in
  if isStr (get payload "status") "UNAUTHENTICATED" then Returned true else
  let msgCheck :=
    let msg := toStr (nullish (get err "message") (JStr "")) in
    Returned (includes msg "Invalid Credentials" || includes msg "invalid_grant") in
  match get payload "errors" with
  | JArr errors =>
      match someAuthReason errors with
      | Thrown e => Thrown e
      | Returned true => Returned true
      | Returned false => msgCheck
      end
  | _ => msgCheck
  end.

End Js.

Module Effects.
Import Js.
Local Open Scope list_scope.

Section Programs.

(** The external calls of a component, indexed by what they resolve with. *)
Variable Cmd : Type -> Type.

(** A program: it returns, throws, or awaits an external call and goes on
    with what the call resolved with. *)
Inductive Prog (A : Type) : Type :=
| Ret (a : A)
| Throw (e : JsVal)
| Call (R : Type) (c : Cmd R) (k : R -> Prog A).
Arguments Ret {A} a.
Arguments Throw {A} e.
Arguments Call {A R} c k.

Fixpoint bind {A B : Type} (p : Prog A) (f : A -> Prog B) : Prog B :=
  match p with
  | Ret a => f a
  | Throw e => Throw e
  | Call c k => Call c (fun r => bind (k r) f)
  end.

(** [try { p } catch (e) { h e }] *)
Fixpoint tryCatch {A : Type} (p : Prog A) (h : JsVal -> Prog A) : Prog A :=
  match p with
  | Ret a => Ret a
  | Throw e => h e
  | Call c k => Call c (fun r => tryCatch (k r) h)
  end.

Definition call {R : Type} (c : Cmd R) : Prog R := Call c Ret.

(** One completed external call: the call and what it resolved with. *)
Definition Event : Type := {R : Type & (Cmd R * R)%type}.
Definition event {R : Type} (c : Cmd R) (r : R) : Event := existT _ R (c, r).

(** The environment answers each call, knowing the calls made so far. *)
Definition Env : Type := forall R : Type, list Event -> Cmd R -> R.

Fixpoint run {A : Type} (env : Env) (p : Prog A) (tr : list Event) : Outcome A * list Event :=
  match p with
  | Ret a => (Returned a, tr)
  | Throw e => (Thrown e, tr)
  | Call c k => let r := env _ tr c in run env (k r) (tr ++ [event c r])
  end.

Lemma run_bind {A B : Type} (env : Env) (p : Prog A) (f : A -> Prog B) (tr : list Event) :
  run env (bind p f) tr =
  match run env p tr with
  | (Returned a, tr') => run env (f a) tr'
  | (Thrown e, tr') => (Thrown e, tr')
  end.
Proof.
  revert tr. induction p as [a|e|R c k IH]; intros tr; simpl; auto.
Qed.

Lemma run_tryCatch {A : Type} (env : Env) (p : Prog A) (h : JsVal -> Prog A) (tr : list Event) :
  run env (tryCatch p h) tr =
  match run env p tr with
  | (Returned a, tr') => (Returned a, tr')
  | (Thrown e, tr') => run env (h e) tr'
  end.
Proof.
  revert tr. induction p as [a|e|R c k IH]; intros tr; simpl; auto.
Qed.

(** The trace only grows. *)
Lemma run_extends {A : Type} (env : Env) (p : Prog A) (tr : list Event) :
  exists more, snd (run env p tr) = tr ++ more.
Proof.
  revert tr. induction p as [a|e|R c k IH]; intros tr; simpl.
  - exists []. rewrite app_nil_r. reflexivity.
  - exists []. rewrite app_nil_r. reflexivity.
  - destruct (IH (env R tr c) (tr ++ [event c (env R tr c)])) as [more Hm].
    exists (event c (env R tr c) :: more). rewrite Hm, <- app_assoc. reflexivity.
Qed.

(** [always Q p]: every call that [p] can make, whatever the calls
    resolve with, is an event that satisfies [Q]. *)
Fixpoint always {A : Type} (Q : Event -> Prop) (p : Prog A) : Prop :=
  match p with
  | Ret _ => True
  | Throw _ => True
  | Call c k => forall r, Q (event c r) /\ always Q (k r)
  end.

Lemma always_bind {A B : Type} (Q : Event -> Prop) (p : Prog A) (f : A -> Prog B) :
  always Q p -> (forall a, always Q (f a)) -> always Q (bind p f).
Proof.
  intros Hp Hf. induction p as [a|e|R c k IH]; simpl in *; auto.
  intros r. destruct (Hp r) as [H1 H2]. split; auto.
Qed.

Lemma always_tryCatch {A : Type} (Q : Event -> Prop) (p : Prog A) (h : JsVal -> Prog A) :
  always Q p -> (forall e, always Q (h e)) -> always Q (tryCatch p h).
Proof.
  intros Hp Hh. induction p as [a|e|R c k IH]; simpl in *; auto.
  intros r. destruct (Hp r) as [H1 H2]. split; auto.
Qed.

Lemma always_call {R : Type} (Q : Event -> Prop) (c : Cmd R) :
  (forall r, Q (event c r)) -> always Q (call c).
Proof. intros H r. split; [apply H|exact I]. Qed.

Lemma always_weaken {A : Type} (Q Q' : Event -> Prop) (p : Prog A) :
  (forall ev, Q ev -> Q' ev) -> always Q p -> always Q' p.
Proof.
  intros HQ. induction p as [a|e|R c k IH]; simpl; auto.
  intros Hp r. destruct (Hp r) as [H1 H2]. split; auto.
Qed.

Lemma always_run {A : Type} (Q : Event -> Prop) (p : Prog A) (env : Env) (tr : list Event) :
  always Q p -> Forall Q tr -> Forall Q (snd (run env p tr)).
Proof.
  revert tr. induction p as [a|e|R c k IH]; intros tr Hp Htr; simpl in *; auto.
  destruct (Hp (env R tr c)) as [H1 H2].
  apply IH; [exact H2|]. apply Forall_app. split; [exact Htr|]. constructor; auto.
Qed.

(** The events of a run that come after those already in the trace. *)
Lemma run_after {A : Type} (Q : Event -> Prop) (p : Prog A) (env : Env) (tr : list Event) :
  always Q p ->
  exists more, snd (run env p tr) = tr ++ more /\ Forall Q more.
Proof.
  revert tr. induction p as [a|e|R c k IH]; intros tr Hp; simpl in *.
  - exists []. rewrite app_nil_r. auto.
  - exists []. rewrite app_nil_r. auto.
  - destruct (Hp (env R tr c)) as [H1 H2].
    destruct (IH _ (tr ++ [event c (env R tr c)]) H2) as [more [Hm HF]].
    exists (event c (env R tr c) :: more). rewrite Hm, <- app_assoc. split; [reflexivity|].
    constructor; auto.
Qed.

End Programs.

Arguments Ret {Cmd A} a.
Arguments Throw {Cmd A} e.
Arguments Call {Cmd A R} c k.
Arguments bind {Cmd A B} p f.
Arguments tryCatch {Cmd A} p h.
Arguments call {Cmd R} c.
Arguments event {Cmd R} c r.
Arguments run {Cmd A} env p tr.
Arguments always {Cmd A} Q p.

(** One step in a proof that a program written with [bind], [tryCatch],
    [call] and case distinctions only makes calls that satisfy [Q]; the
    goals left are the facts about the single calls. *)
Ltac always_step :=
  lazymatch goal with
  | |- always _ (bind _ _) => apply always_bind
  | |- always _ (tryCatch _ _) => apply always_tryCatch
  | |- always _ (call _) => apply always_call
  | |- always _ (Ret _) => exact I
  | |- always _ (Throw _) => exact I
  | |- always _ (Call _ _) => cbn [always]; intros ?; split
  | |- always _ (match ?x with _ => _ end) => destruct x
  | |- always _ (let _ := _ in _) => cbv zeta
  | |- forall _, _ => intros ?
  end.

Declare Scope prog_scope.
Delimit Scope prog_scope with prog.
Notation "x <- p ;; q" := (bind p (fun x => q))
  (at level 61, p at next level, right associativity) : prog_scope.
Notation "p ;;; q" := (bind p (fun _ => q))
  (at level 61, right associativity) : prog_scope.

End Effects.

(* ===================================================================== *)
(** ** Reasoning about every run of a program *)
(* ===================================================================== *)

Module Reasoning.
Import Js Effects.
Local Open Scope list_scope.

Section Programs.

Variable Cmd : Type -> Type.

(** [ends P E p]: whatever the calls resolve with, a value that [p]
    returns satisfies [P] and an error that it throws satisfies [E]. *)
Fixpoint ends {A : Type} (P : A -> Prop) (E : JsVal -> Prop) (p : Prog Cmd A) : Prop :=
  match p with
  | Ret a => P a
  | Throw e => E e
  | Call c k => forall r, ends P E (k r)
  end.


Lemma ends_tryCatch {A : Type} (P : A -> Prop) (E' E : JsVal -> Prop)
    (p : Prog Cmd A) (h : JsVal -> Prog Cmd A) :
  ends P E' p -> (forall e, E' e -> ends P E (h e)) -> ends P E (tryCatch p h).
Proof.
  intros Hp Hh. induction p as [a|e|R c k IH]; simpl in *; auto.
Qed.

Lemma ends_weaken {A : Type} (P P' : A -> Prop) (E E' : JsVal -> Prop) (p : Prog Cmd A) :
  (forall a, P a -> P' a) -> (forall e, E e -> E' e) -> ends P E p -> ends P' E' p.
Proof.
  intros HP HE. induction p as [a|e|R c k IH]; simpl; auto.
Qed.

Lemma ends_anything {A : Type} (p : Prog Cmd A) : ends (fun _ => True) (fun _ => True) p.
Proof. induction p as [a|e|R c k IH]; simpl; auto. Qed.

Lemma ends_run {A : Type} (P : A -> Prop) (E : JsVal -> Prop) (p : Prog Cmd A)
    (env : Env Cmd) (tr : list (Event Cmd)) :
  ends P E p ->
  match fst (run env p tr) with
  | Returned a => P a
  | Thrown e => E e
  end.
Proof.
  revert tr. induction p as [a|e|R c k IH]; intros tr Hp; simpl in *; auto.
  apply IH, Hp.
Qed.

(** [atMostOf sel n p]: whatever the calls resolve with, [p] makes at most
    [n] calls that [sel] selects. *)
Fixpoint atMostOf {A : Type} (sel : Event Cmd -> bool) (n : nat) (p : Prog Cmd A) : Prop :=
  match p with
  | Ret _ => True
  | Throw _ => True
  | Call c k =>
      forall r,
        if sel (event c r)
        then match n with
             | O => False
             | S n' => atMostOf sel n' (k r)
             end
        else atMostOf sel n (k r)
  end.

Lemma atMostOf_le {A : Type} (sel : Event Cmd -> bool) (n m : nat) (p : Prog Cmd A) :
  (n <= m)%nat -> atMostOf sel n p -> atMostOf sel m p.
Proof.
  revert n m. induction p as [a|e|R c k IH]; intros n m Hnm Hp; simpl in *; auto.
  intros r. specialize (Hp r). destruct (sel (event c r)).
  - destruct n as [|n']; [contradiction|]. destruct m as [|m']; [lia|].
    apply (IH r n' m'); [lia|exact Hp].
  - apply (IH r n m); assumption.
Qed.

Lemma atMostOf_bind {A B : Type} (sel : Event Cmd -> bool) (n m : nat)
    (p : Prog Cmd A) (f : A -> Prog Cmd B) :
  atMostOf sel n p -> (forall a, atMostOf sel m (f a)) -> atMostOf sel (n + m) (bind p f).
Proof.
  revert n. induction p as [a|e|R c k IH]; intros n Hp Hf; simpl in *; auto.
  - apply atMostOf_le with (n := m); [lia|apply Hf].
  - intros r. specialize (Hp r). destruct (sel (event c r)).
    + destruct n as [|n']; [contradiction|]. simpl. apply IH; assumption.
    + apply IH; assumption.
Qed.

Lemma atMostOf_tryCatch {A : Type} (sel : Event Cmd -> bool) (n m : nat)
    (p : Prog Cmd A) (h : JsVal -> Prog Cmd A) :
  atMostOf sel n p -> (forall e, atMostOf sel m (h e)) -> atMostOf sel (n + m) (tryCatch p h).
Proof.
  revert n. induction p as [a|e|R c k IH]; intros n Hp Hh; simpl in *; auto.
  - apply atMostOf_le with (n := m); [lia|apply Hh].
  - intros r. specialize (Hp r). destruct (sel (event c r)).
    + destruct n as [|n']; [contradiction|]. simpl. apply IH; assumption.
    + apply IH; assumption.
Qed.

Lemma atMostOf_run {A : Type} (sel : Event Cmd -> bool) (n : nat) (p : Prog Cmd A)
    (env : Env Cmd) (tr : list (Event Cmd)) :
  atMostOf sel n p ->
  exists more, snd (run env p tr) = tr ++ more /\ (length (filter sel more) <= n)%nat.
Proof.
  revert n tr. induction p as [a|e|R c k IH]; intros n tr Hp; simpl in *.
  - exists []. rewrite app_nil_r. split; [reflexivity|simpl; lia].
  - exists []. rewrite app_nil_r. split; [reflexivity|simpl; lia].
  - specialize (Hp (env R tr c)). set (r := env R tr c) in *.
    destruct (sel (event c r)) eqn:Hs.
    + destruct n as [|n']; [contradiction|].
      destruct (IH r n' (tr ++ [event c r]) Hp) as [more [Hm Hl]].
      exists (event c r :: more). rewrite Hm, <- app_assoc. split; [reflexivity|].
      simpl. rewrite Hs. simpl. lia.
    + destruct (IH r n (tr ++ [event c r]) Hp) as [more [Hm Hl]].
      exists (event c r :: more). rewrite Hm, <- app_assoc. split; [reflexivity|].
      simpl. rewrite Hs. exact Hl.
Qed.

(** The last of the events [more], or [last] when there is none. *)
Fixpoint lastOf (last : option (Event Cmd)) (more : list (Event Cmd)) : option (Event Cmd) :=
  match more with
  | [] => last
  | ev :: more' => lastOf (Some ev) more'
  end.

Lemma lastOf_snoc (last : option (Event Cmd)) (more : list (Event Cmd)) (ev : Event Cmd) :
  lastOf last (more ++ [ev]) = Some ev.
Proof.
  revert last. induction more as [|x more IH]; intros last; simpl; auto.
Qed.

(** [lastly R last p]: whatever the calls resolve with, the outcome of [p]
    is related by [R] to the last call completed before it ([last] when
    [p] makes none). *)
Fixpoint lastly {A : Type} (R : option (Event Cmd) -> Outcome A -> Prop)
    (last : option (Event Cmd)) (p : Prog Cmd A) : Prop :=
  match p with
  | Ret a => R last (Returned a)
  | Throw e => R last (Thrown e)
  | Call c k => forall r, lastly R (Some (event c r)) (k r)
  end.

Lemma lastly_bind {A B : Type} (R' : option (Event Cmd) -> Outcome A -> Prop)
    (R : option (Event Cmd) -> Outcome B -> Prop) (last : option (Event Cmd))
    (p : Prog Cmd A) (f : A -> Prog Cmd B) :
  lastly R' last p ->
  (forall l a, R' l (Returned a) -> lastly R l (f a)) ->
  (forall l e, R' l (Thrown e) -> R l (Thrown e)) ->
  lastly R last (bind p f).
Proof.
  intros Hp Hf He. revert last Hp.
  induction p as [a|e|T c k IH]; intros last Hp; simpl in *; auto.
Qed.

Lemma lastly_tryCatch {A : Type} (R' R : option (Event Cmd) -> Outcome A -> Prop)
    (last : option (Event Cmd)) (p : Prog Cmd A) (h : JsVal -> Prog Cmd A) :
  lastly R' last p ->
  (forall l a, R' l (Returned a) -> R l (Returned a)) ->
  (forall l e, R' l (Thrown e) -> lastly R l (h e)) ->
  lastly R last (tryCatch p h).
Proof.
  intros Hp Hr Hh. revert last Hp.
  induction p as [a|e|T c k IH]; intros last Hp; simpl in *; auto.
Qed.

Lemma lastly_run {A : Type} (R : option (Event Cmd) -> Outcome A -> Prop)
    (last : option (Event Cmd)) (p : Prog Cmd A) (env : Env Cmd) (tr : list (Event Cmd)) :
  lastly R last p ->
  exists more, snd (run env p tr) = tr ++ more /\ R (lastOf last more) (fst (run env p tr)).
Proof.
  revert last tr. induction p as [a|e|T c k IH]; intros last tr Hp; simpl in *.
  - exists []. rewrite app_nil_r. auto.
  - exists []. rewrite app_nil_r. auto.
  - destruct (IH _ (Some (event c (env T tr c))) (tr ++ [event c (env T tr c)]) (Hp _))
      as [more [Hm HR]].
    exists (event c (env T tr c) :: more). rewrite Hm, <- app_assoc. auto.
Qed.

(** [tracks step R s p]: whatever the calls resolve with, the outcome of
    [p] is related by [R] to the state that [step] makes of [s] and the
    calls completed on the way. *)
Fixpoint tracks {A S : Type} (step : S -> Event Cmd -> S) (R : S -> Outcome A -> Prop)
    (s : S) (p : Prog Cmd A) : Prop :=
  match p with
  | Ret a => R s (Returned a)
  | Throw e => R s (Thrown e)
  | Call c k => forall r, tracks step R (step s (event c r)) (k r)
  end.

Lemma tracks_bind {A B S : Type} (step : S -> Event Cmd -> S)
    (R' : S -> Outcome A -> Prop) (R : S -> Outcome B -> Prop) (s : S)
    (p : Prog Cmd A) (f : A -> Prog Cmd B) :
  tracks step R' s p ->
  (forall s' a, R' s' (Returned a) -> tracks step R s' (f a)) ->
  (forall s' e, R' s' (Thrown e) -> R s' (Thrown e)) ->
  tracks step R s (bind p f).
Proof.
  intros Hp Hf He. revert s Hp.
  induction p as [a|e|T c k IH]; intros s Hp; simpl in *; auto.
Qed.

Lemma tracks_tryCatch {A S : Type} (step : S -> Event Cmd -> S)
    (R' R : S -> Outcome A -> Prop) (s : S) (p : Prog Cmd A) (h : JsVal -> Prog Cmd A) :
  tracks step R' s p ->
  (forall s' a, R' s' (Returned a) -> R s' (Returned a)) ->
  (forall s' e, R' s' (Thrown e) -> tracks step R s' (h e)) ->
  tracks step R s (tryCatch p h).
Proof.
  intros Hp Hr Hh. revert s Hp.
  induction p as [a|e|T c k IH]; intros s Hp; simpl in *; auto.
Qed.

Lemma tracks_weaken {A S : Type} (step : S -> Event Cmd -> S)
    (R' R : S -> Outcome A -> Prop) (s : S) (p : Prog Cmd A) :
  (forall s' o, R' s' o -> R s' o) -> tracks step R' s p -> tracks step R s p.
Proof.
  intros HR. revert s. induction p as [a|e|T c k IH]; intros s Hp; simpl in *; auto.
Qed.

Lemma tracks_anything {A S : Type} (step : S -> Event Cmd -> S) (s : S) (p : Prog Cmd A) :
  tracks step (fun _ _ => True) s p.
Proof. revert s. induction p as [a|e|T c k IH]; intros s; simpl; auto. Qed.

(** A program none of whose calls changes the state. *)
Lemma tracks_unchanged {A S : Type} (step : S -> Event Cmd -> S) (s : S) (p : Prog Cmd A) :
  always (fun ev => forall s', step s' ev = s') p ->
  tracks step (fun s' _ => s' = s) s p.
Proof.
  induction p as [a|e|T c k IH]; intros Hp; simpl in *; auto.
  intros r. destruct (Hp r) as [H1 H2]. rewrite H1. apply IH, H2.
Qed.

Lemma tracks_run {A S : Type} (step : S -> Event Cmd -> S) (R : S -> Outcome A -> Prop)
    (s : S) (p : Prog Cmd A) (env : Env Cmd) (tr : list (Event Cmd)) :
  tracks step R s p ->
  exists more,
    snd (run env p tr) = tr ++ more /\ R (fold_left step more s) (fst (run env p tr)).
Proof.
  revert s tr. induction p as [a|e|T c k IH]; intros s tr Hp; simpl in *.
  - exists []. rewrite app_nil_r. auto.
  - exists []. rewrite app_nil_r. auto.
  - destruct (IH _ (step s (event c (env T tr c))) (tr ++ [event c (env T tr c)]) (Hp _))
      as [more [Hm HR]].
    exists (event c (env T tr c) :: more). rewrite Hm, <- app_assoc. auto.
Qed.

(** [obeys step Q R s p]: whatever the calls resolve with, every call of
    [p] satisfies [Q] in the state that [step] has made of [s] and the
    calls before it, and the outcome is related by [R] to the last state. *)
Fixpoint obeys {A S : Type} (step : S -> Event Cmd -> S) (Q : S -> Event Cmd -> Prop)
    (R : S -> Outcome A -> Prop) (s : S) (p : Prog Cmd A) : Prop :=
  match p with
  | Ret a => R s (Returned a)
  | Throw e => R s (Thrown e)
  | Call c k => forall r, Q s (event c r) /\ obeys step Q R (step s (event c r)) (k r)
  end.

Lemma obeys_bind {A B S : Type} (step : S -> Event Cmd -> S) (Q : S -> Event Cmd -> Prop)
    (R' : S -> Outcome A -> Prop) (R : S -> Outcome B -> Prop) (s : S)
    (p : Prog Cmd A) (f : A -> Prog Cmd B) :
  obeys step Q R' s p ->
  (forall s' a, R' s' (Returned a) -> obeys step Q R s' (f a)) ->
  (forall s' e, R' s' (Thrown e) -> R s' (Thrown e)) ->
  obeys step Q R s (bind p f).
Proof.
  intros Hp Hf He. revert s Hp.
  induction p as [a|e|T c k IH]; intros s Hp; simpl in *; auto.
  intros r. destruct (Hp r) as [H1 H2]. auto.
Qed.

Lemma obeys_tryCatch {A S : Type} (step : S -> Event Cmd -> S) (Q : S -> Event Cmd -> Prop)
    (R' R : S -> Outcome A -> Prop) (s : S) (p : Prog Cmd A) (h : JsVal -> Prog Cmd A) :
  obeys step Q R' s p ->
  (forall s' a, R' s' (Returned a) -> R s' (Returned a)) ->
  (forall s' e, R' s' (Thrown e) -> obeys step Q R s' (h e)) ->
  obeys step Q R s (tryCatch p h).
Proof.
  intros Hp Hr Hh. revert s Hp.
  induction p as [a|e|T c k IH]; intros s Hp; simpl in *; auto.
  intros r. destruct (Hp r) as [H1 H2]. auto.
Qed.

Lemma obeys_weaken {A S : Type} (step : S -> Event Cmd -> S) (Q : S -> Event Cmd -> Prop)
    (R' R : S -> Outcome A -> Prop) (s : S) (p : Prog Cmd A) :
  (forall s' o, R' s' o -> R s' o) -> obeys step Q R' s p -> obeys step Q R s p.
Proof.
  intros HR. revert s. induction p as [a|e|T c k IH]; intros s Hp; simpl in *; auto.
  intros r. destruct (Hp r) as [H1 H2]. auto.
Qed.

(** Calls that satisfy [Q] in every state. *)
Lemma obeys_always {A S : Type} (step : S -> Event Cmd -> S) (Q : S -> Event Cmd -> Prop)
    (s : S) (p : Prog Cmd A) :
  always (fun ev => forall s', Q s' ev) p -> obeys step Q (fun _ _ => True) s p.
Proof.
  revert s. induction p as [a|e|T c k IH]; intros s Hp; simpl in *; auto.
  intros r. destruct (Hp r) as [H1 H2]. auto.
Qed.

(** A state that no call changes and in which every call satisfies [Q]. *)
Lemma obeys_settled {A S : Type} (step : S -> Event Cmd -> S) (Q : S -> Event Cmd -> Prop)
    (s : S) (p : Prog Cmd A) :
  (forall ev, step s ev = s) -> (forall ev, Q s ev) -> obeys step Q (fun _ _ => True) s p.
Proof.
  intros Hs HQ. induction p as [a|e|T c k IH]; simpl; auto.
  intros r. rewrite Hs. auto.
Qed.

Lemma obeys_run {A S : Type} (step : S -> Event Cmd -> S) (Q : S -> Event Cmd -> Prop)
    (R : S -> Outcome A -> Prop) (s : S) (p : Prog Cmd A) (env : Env Cmd)
    (tr : list (Event Cmd)) :
  obeys step Q R s p ->
  exists more,
    snd (run env p tr) = tr ++ more
    /\ (forall pre ev post, more = pre ++ ev :: post -> Q (fold_left step pre s) ev)
    /\ R (fold_left step more s) (fst (run env p tr)).
Proof.
  revert s tr. induction p as [a|e|T c k IH]; intros s tr Hp; simpl in *.
  - exists []. rewrite app_nil_r. split; [reflexivity|]. split; [|exact Hp].
    intros pre ev post H. destruct pre; discriminate.
  - exists []. rewrite app_nil_r. split; [reflexivity|]. split; [|exact Hp].
    intros pre ev post H. destruct pre; discriminate.
  - destruct (Hp (env T tr c)) as [H1 H2].
    destruct (IH _ (step s (event c (env T tr c))) (tr ++ [event c (env T tr c)]) H2)
      as [more [Hm [HQ HR]]].
    exists (event c (env T tr c) :: more). rewrite Hm, <- app_assoc.
    split; [reflexivity|]. split; [|exact HR].
    intros pre ev post H. destruct pre as [|x pre]; cbn in H.
    + injection H as <- _. exact H1.
    + injection H as <- H. cbn [fold_left]. eapply HQ. exact H.
Qed.

(** A program that makes no call that [sel] selects. *)
Lemma atMostOf_none {A : Type} (sel : Event Cmd -> bool) (p : Prog Cmd A) :
  always (fun ev => sel ev = false) p -> atMostOf sel 0 p.
Proof.
  induction p as [a|e|T c k IH]; intros Hp; simpl in *; auto.
  intros r. destruct (Hp r) as [H1 H2]. rewrite H1. apply IH, H2.
Qed.

End Programs.

Arguments ends {Cmd A} P E p.
Arguments tracks {Cmd A S} step R s p.
Arguments obeys {Cmd A S} step Q R s p.
Arguments atMostOf {Cmd A} sel n p.
Arguments lastOf {Cmd} last more.
Arguments lastly {Cmd A} R last p.

End Reasoning.

(* ===================================================================== *)
(** ** The durable store and the other external collaborators *)
(* ===================================================================== *)

Module Store.
Import Js.

(** Instants are milliseconds since the epoch; an ISO-8601 text column
    holds the instant it denotes. *)
Abbreviation Instant := Z.

(** The plan is the text of the [current_plan] column; the code only
    asks whether it is [pro]. *)
Abbreviation Plan := string.

(** What [auth.admin.getUserById] yields as [data.user]. *)
Record User := { user_email : option string }.

(** The selected columns of a [gmail_accounts] row. *)
Record GmailAccount := {
  user_id : string;
  gmail_address : string;
  access_token_encrypted : string;
  refresh_token_encrypted : option string;
  token_expires_at : option Instant
}.

(** The selected columns of a [sweep_events] row. *)
Record SweepRow := { started_at : option Instant; status : string }.

(** The four updates of a [sweep_events] row that the worker issues. *)
Inductive SweepPatch :=
| PatchProcessing (started_at updated_at : Instant)
| PatchProgress (progress : Z)
| PatchCompleted (completed_at : Instant) (services_found breaches_found : Z) (updated_at : Instant)
| PatchFailed (completed_at updated_at : Instant) (error_message : string).

Record GmailMessage := { msg_id : option string; threadId : option string }.

Record EmailMetadata := {
  id : string;
  from : string;
  subject : string;
  date : string;
  internalDate : option Instant
}.

Record ServiceRow := {
  svc_domain : string;
  svc_name : string;
  default_privacy_email : string;
  svc_category : string;
  is_breached : bool;
  logo_url : string
}.

Record UserServiceRow := {
  us_user_id : string;
  service_id : option string;
  email_count : Z;
  first_seen_at : option Instant;
  last_seen_at : option Instant;
  confidence_score : Z
}.

Record Breach := {
  name : JsVal; breachDate : JsVal; dataClasses : JsVal; description : JsVal
}.

Record UserBreachRow := {
  ub_user_id : string;
  breach_name : JsVal; breach_date : JsVal; data_classes : JsVal; ub_description : JsVal
}.

Record SweepMetricsRow := {
  sm_user_id : string;
  duration_ms : Z;
  messages_scanned : Z;
  accounts_found : Z;
  sm_breaches_found : Z;
  is_incremental : bool;
  created_at : Instant
}.

Inductive NotificationType := sweep_completed | sweep_failed.

(** The metadata of a notification: the counts of a completed sweep, or
    the text of the error of a failed one. *)
Inductive NotificationMeta :=
| MetaNone
| MetaCounts (services_found : Z) (breaches_found : Z)
| MetaError (error : string).

Record Notification := {
  n_userId : string;
  n_type : NotificationType;
  title : string;
  message : string;
  metadata : NotificationMeta
}.

(** The body of a successful answer of the OAuth token endpoint, as
    [refreshAccessToken] declares it. *)
Record Refreshed := { access_token : string; expires_in : Z }.

Inductive TokenResult : Type :=
| TokenNetworkFailure (e : JsVal)
| TokenResponse (status : Z) (json : Outcome Refreshed) (text : string).

(** The variables of the two e-mail templates. *)
Inductive EmailVariables :=
| CompletedVars (total_accounts breaches_found : Z) (plan_label : Plan)
    (scan_duration_ms : Z) (gmail_address : option string)
| FailedVars (gmail_address : string) (error_message : string).

Record EmailPayload := {
  to : option string;
  templateId : string;
  variables : EmailVariables
}.

(** The external calls of the sweep, each with what it resolves with.
    The store calls resolve with [{ data, error }] and never reject; the
    lister, the metadata fetcher and the breach lookup are the calls of the
    orchestrator to those components, which return or throw. *)
Inductive Cmd : Type -> Type :=
| Now : Cmd Instant
| RandomBytes (n : nat) : Cmd (list Z)
| AuthGetUserById (userId : string) : Cmd (DbResult User)
| SweepEventsUpdate (sweepEventId : string) (patch : SweepPatch) : Cmd (DbResult unit)
| SweepEventsLastCompleted (userId : string) : Cmd (DbResult SweepRow)
| SubscriptionsSelectPlan (userId : string) : Cmd (DbResult (option string))
| SubscriptionsUpdateLastSweep (userId : string) (last_sweep_at : Instant) : Cmd (DbResult unit)
| GmailAccountsSelect (userId : string) : Cmd (DbResult GmailAccount)
| GmailAccountsUpdateToken (userId : string) (access_token_encrypted : string)
    (token_expires_at updated_at : Instant) : Cmd (DbResult unit)
| ServicesSelectId (domain : string) : Cmd (DbResult string)
| ServicesInsert (row : ServiceRow) : Cmd (DbResult string)
| UserServicesDelete (userId : string) : Cmd (DbResult unit)
| UserServicesUpsert (rows : list UserServiceRow) : Cmd (DbResult unit)
| UserBreachesUpsert (rows : list UserBreachRow) : Cmd (DbResult unit)
| SweepMetricsInsert (row : SweepMetricsRow) : Cmd (DbResult unit)
| NotificationsInsert (n : Notification) : Cmd (DbResult unit)
| ResendPost (payload : EmailPayload) : Cmd HttpResult
| OAuthTokenPost (refreshToken : string) : Cmd TokenResult
| ListEmails (accessToken : string) (plan : Plan) (lastScanDate : option Instant)
    : Cmd (Outcome (list GmailMessage))
| FetchMetadataForMessages (accessToken : string) (messages : list GmailMessage)
    (plan : Plan) (sweepEventId : string) : Cmd (Outcome (list EmailMetadata))
| GetBreaches (email : string) : Cmd (Outcome (list Breach)).

Abbreviation Prog := (Effects.Prog Cmd).
Abbreviation Env := (Effects.Env Cmd).
Abbreviation Event := (Effects.Event Cmd).

(** *** What an event tells *)

(** The update of a job that the event is, if it is one. *)
Definition sweepPatchOf (ev : Event) : option (string * SweepPatch) :=
  let (c, _) := projT2 ev in
  match c with
  | SweepEventsUpdate sweepEventId patch => Some (sweepEventId, patch)
  | _ => None
  end.

(** The since-instant handed to the lister. *)
Definition listerSince (ev : Event) : option (option Instant) :=
  let (c, _) := projT2 ev in
  match c with
  | ListEmails _ _ lastScanDate => Some lastScanDate
  | _ => None
  end.

(** The user-service links given to the store. *)
Definition upsertedServices (ev : Event) : option (list UserServiceRow) :=
  let (c, _) := projT2 ev in
  match c with
  | UserServicesUpsert rows => Some rows
  | _ => None
  end.

(** The total-found count that the event reports: on the completed job,
    in the notification, in the e-mail, or in the metrics. *)
Definition reportedTotal (ev : Event) : option Z :=
  let (c, _) := projT2 ev in
  match c with
  | SweepEventsUpdate _ (PatchCompleted _ services_found _ _) => Some services_found
  | NotificationsInsert n =>
      match metadata n with
      | MetaCounts services_found _ => Some services_found
      | _ => None
      end
  | ResendPost payload =>
      match variables payload with
      | CompletedVars total_accounts _ _ _ _ => Some total_accounts
      | _ => None
      end
  | SweepMetricsInsert row => Some (accounts_found row)
  | _ => None
  end.

(** The event writes to the durable store. *)
Definition isStoreWrite (ev : Event) : bool :=
  let (c, _) := projT2 ev in
  match c with
  | SweepEventsUpdate _ _ | SubscriptionsUpdateLastSweep _ _
  | GmailAccountsUpdateToken _ _ _ _ | ServicesInsert _
  | UserServicesDelete _ | UserServicesUpsert _ | UserBreachesUpsert _
  | SweepMetricsInsert _ | NotificationsInsert _ => true
  | _ => false
  end.

(** The status of a job after the updates of a trace. *)
Definition statusAfter (sweepEventId : string) (tr : list Event) (initial : string) : string :=
  fold_left
    (fun status ev =>
       match sweepPatchOf ev with
       | Some (j, patch) =>
           if String.eqb j sweepEventId then
             match patch with
             | PatchProcessing _ _ => "processing"
             | PatchProgress _ => status
             | PatchCompleted _ _ _ _ => "completed"
             | PatchFailed _ _ _ => "failed"
             end
           else status
       | None => status
       end)
    tr initial.

(** A store call that succeeds with [x] and one that succeeds without data. *)
Definition found {A : Type} (x : A) : DbResult A := {| data := Some x; error := None |}.
Definition nothing {A : Type} : DbResult A := {| data := None; error := None |}.

(** An environment in which every call succeeds: the user exists and has a
    mailbox connection, nothing was swept before, the mailbox is empty and
    every service is new. *)
Definition calmEnv : Env := fun R tr c =>
  match c in Cmd R return R with
  | Now => 1700000000000 + Z.of_nat (List.length tr)
  | RandomBytes n => repeat 0 n
  | AuthGetUserById _ => found {| user_email := Some "owner@example.com" |}
  | SweepEventsUpdate _ _ => nothing
  | SweepEventsLastCompleted _ => nothing
  | SubscriptionsSelectPlan _ => nothing
  | SubscriptionsUpdateLastSweep _ _ => nothing
  | GmailAccountsSelect u =>
      found {| user_id := u; gmail_address := "owner@gmail.com";
               access_token_encrypted := "";
               refresh_token_encrypted := None; token_expires_at := None |}
  | GmailAccountsUpdateToken _ _ _ _ => nothing
  | ServicesSelectId _ => nothing
  | ServicesInsert row => found ("svc:" ++ svc_domain row)
  | UserServicesDelete _ => nothing
  | UserServicesUpsert _ => nothing
  | UserBreachesUpsert _ => nothing
  | SweepMetricsInsert _ => nothing
  | NotificationsInsert _ => nothing
  | ResendPost _ => Response 200 (Some (JObj [])) "{}"
  | OAuthTokenPost _ =>
      TokenResponse 200 (Returned {| access_token := "fresh"; expires_in := 3600 |}) "{}"
  | ListEmails _ _ _ => Returned []
  | FetchMetadataForMessages _ _ _ _ => Returned []
  | GetBreaches _ => Returned []
  end.

End Store.

(* ===================================================================== *)
(** ** src/utils/summarize-by-domain.ts *)
(* ===================================================================== *)

Module Summarize.
Import Str Js Effects Store Extraction.
Local Open Scope list_scope.
Local Open Scope prog_scope.

Inductive ContactConfidence := high | medium | low.

Record DomainAggregate := {
  domain : string;
  emailCount : Z;
  firstSeenAt : option Instant;
  lastSeenAt : option Instant;
  serviceId : option string;
  subject : string;
  subjects : list string;
  supportEmail : option string;
  privacyEmail : option string;
  contactConfidence : ContactConfidence
}.

(** The value kept per domain in the [Map] of the first pass. *)
Record Group := {
  g_emailCount : Z;
  g_firstSeenAt : option Instant;
  g_lastSeenAt : option Instant;
  g_serviceId : option string;
  g_subject : string;
  g_subjects : list string;
  g_fromAddresses : list string
}.

(** [/support|help|contact|service|customer/i.test(e)] *)
Definition supportLike (e : string) : bool :=
  test_any ["support"; "help"; "contact"; "service"; "customer"] e.

(** [/data.?protection/] somewhere in [s]. *)
Fixpoint matchDataProtection (s : string) : bool :=
  (startsWith s "data" &&
   let r := substring 4 (String.length s - 4) s in
   (startsWith r "protection" ||
    match r with
    | String c r' => negb (isLineTerminator c) && startsWith r' "protection"
    | EmptyString => false
    end))
  || match s with
     | EmptyString => false
     | String _ s' => matchDataProtection s'
     end.

(** [/privacy|dpo|data.?protection/i.test(e)] *)
Definition privacyLike (e : string) : bool :=
  test_any ["privacy"; "dpo"] e || matchDataProtection e.

(** The lower-cased addresses extracted from the sender headers. *)
Definition contactCandidates (fromAddresses : list string) : list string :=
  filter truthy
    (flat_map (fun addr => match extractEmailAddress addr with
                           | Some e => [toLowerCase e]
                           | None => []
                           end) fromAddresses).

(** [extractContactEmails]: the [support] and the [privacy] address. *)
Definition extractContactEmails (fromAddresses : list string) : option string * option string :=
  let emails := contactCandidates fromAddresses in
  (find supportLike emails, find privacyLike emails).

(** [generateContactEmails]. *)
Definition generateContactEmails (domain : string) : string * string :=
  (("support@" ++ domain)%string, ("privacy@" ++ domain)%string).

(** [a || b] for an optional and a definite string. *)
Definition orElse (a : option string) (b : string) : string :=
  match a with
  | Some s => if truthy s then s else b
  | None => b
  end.

Definition present (a : option string) : bool :=
  match a with Some s => truthy s | None => false end.

Section WithEnvironment.

(** [new Date(text).getTime()], when [text] denotes a date. *)
Variable Date_parse : string -> option Instant.
Variable LOGO_DEV_PUBLISHABLE_KEY : string.

(** [meta.internalDate || (meta.date ? new Date(meta.date).toISOString() : null)];
    [toISOString] throws a [RangeError] on an invalid date. *)
Definition isoOf (meta : EmailMetadata) : Outcome (option Instant) :=
  match internalDate meta with
  | Some t => Returned (Some t)
  | None =>
      if truthy (date meta) then
        match Date_parse (date meta) with
        | Some t => Returned (Some t)
        | None => Thrown (rangeError "Invalid time value")
        end
      else Returned None
  end.

(** The canonical domain of the sender of a message. *)
Definition domainOf (meta : EmailMetadata) : option string :=
  match extractDomain (extractEmailAddress (from meta)) with
  | Some d => if truthy d then Some d else None
  | None => None
  end.

Definition freshGroup (meta : EmailMetadata) (iso : option Instant) : Group :=
  {| g_emailCount := 0; g_firstSeenAt := iso; g_lastSeenAt := iso; g_serviceId := None;
     g_subject := Store.subject meta; g_subjects := []; g_fromAddresses := [] |}.

(** The updates of the loop body on the group of the message. *)
Definition account (meta : EmailMetadata) (iso : option Instant) (agg : Group) : Group :=
  {| g_emailCount := g_emailCount agg + 1;
     g_firstSeenAt :=
       match iso with
       | Some i => match g_firstSeenAt agg with
                   | None => Some i
                   | Some f => if i <? f then Some i else Some f
                   end
       | None => g_firstSeenAt agg
       end;
     g_lastSeenAt :=
       match iso with
       | Some i => match g_lastSeenAt agg with
                   | None => Some i
                   | Some l => if l <? i then Some i else Some l
                   end
       | None => g_lastSeenAt agg
       end;
     g_serviceId := g_serviceId agg;
     g_subject := g_subject agg;
     g_subjects := if truthy (Store.subject meta) then g_subjects agg ++ [Store.subject meta] else g_subjects agg;
     g_fromAddresses :=
       if truthy (from meta) then g_fromAddresses agg ++ [from meta] else g_fromAddresses agg |}.

(** [if (!map.has(domain)) map.set(domain, fresh); const agg = map.get(domain)!; ...]
    on a [Map], which keeps the order of first insertion. *)
Fixpoint updateGroup (domain : string) (meta : EmailMetadata) (iso : option Instant)
    (map : list (string * Group)) : list (string * Group) :=
  match map with
  | [] => [(domain, account meta iso (freshGroup meta iso))]
  | (d, g) :: rest =>
      if String.eqb d domain then (d, account meta iso g) :: rest
      else (d, g) :: updateGroup domain meta iso rest
  end.

(** The first pass: group by domain and collect. *)
Fixpoint groupByDomain (metadataList : list EmailMetadata) (map : list (string * Group))
    : Outcome (list (string * Group)) :=
  match metadataList with
  | [] => Returned map
  | meta :: rest =>
      match domainOf meta with
      | None => groupByDomain rest map
      | Some domain =>
          match isoOf meta with
          | Thrown e => Thrown e
          | Returned iso => groupByDomain rest (updateGroup domain meta iso map)
          end
      end
  end.

(** The service row created for a domain seen for the first time. *)
Definition newServiceRow (domain : string) (data : Group) : ServiceRow :=
  let extracted := extractContactEmails (g_fromAddresses data) in
  let generated := generateContactEmails domain in
  let supportEmail := orElse (fst extracted) (fst generated) in
  let privacyEmail := orElse (snd extracted) (snd generated) in
  {| svc_domain := domain;
     svc_name := orElse (extractName (hd ""%string (g_fromAddresses data))) domain;
     default_privacy_email := if truthy privacyEmail then privacyEmail else supportEmail;
     svc_category := Helpers.categorizeService domain [];
     is_breached := false;
     logo_url := Helpers.getServiceLogoUrl LOGO_DEV_PUBLISHABLE_KEY domain |}.

(** Get or create the service of a domain: its id. *)
Definition resolveService (domain : string) (data : Group) : Prog (option string) :=
  r <- call (ServicesSelectId domain) ;;
  let missing :=
    match error r with
    | Some servicesError => isStr (get servicesError "code") "PGRST116"
    | None => false
    end
    || match Js.data r with Some _ => false | None => true end in
  if missing then
    c <- call (ServicesInsert (newServiceRow domain data)) ;;
    match error c, Js.data c with
    | Some createError, _ => Throw createError
    | None, None => Throw JNull
    | None, Some newId => Ret (Some newId)
    end
  else
    match error r, Js.data r with
    | Some servicesError, _ => Throw servicesError
    | None, Some serviceId => Ret (Some serviceId)
    | None, None => Ret None
    end.

(** The contact fields of the aggregate returned for a group. *)
Definition contactOf (domain : string) (data : Group)
    : option string * option string * ContactConfidence :=
  let extracted := extractContactEmails (g_fromAddresses data) in
  if present (fst extracted) || present (snd extracted) then
    (if present (fst extracted) then fst extracted else None,
     if present (snd extracted) then snd extracted else None,
     high)
  else
    let generated := generateContactEmails domain in
    (Some (fst generated), Some (snd generated), low).

Definition aggregateOf (domain : string) (data : Group) (serviceId : option string)
    : DomainAggregate :=
  let '(supportEmail, privacyEmail, contactConfidence) := contactOf domain data in
  {| domain := domain;
     emailCount := g_emailCount data;
     firstSeenAt := g_firstSeenAt data;
     lastSeenAt := g_lastSeenAt data;
     serviceId := serviceId;
     subject := g_subject data;
     subjects := g_subjects data;
     supportEmail := supportEmail;
     privacyEmail := privacyEmail;
     contactConfidence := contactConfidence |}.

(** The second pass: get or create the services, with the cache of ids. *)
Fixpoint resolveAll (entries : list (string * Group)) (serviceIds : list (string * string))
    (results : list DomainAggregate) : Prog (list DomainAggregate) :=
  match entries with
  | [] => Ret results
  | (domain, data) :: rest =>
      match lookup domain serviceIds with
      | Some cached =>
          resolveAll rest serviceIds (results ++ [aggregateOf domain data (Some cached)])
      | None =>
          serviceId <- resolveService domain data ;;
          let serviceIds' :=
            match serviceId with
            | Some sid => if truthy sid then serviceIds ++ [(domain, sid)] else serviceIds
            | None => serviceIds
            end in
          resolveAll rest serviceIds' (results ++ [aggregateOf domain data serviceId])
      end
  end.

(** [summarizeByDomain]. *)
Definition summarizeByDomain (metadataList : list EmailMetadata) : Prog (list DomainAggregate) :=
  match groupByDomain metadataList [] with
  | Thrown e => Throw e
  | Returned map => resolveAll map [] []
  end.

(** *** The contact tier of the aggregates *)

(** A support-like or privacy-like address was observed among the sender
    addresses of the messages of domain [d]. *)
Definition observedContact (metadataList : list EmailMetadata) (d : string) : Prop :=
  exists m e,
    In m metadataList /\ domainOf m = Some d /\ extractEmailAddress (from m) = Some e
    /\ supportLike (toLowerCase e) || privacyLike (toLowerCase e) = true.

(** The groups hold the sender headers of the messages of their domain. *)
Definition collects (seen : list EmailMetadata) (map : list (string * Group)) : Prop :=
  NoDup (List.map fst map)
  /\ (forall m d, In m seen -> domainOf m = Some d -> In d (List.map fst map))
  /\ forall d g, In (d, g) map ->
       forall addr, In addr (g_fromAddresses g)
                    <-> exists m, In m seen /\ domainOf m = Some d /\ from m = addr.

Lemma domainOf_from (m : EmailMetadata) (d : string) :
  domainOf m = Some d -> truthy (from m) = true.
Proof.
  unfold domainOf, extractEmailAddress.
  destruct (truthy (from m)); [reflexivity|]. simpl. discriminate.
Qed.

Lemma updateGroup_keys (d : string) (m : EmailMetadata) (iso : option Instant)
    (map : list (string * Group)) :
  List.map fst (updateGroup d m iso map)
  = if existsb (String.eqb d) (List.map fst map) then List.map fst map
    else List.map fst map ++ [d].
Proof.
  induction map as [|[k g] map IH]; [reflexivity|].
  cbn [updateGroup List.map fst existsb].
  rewrite (String.eqb_sym d k). destruct (String.eqb k d) eqn:E; [reflexivity|].
  cbn [List.map fst orb]. rewrite IH.
  destruct (existsb (String.eqb d) (List.map fst map)); reflexivity.
Qed.

Lemma updateGroup_In (d : string) (m : EmailMetadata) (iso : option Instant)
    (map : list (string * Group)) (d' : string) (g' : Group) :
  NoDup (List.map fst map) ->
  In (d', g') (updateGroup d m iso map) ->
  (d' <> d /\ In (d', g') map)
  \/ (d' = d /\ ((exists g, In (d, g) map /\ g' = account m iso g)
                 \/ (~ In d (List.map fst map) /\ g' = account m iso (freshGroup m iso)))).
Proof.
  induction map as [|[k g] map IH]; cbn [updateGroup]; intros ND.
  - intros [[= <- <-]|[]]. right. split; [reflexivity|]. right. split; auto.
  - cbn [List.map fst] in ND. inversion ND as [|? ? Hk ND']; subst.
    destruct (String.eqb k d) eqn:E.
    + apply String.eqb_eq in E. subst k. intros [[= <- <-]|Hin].
      * right. split; [reflexivity|]. left. exists g. split; [left|]; reflexivity.
      * left. split; [|right; exact Hin].
        intros ->. apply Hk. apply (in_map fst) in Hin. exact Hin.
    + apply String.eqb_neq in E. intros [[= <- <-]|Hin].
      * left. split; [exact E|left; reflexivity].
      * destruct (IH ND' Hin) as [[Hne Hi]|[-> [[g0 [Hi ->]]|[Hni ->]]]].
        -- left. split; [exact Hne|right; exact Hi].
        -- right. split; [reflexivity|]. left. exists g0. split; [right; exact Hi|reflexivity].
        -- right. split; [reflexivity|]. right. split; [|reflexivity].
           cbn [List.map fst]. intros [Hk'|Hk']; auto.
Qed.

Lemma updateGroup_NoDup (d : string) (m : EmailMetadata) (iso : option Instant)
    (map : list (string * Group)) :
  NoDup (List.map fst map) -> NoDup (List.map fst (updateGroup d m iso map)).
Proof.
  intros ND. rewrite updateGroup_keys.
  destruct (existsb (String.eqb d) (List.map fst map)) eqn:E; [exact ND|].
  apply NoDup_app; [exact ND|repeat constructor; auto|].
  intros x Hx [Hd|[]]. subst x.
  assert (existsb (String.eqb d) (List.map fst map) = true).
  { apply existsb_exists. exists d. split; [exact Hx|apply String.eqb_refl]. }
  congruence.
Qed.

Lemma account_from (m : EmailMetadata) (iso : option Instant) (g : Group) (addr : string) :
  truthy (from m) = true ->
  (In addr (g_fromAddresses (account m iso g)) <-> In addr (g_fromAddresses g) \/ from m = addr).
Proof.
  intros Ht. unfold account; cbn [g_fromAddresses]. rewrite Ht, in_app_iff.
  simpl. tauto.
Qed.

Lemma updateGroup_has_key (d : string) (m : EmailMetadata) (iso : option Instant)
    (map : list (string * Group)) (k : string) :
  In k (List.map fst (updateGroup d m iso map)) <-> In k (List.map fst map) \/ k = d.
Proof.
  rewrite updateGroup_keys.
  destruct (existsb (String.eqb d) (List.map fst map)) eqn:E.
  - split; [auto|]. intros [H| ->]; [exact H|].
    apply existsb_exists in E as [x [Hx Hxd]]. apply String.eqb_eq in Hxd. subst x. exact Hx.
  - rewrite in_app_iff. simpl. split; intros [H|H]; auto.
    destruct H as [<-|[]]. auto.
Qed.

Lemma updateGroup_collects (seen : list EmailMetadata) (map : list (string * Group))
    (m : EmailMetadata) (d : string) (iso : option Instant) :
  collects seen map -> domainOf m = Some d ->
  collects (seen ++ [m]) (updateGroup d m iso map).
Proof.
  intros (ND & Hk & Hc) Hd. pose proof (domainOf_from m d Hd) as Ht.
  split; [apply updateGroup_NoDup; exact ND|]. split.
  { intros x dx Hx Hdx. apply updateGroup_has_key.
    apply in_app_iff in Hx as [Hx|[<-|[]]]; [left; eauto|right; congruence]. }
  intros d' g' Hin addr.
  destruct (updateGroup_In d m iso map d' g' ND Hin)
    as [[Hne Hi]|[-> [[g0 [Hi ->]]|[Hni ->]]]].
  - rewrite (Hc d' g' Hi addr). split; intros (x & Hx & Hdx & Hfx).
    + exists x. rewrite in_app_iff. auto.
    + apply in_app_iff in Hx as [Hx|[<-|[]]]; [eauto|]. congruence.
  - rewrite (account_from m iso g0 addr Ht), (Hc d g0 Hi addr). split.
    + intros [(x & Hx & Hdx & Hfx)|Hm].
      * exists x. rewrite in_app_iff. auto.
      * exists m. rewrite in_app_iff. simpl. auto.
    + intros (x & Hx & Hdx & Hfx).
      apply in_app_iff in Hx as [Hx|[<-|[]]]; [left; eauto|right; exact Hfx].
  - rewrite (account_from m iso _ addr Ht). cbn [freshGroup g_fromAddresses]. split.
    + intros [[]|Hm]. exists m. rewrite in_app_iff. simpl. auto.
    + intros (x & Hx & Hdx & Hfx).
      apply in_app_iff in Hx as [Hx|[<-|[]]]; [|right; exact Hfx].
      exfalso. apply Hni. eauto.
Qed.

Lemma groupByDomain_collects (metadataList seen : list EmailMetadata)
    (map map' : list (string * Group)) :
  collects seen map ->
  groupByDomain metadataList map = Returned map' ->
  collects (seen ++ metadataList) map'.
Proof.
  revert seen map. induction metadataList as [|m rest IH]; intros seen map Hc; cbn [groupByDomain].
  - intros [= <-]. rewrite app_nil_r. exact Hc.
  - replace (seen ++ m :: rest) with ((seen ++ [m]) ++ rest)
      by (rewrite <- app_assoc; reflexivity).
    destruct (domainOf m) as [d|] eqn:Hd.
    + destruct (isoOf m) as [iso|e]; [|discriminate].
      apply IH. apply updateGroup_collects; assumption.
    + apply IH. destruct Hc as (ND & Hk & Hc). split; [exact ND|]. split.
      * intros x dx Hx Hdx. apply in_app_iff in Hx as [Hx|[<-|[]]]; [eauto|congruence].
      * intros d g Hin addr. rewrite (Hc d g Hin addr).
        split; intros (x & Hx & Hdx & Hfx).
        -- exists x. rewrite in_app_iff. auto.
        -- apply in_app_iff in Hx as [Hx|[<-|[]]]; [eauto|congruence].
Qed.

(** What the second pass returns: one aggregate per group, in order. *)
Lemma resolveAll_results (env : Env) (entries : list (string * Group))
    (serviceIds : list (string * string)) (acc results : list DomainAggregate)
    (tr tr' : list Event) :
  run env (resolveAll entries serviceIds acc) tr = (Returned results, tr') ->
  forall r, In r results ->
    In r acc \/ exists d g sid, In (d, g) entries /\ r = aggregateOf d g sid.
Proof.
  revert serviceIds acc tr.
  induction entries as [|[d g] rest IH]; intros serviceIds acc tr; cbn [resolveAll].
  - cbn [run]. intros [= <- <-] r Hr. auto.
  - assert (Step : forall sids sid tr0,
      run env (resolveAll rest sids (acc ++ [aggregateOf d g sid])) tr0 = (Returned results, tr') ->
      forall r, In r results ->
        In r acc \/ exists d0 g0 sid0, In (d0, g0) ((d, g) :: rest) /\ r = aggregateOf d0 g0 sid0).
    { intros sids sid tr0 Hrun r Hr.
      destruct (IH _ _ _ Hrun r Hr) as [Hacc|(d0 & g0 & sid0 & Hin & ->)].
      - apply in_app_iff in Hacc as [Hacc|[<-|[]]]; [auto|].
        right. exists d, g, sid. split; [left|]; reflexivity.
      - right. exists d0, g0, sid0. split; [right; exact Hin|reflexivity]. }
    destruct (lookup d serviceIds) as [cached|]; [apply Step|].
    rewrite run_bind.
    destruct (run env (resolveService d g) tr) as [[sid|e] tr1]; [apply Step|discriminate].
Qed.

Lemma find_present (P : string -> bool) (l : list string) :
  Forall (fun e => truthy e = true) l ->
  (present (find P l) = true <-> exists e, In e l /\ P e = true).
Proof.
  intros HF. split.
  - destruct (find P l) as [e|] eqn:E; [|discriminate]. intros _.
    apply find_some in E. eauto.
  - intros (e & Hin & HP). destruct (find P l) as [x|] eqn:E.
    + apply find_some in E as [Hx _]. rewrite Forall_forall in HF. simpl. auto.
    + exfalso. pose proof (find_none _ _ E e Hin). congruence.
Qed.

Lemma contactCandidates_In (addrs : list string) (e : string) :
  In e (contactCandidates addrs) <->
  truthy e = true /\ exists addr e0, In addr addrs /\ extractEmailAddress addr = Some e0
                                      /\ e = toLowerCase e0.
Proof.
  unfold contactCandidates. rewrite filter_In, in_flat_map. split.
  - intros [(addr & Ha & He) Ht]. split; [exact Ht|].
    destruct (extractEmailAddress addr) as [e0|] eqn:E; [|contradiction].
    destruct He as [<-|[]]. eauto.
  - intros [Ht (addr & e0 & Ha & He & ->)]. split; [|exact Ht].
    exists addr. split; [exact Ha|]. rewrite He. left. reflexivity.
Qed.

Lemma likes_nonempty (e : string) :
  supportLike e || privacyLike e = true -> truthy e = true.
Proof. destruct e; [vm_compute; discriminate|reflexivity]. Qed.

(** The tier of a group is [high] exactly when one of its sender headers
    carries a support-like or privacy-like address. *)
Lemma contactOf_tier (d : string) (g : Group) :
  let '(s, p, c) := contactOf d g in
  c <> medium
  /\ (c = high <-> exists addr e, In addr (g_fromAddresses g)
                     /\ extractEmailAddress addr = Some e
                     /\ supportLike (toLowerCase e) || privacyLike (toLowerCase e) = true)
  /\ (c = low -> s = Some ("support@" ++ d)%string /\ p = Some ("privacy@" ++ d)%string).
Proof.
  unfold contactOf, extractContactEmails. cbn [fst snd].
  assert (HF : Forall (fun e => truthy e = true) (contactCandidates (g_fromAddresses g))).
  { apply Forall_forall. intros e He. apply contactCandidates_In in He. tauto. }
  pose proof (find_present supportLike _ HF) as Hs.
  pose proof (find_present privacyLike _ HF) as Hp.
  set (ps := present (find supportLike (contactCandidates (g_fromAddresses g)))) in *.
  set (pp := present (find privacyLike (contactCandidates (g_fromAddresses g)))) in *.
  assert (Hobs : ps || pp = true <->
    exists addr e, In addr (g_fromAddresses g) /\ extractEmailAddress addr = Some e
      /\ supportLike (toLowerCase e) || privacyLike (toLowerCase e) = true).
  { rewrite orb_true_iff, Hs, Hp. split.
    - intros [(e & He & HP)|(e & He & HP)];
        apply contactCandidates_In in He as [_ (addr & e0 & Ha & He0 & ->)];
        exists addr, e0; rewrite HP; auto using orb_true_r.
    - intros (addr & e & Ha & He & HP).
      assert (Hin : In (toLowerCase e) (contactCandidates (g_fromAddresses g))).
      { apply contactCandidates_In. split; [apply likes_nonempty; exact HP|eauto]. }
      apply orb_true_iff in HP as [HP|HP]; [left|right]; eauto. }
  destruct (ps || pp) eqn:E.
  - split; [discriminate|]. split; [|discriminate].
    split; [intros _; apply Hobs; reflexivity|reflexivity].
  - split; [discriminate|]. split; [|intros _; cbn [generateContactEmails fst snd]; auto].
    split; [discriminate|]. intros H. apply Hobs in H. discriminate.
Qed.

(** C10.  Every aggregate that [summarizeByDomain] returns has the tier
    [high] exactly when a support-like or privacy-like address was observed
    among the sender addresses of its group, and [low] otherwise, in which
    case both contact addresses are synthesized from the domain; the tier
    [medium] is never produced. *)
Theorem contactConfidence_high_or_low (env : Env) (metadataList : list EmailMetadata)
    (tr tr' : list Event) (results : list DomainAggregate) (r : DomainAggregate) :
  run env (summarizeByDomain metadataList) tr = (Returned results, tr') ->
  In r results ->
  contactConfidence r <> medium
  /\ (contactConfidence r = high <-> observedContact metadataList (domain r))
  /\ (contactConfidence r = low <->
        ~ observedContact metadataList (domain r)
        /\ supportEmail r = Some ("support@" ++ domain r)%string
        /\ privacyEmail r = Some ("privacy@" ++ domain r)%string).
Proof.
  unfold summarizeByDomain.
  destruct (groupByDomain metadataList []) as [map|e] eqn:G; [|discriminate].
  intros Hrun Hr.
  assert (C0 : collects [] []).
  { split; [constructor|]. split; [intros ? ? []|intros ? ? []]. }
  pose proof (groupByDomain_collects metadataList [] [] map C0 G) as (ND & Hk & Hc).
  cbn [app] in Hc.
  destruct (resolveAll_results env map [] [] results tr tr' Hrun r Hr)
    as [[]|(d & g & sid & Hin & ->)].
  pose proof (contactOf_tier d g) as T.
  unfold aggregateOf. destruct (contactOf d g) as [[s p] c].
  cbn [contactConfidence domain supportEmail privacyEmail].
  destruct T as (Hm & Hh & Hl).
  assert (Hobs : observedContact metadataList d <->
    exists addr e, In addr (g_fromAddresses g) /\ extractEmailAddress addr = Some e
      /\ supportLike (toLowerCase e) || privacyLike (toLowerCase e) = true).
  { unfold observedContact. split.
    - intros (m & e & Hm1 & Hd & He & HP). exists (from m), e.
      split; [|auto]. apply (Hc d g Hin). eauto.
    - intros (addr & e & Ha & He & HP). apply (Hc d g Hin) in Ha as (m & Hm1 & Hd & <-).
      exists m, e. auto. }
  split; [exact Hm|]. split; [rewrite Hobs; exact Hh|].
  split.
  - intros ->. split; [|apply Hl; reflexivity].
    rewrite Hobs, <- Hh. discriminate.
  - intros (Hno & _ & _). destruct c; auto.
    + exfalso. apply Hno. apply Hobs, Hh. reflexivity.
    + contradiction.
Qed.

(** *** One aggregate per domain *)

(** The canonical domains of the senders of the messages, in order. *)
Definition senders (metadataList : list EmailMetadata) : list string :=
  flat_map (fun m => match domainOf m with Some d => [d] | None => [] end) metadataList.

(** The groups are those of the domains seen, each with the number of the
    messages of its domain. *)
Definition tallies (seen : list EmailMetadata) (map : list (string * Group)) : Prop :=
  (forall d, In d (List.map fst map) -> In d (senders seen))
  /\ forall d g, In (d, g) map ->
       g_emailCount g = Z.of_nat (count_occ string_dec (senders seen) d).

Lemma senders_app (l l' : list EmailMetadata) : senders (l ++ l') = senders l ++ senders l'.
Proof. apply flat_map_app. Qed.

Lemma senders_In (seen : list EmailMetadata) (d : string) :
  In d (senders seen) <-> exists m, In m seen /\ domainOf m = Some d.
Proof.
  unfold senders. rewrite in_flat_map. split; intros (m & Hm & H); exists m; split; auto.
  - destruct (domainOf m) as [d'|]; [|contradiction]. destruct H as [->|[]]. reflexivity.
  - rewrite H. left. reflexivity.
Qed.

Lemma updateGroup_tallies (seen : list EmailMetadata) (map : list (string * Group))
    (m : EmailMetadata) (d : string) (iso : option Instant) :
  collects seen map -> tallies seen map -> domainOf m = Some d ->
  tallies (seen ++ [m]) (updateGroup d m iso map).
Proof.
  intros (ND & Hk & _) [Hs Hc] Hd.
  assert (E : senders (seen ++ [m]) = senders seen ++ [d]).
  { rewrite senders_app. unfold senders at 2. cbn [flat_map]. rewrite Hd. reflexivity. }
  unfold tallies. rewrite E. split.
  - intros k Hin. apply updateGroup_has_key in Hin. rewrite in_app_iff.
    destruct Hin as [Hin| ->]; [left; auto|right; left; reflexivity].
  - intros d' g' Hin. rewrite count_occ_app. cbn [count_occ].
    destruct (updateGroup_In d m iso map d' g' ND Hin)
      as [[Hne Hi]|[-> [[g0 [Hi ->]]|[Hni ->]]]].
    + rewrite (Hc _ _ Hi). destruct (string_dec d d'); [congruence|]. lia.
    + cbn [account g_emailCount]. rewrite (Hc _ _ Hi).
      destruct (string_dec d d); [|congruence]. lia.
    + cbn [account freshGroup g_emailCount].
      destruct (string_dec d d); [|congruence].
      assert (Hz : count_occ string_dec (senders seen) d = 0%nat).
      { apply count_occ_not_In. intros Hin'. apply senders_In in Hin' as (x & Hx & Hdx).
        apply Hni. eauto. }
      rewrite Hz. reflexivity.
Qed.

Lemma groupByDomain_tallies (metadataList seen : list EmailMetadata)
    (map map' : list (string * Group)) :
  collects seen map -> tallies seen map ->
  groupByDomain metadataList map = Returned map' ->
  tallies (seen ++ metadataList) map'.
Proof.
  revert seen map.
  induction metadataList as [|m rest IH]; intros seen map Hc Ht; cbn [groupByDomain].
  - intros [= <-]. rewrite app_nil_r. exact Ht.
  - replace (seen ++ m :: rest) with ((seen ++ [m]) ++ rest)
      by (rewrite <- app_assoc; reflexivity).
    destruct (domainOf m) as [d|] eqn:Hd.
    + destruct (isoOf m) as [iso|e]; [|discriminate].
      apply IH; [apply updateGroup_collects|apply updateGroup_tallies]; assumption.
    + assert (E : senders (seen ++ [m]) = senders seen).
      { rewrite senders_app. unfold senders at 2. cbn [flat_map]. rewrite Hd.
        apply app_nil_r. }
      apply IH.
      * destruct Hc as (ND & Hk & Hc). split; [exact ND|]. split.
        -- intros x dx Hx Hdx. apply in_app_iff in Hx as [Hx|[<-|[]]]; [eauto|congruence].
        -- intros d g Hin addr. rewrite (Hc d g Hin addr).
           split; intros (x & Hx & Hdx & Hfx).
           ++ exists x. rewrite in_app_iff. auto.
           ++ apply in_app_iff in Hx as [Hx|[<-|[]]]; [eauto|congruence].
      * unfold tallies. rewrite E. exact Ht.
Qed.

Lemma aggregateOf_domain (d : string) (g : Group) (sid : option string) :
  domain (aggregateOf d g sid) = d /\ emailCount (aggregateOf d g sid) = g_emailCount g.
Proof. unfold aggregateOf. destruct (contactOf d g) as [[s p] c]. split; reflexivity. Qed.

(** The second pass keeps the order of the groups. *)
Lemma resolveAll_domains (env : Env) (entries : list (string * Group))
    (serviceIds : list (string * string)) (acc results : list DomainAggregate)
    (tr tr' : list Event) :
  run env (resolveAll entries serviceIds acc) tr = (Returned results, tr') ->
  List.map domain results = List.map domain acc ++ List.map fst entries.
Proof.
  revert serviceIds acc tr.
  induction entries as [|[d g] rest IH]; intros serviceIds acc tr; cbn [resolveAll].
  - cbn [run]. intros [= <- <-]. rewrite app_nil_r. reflexivity.
  - assert (Step : forall sids sid tr0,
      run env (resolveAll rest sids (acc ++ [aggregateOf d g sid])) tr0 = (Returned results, tr') ->
      List.map domain results = List.map domain acc ++ List.map fst ((d, g) :: rest)).
    { intros sids sid tr0 Hrun. rewrite (IH _ _ _ Hrun), map_app, <- app_assoc.
      cbn [List.map app fst]. rewrite (proj1 (aggregateOf_domain d g sid)). reflexivity. }
    destruct (lookup d serviceIds) as [cached|]; [apply Step|].
    rewrite run_bind.
    destruct (run env (resolveService d g) tr) as [[sid|e] tr1]; [apply Step|discriminate].
Qed.

(** X13. What [summarizeByDomain] returns has one aggregate for each
    canonical sender domain of the messages and no other: no domain twice,
    and the [emailCount] of an aggregate is the number of the messages of
    its domain. *)
Theorem one_aggregate_per_sender_domain (env : Env) (metadataList : list EmailMetadata)
    (tr tr' : list Event) (results : list DomainAggregate) :
  run env (summarizeByDomain metadataList) tr = (Returned results, tr') ->
  NoDup (List.map domain results)
  /\ (forall d, In d (List.map domain results) <-> In d (senders metadataList))
  /\ (forall r, In r results ->
        emailCount r = Z.of_nat (count_occ string_dec (senders metadataList) (domain r))).
Proof.
  unfold summarizeByDomain.
  destruct (groupByDomain metadataList []) as [map|e] eqn:G; [|discriminate].
  intros Hrun.
  assert (C0 : collects [] []).
  { split; [constructor|]. split; [intros ? ? []|intros ? ? []]. }
  assert (T0 : tallies [] []) by (split; [intros ? []|intros ? ? []]).
  pose proof (groupByDomain_collects metadataList [] [] map C0 G) as (ND & Hk & _).
  pose proof (groupByDomain_tallies metadataList [] [] map C0 T0 G) as [Hs Hc].
  cbn [app] in *.
  pose proof (resolveAll_domains env map [] [] results tr tr' Hrun) as Hd. cbn [List.map app] in Hd.
  rewrite Hd. split; [exact ND|]. split.
  - intros d. split; [apply Hs|]. intros Hin. apply senders_In in Hin as (m & Hm & Hdm).
    eauto.
  - intros r Hr.
    destruct (resolveAll_results env map [] [] results tr tr' Hrun r Hr)
      as [[]|(d & g & sid & Hin & ->)].
    destruct (aggregateOf_domain d g sid) as [-> ->]. apply Hc. exact Hin.
Qed.

Lemma isoOf_thrown (m : EmailMetadata) (e : JsVal) :
  isoOf m = Thrown e -> e = rangeError "Invalid time value".
Proof.
  unfold isoOf. destruct (internalDate m); [discriminate|].
  destruct (truthy (date m)); [|discriminate].
  destruct (Date_parse (date m)); [discriminate|]. intros [= <-]. reflexivity.
Qed.

(** X14. One message with a canonical sender domain, no [internalDate]
    and a [date] that is not empty and denotes no date makes
    [summarizeByDomain] throw the [RangeError] of [toISOString], before
    any call to the store: no aggregate is returned for any message. *)
Theorem invalid_date_aborts_summary (metadataList : list EmailMetadata) (m : EmailMetadata)
    (d : string) :
  In m metadataList ->
  domainOf m = Some d ->
  internalDate m = None -> truthy (date m) = true -> Date_parse (date m) = None ->
  summarizeByDomain metadataList = Throw (rangeError "Invalid time value").
Proof.
  intros Hin Hd Hi Ht Hp.
  assert (Hiso : isoOf m = Thrown (rangeError "Invalid time value")).
  { unfold isoOf. rewrite Hi, Ht, Hp. reflexivity. }
  unfold summarizeByDomain.
  assert (H : forall map, groupByDomain metadataList map
                          = Thrown (rangeError "Invalid time value")).
  { induction metadataList as [|m' rest IH]; intros map; [contradiction|].
    cbn [groupByDomain]. destruct Hin as [->|Hin].
    - rewrite Hd, Hiso. reflexivity.
    - destruct (domainOf m') as [d'|]; [|apply IH, Hin].
      destruct (isoOf m') as [iso|e] eqn:E; [apply IH, Hin|].
      rewrite (isoOf_thrown _ _ E). reflexivity. }
  rewrite H. reflexivity.
Qed.

End WithEnvironment.

(** Two messages of one service, one of them from its support address, and
    one message of another service. *)
Definition sampleMetadata : list EmailMetadata :=
  [ {| id := "m1"; from := "Spotify <no-reply@spotify.com>";
       Store.subject := "Welcome to Spotify! Account created"; date := ""; internalDate := Some 1000 |};
    {| id := "m2"; from := "Spotify Support <support@spotify.com>";
       Store.subject := "Password reset for your Spotify account"; date := ""; internalDate := Some 3000 |};
    {| id := "m3"; from := "GitHub <noreply@github.com>";
       Store.subject := "Verify your email"; date := ""; internalDate := Some 2000 |} ].

Example sample_summary :
  fst (run calmEnv (summarizeByDomain (fun _ => None) "pk" sampleMetadata) [])
  = Returned
      [ {| domain := "spotify.com"; emailCount := 2; firstSeenAt := Some 1000;
           lastSeenAt := Some 3000; serviceId := Some "svc:spotify.com";
           subject := "Welcome to Spotify! Account created";
           subjects := ["Welcome to Spotify! Account created";
                        "Password reset for your Spotify account"];
           supportEmail := Some "support@spotify.com"; privacyEmail := None;
           contactConfidence := high |};
        {| domain := "github.com"; emailCount := 1; firstSeenAt := Some 2000;
           lastSeenAt := Some 2000; serviceId := Some "svc:github.com";
           subject := "Verify your email"; subjects := ["Verify your email"];
           supportEmail := Some "support@github.com";
           privacyEmail := Some "privacy@github.com";
           contactConfidence := low |} ].
Proof. vm_compute. reflexivity. Qed.

Lemma contactConfidence_high_or_low_witness :
  match run calmEnv (summarizeByDomain (fun _ => None) "pk" sampleMetadata) [] with
  | (Returned (r :: _), _) =>
      contactConfidence r <> medium
      /\ (contactConfidence r = high <-> observedContact sampleMetadata (domain r))
      /\ (contactConfidence r = low <->
            ~ observedContact sampleMetadata (domain r)
            /\ supportEmail r = Some ("support@" ++ domain r)%string
            /\ privacyEmail r = Some ("privacy@" ++ domain r)%string)
  | _ => False
  end.
Proof.
  destruct (run calmEnv (summarizeByDomain (fun _ => None) "pk" sampleMetadata) [])
    as [[[|r rest]|e] tr'] eqn:E; try (vm_compute in E; discriminate).
  apply (contactConfidence_high_or_low (fun _ => None) "pk" calmEnv sampleMetadata
           [] tr' (r :: rest) r E).
  left. reflexivity.
Defined.

(** The messages above and one more whose [Date] header denotes no date. *)
Definition undatedMetadata : list EmailMetadata :=
  sampleMetadata ++
  [ {| id := "m4"; from := "Acme <hello@acme.io>"; Store.subject := "Your receipt";
       date := "yesterday-ish"; internalDate := None |} ].

Lemma invalid_date_aborts_summary_witness :
  summarizeByDomain (fun _ => None) "pk" undatedMetadata
  = Throw (rangeError "Invalid time value").
Proof.
  apply (invalid_date_aborts_summary (fun _ => None) "pk" undatedMetadata
           {| id := "m4"; from := "Acme <hello@acme.io>"; Store.subject := "Your receipt";
              date := "yesterday-ish"; internalDate := None |} "acme.io");
    [right; right; right; left; reflexivity|vm_compute; reflexivity
    |reflexivity|reflexivity|reflexivity].
Defined.

Lemma one_aggregate_per_sender_domain_witness :
  match run calmEnv (summarizeByDomain (fun _ => None) "pk" sampleMetadata) [] with
  | (Returned results, _) =>
      NoDup (List.map domain results)
      /\ (forall d, In d (List.map domain results) <-> In d (senders sampleMetadata))
      /\ (forall r, In r results ->
            emailCount r
            = Z.of_nat (count_occ string_dec (senders sampleMetadata) (domain r)))
  | _ => False
  end.
Proof.
  destruct (run calmEnv (summarizeByDomain (fun _ => None) "pk" sampleMetadata) [])
    as [[results|e] tr'] eqn:E; [|vm_compute in E; discriminate].
  exact (one_aggregate_per_sender_domain (fun _ => None) "pk" calmEnv sampleMetadata
           [] tr' results E).
Defined.

End Summarize.

(* ===================================================================== *)
(** ** src/utils/cache.ts, src/utils/notify.ts, src/utils/get-user.ts *)
(* ===================================================================== *)

Module Cache.
Import Js Effects Store.
Local Open Scope prog_scope.

(** [(now.getTime() - scanDate.getTime()) / (1000 * 60 * 60)], as a
    rational number. *)
Definition hoursSince (now scanDate : Instant) : Q :=
  (inject_Z (now - scanDate) / inject_Z (1000 * 60 * 60))%Q.

(** The decision of [getIncrementalScanDate] once the row and the clock
    are read: the start of the sweep unless it is more than [maxHoursOld]
    hours old. *)
Definition scanDateIfRecent (now scanDate : Instant) (maxHoursOld : Z) : option Instant :=
  if negb (Qle_bool (hoursSince now scanDate) (inject_Z maxHoursOld))
  then None else Some scanDate.

(** [getIncrementalScanDate]. *)
Definition getIncrementalScanDate (userId : string) (maxHoursOld : Z) : Prog (option Instant) :=
  r <- call (SweepEventsLastCompleted userId) ;;
  match data r with
  | Some sweep =>
      match started_at sweep with
      | Some scanDate =>
          now <- call Now ;;
          Ret (scanDateIfRecent now scanDate maxHoursOld)
      | None => Ret None
      end
  | None => Ret None
  end.

(** [recordSweepMetrics]: an error of the insert is logged only. *)
Definition recordSweepMetrics (userId : string) (duration messagesScanned accountsFound
    breachesFound : Z) (isIncremental : bool) : Prog unit :=
  created <- call Now ;;
  _ <- call (SweepMetricsInsert
         {| sm_user_id := userId; duration_ms := duration;
            messages_scanned := messagesScanned; accounts_found := accountsFound;
            sm_breaches_found := breachesFound; is_incremental := isIncremental;
            created_at := created |}) ;;
  Ret tt.

(** [notify]. *)
Definition notify (input : Notification) : Prog unit :=
  r <- call (NotificationsInsert input) ;;
  match error r with
  | Some e => Throw e
  | None => Ret tt
  end.

(** [getUserEmail]. *)
Definition getUserEmail (userId : string) : Prog (option User) :=
  r <- call (AuthGetUserById userId) ;;
  match error r with
  | Some _ => Ret None
  | None => Ret (data r)
  end.

Lemma hoursSince_le (now scanDate maxHoursOld : Z) :
  Qle_bool (hoursSince now scanDate) (inject_Z maxHoursOld)
  = (now - scanDate <=? maxHoursOld * 3600000).
Proof.
  unfold hoursSince, Qle_bool, Qdiv, Qmult, Qinv, inject_Z. simpl.
  rewrite !Z.mul_1_r. reflexivity.
Qed.

End Cache.

(* ===================================================================== *)
(** ** src/worker.ts *)
(* ===================================================================== *)

Module Worker.
Import Str Js Effects Store Cache.
Local Open Scope list_scope.
Local Open Scope prog_scope.

(** A scored candidate: the aggregate with its confidence and category. *)
Record Candidate := {
  summary : Summarize.DomainAggregate;
  confidence : Z;
  category : string
}.

(** An aggregate read through [interface Summary]. *)
Definition asSummary (a : Summarize.DomainAggregate) : Helpers.Summary :=
  {| Helpers.domain := Some (Summarize.domain a);
     Helpers.subject := Some (Summarize.subject a);
     Helpers.subjects := Some (Summarize.subjects a);
     Helpers.from := None;
     Helpers.emailCount := Some (Summarize.emailCount a) |}.

(** [domainSummaries.map(summary => ({ ...summary, confidence, category }))] *)
Definition enrich (a : Summarize.DomainAggregate) : Candidate :=
  {| summary := a;
     confidence := Helpers.calculateConfidenceScore (asSummary a);
     category := Helpers.categorizeService (Summarize.domain a) (Summarize.subjects a) |}.

(** [list.sort((a, b) => b.confidence - a.confidence)]: the sort is
    stable, so its result is that of inserting each candidate before the
    first one that does not score more. *)
Fixpoint insertByConfidence (c : Candidate) (sorted : list Candidate) : list Candidate :=
  match sorted with
  | [] => [c]
  | d :: rest =>
      if confidence c <? confidence d then d :: insertByConfidence c rest
      else c :: sorted
  end.

Definition sortByConfidence (l : list Candidate) : list Candidate :=
  fold_right insertByConfidence [] l.

(** Step 3 after the aggregation: score, filter the spam out, sort. *)
Definition rankCandidates (domainSummaries : list Summarize.DomainAggregate) : list Candidate :=
  sortByConfidence
    (filter (fun c => negb (Helpers.isLikelySpam (asSummary (summary c))))
            (List.map enrich domainSummaries)).

(** [isFreePlan ? filteredSummaries.slice(0, 50) : filteredSummaries] *)
Definition accountsToSaveOf (currentPlan : Plan) (filteredSummaries : list Candidate)
    : list Candidate :=
  if negb (String.eqb currentPlan "pro") then firstn 50 filteredSummaries
  else filteredSummaries.

Definition userServiceRow (userId : string) (s : Candidate) : UserServiceRow :=
  {| us_user_id := userId;
     service_id := Summarize.serviceId (summary s);
     email_count := Summarize.emailCount (summary s);
     first_seen_at := Summarize.firstSeenAt (summary s);
     last_seen_at := Summarize.lastSeenAt (summary s);
     confidence_score := confidence s |}.

Definition userBreachRow (userId : string) (b : Breach) : UserBreachRow :=
  {| ub_user_id := userId; breach_name := name b; breach_date := breachDate b;
     data_classes := dataClasses b; ub_description := description b |}.

Definition len {A : Type} (l : list A) : Z := Z.of_nat (List.length l).

(** [saveSweepData]: the result of the delete and of the breach upsert is
    not looked at, the error of the service upsert is thrown. *)
Definition saveSweepData (userId : string) (summary : list Candidate) (breaches : list Breach)
    (isIncremental : bool) : Prog unit :=
  (if negb isIncremental
   then _ <- call (UserServicesDelete userId) ;; Ret tt
   else Ret tt) ;;;
  (match summary with
   | [] => Ret tt
   | _ :: _ =>
       r <- call (UserServicesUpsert (List.map (userServiceRow userId) summary)) ;;
       match error r with
       | Some e => Throw e
       | None => Ret tt
       end
   end) ;;;
  match breaches with
  | [] => Ret tt
  | _ :: _ =>
      _ <- call (UserBreachesUpsert (List.map (userBreachRow userId) breaches)) ;;
      Ret tt
  end.

Definition failureNoticeNoUser (userId : string) : Notification :=
  {| n_userId := userId; n_type := sweep_failed; title := "GhostSweep sweep failed";
     message := "We couldn't complete your latest sweep. Please try again, or reconnect Gmail.";
     metadata := MetaNone |}.

Definition failureNotice (userId : string) (err : JsVal) : Notification :=
  {| n_userId := userId; n_type := sweep_failed; title := "GhostSweep sweep failed";
     message := "We couldn’t complete your latest sweep. This often happens if your Gmail connection expired. Please reconnect Gmail and try again.";
     metadata := MetaError (toStr err) |}.

Definition completedNotice (userId : string) (totalAccountsFound breachesFound : Z) : Notification :=
  {| n_userId := userId; n_type := sweep_completed; title := "GhostSweep sweep completed";
     message := "Your inbox has been scanned and your dashboard has been updated with the latest accounts and breaches.";
     metadata := MetaCounts totalAccountsFound breachesFound |}.

Section WithConfiguration.

(** The constants read from the process environment. *)
Variables GOOGLE_CLIENT_ID GOOGLE_CLIENT_SECRET RESEND_API_KEY LOGO_DEV_PUBLISHABLE_KEY : string.
Variable Date_parse : string -> option Instant.

(** The token vault of src/utils/encryption.ts as the worker uses it: with
    the configured key, [encryptToken] throws [keyError] when the key is
    not of 32 bytes and otherwise seals the text under a fresh IV;
    [decryptToken] returns the text or throws. *)
Variable keyError : option JsVal.
Variable seal : string -> list Z -> string.
Variable decryptToken : string -> Outcome string.

(** [JSON.stringify] *)
Variable JSON_stringify : JsVal -> string.

Definition encryptToken (plain : string) : Prog string :=
  match keyError with
  | Some e => Throw e
  | None => iv <- call (RandomBytes 12) ;; Ret (seal plain iv)
  end.

Definition lift {A : Type} (o : Outcome A) : Prog A :=
  match o with
  | Returned a => Ret a
  | Thrown e => Throw e
  end.

(** [refreshAccessToken]. *)
Definition refreshAccessToken (refreshToken : string) : Prog Refreshed :=
  if negb (truthy GOOGLE_CLIENT_ID) || negb (truthy GOOGLE_CLIENT_SECRET)
  then Throw (newError "Missing GOOGLE_CLIENT_ID/GOOGLE_CLIENT_SECRET")
  else
    res <- call (OAuthTokenPost refreshToken) ;;
    match res with
    | TokenNetworkFailure e => Throw e
    | TokenResponse status json text =>
        if negb (ok status)
        then Throw (newError ("Token refresh failed: " ++ Z_to_string status ++ " " ++ text))
        else lift json
    end.

(** [gmailAccount.refresh_token_encrypted
       ? decryptToken(gmailAccount.refresh_token_encrypted) : null] *)
Definition storedRefreshToken (gmailAccount : GmailAccount) : Prog (option string) :=
  match refresh_token_encrypted gmailAccount with
  | Some enc => if truthy enc then t <- lift (decryptToken enc) ;; Ret (Some t) else Ret None
  | None => Ret None
  end.

(** The refresh, shared word for word by the proactive and the reactive
    path: exchange the refresh token, encrypt the new access token, write
    it with the new expiry to the credential record.  The result of the
    update is not looked at. *)
Definition refreshAndPersist (gmailAccount : GmailAccount) (refreshToken : string) : Prog string :=
  refreshed <- refreshAccessToken refreshToken ;;
  let accessToken := access_token refreshed in
  now <- call Now ;;
  let newExpiry := now + expires_in refreshed * 1000 in
  enc <- encryptToken accessToken ;;
  updated <- call Now ;;
  _ <- call (GmailAccountsUpdateToken (user_id gmailAccount) enc newExpiry updated) ;;
  Ret accessToken.

(** [ensureValidAccessToken]. *)
Definition ensureValidAccessToken (gmailAccount : GmailAccount) : Prog string :=
  accessToken <- lift (decryptToken (access_token_encrypted gmailAccount)) ;;
  refreshToken <- storedRefreshToken gmailAccount ;;
  now <- call Now ;;
  let nowSec := now / 1000 in
  let tokenExpirySec := option_map (fun t => t / 1000) (token_expires_at gmailAccount) in
  match tokenExpirySec, refreshToken with
  | Some expiry, Some rt =>
      if negb (expiry =? 0) && (expiry <? nowSec) && truthy rt
      then refreshAndPersist gmailAccount rt
      else Ret accessToken
  | _, _ => Ret accessToken
  end.

(** [withTokenRefresh]. *)
Definition withTokenRefresh {T : Type} (gmailAccount : GmailAccount)
    (fn : string -> Prog T) : Prog T :=
  accessToken <- ensureValidAccessToken gmailAccount ;;
  tryCatch (fn accessToken) (fun err =>
    isAuth <- lift (isGmailAuthError err) ;;
    if negb isAuth then Throw err else
    refreshToken <- storedRefreshToken gmailAccount ;;
    match refreshToken with
    | Some rt =>
        if truthy rt then
          accessToken <- refreshAndPersist gmailAccount rt ;;
          fn accessToken
        else Throw err
    | None => Throw err
    end).

(** [sendEmail]. *)
Definition sendEmail (input : EmailPayload) : Prog JsVal :=
  if negb (truthy RESEND_API_KEY) then Throw (newError "Missing RESEND_API_KEY") else
  res <- call (ResendPost input) ;;
  match res with
  | NetworkFailure e => Throw e
  | Response status json text =>
      if negb (ok status) then Throw (newError ("Failed to send email: " ++ text))
      else match json with
           | Some v => Ret v
           | None => Throw (syntaxError "Unexpected end of JSON input")
           end
  end.

(** The three components the orchestrator calls. *)
Definition listEmails (accessToken : string) (plan : Plan) (lastScanDate : option Instant)
    : Prog (list GmailMessage) :=
  r <- call (ListEmails accessToken plan lastScanDate) ;; lift r.

Definition fetchMetadataForMessages (accessToken : string) (messages : list GmailMessage)
    (plan : Plan) (sweepEventId : string) : Prog (list EmailMetadata) :=
  r <- call (FetchMetadataForMessages accessToken messages plan sweepEventId) ;; lift r.

Definition getBreaches (email : string) : Prog (list Breach) :=
  r <- call (GetBreaches email) ;; lift r.

(** The sweep from the breach check on: apply the plan limit, save, record
    the metrics, mark the job completed and notify. *)
Definition persistAndReport (userId sweepEventId : string) (user : User)
    (scanStartedAt : Instant) (currentPlan : Plan) (gmailAccount : GmailAccount)
    (isIncremental : bool) (messages : list GmailMessage)
    (filteredSummaries : list Candidate) : Prog unit :=
  breaches <- getBreaches (gmail_address gmailAccount) ;;
  let totalAccountsFound := len filteredSummaries in
  let accountsToSave := accountsToSaveOf currentPlan filteredSummaries in
  _ <- call Now ;;
  saveSweepData userId accountsToSave breaches isIncremental ;;;
  finished <- call Now ;;
  recordSweepMetrics userId (finished - scanStartedAt) (len messages) totalAccountsFound
    (len breaches) isIncremental ;;;
  completed <- call Now ;;
  updated <- call Now ;;
  _ <- call (SweepEventsUpdate sweepEventId
         (PatchCompleted completed totalAccountsFound (len breaches) updated)) ;;
  swept <- call Now ;;
  _ <- call (SubscriptionsUpdateLastSweep userId swept) ;;
  notify (completedNotice userId totalAccountsFound (len breaches)) ;;;
  ended <- call Now ;;
  _ <- sendEmail
         {| to := user_email user;
            templateId := "5c7439e4-7831-437e-98fd-5d3c6bbf20a7";
            variables := CompletedVars totalAccountsFound (len breaches) currentPlan
                           (ended - scanStartedAt) (Some (gmail_address gmailAccount)) |} ;;
  Ret tt.

(** The sweep once the scan window is chosen: list, fetch, aggregate,
    rank, then persist and report. *)
Definition sweepWindow (userId sweepEventId : string) (user : User) (scanStartedAt : Instant)
    (currentPlan : Plan) (gmailAccount : GmailAccount) (lastScanDate : option Instant)
    : Prog unit :=
  let isIncremental := match lastScanDate with Some _ => true | None => false end in
  messages <- withTokenRefresh gmailAccount
                (fun accessToken => listEmails accessToken currentPlan lastScanDate) ;;
  metadataList <- withTokenRefresh gmailAccount
                    (fun accessToken =>
                       fetchMetadataForMessages accessToken messages currentPlan sweepEventId) ;;
  domainSummaries <- Summarize.summarizeByDomain Date_parse LOGO_DEV_PUBLISHABLE_KEY metadataList ;;
  let filteredSummaries := rankCandidates domainSummaries in
  persistAndReport userId sweepEventId user scanStartedAt currentPlan gmailAccount
    isIncremental messages filteredSummaries.

(** The sweep from the choice of the scan window on. *)
Definition scanAndRank (userId sweepEventId : string) (user : User) (scanStartedAt : Instant)
    (currentPlan : Plan) (gmailAccount : GmailAccount) : Prog unit :=
  lastScanDate <- getIncrementalScanDate userId 24 ;;
  sweepWindow userId sweepEventId user scanStartedAt currentPlan gmailAccount lastScanDate.

(** The [try] block of [processSweep] up to the assignment of
    [gmailAddress]: mark the job as processing, read the plan, load the
    mailbox connection. *)
Definition loadConnection (userId sweepEventId : string) : Prog (Plan * GmailAccount) :=
  started <- call Now ;;
  updated <- call Now ;;
  _ <- call (SweepEventsUpdate sweepEventId (PatchProcessing started updated)) ;;
  subscriptionData <- call (SubscriptionsSelectPlan userId) ;;
  let currentPlan :=
    match data subscriptionData with
    | Some (Some p) => if truthy p then p else "free"%string
    | _ => "free"%string
    end in
  account <- call (GmailAccountsSelect userId) ;;
  match error account, data account with
  | None, Some gmailAccount => Ret (currentPlan, gmailAccount)
  | _, _ => Throw (newError "Gmail account not found")
  end.

(** The [catch] block of [processSweep]. *)
Definition sweepFailed (userId sweepEventId : string) (user : User)
    (gmailAddress : option string) (err : JsVal) : Prog unit :=
  completed <- call Now ;;
  updated <- call Now ;;
  _ <- call (SweepEventsUpdate sweepEventId
         (PatchFailed completed updated (JSON_stringify err))) ;;
  notify (failureNotice userId err) ;;;
  _ <- sendEmail
         {| to := user_email user;
            templateId := "2ffe31a7-325e-4f0b-9055-573dd1467899";
            variables := FailedVars
              (match gmailAddress with Some a => a | None => ""%string end)
              "We couldn’t complete your latest sweep. This usually happens if your Gmail connection expired or Google temporarily blocked access. Please reconnect Gmail from your dashboard and try again." |} ;;
  Ret tt.

(** [processSweep].  The one [try] block is written as two, before and
    after the assignment of [gmailAddress], each with the [catch] block as
    its handler: the handler reads the variable as it was when the error
    was thrown. *)
Definition processSweep (userId sweepEventId : string) : Prog unit :=
  scanStartedAt <- call Now ;;
  user <- getUserEmail userId ;;
  match user with
  | None => notify (failureNoticeNoUser userId)
  | Some user =>
      loaded <- tryCatch
                  (x <- loadConnection userId sweepEventId ;; Ret (Some x))
                  (fun err => sweepFailed userId sweepEventId user None err ;;; Ret None) ;;
      match loaded with
      | None => Ret tt
      | Some (currentPlan, gmailAccount) =>
          tryCatch
            (scanAndRank userId sweepEventId user scanStartedAt currentPlan gmailAccount)
            (sweepFailed userId sweepEventId user (Some (gmail_address gmailAccount)))
      end
  end.

(** *** The calls of the parts of the sweep *)

(** [Q] holds of every event that is not a call of the lister. *)
Definition besidesLister (Q : Event -> Prop) : Prop :=
  forall ev, listerSince ev = None -> Q ev.

Ltac quiet_call :=
  lazymatch goal with
  | H : besidesLister ?Q |- ?Q _ => apply H; reflexivity
  end.

Ltac quiet := repeat (always_step; try quiet_call).

Lemma quiet_notify (Q : Event -> Prop) (n : Notification) :
  besidesLister Q -> always Q (notify n).
Proof. intros HQ. unfold notify. quiet. Qed.

Lemma quiet_getUserEmail (Q : Event -> Prop) (userId : string) :
  besidesLister Q -> always Q (getUserEmail userId).
Proof. intros HQ. unfold getUserEmail. quiet. Qed.

Lemma quiet_sendEmail (Q : Event -> Prop) (input : EmailPayload) :
  besidesLister Q -> always Q (sendEmail input).
Proof. intros HQ. unfold sendEmail. quiet. Qed.

Lemma quiet_sweepFailed (Q : Event -> Prop) (userId sweepEventId : string) (user : User)
    (gmailAddress : option string) (err : JsVal) :
  besidesLister Q -> always Q (sweepFailed userId sweepEventId user gmailAddress err).
Proof.
  intros HQ. unfold sweepFailed.
  quiet; auto using quiet_notify, quiet_sendEmail.
Qed.

Lemma quiet_loadConnection (Q : Event -> Prop) (userId sweepEventId : string) :
  besidesLister Q -> always Q (loadConnection userId sweepEventId).
Proof. intros HQ. unfold loadConnection. quiet. Qed.

Lemma quiet_getIncrementalScanDate (Q : Event -> Prop) (userId : string) (h : Z) :
  besidesLister Q -> always Q (getIncrementalScanDate userId h).
Proof. intros HQ. unfold getIncrementalScanDate. quiet. Qed.

Lemma quiet_refreshAndPersist (Q : Event -> Prop) (gmailAccount : GmailAccount) (rt : string) :
  besidesLister Q -> always Q (refreshAndPersist gmailAccount rt).
Proof.
  intros HQ. unfold refreshAndPersist, refreshAccessToken, encryptToken, lift. quiet.
Qed.

Lemma quiet_storedRefreshToken (Q : Event -> Prop) (gmailAccount : GmailAccount) :
  always Q (storedRefreshToken gmailAccount).
Proof. unfold storedRefreshToken, lift. quiet. Qed.

Lemma quiet_ensureValidAccessToken (Q : Event -> Prop) (gmailAccount : GmailAccount) :
  besidesLister Q -> always Q (ensureValidAccessToken gmailAccount).
Proof.
  intros HQ. unfold ensureValidAccessToken, lift.
  quiet; auto using quiet_storedRefreshToken, quiet_refreshAndPersist.
Qed.

(** The calls of [withTokenRefresh] are those of the operation and calls
    that are not of the lister. *)
Lemma quiet_withTokenRefresh {T : Type} (Q : Event -> Prop) (gmailAccount : GmailAccount)
    (fn : string -> Prog T) :
  besidesLister Q -> (forall t, always Q (fn t)) ->
  always Q (withTokenRefresh gmailAccount fn).
Proof.
  intros HQ Hfn. unfold withTokenRefresh, lift.
  quiet; auto using quiet_ensureValidAccessToken, quiet_storedRefreshToken,
    quiet_refreshAndPersist.
Qed.

Lemma quiet_resolveAll (Q : Event -> Prop) (entries : list (string * Summarize.Group))
    (serviceIds : list (string * string)) (acc : list Summarize.DomainAggregate) :
  besidesLister Q ->
  always Q (Summarize.resolveAll LOGO_DEV_PUBLISHABLE_KEY entries serviceIds acc).
Proof.
  intros HQ. revert serviceIds acc.
  induction entries as [|[d g] rest IH]; intros serviceIds acc; cbn [Summarize.resolveAll].
  - exact I.
  - destruct (lookup d serviceIds); [apply IH|].
    apply always_bind; [|intros sid; apply IH].
    unfold Summarize.resolveService. quiet.
Qed.

Lemma quiet_summarizeByDomain (Q : Event -> Prop) (metadataList : list EmailMetadata) :
  besidesLister Q ->
  always Q (Summarize.summarizeByDomain Date_parse LOGO_DEV_PUBLISHABLE_KEY metadataList).
Proof.
  intros HQ. unfold Summarize.summarizeByDomain.
  destruct (Summarize.groupByDomain Date_parse metadataList []); [|exact I].
  apply quiet_resolveAll; exact HQ.
Qed.

Lemma quiet_saveSweepData (Q : Event -> Prop) (userId : string) (summary : list Candidate)
    (breaches : list Breach) (isIncremental : bool) :
  besidesLister Q -> always Q (saveSweepData userId summary breaches isIncremental).
Proof. intros HQ. unfold saveSweepData. quiet. Qed.

Lemma quiet_persistAndReport (Q : Event -> Prop) (userId sweepEventId : string) (user : User)
    (scanStartedAt : Instant) (currentPlan : Plan) (gmailAccount : GmailAccount)
    (isIncremental : bool) (messages : list GmailMessage) (filteredSummaries : list Candidate) :
  besidesLister Q ->
  always Q (persistAndReport userId sweepEventId user scanStartedAt currentPlan gmailAccount
              isIncremental messages filteredSummaries).
Proof.
  intros HQ. unfold persistAndReport, getBreaches, recordSweepMetrics, lift.
  quiet; auto using quiet_saveSweepData, quiet_notify, quiet_sendEmail.
Qed.

(** *** Full or incremental scan *)

(** The lister is only called with the since-instant [X]. *)
Definition sinceIs (X : option Instant) (ev : Event) : Prop :=
  forall s, listerSince ev = Some s -> s = X.

Definition noLister (ev : Event) : Prop := listerSince ev = None.

Lemma besidesLister_sinceIs (X : option Instant) : besidesLister (sinceIs X).
Proof. intros ev H s Hs. congruence. Qed.

Lemma besidesLister_noLister : besidesLister noLister.
Proof. intros ev H. exact H. Qed.

Lemma noLister_sinceIs (X : option Instant) (l : list Event) :
  Forall noLister l -> Forall (sinceIs X) l.
Proof.
  apply Forall_impl. intros ev H s Hs. unfold noLister in H. congruence.
Qed.

(** What [getIncrementalScanDate userId 24] returns, given the row of the
    most recent completed sweep and the clock. *)
Definition scanWindow (r : DbResult SweepRow) (now : Instant) : option Instant :=
  match data r with
  | Some sweep =>
      match started_at sweep with
      | Some scanDate => scanDateIfRecent now scanDate 24
      | None => None
      end
  | None => None
  end.

Lemma scanWindow_spec (r : DbResult SweepRow) (now start : Instant) :
  scanWindow r now = Some start <->
  exists sweep, data r = Some sweep /\ started_at sweep = Some start
                /\ now - start <= 24 * 3600000.
Proof.
  unfold scanWindow, scanDateIfRecent.
  destruct (data r) as [sweep|].
  - destruct (started_at sweep) as [d|] eqn:Es.
    + rewrite hoursSince_le.
      destruct (Z.leb_spec (now - d) (24 * 3600000)) as [H|H]; cbn [negb].
      * split.
        -- intros [= <-]. exists sweep. auto.
        -- intros (sw & [= <-] & Hs & _). congruence.
      * split; [discriminate|]. intros (sw & [= <-] & Hs & Hle).
        assert (d = start) by congruence. subst. lia.
    + split; [discriminate|]. intros (sw & [= <-] & Hs & _). congruence.
  - split; [discriminate|]. intros (sw & Hd & _). discriminate.
Qed.

Lemma always_sweepWindow (userId sweepEventId : string) (user : User)
    (scanStartedAt : Instant) (currentPlan : Plan) (gmailAccount : GmailAccount)
    (lastScanDate : option Instant) :
  always (sinceIs lastScanDate)
    (sweepWindow userId sweepEventId user scanStartedAt currentPlan gmailAccount lastScanDate).
Proof.
  pose proof (besidesLister_sinceIs lastScanDate) as HQ.
  unfold sweepWindow. cbv zeta.
  apply always_bind.
  { apply quiet_withTokenRefresh; [exact HQ|]. intros t. unfold listEmails, lift.
    apply always_bind; [|intros []; exact I].
    apply always_call. intros r s [= <-]. reflexivity. }
  intros messages. apply always_bind.
  { apply quiet_withTokenRefresh; [exact HQ|]. intros t.
    unfold fetchMetadataForMessages, lift. quiet. }
  intros metadataList. apply always_bind.
  { apply quiet_summarizeByDomain; exact HQ. }
  intros domainSummaries. apply quiet_persistAndReport; exact HQ.
Qed.

(** The run of the sweep from the choice of the window on: the store is
    asked for the most recent completed sweep, and the lister is then only
    called with the window computed from the row and the clock. *)
Lemma scanAndRank_since (env : Env) (userId sweepEventId : string) (user : User)
    (scanStartedAt : Instant) (currentPlan : Plan) (gmailAccount : GmailAccount)
    (tr0 : list Event) (r : DbResult SweepRow) (now : Instant) :
  env _ tr0 (SweepEventsLastCompleted userId) = r ->
  env _ (tr0 ++ [event (SweepEventsLastCompleted userId) r]) Now = now ->
  exists more,
    snd (run env (scanAndRank userId sweepEventId user scanStartedAt currentPlan gmailAccount) tr0)
    = tr0 ++ event (SweepEventsLastCompleted userId) r :: more
    /\ Forall (sinceIs (scanWindow r now)) more.
Proof.
  intros Hr Hnow. unfold scanAndRank, getIncrementalScanDate.
  cbn [run bind call]. rewrite Hr. unfold scanWindow.
  destruct (data r) as [sweep|]; [destruct (started_at sweep) as [d|]|].
  - cbn [run bind call]. rewrite Hnow.
    destruct (run_after _ _ (sweepWindow userId sweepEventId user scanStartedAt currentPlan
                gmailAccount (scanDateIfRecent now d 24)) env
                ((tr0 ++ [event (SweepEventsLastCompleted userId) r]) ++ [event Now now])
                (always_sweepWindow _ _ _ _ _ _ _)) as [more [Hm HF]].
    exists (event Now now :: more). rewrite Hm, <- !app_assoc. split; [reflexivity|].
    constructor; [intros s [=]|exact HF].
  - cbn [run bind].
    destruct (run_after _ _ (sweepWindow userId sweepEventId user scanStartedAt currentPlan
                gmailAccount None) env
                (tr0 ++ [event (SweepEventsLastCompleted userId) r])
                (always_sweepWindow _ _ _ _ _ _ _)) as [more [Hm HF]].
    exists more. rewrite Hm, <- app_assoc. split; [reflexivity|exact HF].
  - cbn [run bind].
    destruct (run_after _ _ (sweepWindow userId sweepEventId user scanStartedAt currentPlan
                gmailAccount None) env
                (tr0 ++ [event (SweepEventsLastCompleted userId) r])
                (always_sweepWindow _ _ _ _ _ _ _)) as [more [Hm HF]].
    exists more. rewrite Hm, <- app_assoc. split; [reflexivity|exact HF].
Qed.

(** The run of a whole sweep: either the lister is never called, or the
    store is asked for the most recent completed sweep and every later call
    of the lister carries the window computed from its answer. *)
Lemma processSweep_lister (env : Env) (userId sweepEventId : string) (tr : list Event) :
  exists more,
    snd (run env (processSweep userId sweepEventId) tr) = tr ++ more
    /\ (Forall noLister more
        \/ exists pre rest,
             more = pre ++ event (SweepEventsLastCompleted userId)
                              (env _ (tr ++ pre) (SweepEventsLastCompleted userId)) :: rest
             /\ Forall noLister pre
             /\ Forall (sinceIs
                  (scanWindow (env _ (tr ++ pre) (SweepEventsLastCompleted userId))
                     (env _ ((tr ++ pre) ++ [event (SweepEventsLastCompleted userId)
                                (env _ (tr ++ pre) (SweepEventsLastCompleted userId))]) Now)))
                  rest).
Proof.
  pose proof besidesLister_noLister as HQ.
  unfold processSweep. cbn [run bind call].
  set (t := env _ tr Now). set (tr1 := tr ++ [event Now t]).
  assert (E0 : noLister (event Now t)) by reflexivity.
  rewrite run_bind.
  destruct (run_after _ _ (getUserEmail userId) env tr1 (quiet_getUserEmail _ userId HQ))
    as [m1 [Hm1 HF1]].
  destruct (run env (getUserEmail userId) tr1) as [[user|e] tr2]; cbn [snd] in Hm1; subst tr2;
    [|exists (event Now t :: m1); unfold tr1; rewrite <- app_assoc; split;
      [reflexivity|left; constructor; assumption]].
  destruct user as [user|].
  2:{ destruct (run_after _ _ (notify (failureNoticeNoUser userId)) env (tr1 ++ m1)
                  (quiet_notify _ _ HQ)) as [m2 [Hm2 HF2]].
      exists (event Now t :: m1 ++ m2). rewrite Hm2. unfold tr1. rewrite <- !app_assoc.
      split; [reflexivity|]. left. constructor; [assumption|]. apply Forall_app; auto. }
  rewrite run_bind.
  set (load := tryCatch (x <- loadConnection userId sweepEventId;; Ret (Some x))
                 (fun err => sweepFailed userId sweepEventId user None err;;; Ret None)).
  assert (Hload : always noLister load).
  { unfold load. apply always_tryCatch.
    - apply always_bind; [apply quiet_loadConnection; exact HQ|intros ?; exact I].
    - intros err. apply always_bind; [apply quiet_sweepFailed; exact HQ|intros ?; exact I]. }
  destruct (run_after _ _ load env (tr1 ++ m1) Hload) as [m2 [Hm2 HF2]].
  assert (Hpre : Forall noLister (event Now t :: m1 ++ m2)).
  { constructor; [assumption|]. apply Forall_app; auto. }
  destruct (run env load (tr1 ++ m1)) as [[loaded|e] tr3]; cbn [snd] in Hm2; subst tr3;
    [|exists (event Now t :: m1 ++ m2); unfold tr1; rewrite <- !app_assoc; split;
      [reflexivity|left; assumption]].
  destruct loaded as [[currentPlan gmailAccount]|];
    [|exists (event Now t :: m1 ++ m2); cbn [run snd]; unfold tr1; rewrite <- !app_assoc;
      split; [reflexivity|left; assumption]].
  rewrite run_tryCatch.
  set (tr0 := (tr1 ++ m1) ++ m2).
  assert (Htr0 : tr0 = tr ++ (event Now t :: m1 ++ m2)).
  { unfold tr0, tr1. rewrite <- !app_assoc. reflexivity. }
  destruct (scanAndRank_since env userId sweepEventId user t currentPlan gmailAccount tr0
              _ _ eq_refl eq_refl) as [more [Hmore HFm]].
  set (r := env _ tr0 (SweepEventsLastCompleted userId)) in *.
  set (now := env _ (tr0 ++ [event (SweepEventsLastCompleted userId) r]) Now) in *.
  destruct (run env (scanAndRank userId sweepEventId user t currentPlan gmailAccount) tr0)
    as [[[]|e] tr4]; cbn [snd] in Hmore; subst tr4.
  - exists ((event Now t :: m1 ++ m2) ++ event (SweepEventsLastCompleted userId) r :: more).
    cbn [snd]. split; [rewrite Htr0, <- app_assoc; reflexivity|].
    right. exists (event Now t :: m1 ++ m2), more.
    rewrite <- Htr0. fold r. fold now. auto.
  - destruct (run_after _ _ (sweepFailed userId sweepEventId user
                (Some (gmail_address gmailAccount)) e) env
                (tr0 ++ event (SweepEventsLastCompleted userId) r :: more)
                (quiet_sweepFailed _ _ _ _ _ _ (besidesLister_sinceIs (scanWindow r now))))
      as [m5 [Hm5 HF5]].
    exists ((event Now t :: m1 ++ m2) ++ event (SweepEventsLastCompleted userId) r :: more ++ m5).
    rewrite Hm5. split.
    { rewrite Htr0, <- !app_assoc. cbn [app]. rewrite <- !app_assoc. reflexivity. }
    right. exists (event Now t :: m1 ++ m2), (more ++ m5).
    rewrite <- Htr0. fold r. fold now. repeat split; auto. apply Forall_app; auto.
Qed.

(** C1 (amended).  In every sweep that reaches the lister, the store was
    asked for the most recent completed sweep of the user and the clock was
    read, and the lister is handed the start instant of that sweep as the
    since-instant (an incremental scan) if and only if that sweep started
    at most 24 hours before the clock reading; otherwise it is handed no
    since-instant (a full lookback scan). *)
Theorem incremental_iff_recent_start (env : Env) (userId sweepEventId : string) :
  let tr' := snd (run env (processSweep userId sweepEventId) []) in
  Forall noLister tr'
  \/ exists tr0 rest,
       let r := env _ tr0 (SweepEventsLastCompleted userId) in
       let now := env _ (tr0 ++ [event (SweepEventsLastCompleted userId) r]) Now in
       tr' = tr0 ++ event (SweepEventsLastCompleted userId) r :: rest
       /\ forall ev since, In ev tr' -> listerSince ev = Some since ->
            forall start,
              since = Some start
              <-> exists sweep, data r = Some sweep /\ started_at sweep = Some start
                                /\ now - start <= 24 * 3600000.
Proof.
  cbv zeta.
  destruct (processSweep_lister env userId sweepEventId []) as [more [Hm H]].
  cbn [app] in Hm, H. rewrite Hm.
  destruct H as [H|(pre & rest & Hmore & Hpre & Hrest)]; [left; exact H|].
  right. exists pre, rest. split; [exact Hmore|].
  intros ev since Hin Hs start. rewrite <- scanWindow_spec.
  assert (Hall : Forall (sinceIs
            (scanWindow (env _ pre (SweepEventsLastCompleted userId))
               (env _ (pre ++ [event (SweepEventsLastCompleted userId)
                          (env _ pre (SweepEventsLastCompleted userId))]) Now))) more).
  { rewrite Hmore. apply Forall_app. split; [apply noLister_sinceIs; exact Hpre|].
    constructor; [intros s [=]|exact Hrest]. }
  rewrite Forall_forall in Hall. rewrite (Hall ev Hin since Hs). tauto.
Qed.

(** *** Refreshing the access token *)

(** The update of the credential record that the event is, if it is one:
    the encrypted token, the expiry, and the error it resolved with. *)
Definition tokenUpdateOf (ev : Event) : option (string * Instant * option JsVal) :=
  match projT2 ev with
  | (c, r) =>
      match c in Cmd R0 return R0 -> option (string * Instant * option JsVal) with
      | GmailAccountsUpdateToken _ enc expiry _ => fun r => Some (enc, expiry, error r)
      | _ => fun _ => None
      end r
  end.

(** A refresh that throws has written nothing. *)
Lemma refreshAndPersist_throws (env : Env) (gmailAccount : GmailAccount) (rt : string)
    (tr tr' : list Event) (e : JsVal) :
  run env (refreshAndPersist gmailAccount rt) tr = (Thrown e, tr') ->
  exists more, tr' = tr ++ more /\ forallb (fun ev => negb (isStoreWrite ev)) more = true.
Proof.
  unfold refreshAndPersist, refreshAccessToken, encryptToken, lift.
  destruct (negb (truthy GOOGLE_CLIENT_ID) || negb (truthy GOOGLE_CLIENT_SECRET)).
  { cbn [run bind]. intros [= <- <-]. exists []. rewrite app_nil_r. auto. }
  cbn [run bind call].
  set (res := env _ tr (OAuthTokenPost rt)).
  assert (One : exists more, tr ++ [event (OAuthTokenPost rt) res] = tr ++ more
                  /\ forallb (fun ev => negb (isStoreWrite ev)) more = true)
    by (eexists; split; reflexivity).
  destruct res as [e0|status json text] eqn:Eres; [cbn [run bind]; intros [= <- <-]; exact One|].
  destruct (negb (ok status)); [cbn [run bind]; intros [= <- <-]; exact One|].
  destruct json as [refreshed|e0]; [|cbn [run bind]; intros [= <- <-]; exact One].
  cbn [run bind call].
  destruct keyError as [e0|].
  - cbn [run bind]. intros [= <- <-]. eexists. rewrite <- !app_assoc. split; reflexivity.
  - cbn [run bind call]. discriminate.
Qed.

(** [storedRefreshToken] makes no call. *)
Lemma run_storedRefreshToken (env : Env) (gmailAccount : GmailAccount) (tr : list Event) :
  run env (storedRefreshToken gmailAccount) tr
  = (match refresh_token_encrypted gmailAccount with
     | Some enc =>
         if truthy enc then
           match decryptToken enc with
           | Returned t => Returned (Some t)
           | Thrown e => Thrown e
           end
         else Returned None
     | None => Returned None
     end, tr).
Proof.
  unfold storedRefreshToken, lift.
  destruct (refresh_token_encrypted gmailAccount) as [enc|]; [|reflexivity].
  destruct (truthy enc); [|reflexivity].
  destruct (decryptToken enc); reflexivity.
Qed.

(** A refresh whose exchange of the refresh token succeeds and whose
    encryption does not throw: its five calls, what it writes, and that
    it returns the new token whatever the update resolves with. *)
Lemma run_refreshAndPersist (env : Env) (gmailAccount : GmailAccount) (rt : string)
    (tr : list Event) (status : Z) (refreshed : Refreshed) (text : string) :
  truthy GOOGLE_CLIENT_ID = true -> truthy GOOGLE_CLIENT_SECRET = true ->
  keyError = None ->
  env _ tr (OAuthTokenPost rt) = TokenResponse status (Returned refreshed) text ->
  ok status = true ->
  let t1 := tr ++ [event (OAuthTokenPost rt)
                     (TokenResponse status (Returned refreshed) text)] in
  let now := env _ t1 Now in
  let t2 := t1 ++ [event Now now] in
  let iv := env _ t2 (RandomBytes 12) in
  let t3 := t2 ++ [event (RandomBytes 12) iv] in
  let updated := env _ t3 Now in
  let t4 := t3 ++ [event Now updated] in
  let write := GmailAccountsUpdateToken (user_id gmailAccount)
                 (seal (access_token refreshed) iv)
                 (now + expires_in refreshed * 1000) updated in
  run env (refreshAndPersist gmailAccount rt) tr
  = (Returned (access_token refreshed), t4 ++ [event write (env _ t4 write)]).
Proof.
  intros Hid Hsecret Hkey Hres Hok. cbv zeta.
  unfold refreshAndPersist, refreshAccessToken, encryptToken, lift.
  rewrite Hid, Hsecret, Hkey. cbn [negb orb run bind call].
  rewrite Hres. rewrite Hok. cbn [negb run bind call]. reflexivity.
Qed.

(** Only such a refresh returns. *)
Lemma refreshAndPersist_returned (env : Env) (gmailAccount : GmailAccount) (rt : string)
    (tr tr' : list Event) (tok : string) :
  run env (refreshAndPersist gmailAccount rt) tr = (Returned tok, tr') ->
  exists status refreshed text,
    truthy GOOGLE_CLIENT_ID = true /\ truthy GOOGLE_CLIENT_SECRET = true
    /\ keyError = None
    /\ env _ tr (OAuthTokenPost rt) = TokenResponse status (Returned refreshed) text
    /\ ok status = true.
Proof.
  unfold refreshAndPersist, refreshAccessToken, encryptToken, lift.
  destruct (truthy GOOGLE_CLIENT_ID) eqn:Hid; [|cbn [negb orb run bind]; discriminate].
  destruct (truthy GOOGLE_CLIENT_SECRET) eqn:Hsecret;
    [|cbn [negb orb run bind]; discriminate].
  cbn [negb orb run bind call].
  destruct (env _ tr (OAuthTokenPost rt)) as [e|status json text] eqn:Hres;
    [cbn [run bind]; discriminate|].
  destruct (ok status) eqn:Hok; [|cbn [negb run bind]; discriminate].
  destruct json as [refreshed|e]; [|cbn [negb run bind]; discriminate].
  cbn [negb run bind call].
  destruct keyError as [e|] eqn:Hkey; [cbn [run bind]; discriminate|].
  intros _. exists status, refreshed, text. auto.
Qed.

(** C2 (amended).  Every refresh, proactive or reactive, writes the new
    encrypted access token and the new expiry to the credential record and
    awaits the update before the operation is tried again; an error thrown
    while refreshing or encrypting aborts without a retry.  The result of
    the update is not inspected: the retry runs with the new token whatever
    the update resolved with.

    The new token is [access_token] of the body of the token response,
    written sealed under the IV drawn for it; the new expiry is the
    reading of the clock after the token response plus [expires_in]
    seconds. *)
Theorem refresh_written_before_retry :
  (* a refresh that returns has made these five calls and no other: the
     exchange of the refresh token, which succeeded, the clock, the IV, the
     clock, and last the update of the credential record with the new
     token and the new expiry; it returns the new token *)
  (forall (env : Env) gmailAccount rt tr tr' tok,
     run env (refreshAndPersist gmailAccount rt) tr = (Returned tok, tr') ->
     exists status refreshed text,
       env _ tr (OAuthTokenPost rt) = TokenResponse status (Returned refreshed) text
       /\ ok status = true
       /\ tok = access_token refreshed
       /\ let t1 := tr ++ [event (OAuthTokenPost rt)
                             (TokenResponse status (Returned refreshed) text)] in
          let now := env _ t1 Now in
          let t2 := t1 ++ [event Now now] in
          let iv := env _ t2 (RandomBytes 12) in
          let t3 := t2 ++ [event (RandomBytes 12) iv] in
          let updated := env _ t3 Now in
          let t4 := t3 ++ [event Now updated] in
          let write := GmailAccountsUpdateToken (user_id gmailAccount)
                         (seal (access_token refreshed) iv)
                         (now + expires_in refreshed * 1000) updated in
          tr' = t4 ++ [event write (env _ t4 write)])
  (* the result of the update is not inspected: once the exchange has
     succeeded and the key is in order, the refresh returns the new token
     whatever the store answers to the update, an error included *)
  /\ (forall (env : Env) gmailAccount rt tr status refreshed text,
        truthy GOOGLE_CLIENT_ID = true -> truthy GOOGLE_CLIENT_SECRET = true ->
        keyError = None ->
        env _ tr (OAuthTokenPost rt) = TokenResponse status (Returned refreshed) text ->
        ok status = true ->
        let t1 := tr ++ [event (OAuthTokenPost rt)
                           (TokenResponse status (Returned refreshed) text)] in
        let now := env _ t1 Now in
        let t2 := t1 ++ [event Now now] in
        let iv := env _ t2 (RandomBytes 12) in
        let t3 := t2 ++ [event (RandomBytes 12) iv] in
        let updated := env _ t3 Now in
        let t4 := t3 ++ [event Now updated] in
        let write := GmailAccountsUpdateToken (user_id gmailAccount)
                       (seal (access_token refreshed) iv)
                       (now + expires_in refreshed * 1000) updated in
        let answer := env _ t4 write in
        run env (refreshAndPersist gmailAccount rt) tr
        = (Returned (access_token refreshed), t4 ++ [event write answer]))
  (* a refresh that throws has written nothing to the store *)
  /\ (forall (env : Env) gmailAccount rt tr tr' e,
        run env (refreshAndPersist gmailAccount rt) tr = (Thrown e, tr') ->
        exists more, tr' = tr ++ more
                     /\ forallb (fun ev => negb (isStoreWrite ev)) more = true)
  (* the proactive refresh: the token handed to the operation is the stored
     one, or the one returned by a refresh *)
  /\ (forall (env : Env) gmailAccount tr tr' tok,
        run env (ensureValidAccessToken gmailAccount) tr = (Returned tok, tr') ->
        (decryptToken (access_token_encrypted gmailAccount) = Returned tok
         /\ exists now, tr' = tr ++ [event Now now])
        \/ exists rt now,
             run env (refreshAndPersist gmailAccount rt) (tr ++ [event Now now])
             = (Returned tok, tr'))
  (* the proactive refresh is made when the stored expiry, in seconds, is
     not zero and lies before the clock, and a refresh token is stored *)
  /\ (forall (env : Env) gmailAccount tr tok0 enc rt expires,
        decryptToken (access_token_encrypted gmailAccount) = Returned tok0 ->
        refresh_token_encrypted gmailAccount = Some enc -> truthy enc = true ->
        decryptToken enc = Returned rt -> truthy rt = true ->
        token_expires_at gmailAccount = Some expires ->
        expires / 1000 <> 0 -> expires / 1000 < env _ tr Now / 1000 ->
        run env (ensureValidAccessToken gmailAccount) tr
        = run env (refreshAndPersist gmailAccount rt)
            (tr ++ [event Now (env _ tr Now)]))
  (* the reactive refresh: after an authentication error the operation is
     run again with the token of the refresh, from the trace the refresh
     ended with, and a refresh that throws is not followed by a retry *)
  /\ (forall (env : Env) (T : Type) gmailAccount (fn : string -> Prog T)
             tr tok0 tr1 err tr2 enc rt,
        run env (ensureValidAccessToken gmailAccount) tr = (Returned tok0, tr1) ->
        run env (fn tok0) tr1 = (Thrown err, tr2) ->
        isGmailAuthError err = Returned true ->
        refresh_token_encrypted gmailAccount = Some enc -> truthy enc = true ->
        decryptToken enc = Returned rt -> truthy rt = true ->
        run env (withTokenRefresh gmailAccount fn) tr
        = match run env (refreshAndPersist gmailAccount rt) tr2 with
          | (Returned tok1, tr3) => run env (fn tok1) tr3
          | (Thrown e, tr3) => (Thrown e, tr3)
          end).
Proof.
  split; [|split; [|split; [|split; [|split]]]].
  - intros env gmailAccount rt tr tr' tok H.
    destruct (refreshAndPersist_returned env gmailAccount rt tr tr' tok H)
      as (status & refreshed & text & Hid & Hsecret & Hkey & Hres & Hok).
    rewrite (run_refreshAndPersist env gmailAccount rt tr status refreshed text
               Hid Hsecret Hkey Hres Hok) in H.
    cbv zeta in H. injection H as <- <-.
    exists status, refreshed, text. auto.
  - intros env gmailAccount rt tr status refreshed text Hid Hsecret Hkey Hres Hok.
    exact (run_refreshAndPersist env gmailAccount rt tr status refreshed text
             Hid Hsecret Hkey Hres Hok).
  - intros env gmailAccount rt tr tr' e. apply refreshAndPersist_throws.
  - intros env gmailAccount tr tr' tok. unfold ensureValidAccessToken.
    rewrite run_bind. unfold lift at 1.
    destruct (decryptToken (access_token_encrypted gmailAccount)) as [tok0|e];
      [|cbn [run]; discriminate].
    cbn [run]. rewrite run_bind, run_storedRefreshToken.
    set (stored := match refresh_token_encrypted gmailAccount with
                   | Some enc => _ | None => _ end).
    destruct stored as [refreshToken|e]; [|discriminate].
    cbn [run bind call].
    destruct (option_map (fun t => t / 1000) (token_expires_at gmailAccount)) as [expiry|].
    + destruct refreshToken as [rt|].
      * destruct (negb (expiry =? 0) && (expiry <? env _ tr Now / 1000) && truthy rt).
        -- intros H. right. exists rt, (env _ tr Now). exact H.
        -- cbn [run]. intros [= <- <-]. left. eauto.
      * cbn [run]. intros [= <- <-]. left. eauto.
    + cbn [run]. intros [= <- <-]. left. eauto.
  - intros env gmailAccount tr tok0 enc rt expires Htok Henc Htenc Hdec Htrt Hexp Hnz Hlt.
    unfold ensureValidAccessToken.
    rewrite run_bind, Htok. cbn [lift run].
    rewrite run_bind, run_storedRefreshToken, Henc, Htenc, Hdec, Hexp.
    cbn [run bind call option_map]. rewrite Htrt.
    destruct (Z.eqb_spec (expires / 1000) 0) as [E|_]; [contradiction|].
    destruct (Z.ltb_spec (expires / 1000) (env _ tr Now / 1000)) as [_|E]; [|lia].
    reflexivity.
  - intros env T gmailAccount fn tr tok0 tr1 err tr2 enc rt H1 H2 Hauth Henc Htenc Hdec Htrt.
    unfold withTokenRefresh.
    rewrite run_bind, H1, run_tryCatch, H2, run_bind, Hauth.
    cbn [lift run negb]. rewrite run_bind, run_storedRefreshToken, Henc, Htenc, Hdec, Htrt.
    rewrite run_bind.
    destruct (run env (refreshAndPersist gmailAccount rt) tr2) as [[tok1|e] tr3]; reflexivity.
Qed.

(** *** The plan limit *)

(** Scores do not increase along the list. *)
Definition Descending (l : list Candidate) : Prop :=
  StronglySorted (fun a b => confidence b <= confidence a) l.

Lemma insertByConfidence_perm (c : Candidate) (l : list Candidate) :
  Permutation (c :: l) (insertByConfidence c l).
Proof.
  induction l as [|d l IH]; cbn [insertByConfidence]; [reflexivity|].
  destruct (confidence c <? confidence d); [|reflexivity].
  rewrite perm_swap. apply perm_skip. exact IH.
Qed.

Lemma sortByConfidence_perm (l : list Candidate) : Permutation l (sortByConfidence l).
Proof.
  induction l as [|c l IH]; cbn [sortByConfidence fold_right]; [reflexivity|].
  rewrite <- insertByConfidence_perm. apply perm_skip. exact IH.
Qed.

Lemma insertByConfidence_sorted (c : Candidate) (l : list Candidate) :
  Descending l -> Descending (insertByConfidence c l).
Proof.
  unfold Descending. induction 1 as [|d l Hl IH Hd]; cbn [insertByConfidence].
  - repeat constructor.
  - destruct (Z.ltb_spec (confidence c) (confidence d)) as [Hlt|Hge].
    + constructor; [exact IH|].
      apply Forall_forall. intros x Hx.
      apply (Permutation_in _ (Permutation_sym (insertByConfidence_perm c l))) in Hx.
      destruct Hx as [<-|Hx]; [lia|]. rewrite Forall_forall in Hd. auto.
    + constructor; [constructor; assumption|].
      constructor; [lia|]. eapply Forall_impl; [|exact Hd]. cbn. intros x Hx. lia.
Qed.

Lemma sortByConfidence_sorted (l : list Candidate) : Descending (sortByConfidence l).
Proof.
  induction l as [|c l IH]; cbn [sortByConfidence fold_right]; [constructor|].
  apply insertByConfidence_sorted. exact IH.
Qed.

(** In a descending list the first [n] score at least as much as the rest. *)
Lemma descending_top (n : nat) (l : list Candidate) (x y : Candidate) :
  Descending l -> In x (firstn n l) -> In y (skipn n l) -> confidence y <= confidence x.
Proof.
  unfold Descending. intros H. revert n. induction H as [|d l Hl IH Hd]; intros n Hx Hy.
  - destruct n; contradiction.
  - destruct n as [|n]; [contradiction|]. cbn [firstn skipn] in Hx, Hy.
    destruct Hx as [<-|Hx]; [|eauto].
    rewrite Forall_forall in Hd. apply Hd.
    rewrite <- (firstn_skipn n l). apply in_or_app. right. exact Hy.
Qed.

(** What the events of the last stage may tell: the links given to the
    store are [rows], the total reported is [n]. *)
Definition tells (rows : list UserServiceRow) (n : Z) (ev : Event) : Prop :=
  (forall r, upsertedServices ev = Some r -> r = rows)
  /\ (forall m, reportedTotal ev = Some m -> m = n).

Ltac tells_call :=
  lazymatch goal with
  | |- tells _ _ _ => split; intros ? [=]; try reflexivity; subst; reflexivity
  end.

Lemma always_persistAndReport (userId sweepEventId : string) (user : User)
    (scanStartedAt : Instant) (currentPlan : Plan) (gmailAccount : GmailAccount)
    (isIncremental : bool) (messages : list GmailMessage) (filteredSummaries : list Candidate) :
  always (tells (List.map (userServiceRow userId)
                   (accountsToSaveOf currentPlan filteredSummaries))
                (len filteredSummaries))
    (persistAndReport userId sweepEventId user scanStartedAt currentPlan gmailAccount
       isIncremental messages filteredSummaries).
Proof.
  unfold persistAndReport, getBreaches, saveSweepData, recordSweepMetrics, notify, sendEmail,
    lift.
  repeat (always_step; try tells_call).
Qed.

(** One call of a run. *)
Lemma run_call {A R : Type} (env : Env) (c : Cmd R) (k : R -> Prog A) (t : list Event) :
  run env (Call c k) t = run env (k (env _ t c)) (t ++ [event c (env _ t c)]).
Proof. reflexivity. Qed.

(** Proof steps for following a run [R] call by call, with [HR] the
    equation that says where it stands: [step_call] (and [step_load], for
    an equation the other way round) takes the next call and names its
    answer, [tail_here] names the events that are still to come,
    [tail_eq] compares two such splits of the trace, [mark_here] names the
    trace so far. *)
Ltac step_call HR x :=
  cbn [bind call tryCatch] in HR;
  match type of HR with
  | _ = run ?env (Call ?c ?k) ?t =>
      rewrite (run_call env c k t) in HR;
      set (x := env _ t c) in HR; clearbody x; cbn [bind call tryCatch] in HR
  end.

Ltac step_load H x :=
  cbn [bind call] in H;
  match type of H with
  | run ?env (Call ?c ?k) ?t = _ =>
      rewrite (run_call env c k t) in H;
      set (x := env _ t c) in H; clearbody x; cbn [bind call] in H
  end.

Ltac tail_here R HR rest Hrest :=
  match type of HR with
  | R = run ?env ?X ?t =>
      destruct (run_extends _ env X t) as [rest Hrest]; rewrite <- HR in Hrest
  end.

Ltac tail_eq H1 H2 :=
  rewrite H2 in H1; rewrite <- ?app_assoc in H1; cbn [app] in H1;
  apply app_inv_head in H1; cbn [app]; rewrite <- ?app_assoc; cbn [app];
  first [exact H1 | symmetry; exact H1].

Ltac mark_here HR t Hrest :=
  match type of HR with
  | _ = run _ _ ?t0 => set (t := t0) in HR, Hrest; clearbody t
  end.

Lemma always_sweepFailed_tells (rows : list UserServiceRow) (n : Z)
    (userId sweepEventId : string) (user : User) (gmailAddress : option string)
    (err : JsVal) :
  always (tells rows n) (sweepFailed userId sweepEventId user gmailAddress err).
Proof.
  unfold sweepFailed, notify, sendEmail.
  repeat (always_step; try tells_call).
Qed.

(** The event gives no links to the store and reports no total. *)
Definition silent (ev : Event) : Prop :=
  upsertedServices ev = None /\ reportedTotal ev = None.

Ltac hush := repeat (always_step; try (split; reflexivity)).

Lemma silent_withTokenRefresh {T : Type} (gmailAccount : GmailAccount)
    (fn : string -> Prog T) :
  (forall t, always silent (fn t)) -> always silent (withTokenRefresh gmailAccount fn).
Proof.
  intros Hfn.
  unfold withTokenRefresh, ensureValidAccessToken, storedRefreshToken, refreshAndPersist,
    refreshAccessToken, encryptToken, lift.
  hush; auto.
Qed.

Lemma silent_resolveAll (entries : list (string * Summarize.Group))
    (serviceIds : list (string * string)) (acc : list Summarize.DomainAggregate) :
  always silent (Summarize.resolveAll LOGO_DEV_PUBLISHABLE_KEY entries serviceIds acc).
Proof.
  revert serviceIds acc.
  induction entries as [|[d g] rest IH]; intros serviceIds acc; cbn [Summarize.resolveAll].
  - exact I.
  - destruct (lookup d serviceIds); [apply IH|].
    apply always_bind; [|intros sid; apply IH].
    unfold Summarize.resolveService. hush.
Qed.

(** Up to its candidate list the sweep gives no links to the store and
    reports no total. *)
Lemma silent_until_report (env : Env) (userId sweepEventId : string)
    (tr : list Event) (user : User) (currentPlan : Plan) (gmailAccount : GmailAccount)
    (lastScanDate : option Instant) (messages : list GmailMessage)
    (metadataList : list EmailMetadata) (domainSummaries : list Summarize.DomainAggregate)
    (trA trB trC trD trE trF : list Event) :
  run env (getUserEmail userId) (tr ++ [event Now (env _ tr Now)])
    = (Returned (Some user), trA) ->
  run env (loadConnection userId sweepEventId) trA
    = (Returned (currentPlan, gmailAccount), trB) ->
  run env (getIncrementalScanDate userId 24) trB = (Returned lastScanDate, trC) ->
  run env (withTokenRefresh gmailAccount
             (fun accessToken => listEmails accessToken currentPlan lastScanDate)) trC
    = (Returned messages, trD) ->
  run env (withTokenRefresh gmailAccount
             (fun accessToken =>
                fetchMetadataForMessages accessToken messages currentPlan sweepEventId)) trD
    = (Returned metadataList, trE) ->
  run env (Summarize.summarizeByDomain Date_parse LOGO_DEV_PUBLISHABLE_KEY metadataList) trE
    = (Returned domainSummaries, trF) ->
  exists before, trF = tr ++ before /\ Forall silent before.
Proof.
  intros Huser Hload Hscan Hlist Hfetch Hsummary.
  assert (stage : forall (A : Type) (p : Prog A) (t t' : list Event) (out : Outcome A),
             always silent p -> run env p t = (out, t') ->
             exists m, t' = t ++ m /\ Forall silent m).
  { intros A p t t' out Hp Hrun.
    destruct (run_after _ _ p env t Hp) as [m [Hm HF]].
    rewrite Hrun in Hm. exists m. auto. }
  apply stage in Huser; [|unfold getUserEmail; hush].
  apply stage in Hload; [|unfold loadConnection; hush].
  apply stage in Hscan; [|unfold getIncrementalScanDate; hush].
  apply stage in Hlist;
    [|apply silent_withTokenRefresh; intros t; unfold listEmails, lift; hush].
  apply stage in Hfetch;
    [|apply silent_withTokenRefresh; intros t; unfold fetchMetadataForMessages, lift; hush].
  apply stage in Hsummary.
  2:{ unfold Summarize.summarizeByDomain.
      destruct (Summarize.groupByDomain Date_parse metadataList []); [|exact I].
      apply silent_resolveAll. }
  destruct Huser as [mA [-> HA]], Hload as [mB [-> HB]], Hscan as [mC [-> HC]],
    Hlist as [mD [-> HD]], Hfetch as [mE [-> HE]], Hsummary as [mF [-> HF]].
  exists (event Now (env _ tr Now) :: mA ++ mB ++ mC ++ mD ++ mE ++ mF).
  split.
  - rewrite <- !app_assoc. reflexivity.
  - constructor; [split; reflexivity|]. repeat (apply Forall_app; split); assumption.
Qed.

(** A sweep whose user is resolved, whose connection is loaded and whose
    scan returns: what is left of it is the last stage on the ranked
    candidates, under the [catch] block. *)
Lemma processSweep_reaches_report (env : Env) (userId sweepEventId : string)
    (tr : list Event) (user : User) (currentPlan : Plan) (gmailAccount : GmailAccount)
    (lastScanDate : option Instant) (messages : list GmailMessage)
    (metadataList : list EmailMetadata) (domainSummaries : list Summarize.DomainAggregate)
    (trA trB trC trD trE trF : list Event) :
  run env (getUserEmail userId) (tr ++ [event Now (env _ tr Now)])
    = (Returned (Some user), trA) ->
  run env (loadConnection userId sweepEventId) trA
    = (Returned (currentPlan, gmailAccount), trB) ->
  run env (getIncrementalScanDate userId 24) trB = (Returned lastScanDate, trC) ->
  run env (withTokenRefresh gmailAccount
             (fun accessToken => listEmails accessToken currentPlan lastScanDate)) trC
    = (Returned messages, trD) ->
  run env (withTokenRefresh gmailAccount
             (fun accessToken =>
                fetchMetadataForMessages accessToken messages currentPlan sweepEventId)) trD
    = (Returned metadataList, trE) ->
  run env (Summarize.summarizeByDomain Date_parse LOGO_DEV_PUBLISHABLE_KEY metadataList) trE
    = (Returned domainSummaries, trF) ->
  run env (processSweep userId sweepEventId) tr
  = run env
      (tryCatch
         (persistAndReport userId sweepEventId user (env _ tr Now) currentPlan gmailAccount
            (match lastScanDate with Some _ => true | None => false end) messages
            (rankCandidates domainSummaries))
         (sweepFailed userId sweepEventId user (Some (gmail_address gmailAccount))))
      trF.
Proof.
  intros Huser Hload Hscan Hlist Hfetch Hsummary.
  unfold processSweep. cbn [run bind call].
  rewrite run_bind, Huser, run_bind, run_tryCatch, run_bind, Hload.
  cbn [run]. rewrite !run_tryCatch.
  unfold scanAndRank. rewrite run_bind, Hscan.
  unfold sweepWindow. rewrite run_bind, Hlist, run_bind, Hfetch, run_bind, Hsummary.
  reflexivity.
Qed.

(** C8.  For a sweep on a plan other than [pro] whose candidate list has
    length [n] greater than 50.  The sweep is [processSweep] with the user
    resolved, the connection loaded and the scan returned; its plan is the
    one stored for the user, [free] when none is stored; its candidate
    list is made of the aggregates of the scan, each with its score, those
    taken for spam left out, sorted by descending score.

    The candidates to save are the first 50 of the list, none of the
    others scores more than any of them.  Up to its candidate list the
    sweep gives no links to the store and reports no total; from there on
    the only links given to the store are the rows of these 50 and every
    total reported is [n].  Once the breach lookup has returned, these
    rows are given to the store (after the delete, in a full scan); once
    the store has accepted them, the metrics, the update that marks the
    job as completed and the notification are issued, each with [n]; once
    the notification is accepted and the mail key is set, the e-mail is
    posted with [n]; and when the mail service accepts it, the sweep
    returns. *)
Theorem free_plan_keeps_top_50 (env : Env) (userId sweepEventId : string)
    (tr : list Event) (user : User) (currentPlan : Plan) (gmailAccount : GmailAccount)
    (lastScanDate : option Instant) (messages : list GmailMessage)
    (metadataList : list EmailMetadata) (domainSummaries : list Summarize.DomainAggregate)
    (trA trB trC trD trE trF : list Event) :
  let scanStartedAt := env _ tr Now in
  let isIncremental := match lastScanDate with Some _ => true | None => false end in
  let address := gmail_address gmailAccount in
  let filteredSummaries := rankCandidates domainSummaries in
  let n := len filteredSummaries in
  let top := firstn 50 filteredSummaries in
  let rows :=
    List.map (fun c => {| us_user_id := userId;
                          service_id := Summarize.serviceId (summary c);
                          email_count := Summarize.emailCount (summary c);
                          first_seen_at := Summarize.firstSeenAt (summary c);
                          last_seen_at := Summarize.lastSeenAt (summary c);
                          confidence_score := confidence c |}) top in
  (* the sweep up to its candidate list *)
  run env (getUserEmail userId) (tr ++ [event Now scanStartedAt])
    = (Returned (Some user), trA) ->
  run env (loadConnection userId sweepEventId) trA
    = (Returned (currentPlan, gmailAccount), trB) ->
  run env (getIncrementalScanDate userId 24) trB = (Returned lastScanDate, trC) ->
  run env (withTokenRefresh gmailAccount
             (fun accessToken => listEmails accessToken currentPlan lastScanDate)) trC
    = (Returned messages, trD) ->
  run env (withTokenRefresh gmailAccount
             (fun accessToken =>
                fetchMetadataForMessages accessToken messages currentPlan sweepEventId)) trD
    = (Returned metadataList, trE) ->
  run env (Summarize.summarizeByDomain Date_parse LOGO_DEV_PUBLISHABLE_KEY metadataList) trE
    = (Returned domainSummaries, trF) ->
  currentPlan <> "pro"%string ->
  50 < n ->
  (* the plan of the sweep is the plan stored for the user, [free] when
     none is stored *)
  (exists started updated marked subscription account,
      trB = trA ++ [event Now started; event Now updated;
                    event (SweepEventsUpdate sweepEventId
                             (PatchProcessing started updated)) marked;
                    event (SubscriptionsSelectPlan userId) subscription;
                    event (GmailAccountsSelect userId) account]
      /\ currentPlan = match data subscription with
                       | Some (Some stored) => if truthy stored then stored else "free"%string
                       | _ => "free"%string
                       end
      /\ error account = None /\ data account = Some gmailAccount)
  (* the candidates: the aggregates of the scan with their scores, those
     taken for spam left out, in the order of descending score *)
  /\ Permutation
    (filter (fun c => negb (Helpers.isLikelySpam (asSummary (summary c))))
       (List.map (fun a => {| summary := a;
                              confidence := Helpers.calculateConfidenceScore (asSummary a);
                              category := Helpers.categorizeService (Summarize.domain a)
                                            (Summarize.subjects a) |}) domainSummaries))
    filteredSummaries
  /\ Descending filteredSummaries
  (* the 50 to save *)
  /\ List.length top = 50%nat
  /\ (forall x y, In x top -> In y (skipn 50 filteredSummaries) ->
        confidence y <= confidence x)
  (* up to there the sweep has saved no links and reported no total *)
  /\ (exists before,
        trF = tr ++ before
        /\ forall ev, In ev before ->
             upsertedServices ev = None /\ reportedTotal ev = None)
  /\ exists more,
       snd (run env (processSweep userId sweepEventId) tr) = trF ++ more
       (* no other links, no other total *)
       /\ (forall ev saved, In ev more -> upsertedServices ev = Some saved -> saved = rows)
       /\ (forall ev m, In ev more -> reportedTotal ev = Some m -> m = n)
       (* the links are saved and the total is reported *)
       /\ forall breaches,
            env _ trF (GetBreaches address) = Returned breaches ->
            exists savedAt deleted accepted rest,
              more = [event (GetBreaches address) (Returned breaches); event Now savedAt]
                     ++ (if isIncremental then []
                         else [event (UserServicesDelete userId) deleted])
                     ++ event (UserServicesUpsert rows) accepted :: rest
              /\ (error accepted = None ->
                  exists breachesSaved finished created recorded completed updated marked
                         swept stamped notified rest',
                    rest = match breaches with
                           | [] => []
                           | _ :: _ =>
                               [event (UserBreachesUpsert
                                         (List.map (userBreachRow userId) breaches))
                                  breachesSaved]
                           end
                           ++ [event Now finished; event Now created;
                               event (SweepMetricsInsert
                                        {| sm_user_id := userId;
                                           duration_ms := finished - scanStartedAt;
                                           messages_scanned := len messages;
                                           accounts_found := n;
                                           sm_breaches_found := len breaches;
                                           is_incremental := isIncremental;
                                           created_at := created |}) recorded;
                               event Now completed; event Now updated;
                               event (SweepEventsUpdate sweepEventId
                                        (PatchCompleted completed n (len breaches) updated))
                                 marked;
                               event Now swept;
                               event (SubscriptionsUpdateLastSweep userId swept) stamped;
                               event (NotificationsInsert
                                        {| n_userId := userId; n_type := sweep_completed;
                                           title := "GhostSweep sweep completed";
                                           message := "Your inbox has been scanned and your dashboard has been updated with the latest accounts and breaches.";
                                           metadata := MetaCounts n (len breaches) |})
                                 notified]
                           ++ rest'
                    /\ (error notified = None -> truthy RESEND_API_KEY = true ->
                        exists ended mail rest'',
                          rest' = event Now ended
                                  :: event (ResendPost
                                              {| to := user_email user;
                                                 templateId :=
                                                   "5c7439e4-7831-437e-98fd-5d3c6bbf20a7";
                                                 variables :=
                                                   CompletedVars n (len breaches) currentPlan
                                                     (ended - scanStartedAt) (Some address) |})
                                       mail
                                  :: rest''
                          /\ (forall status body text,
                                mail = Response status (Some body) text ->
                                ok status = true ->
                                rest'' = []
                                /\ fst (run env (processSweep userId sweepEventId) tr)
                                   = Returned tt))).
Proof.
  intros scanStartedAt isIncremental address filteredSummaries n top rows
    Huser Hload Hscan Hlist Hfetch Hsummary Hplan Hlen.
  assert (Hsave : accountsToSaveOf currentPlan filteredSummaries = top).
  { unfold accountsToSaveOf. apply String.eqb_neq in Hplan. rewrite Hplan. reflexivity. }
  assert (Htop : List.length top = 50%nat).
  { unfold top. rewrite firstn_length_le; [reflexivity|]. unfold n, len in Hlen. lia. }
  split.
  { pose proof Hload as HL. unfold loadConnection in HL.
    step_load HL started. step_load HL updated. step_load HL marked.
    step_load HL subscription. step_load HL account.
    exists started, updated, marked, subscription, account.
    destruct (error account) as [e|]; [cbn [run] in HL; discriminate|].
    destruct (data account) as [found|]; [|cbn [run] in HL; discriminate].
    cbn [run] in HL. injection HL as <- <- <-.
    rewrite <- !app_assoc. cbn [app]. auto. }
  split; [apply sortByConfidence_perm|].
  split; [apply sortByConfidence_sorted|].
  split; [exact Htop|]. split.
  { intros x y. apply descending_top. apply sortByConfidence_sorted. }
  split.
  { destruct (silent_until_report env userId sweepEventId tr user currentPlan
                gmailAccount lastScanDate messages metadataList domainSummaries
                trA trB trC trD trE trF Huser Hload Hscan Hlist Hfetch Hsummary)
      as [before [Hb HF]].
    exists before. split; [exact Hb|]. apply Forall_forall. exact HF. }
  rewrite (processSweep_reaches_report env userId sweepEventId tr user currentPlan
             gmailAccount lastScanDate messages metadataList domainSummaries
             trA trB trC trD trE trF Huser Hload Hscan Hlist Hfetch Hsummary).
  fold scanStartedAt isIncremental filteredSummaries.
  destruct (run_after _ _ _ env trF
              (always_tryCatch _ _ _ _
                 (always_persistAndReport userId sweepEventId user scanStartedAt currentPlan
                    gmailAccount isIncremental messages filteredSummaries)
                 (always_sweepFailed_tells _ _ userId sweepEventId user
                    (Some (gmail_address gmailAccount))))) as [more [Hm HF]].
  exists more. rewrite Forall_forall in HF. rewrite Hsave in HF.
  split; [exact Hm|]. split; [intros ev saved Hin; apply (HF ev Hin)|].
  split; [intros ev m Hin; apply (HF ev Hin)|].
  intros breaches Hbreaches.
  match goal with
  | H : snd ?r = trF ++ more |- _ =>
      set (R := r) in *; assert (HR : R = r) by reflexivity; clearbody R
  end.
  unfold persistAndReport, getBreaches in HR. cbn [bind call tryCatch] in HR.
  rewrite run_call in HR. fold address in HR. rewrite Hbreaches in HR.
  cbn [lift bind call tryCatch] in HR.
  step_call HR savedAt.
  rewrite Hsave in HR. unfold saveSweepData in HR.
  clearbody top. destruct top as [|c0 top']; [discriminate Htop|].
  subst isIncremental.
  destruct lastScanDate as [since|]; cbn [negb] in HR;
    [pose (deleted := @nothing unit)|step_call HR deleted].
  all: step_call HR accepted.
  all: tail_here R HR rest Hrest.
  all: exists savedAt, deleted, accepted, rest.
  all: split; [tail_eq Hm Hrest|].
  all: mark_here HR t4 Hrest.
  all: intros Haccepted; rewrite Haccepted in HR.
  all: destruct breaches as [|b breaches'];
    [pose (breachesSaved := @nothing unit)|step_call HR breachesSaved].
  all: step_call HR finished; unfold recordSweepMetrics in HR.
  all: step_call HR created; step_call HR recorded; step_call HR completed;
    step_call HR updated; step_call HR marked; step_call HR swept;
    step_call HR stamped; unfold notify, completedNotice in HR;
    step_call HR notified.
  all: tail_here R HR rest' Hrest'.
  all: exists breachesSaved, finished, created, recorded, completed, updated, marked,
         swept, stamped, notified, rest'.
  all: split; [tail_eq Hrest Hrest'|].
  all: mark_here HR t13 Hrest'.
  all: intros Hnotified Hkey; rewrite Hnotified in HR.
  all: step_call HR ended; unfold sendEmail in HR; rewrite Hkey in HR;
    cbn [negb] in HR; step_call HR mail.
  all: tail_here R HR rest'' Hrest''.
  all: exists ended, mail, rest''.
  all: split; [tail_eq Hrest' Hrest''|].
  all: mark_here HR t15 Hrest''.
  all: intros status body text Hmail Hok; rewrite Hmail, Hok in HR;
    cbn [negb run bind call tryCatch] in HR; rewrite HR in Hrest'' |- *;
    cbn [fst snd] in *; split; [|reflexivity].
  all: rewrite <- (app_nil_r t15) in Hrest'' at 1; apply app_inv_head in Hrest'';
    symmetry; exact Hrest''.
Qed.

(** *** A job whose user cannot be resolved *)

(** When the user is not resolved, the sweep makes three calls: it reads
    the clock, asks for the user, inserts the failure notification; it
    throws what the insert reports, if anything.  The job row is not
    touched. *)
Lemma processSweep_unresolved_user (env : Env) (userId sweepEventId : string)
    (tr : list Event) (t : Instant) (r : DbResult User) (n : DbResult unit) :
  env _ tr Now = t ->
  env _ (tr ++ [event Now t]) (AuthGetUserById userId) = r ->
  (error r <> None \/ data r = None) ->
  env _ (tr ++ [event Now t; event (AuthGetUserById userId) r])
        (NotificationsInsert (failureNoticeNoUser userId)) = n ->
  run env (processSweep userId sweepEventId) tr
  = (match error n with Some e => Thrown e | None => Returned tt end,
     tr ++ [event Now t; event (AuthGetUserById userId) r;
            event (NotificationsInsert (failureNoticeNoUser userId)) n]).
Proof.
  intros Ht Hr Hu Hn. unfold processSweep, getUserEmail, notify.
  cbn [run bind call]. rewrite Ht, Hr.
  assert (Hgo : forall tr1, tr1 = tr ++ [event Now t; event (AuthGetUserById userId) r] ->
    run env (Call (NotificationsInsert (failureNoticeNoUser userId))
               (fun r0 => match error r0 with Some e => Throw e | None => Ret tt end)) tr1
    = (match error n with Some e => Thrown e | None => Returned tt end,
       tr ++ [event Now t; event (AuthGetUserById userId) r;
              event (NotificationsInsert (failureNoticeNoUser userId)) n])).
  { intros tr1 ->. cbn [run]. rewrite Hn.
    rewrite <- app_assoc. cbn [app]. destruct (error n); reflexivity. }
  destruct (error r) eqn:E.
  - cbn [run bind]. apply Hgo. rewrite <- app_assoc. reflexivity.
  - destruct Hu as [Hu|Hu]; [congruence|]. rewrite Hu.
    cbn [run bind]. apply Hgo. rewrite <- app_assoc. reflexivity.
Qed.

(** *** What a sweep never does *)

Import Reasoning.

(** The event is a call of the lister. *)
Definition isListerCall (ev : Event) : bool :=
  match listerSince ev with Some _ => true | None => false end.

Lemma noLister_none {A : Type} (p : Prog A) :
  always noLister p -> atMostOf isListerCall 0 p.
Proof.
  intros H. apply atMostOf_none. eapply always_weaken; [|exact H].
  intros ev Hev. unfold isListerCall, noLister in *. rewrite Hev. reflexivity.
Qed.

Lemma withTokenRefresh_lists_twice (gmailAccount : GmailAccount) (currentPlan : Plan)
    (lastScanDate : option Instant) :
  atMostOf isListerCall 2
    (withTokenRefresh gmailAccount
       (fun accessToken => listEmails accessToken currentPlan lastScanDate)).
Proof.
  pose proof besidesLister_noLister as HQ.
  assert (Hfn : forall t, atMostOf isListerCall 1 (listEmails t currentPlan lastScanDate)).
  { intros t. unfold listEmails. cbn [bind call atMostOf]. intros r.
    change (isListerCall (event (ListEmails t currentPlan lastScanDate) r)) with true.
    cbv iota. destruct r; exact I. }
  unfold withTokenRefresh.
  apply (atMostOf_bind _ isListerCall 0 2);
    [apply noLister_none, quiet_ensureValidAccessToken, HQ|].
  intros accessToken. apply (atMostOf_tryCatch _ isListerCall 1 1); [apply Hfn|].
  intros err. destruct (isGmailAuthError err) as [[|]|te]; cbn [lift bind negb]; try exact I.
  apply (atMostOf_bind _ isListerCall 0 1);
    [apply noLister_none, quiet_storedRefreshToken|].
  intros [rt|]; [|exact I]. destruct (truthy rt); [|exact I].
  apply (atMostOf_bind _ isListerCall 0 1);
    [apply noLister_none, quiet_refreshAndPersist, HQ|].
  intros token. apply Hfn.
Qed.

(** X10. Whatever the store, the clock and the components answer, a
    sweep calls the lister at most twice: once, and once more after a
    failure of authentication and a refresh of the access token. *)
Theorem sweep_lists_at_most_twice (env : Env) (userId sweepEventId : string)
    (tr : list Event) :
  exists more,
    snd (run env (processSweep userId sweepEventId) tr) = tr ++ more
    /\ (length (filter isListerCall more) <= 2)%nat.
Proof.
  apply atMostOf_run.
  pose proof besidesLister_noLister as HQ.
  unfold processSweep. cbn [bind call atMostOf]. intros t.
  change (isListerCall (event Now t)) with false. cbv iota.
  apply (atMostOf_bind _ isListerCall 0 2);
    [apply noLister_none, quiet_getUserEmail, HQ|].
  intros [user|]; [|apply (atMostOf_le _ isListerCall 0 2);
                     [lia|apply noLister_none, quiet_notify, HQ]].
  apply (atMostOf_bind _ isListerCall 0 2).
  { apply noLister_none. apply always_tryCatch.
    - apply always_bind; [apply quiet_loadConnection; exact HQ|intros ?; exact I].
    - intros err. apply always_bind; [apply quiet_sweepFailed; exact HQ|intros ?; exact I]. }
  intros [[currentPlan gmailAccount]|]; [|exact I].
  apply (atMostOf_tryCatch _ isListerCall 2 0);
    [|intros err; apply noLister_none, quiet_sweepFailed, HQ].
  unfold scanAndRank.
  apply (atMostOf_bind _ isListerCall 0 2);
    [apply noLister_none, quiet_getIncrementalScanDate, HQ|].
  intros lastScanDate. unfold sweepWindow. cbv zeta.
  apply (atMostOf_bind _ isListerCall 2 0); [apply withTokenRefresh_lists_twice|].
  intros messages. apply noLister_none.
  apply always_bind.
  { apply quiet_withTokenRefresh; [exact HQ|]. intros t'.
    unfold fetchMetadataForMessages, lift. quiet. }
  intros metadataList. apply always_bind; [apply quiet_summarizeByDomain; exact HQ|].
  intros domainSummaries. apply quiet_persistAndReport; exact HQ.
Qed.

(** X11. An error of the operation that [isGmailAuthError] does not take
    for a failure of authentication passes through [withTokenRefresh]:
    the wrapper throws it after the one run of the operation, without a
    refresh and without a second run. *)
Theorem other_errors_pass_without_refresh (env : Env) (T : Type)
    (gmailAccount : GmailAccount) (fn : string -> Prog T)
    (tr tr1 tr2 : list Event) (tok0 : string) (err : JsVal) :
  run env (ensureValidAccessToken gmailAccount) tr = (Returned tok0, tr1) ->
  run env (fn tok0) tr1 = (Thrown err, tr2) ->
  isGmailAuthError err = Returned false ->
  run env (withTokenRefresh gmailAccount fn) tr = (Thrown err, tr2).
Proof.
  intros H1 H2 Hauth. unfold withTokenRefresh.
  rewrite run_bind, H1, run_tryCatch, H2, run_bind, Hauth. reflexivity.
Qed.

(** The status of a job, as [statusAfter] follows it. *)
Definition statusStep (sweepEventId : string) (status : string) (ev : Event) : string :=
  match sweepPatchOf ev with
  | Some (j, patch) =>
      if String.eqb j sweepEventId then
        match patch with
        | PatchProcessing _ _ => "processing"
        | PatchProgress _ => status
        | PatchCompleted _ _ _ _ => "completed"
        | PatchFailed _ _ _ => "failed"
        end
      else status
  | None => status
  end.

Lemma statusStep_update (sweepEventId status : string) (patch : SweepPatch)
    (r : DbResult unit) :
  statusStep sweepEventId status (event (SweepEventsUpdate sweepEventId patch) r)
  = match patch with
    | PatchProcessing _ _ => "processing"
    | PatchProgress _ => status
    | PatchCompleted _ _ _ _ => "completed"
    | PatchFailed _ _ _ => "failed"
    end%string.
Proof.
  unfold statusStep. cbn [sweepPatchOf projT2 event]. rewrite String.eqb_refl. reflexivity.
Qed.

Definition keepsStatus (sweepEventId : string) (ev : Event) : Prop :=
  forall status, statusStep sweepEventId status ev = status.

Ltac keeps := repeat (always_step; try (intros ?; reflexivity)).

Lemma notify_keepsStatus (sweepEventId : string) (n : Notification) :
  always (keepsStatus sweepEventId) (notify n).
Proof. unfold notify. keeps. Qed.

Lemma sendEmail_keepsStatus (sweepEventId : string) (input : EmailPayload) :
  always (keepsStatus sweepEventId) (sendEmail input).
Proof. unfold sendEmail. keeps. Qed.

(** The [catch] block marks the job as failed before anything else that
    can throw. *)
Lemma sweepFailed_marks_failed (userId sweepEventId : string) (user : User)
    (gmailAddress : option string) (err : JsVal) (status : string) :
  tracks (statusStep sweepEventId) (fun st _ => st = "failed"%string) status
    (sweepFailed userId sweepEventId user gmailAddress err).
Proof.
  unfold sweepFailed. cbn [bind call tracks]. intros completed updated r.
  rewrite statusStep_update.
  apply tracks_unchanged.
  apply always_bind; [apply notify_keepsStatus|]. intros _.
  apply always_bind; [apply sendEmail_keepsStatus|]. intros _. exact I.
Qed.

Definition completedIfReturned {A : Type} (st : string) (out : Outcome A) : Prop :=
  match out with
  | Returned _ => st = "completed"%string
  | Thrown _ => True
  end.

Lemma tracks_after {A B S : Type} (step : S -> Event -> S) (R : S -> Outcome B -> Prop)
    (s : S) (p : Prog A) (f : A -> Prog B) :
  (forall s' a, tracks step R s' (f a)) ->
  (forall s' e, R s' (Thrown e)) ->
  tracks step R s (bind p f).
Proof.
  intros Hf He. apply tracks_bind with (R' := fun _ _ => True);
    [apply tracks_anything|intros s' a _; apply Hf|intros s' e _; apply He].
Qed.

(** The sweep returns from its last part only after it has marked the job
    as completed. *)
Lemma persistAndReport_marks_completed (userId sweepEventId : string) (user : User)
    (scanStartedAt : Instant) (currentPlan : Plan) (gmailAccount : GmailAccount)
    (isIncremental : bool) (messages : list GmailMessage) (filteredSummaries : list Candidate)
    (status : string) :
  tracks (statusStep sweepEventId) completedIfReturned status
    (persistAndReport userId sweepEventId user scanStartedAt currentPlan gmailAccount
       isIncremental messages filteredSummaries).
Proof.
  unfold persistAndReport.
  apply tracks_after; [|intros; exact I]. intros st breaches. cbv zeta.
  cbn [bind call tracks]. intros t0.
  apply tracks_after; [|intros; exact I]. intros st1 _.
  cbn [bind call tracks]. intros finished.
  apply tracks_after; [|intros; exact I]. intros st2 _.
  cbn [bind call tracks]. intros completed updated r swept r'.
  rewrite statusStep_update.
  change (statusStep sweepEventId
            (statusStep sweepEventId "completed" (event Now swept))
            (event (SubscriptionsUpdateLastSweep userId swept) r'))
    with "completed"%string.
  apply tracks_weaken with (R' := fun st _ => st = "completed"%string).
  { intros st3 [a|e] H; [exact H|exact I]. }
  apply tracks_unchanged. keeps.
  - apply notify_keepsStatus.
  - apply sendEmail_keepsStatus.
Qed.

Definition terminal (st : string) : Prop :=
  st = "completed"%string \/ st = "failed"%string.

(** X12. When the user of a job is resolved, the sweep, whether it
    returns or throws, issues at least one update that sets the status
    of the job, and the last such update that it issues marks the job
    as completed or as failed.  (What the store answers to these
    updates is not looked at by the code; that they take effect is no
    part of the statement.) *)
Theorem resolved_job_ends_completed_or_failed (env : Env) (userId sweepEventId : string)
    (tr : list Event) (user : User) :
  let asked := tr ++ [event Now (env _ tr Now)] in
  error (env _ asked (AuthGetUserById userId)) = None ->
  data (env _ asked (AuthGetUserById userId)) = Some user ->
  exists more,
    snd (run env (processSweep userId sweepEventId) tr) = tr ++ more
    /\ forall initial,
         statusAfter sweepEventId more initial = "completed"%string
         \/ statusAfter sweepEventId more initial = "failed"%string.
Proof.
  cbv zeta. intros Herr Hdata.
  unfold processSweep, getUserEmail. cbn [run bind call]. rewrite Herr, Hdata. cbn [bind].
  set (t := env _ tr Now) in *.
  set (r := env _ (tr ++ [event Now t]) (AuthGetUserById userId)) in *.
  match goal with
  | |- context [run env ?p ?tr0] =>
      assert (Hp : forall st, tracks (statusStep sweepEventId) (fun s _ => terminal s) st p)
  end.
  { intros st.
    apply tracks_bind with
      (R' := fun s out => match out with
                          | Returned (Some _) => True
                          | _ => terminal s
                          end).
    - apply tracks_tryCatch with
        (R' := fun s out => match out with Returned None => False | _ => True end).
      + apply tracks_after; [|intros; exact I]. intros s' x. exact I.
      + intros s' [x|] H; [exact I|contradiction].
      + intros s' e _.
        apply tracks_bind with (R' := fun s _ => s = "failed"%string).
        * apply sweepFailed_marks_failed.
        * intros s'' _ ->. right. reflexivity.
        * intros s'' e' ->. right. reflexivity.
    - intros s' [[currentPlan gmailAccount]|] H; [|exact H].
      apply tracks_tryCatch with (R' := completedIfReturned).
      + unfold scanAndRank. apply tracks_after; [|intros; exact I].
        intros s1 lastScanDate. unfold sweepWindow. cbv zeta.
        apply tracks_after; [|intros; exact I]. intros s2 messages.
        apply tracks_after; [|intros; exact I]. intros s3 metadataList.
        apply tracks_after; [|intros; exact I]. intros s4 domainSummaries.
        apply persistAndReport_marks_completed.
      + intros s1 a Hc. left. exact Hc.
      + intros s1 e _. eapply tracks_weaken; [|apply sweepFailed_marks_failed].
        intros s2 o ->. right. reflexivity.
    - intros s' e H. exact H. }
  match goal with
  | |- context [run env ?p ?tr0] =>
      assert (Hrun : forall st, exists more,
                 snd (run env p tr0) = tr0 ++ more
                 /\ terminal (fold_left (statusStep sweepEventId) more st))
        by (intros st; apply (tracks_run _ _ _ _ _ env tr0 (Hp st)))
  end.
  destruct (Hrun "") as [more [Hm _]].
  exists (event Now t :: event (AuthGetUserById userId) r :: more).
  split; [rewrite Hm, <- !app_assoc; reflexivity|].
  intros initial. destruct (Hrun initial) as [more' [Hm' Ht]].
  rewrite Hm in Hm'. apply app_inv_head in Hm'. subst more'. exact Ht.
Qed.

(** *** Without the key of the mail service *)

Definition failedAndThrown {A : Type} (st : string) (out : Outcome A) : Prop :=
  st = "failed"%string /\ exists e, out = Thrown e.

Section MissingKey.

Hypothesis no_key : truthy RESEND_API_KEY = false.

Lemma sendEmail_throws (input : EmailPayload) :
  sendEmail input = Throw (newError "Missing RESEND_API_KEY").
Proof. unfold sendEmail. rewrite no_key. reflexivity. Qed.

Lemma sweepFailed_throws (userId sweepEventId : string) (user : User)
    (gmailAddress : option string) (err : JsVal) (status : string) :
  tracks (statusStep sweepEventId) failedAndThrown status
    (sweepFailed userId sweepEventId user gmailAddress err).
Proof.
  unfold sweepFailed. cbn [bind call tracks]. intros completed updated r.
  rewrite statusStep_update.
  apply tracks_bind with (R' := fun st _ => st = "failed"%string).
  - apply tracks_unchanged, notify_keepsStatus.
  - intros st _ ->. rewrite sendEmail_throws. cbn [bind tracks]. split; eauto.
  - intros st e ->. split; eauto.
Qed.

Lemma persistAndReport_throws (userId sweepEventId : string) (user : User)
    (scanStartedAt : Instant) (currentPlan : Plan) (gmailAccount : GmailAccount)
    (isIncremental : bool) (messages : list GmailMessage) (filteredSummaries : list Candidate)
    (status : string) :
  tracks (statusStep sweepEventId)
    (fun _ out => match out with Returned _ => False | Thrown _ => True end) status
    (persistAndReport userId sweepEventId user scanStartedAt currentPlan gmailAccount
       isIncremental messages filteredSummaries).
Proof.
  unfold persistAndReport.
  apply tracks_after; [|intros; exact I]. intros st breaches. cbv zeta.
  cbn [bind call tracks]. intros t0.
  apply tracks_after; [|intros; exact I]. intros st1 _.
  cbn [bind call tracks]. intros finished.
  apply tracks_after; [|intros; exact I]. intros st2 _.
  cbn [bind call tracks]. intros completed updated r swept r'.
  apply tracks_after; [|intros; exact I]. intros st3 _.
  cbn [bind call tracks]. intros ended. rewrite sendEmail_throws. exact I.
Qed.

(** X23. When the key of the mail service is not configured, no sweep of
    a resolved user ends as completed: whatever the store and the
    components answer, the last update of the job marks it as failed, and
    [processSweep] throws. *)
Theorem without_mail_key_every_sweep_fails (env : Env) (userId sweepEventId : string)
    (tr : list Event) (user : User) :
  let asked := tr ++ [event Now (env _ tr Now)] in
  error (env _ asked (AuthGetUserById userId)) = None ->
  data (env _ asked (AuthGetUserById userId)) = Some user ->
  exists more,
    snd (run env (processSweep userId sweepEventId) tr) = tr ++ more
    /\ (forall initial, statusAfter sweepEventId more initial = "failed"%string)
    /\ exists e, fst (run env (processSweep userId sweepEventId) tr) = Thrown e.
Proof.
  cbv zeta. intros Herr Hdata.
  unfold processSweep, getUserEmail. cbn [run bind call]. rewrite Herr, Hdata. cbn [bind].
  set (t := env _ tr Now) in *.
  set (r := env _ (tr ++ [event Now t]) (AuthGetUserById userId)) in *.
  match goal with
  | |- context [run env ?p ?tr0] =>
      assert (Hp : forall st, tracks (statusStep sweepEventId) failedAndThrown st p)
  end.
  { intros st.
    apply tracks_bind with
      (R' := fun s out => match out with
                          | Returned (Some _) => True
                          | Returned None => False
                          | Thrown _ => failedAndThrown s out
                          end).
    - apply tracks_tryCatch with
        (R' := fun s out => match out with Returned None => False | _ => True end).
      + apply tracks_after; [|intros; exact I]. intros s' x. exact I.
      + intros s' [x|] H; [exact I|contradiction].
      + intros s' e _.
        apply tracks_bind with (R' := failedAndThrown).
        * apply sweepFailed_throws.
        * intros s'' a [_ [e' He']]. discriminate.
        * intros s'' e' [H1 _]. split; [exact H1|eauto].
    - intros s' [[currentPlan gmailAccount]|] H; [|contradiction].
      apply tracks_tryCatch with
        (R' := fun _ out => match out with Returned _ => False | Thrown _ => True end).
      + unfold scanAndRank. apply tracks_after; [|intros; exact I].
        intros s1 lastScanDate. unfold sweepWindow. cbv zeta.
        apply tracks_after; [|intros; exact I]. intros s2 messages.
        apply tracks_after; [|intros; exact I]. intros s3 metadataList.
        apply tracks_after; [|intros; exact I]. intros s4 domainSummaries.
        apply persistAndReport_throws.
      + intros s1 a [].
      + intros s1 e _. apply sweepFailed_throws.
    - intros s' e [H1 _]. split; [exact H1|eauto]. }
  match goal with
  | |- context [run env ?p ?tr0] =>
      assert (Hrun : forall st, exists more,
                 snd (run env p tr0) = tr0 ++ more
                 /\ failedAndThrown (fold_left (statusStep sweepEventId) more st)
                      (fst (run env p tr0)))
        by (intros st; apply (tracks_run _ _ _ _ _ env tr0 (Hp st)))
  end.
  destruct (Hrun "") as [more [Hm [_ He]]].
  exists (event Now t :: event (AuthGetUserById userId) r :: more).
  split; [rewrite Hm, <- !app_assoc; reflexivity|]. split; [|exact He].
  intros initial. destruct (Hrun initial) as [more' [Hm' [Ht _]]].
  rewrite Hm in Hm'. apply app_inv_head in Hm'. subst more'. exact Ht.
Qed.

End MissingKey.

(** *** When the stored links of a user are deleted *)

(** The event is the delete of the links of a user to the services. *)
Definition deletesLinks (ev : Event) : Prop :=
  let (c, _) := projT2 ev in
  match c with
  | UserServicesDelete _ => True
  | _ => False
  end.

(** Whether the lister has been called without a since-instant. *)
Definition sawFullScan (seen : bool) (ev : Event) : bool :=
  seen || match listerSince ev with
          | Some None => true
          | _ => false
          end.

Definition afterFullScan (seen : bool) (ev : Event) : Prop :=
  deletesLinks ev -> seen = true.

Definition spares (ev : Event) : Prop := forall seen : bool, afterFullScan seen ev.

Ltac spared :=
  unfold spares, afterFullScan; intros;
  match goal with
  | H : deletesLinks _ |- _ => destruct H
  end.

Ltac spare := repeat (always_step; try spared).

Lemma spares_notify (n : Notification) : always spares (notify n).
Proof. unfold notify. spare. Qed.

Lemma spares_sendEmail (input : EmailPayload) : always spares (sendEmail input).
Proof. unfold sendEmail. spare. Qed.

Lemma spares_sweepFailed (userId sweepEventId : string) (user : User)
    (gmailAddress : option string) (err : JsVal) :
  always spares (sweepFailed userId sweepEventId user gmailAddress err).
Proof. unfold sweepFailed. spare; auto using spares_notify, spares_sendEmail. Qed.

Lemma spares_storedRefreshToken (gmailAccount : GmailAccount) :
  always spares (storedRefreshToken gmailAccount).
Proof. unfold storedRefreshToken, lift. spare. Qed.

Lemma spares_refreshAndPersist (gmailAccount : GmailAccount) (rt : string) :
  always spares (refreshAndPersist gmailAccount rt).
Proof. unfold refreshAndPersist, refreshAccessToken, encryptToken, lift. spare. Qed.

Lemma spares_ensureValidAccessToken (gmailAccount : GmailAccount) :
  always spares (ensureValidAccessToken gmailAccount).
Proof.
  unfold ensureValidAccessToken, lift.
  spare; auto using spares_storedRefreshToken, spares_refreshAndPersist.
Qed.

Lemma spares_withTokenRefresh {T : Type} (gmailAccount : GmailAccount)
    (fn : string -> Prog T) :
  (forall t, always spares (fn t)) -> always spares (withTokenRefresh gmailAccount fn).
Proof.
  intros Hfn. unfold withTokenRefresh, lift.
  spare; auto using spares_ensureValidAccessToken, spares_storedRefreshToken,
    spares_refreshAndPersist.
Qed.

Lemma spares_resolveAll (entries : list (string * Summarize.Group))
    (serviceIds : list (string * string)) (acc : list Summarize.DomainAggregate) :
  always spares (Summarize.resolveAll LOGO_DEV_PUBLISHABLE_KEY entries serviceIds acc).
Proof.
  revert serviceIds acc.
  induction entries as [|[d g] rest IH]; intros serviceIds acc; cbn [Summarize.resolveAll].
  - exact I.
  - destruct (lookup d serviceIds); [apply IH|].
    apply always_bind; [|intros sid; apply IH].
    unfold Summarize.resolveService. spare.
Qed.

Lemma spares_summarizeByDomain (metadataList : list EmailMetadata) :
  always spares (Summarize.summarizeByDomain Date_parse LOGO_DEV_PUBLISHABLE_KEY metadataList).
Proof.
  unfold Summarize.summarizeByDomain.
  destruct (Summarize.groupByDomain Date_parse metadataList []); [|exact I].
  apply spares_resolveAll.
Qed.

(** An incremental sweep saves without the delete. *)
Lemma spares_persistAndReport_incremental (userId sweepEventId : string) (user : User)
    (scanStartedAt : Instant) (currentPlan : Plan) (gmailAccount : GmailAccount)
    (messages : list GmailMessage) (filteredSummaries : list Candidate) :
  always spares
    (persistAndReport userId sweepEventId user scanStartedAt currentPlan gmailAccount
       true messages filteredSummaries).
Proof.
  unfold persistAndReport, saveSweepData, getBreaches, recordSweepMetrics, lift.
  cbn [negb]. spare; auto using spares_notify, spares_sendEmail.
Qed.

Lemma spares_obeys {A : Type} (seen : bool) (p : Prog A) :
  always spares p -> obeys sawFullScan afterFullScan (fun _ _ => True) seen p.
Proof. intros H. apply obeys_always. exact H. Qed.

Lemma obeys_after {A B : Type} (seen : bool) (p : Prog A) (f : A -> Prog B) :
  always spares p ->
  (forall seen' a, obeys sawFullScan afterFullScan (fun _ _ => True) seen' (f a)) ->
  obeys sawFullScan afterFullScan (fun _ _ => True) seen (bind p f).
Proof.
  intros Hp Hf. apply obeys_bind with (R' := fun _ _ => True);
    [apply spares_obeys, Hp|intros s' a _; apply Hf|auto].
Qed.

Definition listedInFull {A : Type} (seen : bool) (out : Outcome A) : Prop :=
  match out with
  | Returned _ => seen = true
  | Thrown _ => True
  end.

(** The lister, called for a full scan, has been called when the wrapper
    returns. *)
Lemma withTokenRefresh_full_scan (gmailAccount : GmailAccount) (currentPlan : Plan)
    (seen : bool) :
  obeys sawFullScan afterFullScan listedInFull seen
    (withTokenRefresh gmailAccount (fun accessToken => listEmails accessToken currentPlan None)).
Proof.
  assert (Hfn : forall t s, obeys sawFullScan afterFullScan listedInFull s
                              (listEmails t currentPlan None)).
  { intros t s. unfold listEmails. cbn [bind call obeys]. intros r.
    split; [intros H; destruct H|].
    replace (sawFullScan s (event (ListEmails t currentPlan None) r)) with true
      by (unfold sawFullScan; cbn; rewrite orb_true_r; reflexivity).
    destruct r; cbn [lift obeys listedInFull]; auto. }
  unfold withTokenRefresh.
  apply obeys_bind with (R' := fun _ _ => True);
    [apply spares_obeys, spares_ensureValidAccessToken| |intros; exact I].
  intros s1 accessToken _.
  apply obeys_tryCatch with (R' := listedInFull); [apply Hfn|auto|].
  intros s2 err _.
  destruct (isGmailAuthError err) as [[|]|te]; cbn [lift bind negb obeys listedInFull]; auto.
  apply obeys_bind with (R' := fun _ _ => True);
    [apply spares_obeys, spares_storedRefreshToken| |intros; exact I].
  intros s3 [rt|] _; [|exact I]. destruct (truthy rt); [|exact I].
  apply obeys_bind with (R' := fun _ _ => True);
    [apply spares_obeys, spares_refreshAndPersist| |intros; exact I].
  intros s4 token _. apply Hfn.
Qed.

Lemma sweepWindow_obeys (userId sweepEventId : string) (user : User)
    (scanStartedAt : Instant) (currentPlan : Plan) (gmailAccount : GmailAccount)
    (lastScanDate : option Instant) (seen : bool) :
  obeys sawFullScan afterFullScan (fun _ _ => True) seen
    (sweepWindow userId sweepEventId user scanStartedAt currentPlan gmailAccount lastScanDate).
Proof.
  unfold sweepWindow. cbv zeta. destruct lastScanDate as [since|].
  - apply spares_obeys.
    apply always_bind.
    { apply spares_withTokenRefresh. intros t. unfold listEmails, lift. spare. }
    intros messages. apply always_bind.
    { apply spares_withTokenRefresh. intros t. unfold fetchMetadataForMessages, lift. spare. }
    intros metadataList. apply always_bind; [apply spares_summarizeByDomain|].
    intros domainSummaries. apply spares_persistAndReport_incremental.
  - apply obeys_bind with (R' := listedInFull);
      [apply withTokenRefresh_full_scan| |intros; exact I].
    intros s1 messages Hs. cbn [listedInFull] in Hs. subst s1.
    apply obeys_settled; [intros ev; reflexivity|intros ev _; reflexivity].
Qed.

Lemma sawFullScan_seen (pre : list Event) (seen : bool) :
  fold_left sawFullScan pre seen = true ->
  seen = true \/ exists before, In before pre /\ listerSince before = Some None.
Proof.
  revert seen. induction pre as [|ev pre IH]; intros seen H; cbn [fold_left] in H; [auto|].
  destruct (IH _ H) as [Hs|[before [Hin Hb]]].
  - unfold sawFullScan in Hs. apply orb_true_iff in Hs as [Hs|Hs]; [auto|].
    right. exists ev. split; [left; reflexivity|].
    destruct (listerSince ev) as [[t|]|]; try discriminate. reflexivity.
  - right. exists before. split; [right; exact Hin|exact Hb].
Qed.

(** X18. A sweep deletes the stored links of the user to the services
    only after it has called the lister without a since-instant, that is
    for a full scan: an incremental sweep never deletes them. *)
Theorem links_deleted_only_in_full_scan (env : Env) (userId sweepEventId : string)
    (tr : list Event) :
  exists more,
    snd (run env (processSweep userId sweepEventId) tr) = tr ++ more
    /\ forall pre ev post,
         more = pre ++ ev :: post -> deletesLinks ev ->
         exists before, In before pre /\ listerSince before = Some None.
Proof.
  assert (H : obeys sawFullScan afterFullScan (fun _ _ => True) false
                (processSweep userId sweepEventId)).
  { unfold processSweep. cbn [bind call obeys]. intros t.
    split; [intros Hd; destruct Hd|].
    apply obeys_after; [unfold getUserEmail; spare|].
    intros s1 [user|]; [|apply spares_obeys, spares_notify].
    apply obeys_after.
    { apply always_tryCatch.
      - apply always_bind; [unfold loadConnection; spare|intros ?; exact I].
      - intros err. apply always_bind; [apply spares_sweepFailed|intros ?; exact I]. }
    intros s2 [[currentPlan gmailAccount]|]; [|exact I].
    apply obeys_tryCatch with (R' := fun _ _ => True);
      [|auto|intros s3 e _; apply spares_obeys, spares_sweepFailed].
    unfold scanAndRank.
    apply obeys_after; [unfold getIncrementalScanDate; spare|].
    intros s3 lastScanDate. apply sweepWindow_obeys. }
  destruct (obeys_run _ _ _ _ _ _ env tr H) as [more [Hm [HQ _]]].
  exists more. split; [exact Hm|].
  intros pre ev post Hmore Hd.
  destruct (sawFullScan_seen pre false (HQ pre ev post Hmore Hd)) as [Hs|Hb];
    [discriminate|exact Hb].
Qed.

(** X19. The ranking keeps each candidate that is not taken for spam
    exactly once and nothing else, in the order of decreasing score. *)
Theorem ranking_is_sorted_permutation (domainSummaries : list Summarize.DomainAggregate) :
  Permutation
    (filter (fun c => negb (Helpers.isLikelySpam (asSummary (summary c))))
       (List.map enrich domainSummaries))
    (rankCandidates domainSummaries)
  /\ Descending (rankCandidates domainSummaries).
Proof.
  unfold rankCandidates. split; [apply sortByConfidence_perm|apply sortByConfidence_sorted].
Qed.

End WithConfiguration.

(** *** Scenarios *)

(** A configuration for the scenarios: the credentials and keys are set and
    the vault keeps the tokens as they are. *)
Definition sweepOf : string -> string -> Prog unit :=
  processSweep "client-id" "client-secret" "resend-key" "logo-key" (fun _ => None)
    None (fun plain _ => plain) (fun enc => Returned enc) (fun _ => "{}"%string).

(** The rows of [sweep_events], with the columns the scenarios need. *)
Record SweepEvent := {
  se_user_id : string;
  se_status : string;
  se_started_at : option Instant;
  se_completed_at : option Instant
}.

(** [a] comes before [b] in [order("started_at", { ascending: false })]:
    later starts first, absent ones before all. *)
Definition startsAfter (a b : SweepEvent) : bool :=
  match se_started_at a, se_started_at b with
  | None, _ => true
  | Some _, None => false
  | Some x, Some y => y <=? x
  end.

(** The query of [getIncrementalScanDate] on a table: the completed sweeps
    of the user, the most recent start first, at most one row. *)
Definition lastCompleted (table : list SweepEvent) (userId : string) : option SweepEvent :=
  fold_left
    (fun best row =>
       if String.eqb (se_user_id row) userId && String.eqb (se_status row) "completed" then
         match best with
         | Some b => if startsAfter b row then Some b else Some row
         | None => Some row
         end
       else best)
    table None.

(** An environment that answers the query from a table and is calm
    otherwise. *)
Definition tableEnv (table : list SweepEvent) : Env := fun R tr c =>
  match c in Cmd R0 return R0 with
  | SweepEventsLastCompleted userId =>
      match lastCompleted table userId with
      | Some row => found {| started_at := se_started_at row; status := se_status row |}
      | None => nothing
      end
  | other => calmEnv _ tr other
  end.

(** The sweep finished within the last [hours] hours, in the words of the
    specification. *)
Definition finishedWithin (hours : Z) (now : Instant) (row : SweepEvent) : bool :=
  match se_completed_at row with
  | Some finished => now - finished <=? hours * 3600000
  | None => false
  end.

(** The since-instants with which the lister was called in a trace. *)
Definition listerSinces (tr : list Event) : list (option Instant) :=
  flat_map (fun ev => match listerSince ev with Some s => [s] | None => [] end) tr.

(** The clock readings of a trace. *)
Definition clockReadings (tr : list Event) : list Instant :=
  flat_map (fun ev : Event =>
              match projT2 ev with
              | (c, r) => match c in Cmd R0 return R0 -> list Instant with
                          | Now => fun t => [t]
                          | _ => fun _ => []
                          end r
              end) tr.

(** C1 (as stated, refuted).  The only completed sweep of the user started
    24.5 hours and finished 23.5 hours before the new sweep begins: it
    finished within the last 24 hours at every clock reading of the new
    sweep, and yet the lister is called for a full scan. *)
Lemma finished_recently_yet_full_scan :
  let t0 := 1700000000000 in
  let table := [ {| se_user_id := "user-1"; se_status := "completed";
                    se_started_at := Some (t0 - 88200000);
                    se_completed_at := Some (t0 - 84600000) |} ] in
  let tr := snd (run (tableEnv table) (sweepOf "user-1" "job-2") []) in
  option_map (fun row => forallb (fun now => finishedWithin 24 now row) (clockReadings tr))
             (lastCompleted table "user-1") = Some true
  /\ listerSinces tr = [None]
  /\ statusAfter "job-2" tr "pending" = "completed"%string.
Proof. vm_compute. repeat split; reflexivity. Qed.

(** A sweep that started two hours ago is scanned from incrementally, and
    one that finished 25 hours ago forces a full scan. *)
Example recent_start_incremental :
  let t0 := 1700000000000 in
  listerSinces (snd (run (tableEnv [ {| se_user_id := "user-1"; se_status := "completed";
                                         se_started_at := Some (t0 - 7200000);
                                         se_completed_at := Some (t0 - 7000000) |} ])
                       (sweepOf "user-1" "job-2") []))
  = [Some (t0 - 7200000)]
  /\ listerSinces (snd (run (tableEnv [ {| se_user_id := "user-1"; se_status := "completed";
                                            se_started_at := Some (t0 - 90100000);
                                            se_completed_at := Some (t0 - 90000000) |} ])
                          (sweepOf "user-1" "job-2") []))
     = [None].
Proof. vm_compute. split; reflexivity. Qed.

(** The access token with which a component was called. *)
Definition tokenUsed (ev : Event) : option string :=
  let (c, _) := projT2 ev in
  match c with
  | ListEmails accessToken _ _ => Some accessToken
  | FetchMetadataForMessages accessToken _ _ _ => Some accessToken
  | _ => None
  end.

(** The error of a request that the mail provider answers with 401. *)
Definition unauthorized : JsVal :=
  JError "Error" "Gmail metadata error for message m1: 401" [("code", JNum 401)].

(** An environment in which the stored access token is no longer accepted,
    the token endpoint hands out a fresh one, and the store refuses the
    update of the credential record. *)
Definition persistFailsEnv : Env := fun R tr c =>
  match c in Cmd R0 return R0 with
  | GmailAccountsUpdateToken _ _ _ _ =>
      {| data := None;
         error := Some (JObj [("message", JStr "permission denied for table gmail_accounts");
                              ("code", JStr "42501")]) |}
  | FetchMetadataForMessages accessToken _ _ _ =>
      if String.eqb accessToken "fresh" then Returned [] else Thrown unauthorized
  | other => calmEnv _ tr other
  end.

Definition staleAccount : GmailAccount :=
  {| user_id := "user-1"; gmail_address := "owner@gmail.com";
     access_token_encrypted := "stale"; refresh_token_encrypted := Some "refresh-1";
     token_expires_at := None |}.

Definition fetchWithRefresh : Prog (list EmailMetadata) :=
  withTokenRefresh "client-id" "client-secret" None (fun plain _ => plain)
    (fun enc => Returned enc) staleAccount
    (fun accessToken => fetchMetadataForMessages accessToken [] "free" "job-1").

(** C2 (as stated, refuted).  The update of the credential record resolves
    with an error, and the operation is nevertheless run again with the new
    token, which was not saved; the wrapper returns its result. *)
Lemma retry_with_unsaved_token :
  let '(out, tr) := run persistFailsEnv fetchWithRefresh [] in
  out = Returned []
  /\ match List.map (fun ev => (tokenUpdateOf ev, tokenUsed ev)) (lastn 2 tr) with
     | [(Some (enc, _, Some _), None); (None, Some accessToken)] =>
         enc = "fresh"%string /\ accessToken = "fresh"%string
     | _ => False
     end.
Proof. vm_compute. repeat split; reflexivity. Qed.

(** The account above with an expiry that has passed. *)
Definition expiredAccount : GmailAccount :=
  {| user_id := "user-1"; gmail_address := "owner@gmail.com";
     access_token_encrypted := "stale"; refresh_token_encrypted := Some "refresh-1";
     token_expires_at := Some 1600000000000 |}.

Definition refreshOf (gmailAccount : GmailAccount) : Prog string :=
  refreshAndPersist "client-id" "client-secret" None (fun plain _ => plain)
    gmailAccount "refresh-1".

Definition ensureOf (gmailAccount : GmailAccount) : Prog string :=
  ensureValidAccessToken "client-id" "client-secret" None (fun plain _ => plain)
    (fun enc => Returned enc) gmailAccount.

Definition refused : DbResult unit :=
  {| data := None;
     error := Some (JObj [("message", JStr "permission denied for table gmail_accounts");
                          ("code", JStr "42501")]) |}.

Lemma refresh_written_before_retry_witness :
  (* the refresh, under a store that refuses the update: what is written *)
  (exists status refreshed text,
      persistFailsEnv _ [] (OAuthTokenPost "refresh-1")
      = TokenResponse status (Returned refreshed) text
      /\ ok status = true
      /\ "fresh"%string = access_token refreshed
      /\ snd (run persistFailsEnv (refreshOf staleAccount) [])
         = [event (OAuthTokenPost "refresh-1")
              (TokenResponse status (Returned refreshed) text);
            event Now 1700000000001;
            event (RandomBytes 12) (repeat 0 12);
            event Now 1700000000003;
            event (GmailAccountsUpdateToken "user-1" (access_token refreshed)
                     (1700000000001 + expires_in refreshed * 1000) 1700000000003)
              refused])
  (* call by call: the expiry written is the clock after the token
     response plus 3600 seconds, the update is refused, and the new token
     is returned all the same *)
  /\ run persistFailsEnv (refreshOf staleAccount) []
     = (Returned "fresh"%string,
        [event (OAuthTokenPost "refresh-1")
           (TokenResponse 200 (Returned {| access_token := "fresh"; expires_in := 3600 |})
              "{}");
         event Now 1700000000001;
         event (RandomBytes 12) (repeat 0 12);
         event Now 1700000000003;
         event (GmailAccountsUpdateToken "user-1" "fresh" 1700003600001 1700000000003)
           refused])
  (* the proactive refresh of an account whose expiry has passed *)
  /\ run persistFailsEnv (ensureOf expiredAccount) []
     = run persistFailsEnv (refreshOf expiredAccount) [event Now 1700000000000]
  (* the reactive refresh *)
  /\ run persistFailsEnv fetchWithRefresh []
     = match run persistFailsEnv (refreshOf staleAccount)
               (snd (run persistFailsEnv
                       (fetchMetadataForMessages "stale" [] "free" "job-1")
                       (snd (run persistFailsEnv (ensureOf staleAccount) []))))
       with
       | (Returned tok1, tr3) =>
           run persistFailsEnv (fetchMetadataForMessages tok1 [] "free" "job-1") tr3
       | (Thrown e, tr3) => (Thrown e, tr3)
       end.
Proof.
  destruct (refresh_written_before_retry "client-id" "client-secret" None
              (fun plain _ => plain) (fun enc => Returned enc))
    as (Written & Returns & _ & _ & Proactive & Reactive).
  split; [|split; [|split]].
  - exact (Written persistFailsEnv staleAccount "refresh-1" []
             (snd (run persistFailsEnv (refreshOf staleAccount) [])) "fresh" eq_refl).
  - exact (Returns persistFailsEnv staleAccount "refresh-1" [] 200
             {| access_token := "fresh"; expires_in := 3600 |} "{}"
             eq_refl eq_refl eq_refl eq_refl eq_refl).
  - refine (Proactive persistFailsEnv expiredAccount [] "stale" "refresh-1" "refresh-1"
              1600000000000 eq_refl eq_refl eq_refl eq_refl eq_refl eq_refl _ _);
      [discriminate|reflexivity].
  - apply (Reactive persistFailsEnv _ staleAccount
             (fun accessToken => fetchMetadataForMessages accessToken [] "free" "job-1")
             [] "stale"
             (snd (run persistFailsEnv (ensureOf staleAccount) []))
             unauthorized
             (snd (run persistFailsEnv
                     (fetchMetadataForMessages "stale" [] "free" "job-1")
                     (snd (run persistFailsEnv (ensureOf staleAccount) []))))
             "refresh-1" "refresh-1");
      reflexivity.
Defined.

(** Seventy aggregates of distinct shops, the [i]-th with [i] messages. *)
Definition shopAggregate (i : nat) : Summarize.DomainAggregate :=
  {| Summarize.domain := ("shop" ++ Z_to_string (Z.of_nat i) ++ ".example")%string;
     Summarize.emailCount := Z.of_nat i;
     Summarize.firstSeenAt := Some 1000; Summarize.lastSeenAt := Some 2000;
     Summarize.serviceId := Some ("svc-" ++ Z_to_string (Z.of_nat i))%string;
     Summarize.subject := "Your receipt";
     Summarize.subjects := ["Your receipt"];
     Summarize.supportEmail := None; Summarize.privacyEmail := None;
     Summarize.contactConfidence := Summarize.low |}.

Definition seventy : list Summarize.DomainAggregate := List.map shopAggregate (seq 1 70).

Definition reportOf (currentPlan : Plan) : Prog unit :=
  persistAndReport "resend-key" "user-1" "job-1" {| user_email := Some "owner@example.com" |}
    1700000000000 currentPlan staleAccount false [] (rankCandidates seventy).

(** On the free plan 50 of the 70 candidates are persisted and 70 are
    reported, four times; on the [pro] plan all 70 are persisted. *)
Example seventy_candidates :
  let tr := snd (run calmEnv (reportOf "free") []) in
  flat_map (fun ev => match upsertedServices ev with
                      | Some rows => [List.length rows] | None => [] end) tr = [50%nat]
  /\ flat_map (fun ev => match reportedTotal ev with Some m => [m] | None => [] end) tr
     = [70; 70; 70; 70]
  /\ statusAfter "job-1" tr "processing" = "completed"%string
  /\ flat_map (fun ev => match upsertedServices ev with
                         | Some rows => [List.length rows] | None => [] end)
       (snd (run calmEnv (reportOf "pro") [])) = [70%nat].
Proof. vm_compute. repeat split; reflexivity. Qed.

(** A mailbox with one message from each of seventy shops, and a sweep of
    it on the free plan, stage by stage. *)
Definition shopMessage (i : nat) : EmailMetadata :=
  {| id := ("18c2f0a1b2c3d" ++ Z_to_string (Z.of_nat (100 + i)))%string;
     from := ("Shop " ++ Z_to_string (Z.of_nat i) ++ " <orders@shop"
              ++ Z_to_string (Z.of_nat i) ++ ".example>")%string;
     subject := "Your order has shipped";
     date := "";
     internalDate := Some (1690000000000 + Z.of_nat i) |}.

Definition seventyMessages : list EmailMetadata := List.map shopMessage (seq 1 70).

Definition seventyListed : list GmailMessage :=
  List.map (fun m => {| msg_id := Some (id m); threadId := None |}) seventyMessages.

Definition seventyEnv : Env := fun R tr c =>
  match c in Cmd R0 return R0 with
  | ListEmails _ _ _ => Returned seventyListed
  | FetchMetadataForMessages _ _ _ _ => Returned seventyMessages
  | other => calmEnv _ tr other
  end.

Definition owner : User := {| user_email := Some "owner@example.com" |}.

Definition ownerAccount : GmailAccount :=
  {| user_id := "user-1"; gmail_address := "owner@gmail.com";
     access_token_encrypted := ""; refresh_token_encrypted := None;
     token_expires_at := None |}.

Definition refreshing {T : Type} : (string -> Prog T) -> Prog T :=
  withTokenRefresh "client-id" "client-secret" None (fun plain _ => plain)
    (fun enc => Returned enc) ownerAccount.

Definition afterUser : list Event :=
  snd (run seventyEnv (getUserEmail "user-1") [event Now 1700000000000]).
Definition afterLoad : list Event :=
  snd (run seventyEnv (loadConnection "user-1" "job-1") afterUser).
Definition afterWindow : list Event :=
  snd (run seventyEnv (getIncrementalScanDate "user-1" 24) afterLoad).
Definition afterList : list Event :=
  snd (run seventyEnv
         (refreshing (fun accessToken => listEmails accessToken "free" None)) afterWindow).
Definition afterFetch : list Event :=
  snd (run seventyEnv
         (refreshing (fun accessToken =>
                        fetchMetadataForMessages accessToken seventyListed "free" "job-1"))
         afterList).
Definition summarized : Outcome (list Summarize.DomainAggregate) * list Event :=
  run seventyEnv (Summarize.summarizeByDomain (fun _ => None) "logo-key" seventyMessages)
    afterFetch.
Definition seventySummaries : list Summarize.DomainAggregate :=
  match fst summarized with Returned l => l | Thrown _ => [] end.
Definition afterSummary : list Event := snd summarized.

Lemma free_plan_keeps_top_50_witness :
  let ranked := rankCandidates seventySummaries in
  let top := firstn 50 ranked in
  let rows := List.map (userServiceRow "user-1") top in
  (exists started updated marked subscription account,
      afterLoad = afterUser ++ [event Now started; event Now updated;
                                event (SweepEventsUpdate "job-1"
                                         (PatchProcessing started updated)) marked;
                                event (SubscriptionsSelectPlan "user-1") subscription;
                                event (GmailAccountsSelect "user-1") account]
      /\ "free"%string = match data subscription with
                         | Some (Some stored) =>
                             if truthy stored then stored else "free"%string
                         | _ => "free"%string
                         end
      /\ error account = None /\ data account = Some ownerAccount)
  /\ Permutation
    (filter (fun c => negb (Helpers.isLikelySpam (asSummary (summary c))))
       (List.map enrich seventySummaries))
    ranked
  /\ Descending ranked
  /\ List.length top = 50%nat
  /\ (forall x y, In x top -> In y (skipn 50 ranked) -> confidence y <= confidence x)
  /\ (exists before,
        afterSummary = [] ++ before
        /\ forall ev, In ev before ->
             upsertedServices ev = None /\ reportedTotal ev = None)
  /\ exists more,
       snd (run seventyEnv (sweepOf "user-1" "job-1") []) = afterSummary ++ more
       /\ (forall ev saved, In ev more -> upsertedServices ev = Some saved -> saved = rows)
       /\ (forall ev m, In ev more -> reportedTotal ev = Some m -> m = 70)
       /\ exists savedAt deleted accepted rest,
            more = [event (GetBreaches "owner@gmail.com") (Returned []);
                    event Now savedAt;
                    event (UserServicesDelete "user-1") deleted;
                    event (UserServicesUpsert rows) accepted] ++ rest
            /\ (error accepted = None ->
                exists (breachesSaved : DbResult unit) finished created recorded completed
                       updated marked swept stamped notified rest',
                  rest = [event Now finished; event Now created;
                          event (SweepMetricsInsert
                                   {| sm_user_id := "user-1";
                                      duration_ms := finished - 1700000000000;
                                      messages_scanned := 70;
                                      accounts_found := 70;
                                      sm_breaches_found := 0;
                                      is_incremental := false;
                                      created_at := created |}) recorded;
                          event Now completed; event Now updated;
                          event (SweepEventsUpdate "job-1"
                                   (PatchCompleted completed 70 0 updated)) marked;
                          event Now swept;
                          event (SubscriptionsUpdateLastSweep "user-1" swept) stamped;
                          event (NotificationsInsert (completedNotice "user-1" 70 0))
                            notified]
                         ++ rest'
                  /\ (error notified = None -> truthy "resend-key" = true ->
                      exists ended mail rest'',
                        rest' = [event Now ended;
                                 event (ResendPost
                                          {| to := Some "owner@example.com";
                                             templateId :=
                                               "5c7439e4-7831-437e-98fd-5d3c6bbf20a7";
                                             variables :=
                                               CompletedVars 70 0 "free"
                                                 (ended - 1700000000000)
                                                 (Some "owner@gmail.com") |}) mail]
                                ++ rest''
                        /\ (forall status body text,
                              mail = Response status (Some body) text ->
                              ok status = true ->
                              rest'' = []
                              /\ fst (run seventyEnv (sweepOf "user-1" "job-1") [])
                                 = Returned tt))).
Proof.
  pose proof (free_plan_keeps_top_50 "client-id" "client-secret" "resend-key" "logo-key"
                (fun _ => None) None (fun plain _ => plain) (fun enc => Returned enc)
                (fun _ => "{}"%string)
                seventyEnv "user-1" "job-1" [] owner "free" ownerAccount None
                seventyListed seventyMessages seventySummaries
                afterUser afterLoad afterWindow afterList afterFetch afterSummary
                ltac:(vm_compute; reflexivity) ltac:(vm_compute; reflexivity)
                ltac:(vm_compute; reflexivity) ltac:(vm_compute; reflexivity)
                ltac:(vm_compute; reflexivity) ltac:(vm_compute; reflexivity)
                ltac:(discriminate) ltac:(vm_compute; reflexivity))
    as (Plan & Kept & Sorted & Fifty & Best & Before & more & Hmore & Links & Totals
        & Saved).
  cbv zeta in *.
  split; [exact Plan|]. split; [exact Kept|]. split; [exact Sorted|]. split; [exact Fifty|]. split; [exact Best|].
  split; [exact Before|].
  exists more. split; [exact Hmore|]. split; [exact Links|].
  split; [intros ev m Hin Hm; rewrite (Totals ev m Hin Hm); vm_compute; reflexivity|].
  exact (Saved [] eq_refl).
Defined.

(** That sweep as a whole: fifty links are given to the store, the total
    70 is recorded in the metrics, on the completed job, in the
    notification and in the e-mail, and the job ends completed. *)
Example seventy_shop_sweep :
  let '(out, tr) := run seventyEnv (sweepOf "user-1" "job-1") [] in
  out = Returned tt
  /\ flat_map (fun ev => match upsertedServices ev with
                         | Some rows => [rows] | None => [] end) tr
     = [List.map (userServiceRow "user-1") (firstn 50 (rankCandidates seventySummaries))]
  /\ List.length (firstn 50 (rankCandidates seventySummaries)) = 50%nat
  /\ flat_map (fun ev => match reportedTotal ev with Some m => [m] | None => [] end) tr
     = [70; 70; 70; 70]
  /\ statusAfter "job-1" tr "pending" = "completed"%string.
Proof. vm_compute. repeat split; reflexivity. Qed.

(** An environment in which the user of the job is not found. *)
Definition lostUserEnv : Env := fun R tr c =>
  match c in Cmd R0 return R0 with
  | AuthGetUserById _ =>
      {| data := None;
         error := Some (JObj [("message", JStr "User not found"); ("status", JNum 404)]) |}
  | other => calmEnv _ tr other
  end.

(** C3 (the code at the failing input).  For a pending job whose user is
    not found the sweep returns after three calls, the only write being the
    insert of the failure notification: no update of the job is issued, so
    the job is still pending, not failed. *)
Theorem unresolved_user_job_stays_pending :
  let '(out, tr) := run lostUserEnv (sweepOf "user-9" "job-9") [] in
  out = Returned tt
  /\ List.map sweepPatchOf tr = [None; None; None]
  /\ filter isStoreWrite tr
     = [event (NotificationsInsert (failureNoticeNoUser "user-9")) nothing]
  /\ statusAfter "job-9" tr "pending" = "pending"%string.
Proof. vm_compute. repeat split; reflexivity. Qed.

(** An environment in which the lister rejects the access token with its
    sentinel error. *)
Definition listerRejectsEnv : Env := fun R tr c =>
  match c in Cmd R0 return R0 with
  | ListEmails _ _ _ => Thrown (newError "GMAIL_AUTH_INVALID")
  | other => calmEnv _ tr other
  end.

Lemma other_errors_pass_without_refresh_witness :
  run listerRejectsEnv
    (withTokenRefresh "client-id" "client-secret" None (fun plain _ => plain)
       (fun enc => Returned enc) staleAccount
       (fun accessToken => listEmails accessToken "free" None)) []
  = (Thrown (newError "GMAIL_AUTH_INVALID"),
     [event Now 1700000000000;
      event (ListEmails "stale" "free" None) (Thrown (newError "GMAIL_AUTH_INVALID"))]).
Proof.
  exact (other_errors_pass_without_refresh "client-id" "client-secret" None
           (fun plain _ => plain) (fun enc => Returned enc) listerRejectsEnv _ staleAccount
           (fun accessToken => listEmails accessToken "free" None)
           [] [event Now 1700000000000]
           [event Now 1700000000000;
            event (ListEmails "stale" "free" None) (Thrown (newError "GMAIL_AUTH_INVALID"))]
           "stale" (newError "GMAIL_AUTH_INVALID") eq_refl eq_refl eq_refl).
Defined.

Lemma resolved_job_ends_completed_or_failed_witness :
  exists more,
    snd (run calmEnv (sweepOf "user-1" "job-1") []) = [] ++ more
    /\ forall initial,
         statusAfter "job-1" more initial = "completed"%string
         \/ statusAfter "job-1" more initial = "failed"%string.
Proof.
  exact (resolved_job_ends_completed_or_failed "client-id" "client-secret" "resend-key"
           "logo-key" (fun _ => None) None (fun plain _ => plain) (fun enc => Returned enc)
           (fun _ => "{}"%string) calmEnv "user-1" "job-1" []
           {| user_email := Some "owner@example.com" |} eq_refl eq_refl).
Defined.

Lemma without_mail_key_every_sweep_fails_witness :
  exists more,
    snd (run calmEnv
           (processSweep "client-id" "client-secret" "" "logo-key" (fun _ => None)
              None (fun plain _ => plain) (fun enc => Returned enc) (fun _ => "{}"%string)
              "user-1" "job-1") []) = [] ++ more
    /\ (forall initial, statusAfter "job-1" more initial = "failed"%string)
    /\ exists e,
         fst (run calmEnv
                (processSweep "client-id" "client-secret" "" "logo-key" (fun _ => None)
                   None (fun plain _ => plain) (fun enc => Returned enc)
                   (fun _ => "{}"%string) "user-1" "job-1") []) = Thrown e.
Proof.
  exact (without_mail_key_every_sweep_fails "client-id" "client-secret" "" "logo-key"
           (fun _ => None) None (fun plain _ => plain) (fun enc => Returned enc)
           (fun _ => "{}"%string) eq_refl calmEnv "user-1" "job-1" []
           {| user_email := Some "owner@example.com" |} eq_refl eq_refl).
Defined.

End Worker.

(* ===================================================================== *)
(** ** The metadata fetcher (fetch-metadata-for-messages.ts) *)
(* ===================================================================== *)

Module Fetcher.
Import Str Js Effects.
Local Open Scope list_scope.
Local Open Scope prog_scope.

(** What the fetcher awaits (a request to the mail provider, a timer), what
    a worker of the pool does to the arrays the workers share, and the
    progress callback. *)
Inductive Cmd : Type -> Type :=
| GmailGet (accessToken id : string) : Cmd HttpResult
| Sleep (ms : Z) : Cmd unit
| PushResult (m : Store.EmailMetadata) : Cmd unit
| PushError (id : string) : Cmd unit
| OnProgress (messagesProcessed totalMessages percentage : Z) : Cmd unit.

Abbreviation Prog := (Effects.Prog Cmd).
Abbreviation Env := (Effects.Env Cmd).
Abbreviation Event := (Effects.Event Cmd).

Definition lift {A : Type} (o : Outcome A) : Prog A :=
  match o with
  | Returned a => Ret a
  | Thrown e => Throw e
  end.

(** The error thrown for a response that is not ok and whose body parses:
    the message names the message and the status, [code] is the status
    and [error] the parsed body. *)
Definition responseError (id : string) (status : Z) (body : JsVal) : JsVal :=
  JError "Error" ("Gmail metadata error for message " ++ id ++ ": " ++ Z_to_string status)
    [("code", JNum status); ("error", body)].

(** [res.text()] in the handler of a failed [res.json()]: the body of the
    response has been read by then, and the read of a used body rejects
    with a [TypeError] (the wording is the runtime's).  The error has
    neither [code] nor [error]. *)
Definition bodyUnusable : JsVal :=
  typeError "Body is unusable: Body has already been read".

(** What the request of one message makes of the response.  For a
    response that is not ok the body is read as JSON; when that fails the
    second read throws out of the closure, before the error with the
    status is built. *)
Definition respond (id : string) (res : HttpResult) : Prog JsVal :=
  match res with
  | NetworkFailure e => Throw e
  | Response status json text =>
      if negb (ok status) then
        match json with
        | Some body => Throw (responseError id status body)
        | None => Throw bodyUnusable
        end
      else match json with
           | Some data => Ret data
           | None => Throw (syntaxError "Unexpected end of JSON input")
           end
  end.

(** The request for the metadata of one message: the function handed to
    [retryWithBackoff]. *)
Definition getMessage (accessToken id : string) : Prog JsVal :=
  res <- call (GmailGet accessToken id) ;; respond id res.

(** [isRateLimitError] of [retryWithBackoff]. *)
Definition isRateLimitError (error : JsVal) : bool :=
  isNum (get error "code") 429
  || isNum (get error "status") 429
  || isStr (get (get error "error") "status") "RESOURCE_EXHAUSTED"
  || (isNum (get error "code") 403
      && includes (toStr (if truthyVal (get error "message") then get error "message"
                          else JStr "")) "Quota").

(** The loop of [retryWithBackoff] from [attempt] on, with [remaining]
    iterations to go. *)
Fixpoint retryFrom {T : Type} (fn : Prog T) (maxRetries baseDelay : Z)
    (remaining : nat) (attempt : Z) (lastErr : JsVal) : Prog T :=
  match remaining with
  | O => Throw (nullish lastErr (newError "Max retries exceeded"))
  | S remaining' =>
      tryCatch fn (fun error =>
        isAuth <- lift (isGmailAuthError error) ;;
        if isAuth then Throw error else
        if negb (isRateLimitError error) || (attempt =? maxRetries - 1) then Throw error else
        let delay := baseDelay * 2 ^ attempt in
        _ <- call (Sleep delay) ;;
        retryFrom fn maxRetries baseDelay remaining' (attempt + 1) error)
  end.

(** [retryWithBackoff]. *)
Definition retryWithBackoff {T : Type} (fn : Prog T) (maxRetries baseDelay : Z) : Prog T :=
  retryFrom fn maxRetries baseDelay (Z.to_nat maxRetries) 0 JNull.

(** The error with which the request of message [id] fails on the
    response [res], if it fails. *)
Definition failureOf (id : string) (res : HttpResult) : option JsVal :=
  match respond id res with
  | Throw e => Some e
  | _ => None
  end.

(** The error of a completed request that failed with an error on which
    [isGmailAuthError] holds. *)
Definition authFailure (ev : Event) : option JsVal :=
  match ev with
  | existT _ _ (c, r) =>
      match c in Cmd R return R -> option JsVal with
      | GmailGet _ id => fun res =>
          match failureOf id res with
          | Some e => match isGmailAuthError e with
                      | Returned true => Some e
                      | _ => None
                      end
          | None => None
          end
      | _ => fun _ => None
      end r
  end.

(** The delays slept and the requests made in a trace. *)
Definition sleepOf (ev : Event) : option Z :=
  match ev with
  | existT _ _ (c, _) => match c with Sleep ms => Some ms | _ => None end
  end.

Definition requestOf (ev : Event) : option string :=
  match ev with
  | existT _ _ (c, _) => match c with GmailGet _ id => Some id | _ => None end
  end.

Fixpoint collect {A B : Type} (f : A -> option B) (l : list A) : list B :=
  match l with
  | [] => []
  | x :: rest => match f x with Some y => y :: collect f rest | None => collect f rest end
  end.

Definition sleeps (tr : list Event) : list Z := collect sleepOf tr.
Definition requests (tr : list Event) : list string := collect requestOf tr.

Fixpoint firstAuthFailure (tr : list Event) : option JsVal :=
  match tr with
  | [] => None
  | ev :: rest => match authFailure ev with Some e => Some e | None => firstAuthFailure rest end
  end.

Section WithNumbers.

(** [Number(text)], when it is an integer, and
    [Math.round((processed / total) * 100) || 0] in the arithmetic of
    doubles. *)
Variable Number_parse : string -> option Z.
Variable percentageOf : Z -> Z -> Z.

Definition toNumber (v : JsVal) : option Z :=
  match v with
  | JNum n => Some n
  | JNull => Some 0
  | JUndefined => None
  | JBool b => Some (if b then 1 else 0)
  | other => Number_parse (toStr other)
  end.

(** [headers.find((h) => h.name === name)?.value?.toString() ?? empty] *)
Fixpoint headerValue (headers : list JsVal) (name : string) : Outcome string :=
  match headers with
  | [] => Returned ""%string
  | h :: rest =>
      match h with
      | JNull | JUndefined =>
          Thrown (typeError "Cannot read properties of null (reading 'name')")
      | _ =>
          if isStr (get h "name") name then
            match get h "value" with
            | JNull | JUndefined => Returned ""%string
            | value => Returned (toStr value)
            end
          else headerValue rest name
      end
  end.

(** The metadata pushed for the parsed response [data] of message [id]. *)
Definition toMetadata (id : string) (data : JsVal) : Outcome Store.EmailMetadata :=
  match data with
  | JNull | JUndefined =>
      Thrown (typeError "Cannot read properties of null (reading 'payload')")
  | _ =>
      match nullish (get (get data "payload") "headers") (JArr []) with
      | JArr headers =>
          match headerValue headers "From" with
          | Thrown e => Thrown e
          | Returned from =>
          match headerValue headers "Subject" with
          | Thrown e => Thrown e
          | Returned subject =>
          match headerValue headers "Date" with
          | Thrown e => Thrown e
          | Returned date =>
              let mk internalDate :=
                {| Store.id := toStr (nullish (get data "id") (JStr id));
                   Store.from := from; Store.subject := subject; Store.date := date;
                   Store.internalDate := internalDate |} in
              if truthyVal (get data "internalDate") then
                match toNumber (get data "internalDate") with
                | Some ms =>
                    if Z.abs ms <=? 8640000000000000 then Returned (mk (Some ms))
                    else Thrown (rangeError "Invalid time value")
                | None => Thrown (rangeError "Invalid time value")
                end
              else Returned (mk None)
          end end end
      | _ => Thrown (typeError "headers.find is not a function")
      end
  end.

Definition DELAY_BETWEEN_REQUESTS : Z := 50.
Definition CONCURRENCY : nat := 5.
Definition BATCH_SIZE : nat := 200.
Definition BATCH_DELAY : Z := 500.

(** One turn of the loop of [worker], for the message [id]. *)
Definition fetchOne (accessToken id : string) : Prog unit :=
  tryCatch
    (data <- retryWithBackoff (getMessage accessToken id) 5 1000 ;;
     m <- lift (toMetadata id data) ;;
     _ <- call (PushResult m) ;;
     _ <- call (Sleep DELAY_BETWEEN_REQUESTS) ;;
     Ret tt)
    (fun err =>
       isAuth <- lift (isGmailAuthError err) ;;
       if isAuth then Throw err else
       _ <- call (PushError id) ;;
       Ret tt).

(** *** The pool of [getEmailMetadataBatch]

    The workers share the cursor into the identifiers of the batch (here:
    the identifiers not yet taken) and the two arrays.  A worker runs from
    the completion of the call it awaits to its next [await] in one piece;
    which worker's call completes next is the scheduler's choice. *)
Record Shared : Type := {
  pending : list string;
  results : list Store.EmailMetadata;
  errors : list string
}.

(** A worker up to its next [await]: the pushes take effect. *)
Fixpoint settle (t : Prog unit) (sh : Shared) : Prog unit * Shared :=
  match t with
  | Call c k =>
      match c in Cmd R return (R -> Prog unit) -> Prog unit * Shared with
      | PushResult m => fun k' =>
          settle (k' tt) {| pending := pending sh; results := results sh ++ [m];
                            errors := errors sh |}
      | PushError id => fun k' =>
          settle (k' tt) {| pending := pending sh; results := results sh;
                            errors := errors sh ++ [id] |}
      | _ => fun _ => (t, sh)
      end k
  | _ => (t, sh)
  end.

(** [worker] from the head of its loop,
    [while (index < messageIds.length) { const i = index++; ... }],
    to its next [await] or to its end. *)
Fixpoint workerFrom (accessToken : string) (todo : list string) (sh : Shared)
    : Prog unit * Shared :=
  match todo with
  | [] => (Ret tt, sh)
  | id :: rest =>
      let (t, sh') := settle (fetchOne accessToken id)
                        {| pending := rest; results := results sh; errors := errors sh |} in
      match t with
      | Ret _ => workerFrom accessToken rest sh'
      | _ => (t, sh')
      end
  end.

Definition worker (accessToken : string) (sh : Shared) : Prog unit * Shared :=
  workerFrom accessToken (pending sh) sh.

(** A worker from the completion of the call it awaited: the rest of the
    turn, then the loop again. *)
Definition resume (accessToken : string) (t : Prog unit) (sh : Shared) : Prog unit * Shared :=
  let (t', sh') := settle t sh in
  match t' with
  | Ret _ => worker accessToken sh'
  | _ => (t', sh')
  end.

(** The pool: the workers (a worker that ended is [Ret], one that threw is
    [Throw]), the rejection of [Promise.all] once there is one, and the
    calls completed so far with the worker that awaited each. *)
Record Pool : Type := {
  shared : Shared;
  workers : list (Prog unit);
  rejected : option JsVal;
  calls : list (nat * Event)
}.

Definition thrownBy (t : Prog unit) : option JsVal :=
  match t with Throw e => Some e | _ => None end.

Definition orElse {A : Type} (a b : option A) : option A :=
  match a with Some _ => a | None => b end.

(** [Array.from({ length: CONCURRENCY }, (_, i) => worker(i + 1))]: the
    workers start one after the other. *)
Fixpoint spawn (accessToken : string) (n : nat) (sh : Shared) : list (Prog unit) * Shared :=
  match n with
  | O => ([], sh)
  | S n' =>
      let (t, sh') := worker accessToken sh in
      let (ts, sh'') := spawn accessToken n' sh' in
      (t :: ts, sh'')
  end.

Definition start (accessToken : string) (messageIds : list string) : Pool :=
  let (ts, sh) := spawn accessToken CONCURRENCY
                    {| pending := messageIds; results := []; errors := [] |} in
  {| shared := sh; workers := ts;
     rejected := fold_right (fun t r => orElse (thrownBy t) r) None ts;
     calls := [] |}.

Fixpoint update {A : Type} (i : nat) (x : A) (l : list A) {struct l} : list A :=
  match l, i with
  | [], _ => []
  | _ :: rest, O => x :: rest
  | y :: rest, S i' => y :: update i' x rest
  end.

(** The call that worker [i] awaits completes.  [before] are the calls
    completed before the pool started. *)
Definition deliver (env : Env) (accessToken : string) (before : list Event)
    (p : Pool) (i : nat) : Pool :=
  match nth_error (workers p) i with
  | Some (Call c k) =>
      let r := env _ (before ++ map snd (calls p)) c in
      let (t', sh') := resume accessToken (k r) (shared p) in
      {| shared := sh';
         workers := update i t' (workers p);
         rejected := orElse (rejected p) (thrownBy t');
         calls := calls p ++ [(i, event c r)] |}
  | _ => p
  end.

(** [getEmailMetadataBatch] after the completions [schedule]. *)
Definition getEmailMetadataBatch (env : Env) (accessToken : string)
    (messageIds : list string) (schedule : list nat) (before : list Event) : Pool :=
  fold_left (deliver env accessToken before) schedule (start accessToken messageIds).

Definition ended (t : Prog unit) : bool :=
  match t with Ret _ => true | _ => false end.

(** What [await Promise.all(workers)] and the [return results] after it
    make of the pool: nothing yet while a worker is under way and none has
    thrown. *)
Definition outcome (p : Pool) : option (Outcome (list Store.EmailMetadata)) :=
  match rejected p with
  | Some e => Some (Thrown e)
  | None => if forallb ended (workers p) then Some (Returned (results (shared p))) else None
  end.

(** *** [fetchMetadataForMessages] *)

(** [messageIds.slice(i, i + BATCH_SIZE)] for [i = 0, BATCH_SIZE, ...]. *)
Fixpoint batchesOf (fuel : nat) (messageIds : list string) : list (list string) :=
  match fuel, messageIds with
  | S fuel', _ :: _ =>
      firstn BATCH_SIZE messageIds :: batchesOf fuel' (skipn BATCH_SIZE messageIds)
  | _, _ => []
  end.

(** The end of a turn of the loop over the batches: the progress callback,
    and the delay when there are [more] batches. *)
Definition reportProgress (env : Env) (total : Z) (more : bool)
    (found : list Store.EmailMetadata) (tr : list Event) : list Event :=
  let processed := Z.of_nat (length found) in
  let c := OnProgress processed total (percentageOf processed total) in
  let tr' := tr ++ [event c (env _ tr c)] in
  if more then tr' ++ [event (Sleep BATCH_DELAY) (env _ tr' (Sleep BATCH_DELAY))] else tr'.

(** The loop over the batches; [schedules] has the completions of each
    batch.  The calls that the workers of a batch still complete after the
    batch was rejected are in the trace before what follows. *)
Fixpoint fetchBatches (env : Env) (accessToken : string) (total : Z)
    (batches : list (list string)) (schedules : list (list nat))
    (found : list Store.EmailMetadata) (tr : list Event)
    : option (Outcome (list Store.EmailMetadata)) * list Event :=
  match batches with
  | [] => (Some (Returned found), tr)
  | batchIds :: rest =>
      let p := getEmailMetadataBatch env accessToken batchIds (hd [] schedules) tr in
      let tr1 := tr ++ map snd (calls p) in
      let more := match rest with [] => false | _ :: _ => true end in
      let next found' :=
        fetchBatches env accessToken total rest (tl schedules) found'
          (reportProgress env total more found' tr1) in
      match outcome p with
      | None => (None, tr1)
      | Some (Returned batchResults) => next (found ++ batchResults)
      | Some (Thrown err) =>
          match isGmailAuthError err with
          | Returned true => (Some (Thrown err), tr1)
          | Returned false => next found
          | Thrown te => (Some (Thrown te), tr1)
          end
      end
  end.

(** [fetchMetadataForMessages], called with a progress callback as
    worker.ts does; [messages] are the [id]s of the messages, where they
    have one. *)
Definition fetchMetadataForMessages (env : Env) (accessToken : string)
    (messages : list (option string)) (schedules : list (list nat))
    : option (Outcome (list Store.EmailMetadata)) * list Event :=
  match messages with
  | [] => (Some (Returned []), [])
  | _ :: _ =>
      let messageIds :=
        flat_map (fun m => match m with
                           | Some id => if truthy id then [id] else []
                           | None => []
                           end) messages in
      fetchBatches env accessToken (Z.of_nat (length messageIds))
        (batchesOf (length messageIds) messageIds) schedules [] []
  end.

(** *** One request under [retryWithBackoff] *)

Lemma run_getMessage (env : Env) (accessToken id : string) (tr : list Event) :
  run env (getMessage accessToken id) tr =
  let r := env _ tr (GmailGet accessToken id) in
  run env (respond id r) (tr ++ [event (GmailGet accessToken id) r]).
Proof. reflexivity. Qed.

Lemma run_failed (env : Env) (accessToken id : string) (tr : list Event) (e : JsVal) :
  failureOf id (env _ tr (GmailGet accessToken id)) = Some e ->
  run env (getMessage accessToken id) tr =
  (Thrown e, tr ++ [event (GmailGet accessToken id) (env _ tr (GmailGet accessToken id))]).
Proof.
  intros H. rewrite run_getMessage. cbv zeta. unfold failureOf in H.
  destruct (respond id (env _ tr (GmailGet accessToken id))); try discriminate.
  injection H as ->. reflexivity.
Qed.

(** A failure that is a rate-limit signal, before the last attempt: the
    delay and the next attempt. *)
Lemma retry_again (env : Env) (accessToken id : string) (maxRetries baseDelay : Z)
    (n : nat) (attempt : Z) (lastErr e : JsVal) (tr : list Event) :
  failureOf id (env _ tr (GmailGet accessToken id)) = Some e ->
  isGmailAuthError e = Returned false ->
  isRateLimitError e = true ->
  attempt <> maxRetries - 1 ->
  run env (retryFrom (getMessage accessToken id) maxRetries baseDelay (S n) attempt lastErr) tr =
  let tr1 := tr ++ [event (GmailGet accessToken id) (env _ tr (GmailGet accessToken id))] in
  let delay := baseDelay * 2 ^ attempt in
  run env (retryFrom (getMessage accessToken id) maxRetries baseDelay n (attempt + 1) e)
    (tr1 ++ [event (Sleep delay) (env _ tr1 (Sleep delay))]).
Proof.
  intros Hf Ha Hr Hn. cbn [retryFrom]. rewrite run_tryCatch, (run_failed _ _ _ _ _ Hf).
  rewrite Ha, Hr. cbn [lift bind negb orb].
  destruct (Z.eqb_spec attempt (maxRetries - 1)) as [E|_]; [contradiction|].
  reflexivity.
Qed.

(** Any other failure, and any failure of the last attempt: thrown at once. *)
Lemma retry_stop (env : Env) (accessToken id : string) (maxRetries baseDelay : Z)
    (n : nat) (attempt : Z) (lastErr e : JsVal) (tr : list Event) :
  failureOf id (env _ tr (GmailGet accessToken id)) = Some e ->
  isGmailAuthError e = Returned true \/
  (isGmailAuthError e = Returned false /\
   (isRateLimitError e = false \/ attempt = maxRetries - 1)) ->
  run env (retryFrom (getMessage accessToken id) maxRetries baseDelay (S n) attempt lastErr) tr =
  (Thrown e, tr ++ [event (GmailGet accessToken id) (env _ tr (GmailGet accessToken id))]).
Proof.
  intros Hf H. cbn [retryFrom]. rewrite run_tryCatch, (run_failed _ _ _ _ _ Hf).
  destruct H as [Ha|[Ha H]]; rewrite Ha; cbn [lift bind]; [reflexivity|].
  destruct H as [Hr|Hn].
  - rewrite Hr. reflexivity.
  - subst attempt. rewrite Z.eqb_refl, orb_true_r. reflexivity.
Qed.

Lemma collect_app {A B : Type} (f : A -> option B) (l l' : list A) :
  collect f (l ++ l') = collect f l ++ collect f l'.
Proof.
  induction l as [|x l IH]; simpl; [reflexivity|].
  destruct (f x); simpl; rewrite IH; reflexivity.
Qed.

(** A request that fails with a rate-limit signal every time: five
    attempts, with 1000, 2000, 4000 and 8000 ms between them, and the
    error of the fifth. *)
Lemma backoff_schedule (env : Env) (accessToken id : string) :
  (forall tr, exists e,
      failureOf id (env _ tr (GmailGet accessToken id)) = Some e /\
      isGmailAuthError e = Returned false /\ isRateLimitError e = true) ->
  let res := run env (retryWithBackoff (getMessage accessToken id) 5 1000) [] in
  sleeps (snd res) = [1000; 2000; 4000; 8000] /\
  requests (snd res) = [id; id; id; id; id] /\
  exists e, fst res = Thrown e /\ isRateLimitError e = true.
Proof.
  intros H. unfold retryWithBackoff.
  change (Z.to_nat 5) with 5%nat. cbv zeta.
  destruct (H []) as [e1 [F1 [A1 R1]]].
  rewrite (retry_again _ _ _ _ _ _ _ _ e1 _ F1 A1 R1) by lia. cbv zeta.
  match goal with |- context [run env _ ?t] => destruct (H t) as [e2 [F2 [A2 R2]]] end.
  rewrite (retry_again _ _ _ _ _ _ _ _ e2 _ F2 A2 R2) by lia. cbv zeta.
  match goal with |- context [run env _ ?t] => destruct (H t) as [e3 [F3 [A3 R3]]] end.
  rewrite (retry_again _ _ _ _ _ _ _ _ e3 _ F3 A3 R3) by lia. cbv zeta.
  match goal with |- context [run env _ ?t] => destruct (H t) as [e4 [F4 [A4 R4]]] end.
  rewrite (retry_again _ _ _ _ _ _ _ _ e4 _ F4 A4 R4) by lia. cbv zeta.
  match goal with |- context [run env _ ?t] => destruct (H t) as [e5 [F5 [A5 R5]]] end.
  rewrite (retry_stop _ _ _ _ _ _ _ _ e5 _ F5) by (right; split; [exact A5|right; reflexivity]).
  cbn [fst snd]. unfold sleeps, requests. rewrite !collect_app. cbn.
  repeat split. exists e5. auto.
Qed.

(** A failure that is no rate-limit signal is thrown at once: one request
    and no delay. *)
Lemma no_retry_otherwise (env : Env) (accessToken id : string) (e : JsVal) (tr : list Event) :
  failureOf id (env _ tr (GmailGet accessToken id)) = Some e ->
  isGmailAuthError e = Returned false ->
  isRateLimitError e = false ->
  run env (retryWithBackoff (getMessage accessToken id) 5 1000) tr =
  (Thrown e, tr ++ [event (GmailGet accessToken id) (env _ tr (GmailGet accessToken id))]).
Proof.
  intros Hf Ha Hr. unfold retryWithBackoff. change (Z.to_nat 5) with 5%nat.
  apply retry_stop; auto.
Qed.

(** Responses with status 429 whose body parses are such signals, whatever
    the body says; with a body that does not parse the failure is that of
    the second read, which is no signal. *)
Lemma status_429_rate_limited (id : string) (body : JsVal) (text : string) :
  failureOf id (Response 429 (Some body) text) = Some (responseError id 429 body) /\
  isRateLimitError (responseError id 429 body) = true.
Proof. split; reflexivity. Qed.

Lemma status_429_unreadable (id text : string) :
  failureOf id (Response 429 None text) = Some bodyUnusable /\
  isRateLimitError bodyUnusable = false /\
  isGmailAuthError bodyUnusable = Returned false.
Proof. repeat split; reflexivity. Qed.

(** *** Failures of authentication *)

Definition nullReason : JsVal :=
  typeError "Cannot read properties of null (reading 'reason')".

Lemma someAuthReason_thrown (errs : list JsVal) (te : JsVal) :
  someAuthReason errs = Thrown te -> te = nullReason.
Proof.
  induction errs as [|x errs IH]; simpl; [discriminate|].
  destruct x; try (intros H; injection H as <-; reflexivity);
    (destruct (isStr _ _); [discriminate|exact IH]).
Qed.

(** [isGmailAuthError] throws nothing but the [TypeError] of reading a
    property of [null], on which it is false. *)
Lemma isGmailAuthError_thrown (e te : JsVal) :
  isGmailAuthError e = Thrown te -> isGmailAuthError te = Returned false.
Proof.
  unfold isGmailAuthError.
  destruct (negb (truthyVal e)); [discriminate|].
  destruct (isNum _ 401); [discriminate|].
  destruct (isStr _ "UNAUTHENTICATED"); [discriminate|].
  destruct (get (nullish (get e "error") e) "errors"); try discriminate.
  destruct (someAuthReason items) as [[|]|te'] eqn:E; try discriminate.
  intros H. injection H as <-. apply someAuthReason_thrown in E. subst te'. reflexivity.
Qed.

Lemma authFailure_auth (ev : Event) (e : JsVal) :
  authFailure ev = Some e -> isGmailAuthError e = Returned true.
Proof.
  destruct ev as [R [c r]]. destruct c; simpl; try discriminate.
  destruct (failureOf id r) as [e'|]; [|discriminate].
  destruct (isGmailAuthError e') as [[|]|] eqn:E; try discriminate.
  intros H. injection H as <-. exact E.
Qed.

Lemma firstAuthFailure_app (l l' : list Event) :
  firstAuthFailure (l ++ l') = orElse (firstAuthFailure l) (firstAuthFailure l').
Proof.
  induction l as [|ev l IH]; simpl; [destruct (firstAuthFailure l'); reflexivity|].
  destruct (authFailure ev); [reflexivity|exact IH].
Qed.

Lemma firstAuthFailure_auth (l : list Event) (e : JsVal) :
  firstAuthFailure l = Some e -> isGmailAuthError e = Returned true.
Proof.
  induction l as [|ev l IH]; simpl; [discriminate|].
  destruct (authFailure ev) eqn:E; [|exact IH].
  intros H. injection H as <-. exact (authFailure_auth _ _ E).
Qed.

(** [guarded P p]: a request of [p] that fails with a failure of
    authentication makes [p] throw that error at once, and what else [p]
    throws satisfies [P]. *)
Fixpoint guarded {A : Type} (P : JsVal -> Prop) (p : Prog A) : Prop :=
  match p with
  | Ret _ => True
  | Throw e => P e
  | Call c k =>
      forall r, match authFailure (event c r) with
                | Some e => k r = Throw e
                | None => guarded P (k r)
                end
  end.

Definition notAuth (e : JsVal) : Prop := isGmailAuthError e = Returned false.

(** The body of a turn throws no failure of authentication except as
    above; a worker throws nothing else. *)
Abbreviation tame := (guarded notAuth).
Abbreviation sound := (guarded (fun _ => False)).

Lemma guarded_bind {A B : Type} (P : JsVal -> Prop) (p : Prog A) (f : A -> Prog B) :
  guarded P p -> (forall a, guarded P (f a)) -> guarded P (bind p f).
Proof.
  intros Hp Hf. induction p as [a|e|R c k IH]; cbn [guarded bind] in *; auto.
  intros r. specialize (Hp r). destruct (authFailure (event c r)).
  - rewrite Hp. reflexivity.
  - apply IH. exact Hp.
Qed.

Lemma guarded_quiet {A R : Type} (P : JsVal -> Prop) (c : Cmd R) (k : R -> Prog A) :
  (forall r, authFailure (event c r) = None) ->
  (forall r, guarded P (k r)) -> guarded P (Call c k).
Proof. intros Hc Hk r. rewrite Hc. apply Hk. Qed.

Lemma nullish_notAuth (e : JsVal) :
  notAuth e -> notAuth (nullish e (newError "Max retries exceeded")).
Proof. destruct e; auto. Qed.

Lemma tame_retryFrom (accessToken id : string) (maxRetries baseDelay : Z)
    (n : nat) (attempt : Z) (lastErr : JsVal) :
  notAuth (nullish lastErr (newError "Max retries exceeded")) ->
  tame (retryFrom (getMessage accessToken id) maxRetries baseDelay n attempt lastErr).
Proof.
  revert attempt lastErr. induction n as [|n IH]; intros attempt lastErr Hl; [exact Hl|].
  cbn [retryFrom getMessage call bind tryCatch guarded]. intros r.
  cbn [authFailure event]. unfold failureOf.
  destruct (respond id r) as [d|e|R c k] eqn:Er.
  - exact I.
  - cbn [tryCatch]. destruct (isGmailAuthError e) as [[|]|te] eqn:Ea; cbn [lift bind].
    + reflexivity.
    + destruct (negb (isRateLimitError e) || (attempt =? maxRetries - 1)); [exact Ea|].
      apply guarded_quiet; [reflexivity|]. intros _. cbn [bind].
      apply IH. apply nullish_notAuth. exact Ea.
    + exact (isGmailAuthError_thrown _ _ Ea).
  - destruct r as [e|status json text]; simpl in Er; [discriminate|].
    destruct (negb (ok status)); destruct json; discriminate.
Qed.

Lemma headerValue_thrown (headers : list JsVal) (name : string) (e : JsVal) :
  headerValue headers name = Thrown e -> notAuth e.
Proof.
  induction headers as [|h headers IH]; simpl; [discriminate|].
  destruct h; try (intros H; injection H as <-; reflexivity);
    (destruct (isStr _ name); [|exact IH]);
    match goal with |- match ?x with _ => _ end = _ -> _ => destruct x end; discriminate.
Qed.

Lemma toMetadata_thrown (id : string) (data e : JsVal) :
  toMetadata id data = Thrown e -> notAuth e.
Proof.
  assert (G : forall body : Outcome Store.EmailMetadata,
             (body = Thrown e -> notAuth e) ->
             forall v : JsVal,
               match v with
               | JArr _ => body
               | _ => Thrown (typeError "headers.find is not a function")
               end = Thrown e -> notAuth e).
  { intros body Hb v. destruct v; auto; intros H; injection H as <-; reflexivity. }
  unfold toMetadata.
  set (hs := nullish (get (get data "payload") "headers") (JArr [])).
  assert (B : match hs with
              | JArr headers =>
                  match headerValue headers "From" with
                  | Thrown e => Thrown e
                  | Returned from =>
                  match headerValue headers "Subject" with
                  | Thrown e => Thrown e
                  | Returned subject =>
                  match headerValue headers "Date" with
                  | Thrown e => Thrown e
                  | Returned date =>
                      let mk internalDate :=
                        {| Store.id := toStr (nullish (get data "id") (JStr id));
                           Store.from := from; Store.subject := subject; Store.date := date;
                           Store.internalDate := internalDate |} in
                      if truthyVal (get data "internalDate") then
                        match toNumber (get data "internalDate") with
                        | Some ms =>
                            if Z.abs ms <=? 8640000000000000 then Returned (mk (Some ms))
                            else Thrown (rangeError "Invalid time value")
                        | None => Thrown (rangeError "Invalid time value")
                        end
                      else Returned (mk None)
                  end end end
              | _ => Thrown (typeError "headers.find is not a function")
              end = Thrown e -> notAuth e).
  { destruct hs as [| | | | |headers| |]; try (intros H; injection H as <-; reflexivity).
    destruct (headerValue headers "From") eqn:E1;
      [|intros H; injection H as <-; exact (headerValue_thrown _ _ _ E1)].
    destruct (headerValue headers "Subject") eqn:E2;
      [|intros H; injection H as <-; exact (headerValue_thrown _ _ _ E2)].
    destruct (headerValue headers "Date") eqn:E3;
      [|intros H; injection H as <-; exact (headerValue_thrown _ _ _ E3)].
    cbv zeta. destruct (truthyVal _); [|discriminate].
    destruct (toNumber _); [destruct (_ <=? _); [discriminate|]|];
      intros H; injection H as <-; reflexivity. }
  destruct data; try exact B; intros H; injection H as <-; reflexivity.
Qed.

Lemma sound_fetchOne (accessToken id : string) : sound (fetchOne accessToken id).
Proof.
  unfold fetchOne.
  match goal with |- guarded _ (tryCatch _ ?h0) => set (h := h0) end.
  assert (T : forall p : Prog unit, tame p -> sound (tryCatch p h)).
  { induction p as [a|e|R c k IH]; intros Hp.
    - exact I.
    - cbn [tryCatch]. unfold h. red in Hp. cbn [guarded] in Hp. rewrite Hp.
      cbn [lift bind]. apply guarded_quiet; [reflexivity|]. intros _. exact I.
    - cbn [tryCatch guarded] in *. intros r. specialize (Hp r).
      destruct (authFailure (event c r)) as [e|] eqn:Ea.
      + rewrite Hp. cbn [tryCatch]. unfold h.
        rewrite (authFailure_auth _ _ Ea). reflexivity.
      + apply IH. exact Hp. }
  apply T. apply guarded_bind.
  - unfold retryWithBackoff. apply tame_retryFrom. reflexivity.
  - intros data. apply guarded_bind.
    + destruct (toMetadata id data) as [m|e] eqn:E; [exact I|].
      exact (toMetadata_thrown _ _ _ E).
    + intros m. apply guarded_quiet; [reflexivity|]. intros _. cbn [bind].
      apply guarded_quiet; [reflexivity|]. intros _. exact I.
Qed.

(** *** The invariant of the pool *)

Lemma sound_not_thrown (t : Prog unit) : sound t -> thrownBy t = None.
Proof. destruct t; simpl; tauto. Qed.

Lemma settle_sound (t : Prog unit) (sh : Shared) : sound t -> sound (fst (settle t sh)).
Proof.
  revert sh. induction t as [a|e|R c k IH]; intros sh H; try exact H.
  destruct c; try exact H; cbn [settle]; apply IH; exact (H tt).
Qed.

Lemma workerFrom_sound (accessToken : string) (todo : list string) (sh : Shared) :
  sound (fst (workerFrom accessToken todo sh)).
Proof.
  revert sh. induction todo as [|id rest IH]; intros sh; [exact I|].
  cbn [workerFrom].
  pose proof (settle_sound (fetchOne accessToken id)
                {| pending := rest; results := results sh; errors := errors sh |}
                (sound_fetchOne accessToken id)) as H.
  destruct (settle _ _) as [t sh']. cbn [fst] in H.
  destruct t; [apply IH|exact H|exact H].
Qed.

Lemma resume_sound (accessToken : string) (t : Prog unit) (sh : Shared) :
  sound t -> sound (fst (resume accessToken t sh)).
Proof.
  intros H. unfold resume. pose proof (settle_sound t sh H) as H'.
  destruct (settle t sh) as [t' sh']. cbn [fst] in H'.
  destruct t'; [apply workerFrom_sound|exact H'|exact H'].
Qed.

Lemma spawn_sound (accessToken : string) (n : nat) (sh : Shared) :
  Forall sound (fst (spawn accessToken n sh)).
Proof.
  revert sh. induction n as [|n IH]; intros sh; [constructor|].
  cbn [spawn]. pose proof (workerFrom_sound accessToken (pending sh) sh) as H.
  unfold worker. destruct (workerFrom _ _ _) as [t sh']. cbn [fst] in H.
  specialize (IH sh'). destruct (spawn _ _ _) as [ts sh'']. cbn [fst] in *.
  constructor; assumption.
Qed.

Definition alive (t : Prog unit) : Prop := thrownBy t = None -> sound t.

Record Inv (p : Pool) : Prop := {
  inv_workers : Forall alive (workers p);
  inv_rejected : rejected p = firstAuthFailure (map snd (calls p));
  inv_silent : forall pre w ev post e,
      calls p = pre ++ (w, ev) :: post -> authFailure ev = Some e ->
      nth_error (workers p) w = Some (Throw e) /\ Forall (fun x => fst x <> w) post
}.

Lemma start_Inv (accessToken : string) (messageIds : list string) :
  Inv (start accessToken messageIds).
Proof.
  unfold start.
  pose proof (spawn_sound accessToken CONCURRENCY
                {| pending := messageIds; results := []; errors := [] |}) as H.
  destruct (spawn _ _ _) as [ts sh]. cbn [fst] in H.
  constructor; cbn [workers rejected calls].
  - eapply Forall_impl; [|exact H]. intros t Ht _. exact Ht.
  - induction H as [|t ts Ht _ IH]; [reflexivity|].
    cbn [fold_right]. rewrite (sound_not_thrown _ Ht). exact IH.
  - intros pre w ev post e Hc. destruct pre; discriminate.
Qed.

Lemma Forall_update {A : Type} (P : A -> Prop) (i : nat) (x : A) (l : list A) :
  Forall P l -> P x -> Forall P (update i x l).
Proof.
  intros Hl Hx. revert i. induction Hl as [|y l Hy Hl IH]; intros i; [constructor|].
  destruct i; cbn [update]; constructor; auto.
Qed.

Lemma nth_error_update_same {A : Type} (i : nat) (x y : A) (l : list A) :
  nth_error l i = Some y -> nth_error (update i x l) i = Some x.
Proof.
  revert i. induction l as [|z l IH]; intros [|i]; simpl; try discriminate; auto.
Qed.

Lemma nth_error_update_other {A : Type} (i j : nat) (x : A) (l : list A) :
  i <> j -> nth_error (update i x l) j = nth_error l j.
Proof.
  revert i j. induction l as [|z l IH]; intros [|i] [|j] H; simpl; auto; try congruence.
Qed.

Lemma app_snoc_split {A : Type} (l pre post : list A) (x y : A) :
  l ++ [x] = pre ++ y :: post ->
  (post = [] /\ l = pre /\ x = y) \/
  (exists post', post = post' ++ [x] /\ l = pre ++ y :: post').
Proof.
  destruct post as [|z post] using rev_ind.
  - intros H. apply app_inj_tail in H. destruct H as [-> ->]. left. auto.
  - clear IHpost. intros H.
    change (pre ++ y :: post ++ [z]) with (pre ++ (y :: post) ++ [z]) in H.
    rewrite app_assoc in H. apply app_inj_tail in H. destruct H as [-> ->].
    right. exists post. auto.
Qed.

Lemma deliver_Inv (env : Env) (accessToken : string) (before : list Event)
    (p : Pool) (i : nat) :
  Inv p -> Inv (deliver env accessToken before p i).
Proof.
  intros [Hw Hr Hs]. unfold deliver.
  destruct (nth_error (workers p) i) as [[a|e0|R c k]|] eqn:En;
    try (constructor; assumption).
  set (r := env R (before ++ map snd (calls p)) c).
  assert (Hk : sound (Call c k)).
  { rewrite Forall_forall in Hw. apply (Hw _ (nth_error_In _ _ En)). reflexivity. }
  specialize (Hk r). cbn beta in Hk.
  pose proof (resume_sound accessToken (k r) (shared p)) as Hres.
  destruct (authFailure (event c r)) as [e|] eqn:Ea.
  - rewrite Hk in *. cbn [resume settle]. clear Hres.
    constructor; cbn [workers rejected calls].
    + apply Forall_update; [exact Hw|]. intros H. discriminate.
    + rewrite map_app, firstAuthFailure_app, <- Hr. cbn [map snd firstAuthFailure].
      rewrite Ea. reflexivity.
    + intros pre w ev post e' Hc Hev. apply app_snoc_split in Hc.
      destruct Hc as [[-> [_ Hx]]|[post' [-> Hc]]].
      * injection Hx as <- <-. rewrite Ea in Hev. injection Hev as <-.
        split; [exact (nth_error_update_same _ _ _ _ En)|constructor].
      * destruct (Hs _ _ _ _ _ Hc Hev) as [Hn Hp].
        assert (i <> w) by (intros ->; rewrite En in Hn; discriminate).
        rewrite nth_error_update_other by assumption. split; [exact Hn|].
        apply Forall_app. split; [exact Hp|]. constructor; [cbn; auto|constructor].
  - specialize (Hres Hk). destruct (resume _ _ _) as [t' sh']. cbn [fst] in Hres.
    constructor; cbn [workers rejected calls].
    + apply Forall_update; [exact Hw|]. intros _. exact Hres.
    + rewrite map_app, firstAuthFailure_app, <- Hr. cbn [map snd firstAuthFailure].
      rewrite Ea, (sound_not_thrown _ Hres). reflexivity.
    + intros pre w ev post e' Hc Hev. apply app_snoc_split in Hc.
      destruct Hc as [[-> [_ Hx]]|[post' [-> Hc]]].
      * injection Hx as <- <-. rewrite Ea in Hev. discriminate.
      * destruct (Hs _ _ _ _ _ Hc Hev) as [Hn Hp].
        assert (i <> w) by (intros ->; rewrite En in Hn; discriminate).
        rewrite nth_error_update_other by assumption. split; [exact Hn|].
        apply Forall_app. split; [exact Hp|]. constructor; [cbn; auto|constructor].
Qed.

Lemma getEmailMetadataBatch_Inv (env : Env) (accessToken : string)
    (messageIds : list string) (schedule : list nat) (before : list Event) :
  Inv (getEmailMetadataBatch env accessToken messageIds schedule before).
Proof.
  unfold getEmailMetadataBatch. generalize (start_Inv accessToken messageIds).
  generalize (start accessToken messageIds). induction schedule as [|i schedule IH]; intros p Hp.
  - exact Hp.
  - cbn [fold_left]. apply IH. apply deliver_Inv. exact Hp.
Qed.

Lemma rejected_outcome (p : Pool) (e : JsVal) :
  rejected p = Some e -> outcome p = Some (Thrown e).
Proof. intros H. unfold outcome. rewrite H. reflexivity. Qed.

(** The first failure of authentication among the requests of a call of
    [fetchMetadataForMessages] is what the call throws. *)
Lemma fetchBatches_auth (env : Env) (accessToken : string) (total : Z)
    (batches : list (list string)) :
  forall (schedules : list (list nat)) (found : list Store.EmailMetadata)
         (tr : list Event) (e : JsVal),
    firstAuthFailure tr = None ->
    firstAuthFailure (snd (fetchBatches env accessToken total batches schedules found tr))
      = Some e ->
    fst (fetchBatches env accessToken total batches schedules found tr) = Some (Thrown e).
Proof.
  induction batches as [|batchIds rest IH]; intros schedules found tr e Htr H.
  - cbn in H. congruence.
  - cbn [fetchBatches] in *. cbv zeta in *.
    set (p := getEmailMetadataBatch env accessToken batchIds (hd [] schedules) tr) in *.
    pose proof (inv_rejected _ (getEmailMetadataBatch_Inv env accessToken batchIds
                                  (hd [] schedules) tr)) as Hr.
    fold p in Hr. unfold outcome in *.
    assert (Hnext : forall more found',
               rejected p = None ->
               firstAuthFailure (reportProgress env total more found' (tr ++ map snd (calls p)))
               = None).
    { intros more found' Hn. rewrite Hn in Hr. unfold reportProgress.
      destruct more; rewrite !firstAuthFailure_app, Htr, <- Hr; reflexivity. }
    destruct (rejected p) as [err|] eqn:Ep.
    + symmetry in Hr. rewrite (firstAuthFailure_auth _ _ Hr) in *. cbn [fst snd] in *.
      rewrite firstAuthFailure_app, Htr, Hr in H. cbn in H. congruence.
    + destruct (forallb ended (workers p)).
      * apply IH; [apply Hnext; reflexivity|exact H].
      * cbn [fst snd] in *. rewrite firstAuthFailure_app, Htr, <- Hr in H. discriminate.
Qed.

(** X24. A request of a batch that fails with an error on which
    [isGmailAuthError] holds ends its worker at once: the worker makes no
    further call, so no delay and no further attempt follow on it.  The
    pool is rejected, with an error of this kind, and with this very
    error when it is the first such failure of the batch.  And the first
    such failure among the requests of [fetchMetadataForMessages] is what
    that call throws. *)
Theorem auth_error_ends_batch_fetch :
  (forall (env : Env) (accessToken : string) (messageIds : list string)
          (schedule : list nat) (before : list Event)
          (pre : list (nat * Event)) (w : nat) (ev : Event)
          (post : list (nat * Event)) (e : JsVal),
      calls (getEmailMetadataBatch env accessToken messageIds schedule before)
        = pre ++ (w, ev) :: post ->
      authFailure ev = Some e ->
      Forall (fun x => fst x <> w) post /\
      exists e',
        outcome (getEmailMetadataBatch env accessToken messageIds schedule before)
          = Some (Thrown e') /\
        isGmailAuthError e' = Returned true /\
        (firstAuthFailure (map snd pre) = None -> e' = e)) /\
  (forall (env : Env) (accessToken : string) (messages : list (option string))
          (schedules : list (list nat)) (e : JsVal),
      firstAuthFailure (snd (fetchMetadataForMessages env accessToken messages schedules))
        = Some e ->
      fst (fetchMetadataForMessages env accessToken messages schedules) = Some (Thrown e)).
Proof.
  split.
  - intros env accessToken messageIds schedule before pre w ev post e Hc Hev.
    destruct (getEmailMetadataBatch_Inv env accessToken messageIds schedule before)
      as [_ Hr Hs].
    split; [exact (proj2 (Hs _ _ _ _ _ Hc Hev))|].
    rewrite Hc, map_app, firstAuthFailure_app in Hr. cbn [map snd firstAuthFailure] in Hr.
    rewrite Hev in Hr.
    destruct (firstAuthFailure (map snd pre)) as [e0|] eqn:E0; cbn [orElse] in Hr.
    + exists e0. split; [exact (rejected_outcome _ _ Hr)|].
      split; [exact (firstAuthFailure_auth _ _ E0)|discriminate].
    + exists e. split; [exact (rejected_outcome _ _ Hr)|].
      split; [exact (authFailure_auth _ _ Hev)|reflexivity].
  - intros env accessToken messages schedules e. unfold fetchMetadataForMessages.
    destruct messages as [|m messages]; [cbn; discriminate|].
    apply fetchBatches_auth. reflexivity.
Qed.

End WithNumbers.

(** *** Responses of the provider *)

(** The text of a JSON value whose strings need no escaping. *)
Fixpoint jsonText (v : JsVal) : string :=
  let quoted s := String Extraction.dquote (s ++ String Extraction.dquote EmptyString)%string in
  match v with
  | JUndefined | JNull => "null"
  | JBool true => "true"
  | JBool false => "false"
  | JNum n => Z_to_string n
  | JStr s => quoted s
  | JArr items => ("[" ++ join "," (List.map jsonText items) ++ "]")%string
  | JObj fields =>
      ("{" ++ join "," (List.map (fun kv => match kv with
                                             | (k, x) => quoted k ++ ":" ++ jsonText x
                                             end) fields) ++ "}")%string
  | JError _ _ _ => "{}"
  end.

(** The body with which the provider reports an exhausted quota, under
    status 403. *)
Definition quotaMessage : string :=
  "Quota exceeded for quota metric 'Queries' and limit 'Queries per minute per user' of service 'gmail.googleapis.com' for consumer 'project_number:1234567890'.".

Definition quotaBody : JsVal :=
  JObj [("error",
         JObj [("code", JNum 403);
               ("message", JStr quotaMessage);
               ("errors", JArr [JObj [("message", JStr quotaMessage);
                                      ("domain", JStr "usageLimits");
                                      ("reason", JStr "rateLimitExceeded")]]);
               ("status", JStr "RESOURCE_EXHAUSTED")])].

Definition quotaExceeded : HttpResult := Response 403 (Some quotaBody) (jsonText quotaBody).

(** The provider answers every request with [res]. *)
Definition answering (res : HttpResult) : Env :=
  fun R _ c =>
    match c in Cmd R return R with
    | GmailGet _ _ => res
    | Sleep _ => tt
    | PushResult _ => tt
    | PushError _ => tt
    | OnProgress _ _ _ => tt
    end.

(** The identifiers of the provider are hexadecimal. *)
Definition isHexDigit (c : ascii) : bool :=
  let n := N_of_ascii c in
  ((48 <=? n) && (n <=? 57) || (97 <=? n) && (n <=? 102))%N.

Lemma startsWith_allb (f : ascii -> bool) (p s : string) :
  startsWith s p = true -> allb f s = true -> allb f p = true.
Proof.
  revert s. induction p as [|a p IH]; intros [|b s]; simpl; auto; try discriminate.
  intros H1 H2. apply andb_true_iff in H1 as [Hab Hs]. apply andb_true_iff in H2 as [Hb Hs'].
  apply Ascii.eqb_eq in Hab. subst b. rewrite Hb. simpl. eauto.
Qed.

Lemma includes_allb (f : ascii -> bool) (s p : string) :
  includes s p = true -> allb f s = true -> allb f p = true.
Proof.
  induction s as [|c s IH]; simpl; intros H Hs.
  - rewrite orb_false_r in H. exact (startsWith_allb f p EmptyString H Hs).
  - apply andb_true_iff in Hs as [Hc Hs]. apply orb_true_iff in H as [H|H]; [|auto].
    apply (startsWith_allb f p (String c s) H). simpl. rewrite Hc. exact Hs.
Qed.

Lemma allb_impl (f g : ascii -> bool) (s : string) :
  (forall c, f c = true -> g c = true) -> allb f s = true -> allb g s = true.
Proof.
  intros Hfg. induction s as [|c s IH]; simpl; auto.
  intros H. apply andb_true_iff in H as [Hc Hs]. rewrite (Hfg _ Hc). simpl. auto.
Qed.

Lemma hex_not (q : ascii) : isHexDigit q = false ->
  forall c, isHexDigit c = true -> notChar q c = true.
Proof.
  intros Hq c Hc. unfold notChar. destruct (Ascii.eqb_spec c q) as [->|_]; [congruence|reflexivity].
Qed.

(** The message of the error of a response does not have the phrase [p]
    when [p] has a character that is neither a hexadecimal digit nor in
    the words around the identifier. *)
Lemma message_without (id p : string) (status : string) (q : ascii) :
  allb isHexDigit id = true ->
  isHexDigit q = false ->
  allb (notChar q) ("Gmail metadata error for message " ++ ": " ++ status)%string = true ->
  allb (notChar q) p = false ->
  includes ("Gmail metadata error for message " ++ id ++ ": " ++ status)%string p = false.
Proof.
  intros Hid Hq Hw Hp.
  destruct (includes _ p) eqn:E; [|reflexivity].
  apply (includes_allb (notChar q)) in E; [congruence|].
  change ("Gmail metadata error for message " ++ ": " ++ status)%string
    with ("Gmail metadata error for message " ++ (": " ++ status))%string in Hw.
  rewrite allb_app in Hw. apply andb_true_iff in Hw as [H1 H2].
  rewrite allb_app, H1, allb_app, H2, (allb_impl _ _ _ (hex_not q Hq) Hid). reflexivity.
Qed.

(** A response 403 in the envelope of the provider, whatever it says, is
    neither a failure of authentication nor a rate-limit signal for
    [retryWithBackoff]. *)
Lemma envelope_403_unclassified (id text : string) (inner : JsVal) :
  allb isHexDigit id = true ->
  let e := responseError id 403 (JObj [("error", inner)]) in
  isGmailAuthError e = Returned false /\ isRateLimitError e = false.
Proof.
  intros Hid e.
  pose proof (message_without id "Quota" "403" "Q" Hid eq_refl eq_refl eq_refl) as HQ.
  pose proof (message_without id "Invalid Credentials" "403" "C" Hid eq_refl eq_refl eq_refl) as HI.
  pose proof (message_without id "invalid_grant" "403" "_" Hid eq_refl eq_refl eq_refl) as HG.
  subst e. unfold responseError. change (Z_to_string 403) with "403".
  set (m := ("Gmail metadata error for message " ++ id ++ ": " ++ "403")%string) in *.
  clearbody m. split.
  - unfold isGmailAuthError. cbn -[includes]. rewrite HI, HG. reflexivity.
  - unfold isRateLimitError. cbn -[includes truthy].
    destruct (truthy m); cbn -[includes]; [exact HQ|reflexivity].
Qed.

(** C4 (the code at the failing input).  A request answered 403 with a body
    in the envelope of the provider -- the report of an exhausted quota
    among them -- is not tried again:
    [retryWithBackoff] throws the error of the first attempt, after that
    one request and without any delay. *)
Theorem quota_403_not_retried (env : Env) (accessToken id text : string)
    (inner : JsVal) (tr : list Event) :
  allb isHexDigit id = true ->
  env _ tr (GmailGet accessToken id) = Response 403 (Some (JObj [("error", inner)])) text ->
  run env (retryWithBackoff (getMessage accessToken id) 5 1000) tr =
  (Thrown (responseError id 403 (JObj [("error", inner)])),
   tr ++ [event (GmailGet accessToken id)
            (Response 403 (Some (JObj [("error", inner)])) text)]).
Proof.
  intros Hid Henv.
  destruct (envelope_403_unclassified id text inner Hid) as [Ha Hr].
  pose proof (no_retry_otherwise env accessToken id
                (responseError id 403 (JObj [("error", inner)])) tr) as H.
  rewrite Henv in H. apply H; auto.
Qed.

Lemma quota_403_not_retried_witness :
  run (answering quotaExceeded)
    (retryWithBackoff (getMessage "ya29.a0AfH6SMB" "18c2f0a1b2c3d4e5") 5 1000) [] =
  (Thrown (responseError "18c2f0a1b2c3d4e5" 403 quotaBody),
   [event (GmailGet "ya29.a0AfH6SMB" "18c2f0a1b2c3d4e5") quotaExceeded]).
Proof.
  apply (quota_403_not_retried (answering quotaExceeded) "ya29.a0AfH6SMB"
           "18c2f0a1b2c3d4e5" (jsonText quotaBody) _ []); reflexivity.
Defined.

(** With status 429 the same report is tried again, five times in all. *)
Lemma quota_429_retried :
  let res := run (answering (Response 429 (Some quotaBody) (jsonText quotaBody)))
               (retryWithBackoff (getMessage "ya29.a0AfH6SMB" "18c2f0a1b2c3d4e5") 5 1000) [] in
  sleeps (snd res) = [1000; 2000; 4000; 8000] /\
  requests (snd res) = ["18c2f0a1b2c3d4e5"; "18c2f0a1b2c3d4e5"; "18c2f0a1b2c3d4e5";
                        "18c2f0a1b2c3d4e5"; "18c2f0a1b2c3d4e5"].
Proof.
  pose proof (backoff_schedule
                (answering (Response 429 (Some quotaBody) (jsonText quotaBody)))
                "ya29.a0AfH6SMB" "18c2f0a1b2c3d4e5") as H.
  cbv zeta in *. destruct H as [H1 [H2 _]]; [|split; assumption].
  intros tr. eexists. repeat split; reflexivity.
Qed.

(** The body with which the provider reports credentials that are no
    longer valid, under status 401. *)
Definition expiredBody : JsVal :=
  JObj [("error",
         JObj [("code", JNum 401);
               ("message", JStr "Request had invalid authentication credentials.");
               ("status", JStr "UNAUTHENTICATED")])].

Definition expired : HttpResult := Response 401 (Some expiredBody) (jsonText expiredBody).

(** Three messages and an access token that has expired: the request of
    the second worker completes first, those of the two others after it. *)
Definition threeIds : list string :=
  ["18c2f0a1b2c3d4e5"; "18c2f0a1b2c3d4e6"; "18c2f0a1b2c3d4e7"].

Definition expiredBatch : Pool :=
  getEmailMetadataBatch (fun _ => None) (answering expired) "ya29.a0AfH6SMB" threeIds
    [1; 0; 2]%nat [].

Lemma auth_error_ends_batch_fetch_witness :
  let e := responseError "18c2f0a1b2c3d4e6" 401 expiredBody in
  (Forall (fun x => fst x <> 1%nat) (skipn 1 (calls expiredBatch)) /\
   exists e', outcome expiredBatch = Some (Thrown e') /\
              isGmailAuthError e' = Returned true /\
              (firstAuthFailure (map snd (@nil (nat * Event))) = None -> e' = e)) /\
  fst (fetchMetadataForMessages (fun _ => None) (fun _ _ => 0) (answering expired)
         "ya29.a0AfH6SMB" (List.map Some threeIds) [[1; 0; 2]%nat]) = Some (Thrown e).
Proof.
  split.
  - exact (proj1 (auth_error_ends_batch_fetch (fun _ => None) (fun _ _ => 0))
             (answering expired) "ya29.a0AfH6SMB" threeIds [1; 0; 2]%nat [] []
             1%nat (event (GmailGet "ya29.a0AfH6SMB" "18c2f0a1b2c3d4e6") expired)
             (skipn 1 (calls expiredBatch)) _ eq_refl eq_refl).
  - exact (proj2 (auth_error_ends_batch_fetch (fun _ => None) (fun _ _ => 0))
             (answering expired) "ya29.a0AfH6SMB" (List.map Some threeIds)
             [[1; 0; 2]%nat] _ eq_refl).
Defined.

(** The workers of the batch above that were under way completed their
    requests after the rejection. *)
Lemma expiredBatch_calls :
  List.map fst (calls expiredBatch) = [1; 0; 2]%nat /\
  requests (List.map snd (calls expiredBatch)) =
    ["18c2f0a1b2c3d4e6"; "18c2f0a1b2c3d4e5"; "18c2f0a1b2c3d4e7"] /\
  sleeps (List.map snd (calls expiredBatch)) = [].
Proof. vm_compute. auto. Qed.

(** *** What a request under [retryWithBackoff] costs *)

Lemma respond_ends (id : string) (res : HttpResult) :
  (exists data, respond id res = Ret data) \/ (exists e, respond id res = Throw e).
Proof.
  destruct res as [e|status json text]; cbn [respond]; [right; eexists; reflexivity|].
  destruct (negb (ok status)); destruct json;
    ((left; eexists; reflexivity) || (right; eexists; reflexivity)).
Qed.

(** One attempt: the request, and then either the end or the delay and
    the next attempt. *)
Lemma retryFrom_step (env : Env) (accessToken id : string) (n a : nat) (lastErr : JsVal)
    (tr : list Event) :
  let r := env _ tr (GmailGet accessToken id) in
  let tr1 := tr ++ [event (GmailGet accessToken id) r] in
  let delay := 1000 * 2 ^ Z.of_nat a in
  let this := run env (retryFrom (getMessage accessToken id) 5 1000 (S n) (Z.of_nat a) lastErr)
                tr in
  snd this = tr1
  \/ (a <> 4%nat
      /\ exists e,
           this = run env (retryFrom (getMessage accessToken id) 5 1000 n (Z.of_nat (S a)) e)
                    (tr1 ++ [event (Sleep delay) (env _ tr1 (Sleep delay))])).
Proof.
  cbv zeta. cbn [retryFrom]. rewrite run_tryCatch, run_getMessage. cbv zeta.
  set (r := env _ tr (GmailGet accessToken id)).
  set (tr1 := tr ++ [event (GmailGet accessToken id) r]). clearbody tr1.
  destruct (respond_ends id r) as [[data ->]|[e ->]]; cbn [run fst snd]; [left; reflexivity|].
  destruct (isGmailAuthError e) as [[|]|te]; cbn [lift bind run fst snd];
    try (left; reflexivity).
  destruct (negb (isRateLimitError e) || (Z.of_nat a =? 5 - 1)) eqn:Hstop; cbn [run snd];
    [left; reflexivity|].
  right. apply orb_false_iff in Hstop as [_ Hstop]. apply Z.eqb_neq in Hstop.
  split; [lia|]. exists e. cbn [bind call run].
  replace (Z.of_nat a + 1) with (Z.of_nat (S a)) by lia. reflexivity.
Qed.

Lemma retryFrom_shape (env : Env) (accessToken id : string) :
  forall (n a : nat) (lastErr : JsVal) (tr : list Event),
    (a + n = 4)%nat ->
    exists (k : nat) (more : list Event),
      (k <= n)%nat
      /\ snd (run env (retryFrom (getMessage accessToken id) 5 1000 (S n) (Z.of_nat a) lastErr)
                tr) = tr ++ more
      /\ requests more = repeat id (S k)
      /\ sleeps more = List.map (fun i => 1000 * 2 ^ Z.of_nat i) (seq a k)
      /\ length more = (2 * k + 1)%nat.
Proof.
  induction n as [|n IH]; intros a lastErr tr Ha;
    [destruct (retryFrom_step env accessToken id 0 a lastErr tr) as [H|[Hne [e H]]]
    |destruct (retryFrom_step env accessToken id (S n) a lastErr tr) as [H|[Hne [e H]]]];
    try (exists 0%nat, [event (GmailGet accessToken id) (env _ tr (GmailGet accessToken id))];
         split; [lia|]; split; [exact H|]; repeat split; reflexivity).
  - lia.
  - rewrite H.
    match goal with
    | |- context [run env _ (?t1 ++ [?s])] =>
        destruct (IH (S a) e (t1 ++ [s])) as [k [more [Hk [Hm [Hq [Hs Hl]]]]]]; [lia|]
    end.
    eexists (S k), (_ :: _ :: more).
    split; [lia|]. split.
    { rewrite Hm, <- !app_assoc. reflexivity. }
    unfold requests, sleeps in *. cbn [collect sleepOf requestOf event].
    rewrite Hq, Hs. cbn [length]. rewrite Hl.
    split; [reflexivity|]. split; [reflexivity|lia].
Qed.

(** X6. Whatever the provider answers, the request of one message under
    [retryWithBackoff(fn, 5, 1000)] makes between one and five requests for
    this message, with a delay between each two of them and nothing else:
    the delays are 1000, 2000, 4000 and 8000 ms, in this order. *)
Theorem backoff_requests_and_delays (env : Env) (accessToken id : string) (tr : list Event) :
  exists (k : nat) (more : list Event),
    (k <= 4)%nat
    /\ snd (run env (retryWithBackoff (getMessage accessToken id) 5 1000) tr) = tr ++ more
    /\ requests more = repeat id (S k)
    /\ sleeps more = firstn k [1000; 2000; 4000; 8000]
    /\ length more = (2 * k + 1)%nat.
Proof.
  unfold retryWithBackoff. change (Z.to_nat 5) with 5%nat.
  destruct (retryFrom_shape env accessToken id 4 0 JNull tr eq_refl)
    as [k [more [Hk [Hm [Hq [Hs Hl]]]]]].
  exists k, more. repeat split; auto. rewrite Hs.
  do 5 (destruct k as [|k]; [reflexivity|]). lia.
Qed.

(** *** The batches *)

Lemma batchesOf_partition (fuel : nat) :
  forall messageIds : list string,
    (length messageIds <= fuel)%nat ->
    concat (batchesOf fuel messageIds) = messageIds
    /\ Forall (fun batch => (1 <= length batch <= BATCH_SIZE)%nat) (batchesOf fuel messageIds).
Proof.
  induction fuel as [|fuel IH]; intros messageIds Hlen.
  - destruct messageIds; [|simpl in Hlen; lia]. split; [reflexivity|constructor].
  - destruct messageIds as [|id rest]; [split; [reflexivity|constructor]|].
    cbn [batchesOf].
    set (l := id :: rest) in *.
    assert (Hl : (1 <= length l)%nat) by (unfold l; simpl; lia).
    assert (Hs : (length (skipn BATCH_SIZE l) <= fuel)%nat).
    { rewrite length_skipn. unfold BATCH_SIZE. lia. }
    destruct (IH (skipn BATCH_SIZE l) Hs) as [H1 H2]. clearbody l.
    split.
    + cbn [concat]. rewrite H1. apply firstn_skipn.
    + constructor; [|exact H2]. rewrite length_firstn. unfold BATCH_SIZE. lia.
Qed.

(** X9. [fetchMetadataForMessages] cuts the identifiers into batches
    that, one after the other, give the identifiers back in their order;
    every batch has at least one and at most 200 of them. *)
Theorem batches_partition_the_identifiers (messageIds : list string) :
  concat (batchesOf (length messageIds) messageIds) = messageIds
  /\ Forall (fun batch => (1 <= length batch <= 200)%nat)
       (batchesOf (length messageIds) messageIds).
Proof. apply batchesOf_partition. lia. Qed.

Section Rejections.

Variable Number_parse : string -> option Z.
Variable percentageOf : Z -> Z -> Z.

(** Whatever [fetchMetadataForMessages] throws is the failure of
    authentication of one of its requests. *)
Lemma fetchBatches_thrown (env : Env) (accessToken : string) (total : Z)
    (batches : list (list string)) :
  forall (schedules : list (list nat)) (found : list Store.EmailMetadata)
         (tr : list Event) (e : JsVal),
    firstAuthFailure tr = None ->
    fst (fetchBatches Number_parse percentageOf env accessToken total batches schedules
           found tr) = Some (Thrown e) ->
    firstAuthFailure (snd (fetchBatches Number_parse percentageOf env accessToken total
                             batches schedules found tr)) = Some e.
Proof.
  induction batches as [|batchIds rest IH]; intros schedules found tr e Htr H.
  - cbn in H. congruence.
  - cbn [fetchBatches] in *. cbv zeta in *.
    set (p := getEmailMetadataBatch Number_parse env accessToken batchIds (hd [] schedules) tr)
      in *.
    pose proof (inv_rejected _ (getEmailMetadataBatch_Inv Number_parse env accessToken
                                    batchIds (hd [] schedules) tr)) as Hr.
    fold p in Hr. unfold outcome in *.
    assert (Hnext : forall more found',
               rejected p = None ->
               firstAuthFailure (reportProgress percentageOf env total more found'
                                   (tr ++ List.map snd (calls p))) = None).
    { intros more found' Hn. rewrite Hn in Hr. unfold reportProgress.
      destruct more; rewrite !firstAuthFailure_app, Htr, <- Hr; reflexivity. }
    destruct (rejected p) as [err|] eqn:Ep.
    + symmetry in Hr. rewrite (firstAuthFailure_auth _ _ Hr) in *. cbn [fst snd] in *.
      rewrite firstAuthFailure_app, Htr, Hr. cbn. congruence.
    + destruct (forallb ended (workers p)).
      * apply IH; [apply Hnext; reflexivity|exact H].
      * cbn [fst] in H. discriminate.
Qed.

(** X7. [fetchMetadataForMessages] throws nothing but the error of a
    request that failed with an error on which [isGmailAuthError] holds,
    the first such failure of the call: no other failure of a request, of a
    body or of a header makes the call throw. *)
Theorem only_auth_failures_are_thrown (env : Env) (accessToken : string)
    (messages : list (option string)) (schedules : list (list nat)) (e : JsVal) :
  fst (fetchMetadataForMessages Number_parse percentageOf env accessToken messages schedules)
    = Some (Thrown e) ->
  firstAuthFailure
    (snd (fetchMetadataForMessages Number_parse percentageOf env accessToken messages
            schedules)) = Some e
  /\ isGmailAuthError e = Returned true.
Proof.
  intros H.
  assert (Hf : firstAuthFailure
                 (snd (fetchMetadataForMessages Number_parse percentageOf env accessToken
                         messages schedules)) = Some e).
  { unfold fetchMetadataForMessages in *.
    destruct messages as [|m messages]; [cbn in H; discriminate|].
    apply fetchBatches_thrown; [reflexivity|exact H]. }
  split; [exact Hf|exact (firstAuthFailure_auth _ _ Hf)].
Qed.

(** *** A response 401 whose body is not JSON *)

(** The event is a call with the answer that [env] gives to it. *)
Definition answeredBy (env : Env) (ev : Event) : Prop :=
  match ev with
  | existT _ R (c, r) => exists tr, r = env R tr c
  end.

Lemma deliver_answered (env : Env) (accessToken : string) (before : list Event)
    (p : Pool) (i : nat) :
  Forall (fun x => answeredBy env (snd x)) (calls p) ->
  Forall (fun x => answeredBy env (snd x))
    (calls (deliver Number_parse env accessToken before p i)).
Proof.
  intros H. unfold deliver.
  destruct (nth_error (workers p) i) as [[a|e|R c k]|]; auto.
  destruct (resume _ _ _ _) as [t' sh']. cbn [calls].
  apply Forall_app. split; [exact H|]. constructor; [|constructor].
  cbn. eexists. reflexivity.
Qed.

Lemma getEmailMetadataBatch_answered (env : Env) (accessToken : string)
    (messageIds : list string) (schedule : list nat) (before : list Event) :
  Forall (answeredBy env)
    (List.map snd (calls (getEmailMetadataBatch Number_parse env accessToken messageIds
                            schedule before))).
Proof.
  apply Forall_map. unfold getEmailMetadataBatch.
  assert (H0 : Forall (fun x => answeredBy env (snd x))
                 (calls (start Number_parse accessToken messageIds))).
  { unfold start. destruct (spawn _ _ _ _). constructor. }
  revert H0. generalize (start Number_parse accessToken messageIds).
  induction schedule as [|i schedule IH]; intros p Hp; [exact Hp|].
  cbn [fold_left]. apply IH. apply deliver_answered. exact Hp.
Qed.

Lemma reportProgress_answered (env : Env) (total : Z) (more : bool)
    (found : list Store.EmailMetadata) (tr : list Event) :
  Forall (answeredBy env) tr ->
  Forall (answeredBy env) (reportProgress percentageOf env total more found tr).
Proof.
  intros H. unfold reportProgress.
  destruct more; repeat (apply Forall_app; split); auto;
    (constructor; [cbn; eexists; reflexivity|constructor]).
Qed.

Lemma fetchBatches_answered (env : Env) (accessToken : string) (total : Z)
    (batches : list (list string)) :
  forall (schedules : list (list nat)) (found : list Store.EmailMetadata) (tr : list Event),
    Forall (answeredBy env) tr ->
    Forall (answeredBy env)
      (snd (fetchBatches Number_parse percentageOf env accessToken total batches schedules
              found tr)).
Proof.
  induction batches as [|batchIds rest IH]; intros schedules found tr Htr; [exact Htr|].
  cbn [fetchBatches]. cbv zeta.
  set (p := getEmailMetadataBatch Number_parse env accessToken batchIds (hd [] schedules) tr).
  assert (H1 : Forall (answeredBy env) (tr ++ List.map snd (calls p))).
  { apply Forall_app. split; [exact Htr|apply getEmailMetadataBatch_answered]. }
  destruct (outcome p) as [[batchResults|err]|]; [| |exact H1].
  - apply IH. apply reportProgress_answered. exact H1.
  - destruct (isGmailAuthError err) as [[|]|te]; try exact H1.
    apply IH. apply reportProgress_answered. exact H1.
Qed.

(** The provider answers every request for metadata with status 401 and
    a body that is not JSON. *)
Definition unreadable401 (env : Env) : Prop :=
  forall (tr : list Event) (accessToken id : string),
    exists text, env _ tr (GmailGet accessToken id) = Response 401 None text.

Lemma unreadable401_quiet (env : Env) (tr : list Event) :
  unreadable401 env -> Forall (answeredBy env) tr -> firstAuthFailure tr = None.
Proof.
  intros Henv H. induction H as [|ev tr Hev _ IH]; [reflexivity|].
  cbn [firstAuthFailure]. destruct ev as [R [c r]]. destruct Hev as [tr0 ->].
  destruct c; cbn [authFailure]; try exact IH.
  destruct (Henv tr0 accessToken id) as [text ->]. exact IH.
Qed.

(** C7 (the code at the failing input).  A request answered with status
    401 and a body that is not JSON does not fail with an error that
    [isGmailAuthError] recognises: the second read of the body throws
    before the error with the status is built.  The turn of the worker
    makes that one request, records the identifier as failed and returns,
    so that the worker goes on with the next message.  With a provider
    that answers every request so, neither a batch nor
    [fetchMetadataForMessages] throws, under any schedule. *)
Theorem unreadable_401_not_raised (env : Env) (accessToken : string) :
  (forall (id text : string) (tr : list Event),
      env _ tr (GmailGet accessToken id) = Response 401 None text ->
      let asked := tr ++ [event (GmailGet accessToken id) (Response 401 None text)] in
      run env (fetchOne Number_parse accessToken id) tr
      = (Returned tt, asked ++ [event (PushError id) (env _ asked (PushError id))]))
  /\ (unreadable401 env ->
      (forall (messageIds : list string) (schedule : list nat) (before : list Event)
              (e : JsVal),
          outcome (getEmailMetadataBatch Number_parse env accessToken messageIds schedule
                     before) <> Some (Thrown e))
      /\ (forall (messages : list (option string)) (schedules : list (list nat))
                 (e : JsVal),
             fst (fetchMetadataForMessages Number_parse percentageOf env accessToken
                    messages schedules) <> Some (Thrown e))).
Proof.
  split; [|intros Henv; split].
  - intros id text tr Hres asked. subst asked.
    unfold fetchOne. rewrite run_tryCatch, run_bind.
    rewrite (no_retry_otherwise env accessToken id bodyUnusable tr);
      rewrite ?Hres; reflexivity.
  - intros messageIds schedule before e H.
    pose proof (inv_rejected _ (getEmailMetadataBatch_Inv Number_parse env accessToken
                                  messageIds schedule before)) as Hr.
    rewrite (unreadable401_quiet env _ Henv
               (getEmailMetadataBatch_answered env accessToken messageIds schedule before))
      in Hr.
    unfold outcome in H. rewrite Hr in H.
    destruct (forallb ended _); discriminate.
  - intros messages schedules e H.
    assert (Hq : firstAuthFailure
                   (snd (fetchMetadataForMessages Number_parse percentageOf env accessToken
                           messages schedules)) = None).
    { apply (unreadable401_quiet env _ Henv). unfold fetchMetadataForMessages.
      destruct messages as [|m messages]; [constructor|].
      apply fetchBatches_answered. constructor. }
    unfold fetchMetadataForMessages in *.
    destruct messages as [|m messages]; [cbn in H; discriminate|].
    apply fetchBatches_thrown in H; [|reflexivity]. congruence.
Qed.

End Rejections.

Section Accounting.

Variable Number_parse : string -> option Z.

(** *** Every message of a batch is accounted for *)

(** [owes Pr Pe n t]: whatever the calls resolve with, [t] ends with
    entries still to push to the two arrays, [n] less those it pushes on
    the way: a number that satisfies [Pr] when [t] returns and [Pe] when
    it throws. *)
Fixpoint owes {A : Type} (Pr Pe : nat -> Prop) (n : nat) (t : Prog A) : Prop :=
  match t with
  | Ret _ => Pr n
  | Throw _ => Pe n
  | Call c k =>
      match c in Cmd R return (R -> Prog A) -> Prop with
      | PushResult _ => fun k' => exists n', n = S n' /\ owes Pr Pe n' (k' tt)
      | PushError _ => fun k' => exists n', n = S n' /\ owes Pr Pe n' (k' tt)
      | _ => fun k' => forall r, owes Pr Pe n (k' r)
      end k
  end.

Lemma owes_bind {A B : Type} (Pr' Pr Pe : nat -> Prop) (n : nat) (p : Prog A)
    (f : A -> Prog B) :
  owes Pr' Pe n p -> (forall a m, Pr' m -> owes Pr Pe m (f a)) -> owes Pr Pe n (bind p f).
Proof.
  intros Hp Hf. revert n Hp. induction p as [a|e|R c k IH]; intros n Hp; cbn [bind owes] in *;
    auto.
  destruct c; try (intros r; apply IH, Hp);
    (destruct Hp as [n' [-> Hp]]; exists n'; split; [reflexivity|apply IH, Hp]).
Qed.

Lemma owes_tryCatch {A : Type} (Pr Pe' Pe : nat -> Prop) (n : nat) (p : Prog A)
    (h : JsVal -> Prog A) :
  owes Pr Pe' n p -> (forall e m, Pe' m -> owes Pr Pe m (h e)) -> owes Pr Pe n (tryCatch p h).
Proof.
  intros Hp Hh. revert n Hp.
  induction p as [a|e|R c k IH]; intros n Hp; cbn [tryCatch owes] in *; auto.
  destruct c; try (intros r; apply IH, Hp);
    (destruct Hp as [n' [-> Hp]]; exists n'; split; [reflexivity|apply IH, Hp]).
Qed.

Definition pushes (ev : Event) : Prop :=
  match ev with
  | existT _ _ (c, _) =>
      match c with
      | PushResult _ | PushError _ => True
      | _ => False
      end
  end.

(** A program that pushes nothing. *)
Lemma owes_same {A : Type} (n : nat) (p : Prog A) :
  always (fun ev => ~ pushes ev) p -> owes (eq n) (eq n) n p.
Proof.
  induction p as [a|e|R c k IH]; intros Hp; cbn [owes always] in *; auto.
  destruct c; try (intros r; apply IH, Hp); exfalso; exact (proj1 (Hp tt) I).
Qed.

Lemma retryFrom_pushes_nothing (accessToken id : string) (maxRetries baseDelay : Z)
    (n : nat) (attempt : Z) (lastErr : JsVal) :
  always (fun ev => ~ pushes ev)
    (retryFrom (getMessage accessToken id) maxRetries baseDelay n attempt lastErr).
Proof.
  revert attempt lastErr. induction n as [|n IH]; intros attempt lastErr; [exact I|].
  cbn [retryFrom]. apply always_tryCatch.
  - unfold getMessage. apply always_bind; [apply always_call; intros r H; exact H|].
    intros res. destruct res as [e|status json text]; cbn [respond]; [exact I|].
    destruct (negb (ok status)); destruct json; exact I.
  - intros e. destruct (isGmailAuthError e) as [[|]|te]; cbn [lift bind]; try exact I.
    destruct (negb (isRateLimitError e) || (attempt =? maxRetries - 1)); [exact I|].
    cbv zeta. apply always_bind; [apply always_call; intros r H; exact H|].
    intros _. apply IH.
Qed.

(** One turn of the loop of a worker pushes one entry when it returns and
    none when it throws. *)
Lemma fetchOne_owes (accessToken id : string) :
  owes (eq 0%nat) (eq 1%nat) 1 (fetchOne Number_parse accessToken id).
Proof.
  unfold fetchOne. apply owes_tryCatch with (Pe' := eq 1%nat).
  - apply owes_bind with (Pr' := eq 1%nat).
    + unfold retryWithBackoff. apply owes_same, retryFrom_pushes_nothing.
    + intros data m <-. apply owes_bind with (Pr' := eq 1%nat).
      * destruct (toMetadata Number_parse id data); reflexivity.
      * intros md m <-. cbn [bind call owes]. exists 0%nat. split; [reflexivity|].
        intros r. reflexivity.
  - intros e m <-. destruct (isGmailAuthError e) as [[|]|te]; cbn [lift bind call owes];
      try reflexivity.
    exists 0%nat. split; reflexivity.
Qed.

(** A thread that awaits a call, not one that is about to push. *)
Definition settled (t : Prog unit) : Prop :=
  match t with
  | Call c _ => ~ pushes (event c
                            (match c in Cmd R return R with
                             | GmailGet _ _ => NetworkFailure JNull
                             | _ => tt
                             end))
  | _ => True
  end.

Definition weight (sh : Shared) : nat :=
  (length (pending sh) + length (results sh) + length (errors sh))%nat.

Lemma settle_owes (Pr Pe : nat -> Prop) (t : Prog unit) :
  forall (sh : Shared) (n : nat),
    owes Pr Pe n t ->
    exists n',
      owes Pr Pe n' (fst (settle t sh))
      /\ settled (fst (settle t sh))
      /\ (n' + weight (snd (settle t sh)) = n + weight sh)%nat
      /\ pending (snd (settle t sh)) = pending sh.
Proof.
  induction t as [a|e|R c k IH]; intros sh n Hn.
  - exists n. cbn. auto.
  - exists n. cbn. auto.
  - destruct c; try (exists n; cbn; split; [exact Hn|]; split; [tauto|auto]);
      cbn [owes] in Hn; destruct Hn as [n' [-> Hn]]; cbn [settle];
      match goal with
      | |- context [settle (k tt) ?sh0] =>
          destruct (IH tt sh0 n' Hn) as [n'' [H1 [H2 [H3 H4]]]]
      end;
      exists n''; (split; [exact H1|]); (split; [exact H2|]);
      (split; [|exact H4]); rewrite H3; unfold weight; cbn [pending results errors];
      rewrite length_app; cbn [length]; lia.
Qed.

Lemma workerFrom_owes (accessToken : string) (todo : list string) :
  forall sh : Shared,
    pending sh = todo ->
    exists n,
      owes (eq 0%nat) (eq 1%nat) n (fst (workerFrom Number_parse accessToken todo sh))
      /\ settled (fst (workerFrom Number_parse accessToken todo sh))
      /\ (n + weight (snd (workerFrom Number_parse accessToken todo sh)) = weight sh)%nat
      /\ (ended (fst (workerFrom Number_parse accessToken todo sh)) = true ->
          pending (snd (workerFrom Number_parse accessToken todo sh)) = [])
      /\ (todo = [] -> pending (snd (workerFrom Number_parse accessToken todo sh)) = []).
Proof.
  induction todo as [|id rest IH]; intros sh Hp.
  - exists 0%nat. cbn. auto.
  - cbn [workerFrom].
    set (sh0 := {| pending := rest; results := results sh; errors := errors sh |}).
    destruct (settle_owes (eq 0%nat) (eq 1%nat) (fetchOne Number_parse accessToken id) sh0 1
                (fetchOne_owes accessToken id)) as [n' [H1 [H2 [H3 H4]]]].
    assert (Hw : (1 + weight sh0 = weight sh)%nat).
    { unfold weight, sh0. cbn [pending results errors]. rewrite Hp. cbn [length]. lia. }
    destruct (settle (fetchOne Number_parse accessToken id) sh0) as [t sh'].
    cbn [fst snd] in *. destruct t as [a|e|R c k].
    + cbn [owes] in H1. subst n'.
      destruct (IH sh' H4) as [n [G1 [G2 [G3 [G4 G5]]]]].
      exists n. split; [exact G1|]. split; [exact G2|]. split; [lia|].
      split; [exact G4|discriminate].
    + exists n'. cbn [fst snd ended]. split; [exact H1|]. split; [exact H2|].
      split; [lia|]. split; discriminate.
    + exists n'. cbn [fst snd ended]. split; [exact H1|]. split; [exact H2|].
      split; [lia|]. split; discriminate.
Qed.

Lemma resume_owes (accessToken : string) (t : Prog unit) (sh : Shared) (n : nat) :
  owes (eq 0%nat) (eq 1%nat) n t ->
  exists n',
    owes (eq 0%nat) (eq 1%nat) n' (fst (resume Number_parse accessToken t sh))
    /\ settled (fst (resume Number_parse accessToken t sh))
    /\ (n' + weight (snd (resume Number_parse accessToken t sh)) = n + weight sh)%nat
    /\ (ended (fst (resume Number_parse accessToken t sh)) = true ->
        pending (snd (resume Number_parse accessToken t sh)) = [])
    /\ (pending sh = [] -> pending (snd (resume Number_parse accessToken t sh)) = []).
Proof.
  intros Hn. unfold resume.
  destruct (settle_owes _ _ t sh n Hn) as [n1 [H1 [H2 [H3 H4]]]].
  destruct (settle t sh) as [t' sh1]. cbn [fst snd] in *. destruct t' as [a|e|R c k].
  - cbn [owes] in H1. subst n1. unfold worker.
    destruct (workerFrom_owes accessToken (pending sh1) sh1 eq_refl)
      as [n2 [G1 [G2 [G3 [G4 G5]]]]].
    exists n2. split; [exact G1|]. split; [exact G2|]. split; [lia|].
    split; [exact G4|]. intros Hs. apply G5. congruence.
  - exists n1. cbn [fst snd ended]. split; [exact H1|]. split; [exact H2|].
    split; [exact H3|]. split; [discriminate|congruence].
  - exists n1. cbn [fst snd ended]. split; [exact H1|]. split; [exact H2|].
    split; [exact H3|]. split; [discriminate|congruence].
Qed.

Definition threadOwes (n : nat) (t : Prog unit) : Prop :=
  owes (eq 0%nat) (eq 1%nat) n t /\ settled t.

Lemma spawn_owes (accessToken : string) (k : nat) :
  forall sh : Shared,
    exists owed,
      Forall2 threadOwes owed (fst (spawn Number_parse accessToken k sh))
      /\ (list_sum owed + weight (snd (spawn Number_parse accessToken k sh)) = weight sh)%nat
      /\ (forall t, In t (fst (spawn Number_parse accessToken k sh)) -> ended t = true ->
          pending (snd (spawn Number_parse accessToken k sh)) = [])
      /\ (pending sh = [] -> pending (snd (spawn Number_parse accessToken k sh)) = []).
Proof.
  induction k as [|k IH]; intros sh.
  - exists []. cbn. split; [constructor|]. split; [reflexivity|]. split; [tauto|auto].
  - cbn [spawn]. unfold worker.
    destruct (workerFrom_owes accessToken (pending sh) sh eq_refl)
      as [n [G1 [G2 [G3 [G4 G5]]]]].
    destruct (workerFrom Number_parse accessToken (pending sh) sh) as [t sh1].
    cbn [fst snd] in *.
    destruct (IH sh1) as [owed [F1 [F2 [F3 F4]]]].
    destruct (spawn Number_parse accessToken k sh1) as [ts sh2]. cbn [fst snd] in *.
    exists (n :: owed). split; [constructor; [split; assumption|exact F1]|].
    split; [change (list_sum (n :: owed)) with (n + list_sum owed)%nat; lia|]. split.
    + intros t' [<-|Hin] He; [apply F4, G4, He|exact (F3 _ Hin He)].
    + intros Hs. apply F4, G5, Hs.
Qed.

Lemma spawn_length (accessToken : string) (k : nat) (sh : Shared) :
  length (fst (spawn Number_parse accessToken k sh)) = k.
Proof.
  revert sh. induction k as [|k IH]; intros sh; [reflexivity|].
  cbn [spawn]. destruct (worker Number_parse accessToken sh) as [t sh1].
  specialize (IH sh1). destruct (spawn Number_parse accessToken k sh1) as [ts sh2].
  cbn [fst length] in *. rewrite IH. reflexivity.
Qed.

(** The invariant: what the threads still owe, the messages not yet taken
    and the entries of the two arrays add up to the messages of the batch. *)
Definition Accounted (total : nat) (p : Pool) : Prop :=
  exists owed,
    Forall2 threadOwes owed (workers p)
    /\ (list_sum owed + weight (shared p) = total)%nat
    /\ (forall t, In t (workers p) -> ended t = true -> pending (shared p) = [])
    /\ workers p <> [].

Lemma start_Accounted (accessToken : string) (messageIds : list string) :
  Accounted (length messageIds) (start Number_parse accessToken messageIds).
Proof.
  unfold start, Accounted.
  destruct (spawn_owes accessToken CONCURRENCY
              {| pending := messageIds; results := []; errors := [] |})
    as [owed [F1 [F2 [F3 F4]]]].
  assert (Hne : fst (spawn Number_parse accessToken CONCURRENCY
                       {| pending := messageIds; results := []; errors := [] |}) <> []).
  { intros Hnil. apply (f_equal (@length _)) in Hnil. rewrite spawn_length in Hnil.
    discriminate. }
  destruct (spawn _ _ _ _) as [ts sh]. cbn [fst snd workers shared] in *.
  exists owed. split; [exact F1|]. split; [|split; assumption].
  rewrite F2. unfold weight. cbn. lia.
Qed.

Lemma Forall2_nth_error {A B : Type} (P : A -> B -> Prop) (l1 : list A) (l2 : list B)
    (i : nat) (y : B) :
  Forall2 P l1 l2 -> nth_error l2 i = Some y ->
  exists x, nth_error l1 i = Some x /\ P x y.
Proof.
  intros H. revert i. induction H as [|a b l1 l2 Hab H IH]; intros [|i] Hi;
    try discriminate; cbn in *.
  - injection Hi as <-. eauto.
  - apply IH, Hi.
Qed.

Lemma Forall2_update {A B : Type} (P : A -> B -> Prop) (l1 : list A) (l2 : list B)
    (i : nat) (x : A) (y : B) :
  Forall2 P l1 l2 -> P x y -> Forall2 P (update i x l1) (update i y l2).
Proof.
  intros H Hxy. revert i. induction H as [|a b l1 l2 Hab H IH]; intros i; [constructor|].
  destruct i; cbn [update]; constructor; auto.
Qed.

Lemma list_sum_update (l : list nat) (i x y : nat) :
  nth_error l i = Some x -> (list_sum (update i y l) + x = list_sum l + y)%nat.
Proof.
  revert i. induction l as [|z l IH]; intros [|i] H; try discriminate; cbn in *.
  - injection H as ->. lia.
  - specialize (IH i H). unfold list_sum in IH. lia.
Qed.

Lemma In_update {A : Type} (l : list A) (i : nat) (x t : A) :
  In t (update i x l) -> t = x \/ In t l.
Proof.
  revert i. induction l as [|z l IH]; intros [|i] H; cbn in *; try tauto.
  - destruct H as [<-|H]; auto.
  - destruct H as [<-|H]; auto. destruct (IH i H); auto.
Qed.

Lemma update_not_nil {A : Type} (l : list A) (i : nat) (x : A) :
  l <> [] -> update i x l <> [].
Proof. destruct l; [congruence|]. destruct i; discriminate. Qed.

Lemma deliver_Accounted (env : Env) (accessToken : string) (before : list Event)
    (total : nat) (p : Pool) (i : nat) :
  Accounted total p -> Accounted total (deliver Number_parse env accessToken before p i).
Proof.
  intros [owed [F1 [F2 [F3 F4]]]]. unfold deliver.
  destruct (nth_error (workers p) i) as [[a|e0|R c k]|] eqn:En;
    try solve [exists owed; auto].
  set (r := env R (before ++ List.map snd (calls p)) c). clearbody r.
  destruct (Forall2_nth_error _ _ _ _ _ F1 En) as [n [Hn [Ho Hs]]].
  assert (Hk : owes (eq 0%nat) (eq 1%nat) n (k r)).
  { cbn [owes settled pushes event] in Ho, Hs. destruct c; try exact (Ho r); tauto. }
  destruct (resume_owes accessToken (k r) (shared p) n Hk) as [n' [G1 [G2 [G3 [G4 G5]]]]].
  destruct (resume Number_parse accessToken (k r) (shared p)) as [t' sh'].
  unfold Accounted. cbn [fst snd workers shared] in *.
  exists (update i n' owed). split; [apply Forall2_update; [exact F1|split; assumption]|].
  split; [pose proof (list_sum_update owed i n n' Hn); lia|].
  split; [|apply update_not_nil, F4].
  intros t Hin He. apply In_update in Hin as [->|Hin]; [exact (G4 He)|].
  apply G5. exact (F3 _ Hin He).
Qed.

Lemma getEmailMetadataBatch_Accounted (env : Env) (accessToken : string)
    (messageIds : list string) (schedule : list nat) (before : list Event) :
  Accounted (length messageIds)
    (getEmailMetadataBatch Number_parse env accessToken messageIds schedule before).
Proof.
  unfold getEmailMetadataBatch. generalize (start_Accounted accessToken messageIds).
  generalize (start Number_parse accessToken messageIds).
  induction schedule as [|i schedule IH]; intros p Hp; [exact Hp|].
  cbn [fold_left]. apply IH, deliver_Accounted, Hp.
Qed.

(** X8. When a batch ends without having been rejected, every message of
    the batch is accounted for exactly once: it returns the array of
    results, no message is left to fetch, and the results and the recorded
    failures together are as many as the messages of the batch. *)
Theorem every_message_accounted_for (env : Env) (accessToken : string)
    (messageIds : list string) (schedule : list nat) (before : list Event)
    (batchResults : list Store.EmailMetadata) :
  let p := getEmailMetadataBatch Number_parse env accessToken messageIds schedule before in
  outcome p = Some (Returned batchResults) ->
  batchResults = results (shared p)
  /\ pending (shared p) = []
  /\ (length (results (shared p)) + length (errors (shared p)) = length messageIds)%nat.
Proof.
  intros p H.
  destruct (getEmailMetadataBatch_Accounted env accessToken messageIds schedule before)
    as [owed [F1 [F2 [F3 F4]]]].
  fold p in F1, F2, F3, F4. unfold outcome in H.
  destruct (rejected p); [discriminate|].
  destruct (forallb ended (workers p)) eqn:He; [|discriminate].
  injection H as <-. split; [reflexivity|].
  rewrite forallb_forall in He.
  assert (Hp : pending (shared p) = []).
  { destruct (workers p) as [|t ts] eqn:Ew; [congruence|].
    apply (F3 t); [left; reflexivity|apply He; left; reflexivity]. }
  split; [exact Hp|].
  assert (Hz : list_sum owed = 0%nat).
  { clear F2 F3 F4. induction F1 as [|n t owed ts [Ho _] F1 IH]; [reflexivity|].
    change (list_sum (n :: owed)) with (n + list_sum owed)%nat.
    rewrite IH by (intros x Hx; apply He; right; exact Hx).
    specialize (He t (or_introl eq_refl)). destruct t; try discriminate.
    cbn [owes] in Ho. subst n. reflexivity. }
  unfold weight in F2. rewrite Hp, Hz in F2. cbn [length] in F2. lia.
Qed.

(** *** The requests of a batch *)

Import Reasoning.

Definition isRequest (ev : Event) : bool :=
  match requestOf ev with Some _ => true | None => false end.

Lemma retryFrom_budget (accessToken id : string) (maxRetries baseDelay : Z)
    (remaining : nat) (attempt : Z) (lastErr : JsVal) :
  atMostOf isRequest remaining
    (retryFrom (getMessage accessToken id) maxRetries baseDelay remaining attempt lastErr).
Proof.
  revert attempt lastErr. induction remaining as [|n IH]; intros attempt lastErr; [exact I|].
  cbn [retryFrom getMessage bind call tryCatch atMostOf]. intros r.
  change (isRequest (event (GmailGet accessToken id) r)) with true. cbv iota.
  destruct (respond_ends id r) as [[data E]|[e E]]; rewrite E; cbn [tryCatch]; [exact I|].
  destruct (isGmailAuthError e) as [[|]|te]; cbn [lift bind]; try exact I.
  destruct (negb (isRateLimitError e) || (attempt =? maxRetries - 1)); [exact I|].
  cbv zeta. cbn [bind call atMostOf]. intros u.
  match goal with |- context [isRequest ?ev] => change (isRequest ev) with false end.
  cbv iota. apply IH.
Qed.

(** One turn of the loop of a worker makes at most five requests. *)
Lemma fetchOne_budget (accessToken id : string) :
  atMostOf isRequest 5 (fetchOne Number_parse accessToken id).
Proof.
  unfold fetchOne. apply (atMostOf_tryCatch _ isRequest 5 0).
  - apply (atMostOf_bind _ isRequest 5 0).
    + unfold retryWithBackoff. change (Z.to_nat 5) with 5%nat. apply retryFrom_budget.
    + intros data. destruct (toMetadata Number_parse id data) as [m|e]; cbn [lift bind];
        [|exact I].
      cbn [call bind atMostOf]. intros u.
      match goal with |- context [isRequest ?ev] => change (isRequest ev) with false end.
      cbv iota. intros u'.
      match goal with |- context [isRequest ?ev] => change (isRequest ev) with false end.
      exact I.
  - intros e. destruct (isGmailAuthError e) as [[|]|te]; cbn [lift bind]; try exact I.
    cbn [call bind atMostOf]. intros u.
    match goal with |- context [isRequest ?ev] => change (isRequest ev) with false end.
    exact I.
Qed.

Lemma settle_pending (t : Prog unit) (sh : Shared) : pending (snd (settle t sh)) = pending sh.
Proof.
  revert sh. induction t as [a|e|R c k IH]; intros sh; try reflexivity.
  destruct c; try reflexivity; cbn [settle]; rewrite IH; reflexivity.
Qed.

Lemma settle_budget (n : nat) (t : Prog unit) (sh : Shared) :
  atMostOf isRequest n t -> atMostOf isRequest n (fst (settle t sh)).
Proof.
  revert sh. induction t as [a|e|R c k IH]; intros sh H; try exact H.
  destruct c; try exact H; cbn [settle]; apply IH; exact (H tt).
Qed.

Lemma workerFrom_budget (accessToken : string) (todo : list string) :
  forall sh : Shared,
    pending sh = todo ->
    exists b,
      atMostOf isRequest b (fst (workerFrom Number_parse accessToken todo sh))
      /\ (b + 5 * length (pending (snd (workerFrom Number_parse accessToken todo sh)))
          <= 5 * length todo)%nat.
Proof.
  induction todo as [|id rest IH]; intros sh Hp.
  - exists 0%nat. cbn [workerFrom fst snd]. rewrite Hp. split; [exact I|cbn; lia].
  - cbn [workerFrom].
    set (sh0 := {| pending := rest; results := results sh; errors := errors sh |}).
    pose proof (settle_budget 5 (fetchOne Number_parse accessToken id) sh0
                  (fetchOne_budget accessToken id)) as Hb.
    pose proof (settle_pending (fetchOne Number_parse accessToken id) sh0) as Hq.
    destruct (settle (fetchOne Number_parse accessToken id) sh0) as [t sh'].
    subst sh0. cbn [fst snd pending] in *. destruct t as [a|e|R c k].
    + destruct (IH sh' Hq) as [b [G1 G2]]. exists b. split; [exact G1|].
      cbn [length]. lia.
    + exists 5%nat. cbn [fst snd]. split; [exact Hb|]. rewrite Hq. cbn [length]. lia.
    + exists 5%nat. cbn [fst snd]. split; [exact Hb|]. rewrite Hq. cbn [length]. lia.
Qed.

Lemma resume_budget (accessToken : string) (t : Prog unit) (sh : Shared) (n : nat) :
  atMostOf isRequest n t ->
  exists b,
    atMostOf isRequest b (fst (resume Number_parse accessToken t sh))
    /\ (b + 5 * length (pending (snd (resume Number_parse accessToken t sh)))
        <= n + 5 * length (pending sh))%nat.
Proof.
  intros Hn. unfold resume.
  pose proof (settle_budget n t sh Hn) as Hb. pose proof (settle_pending t sh) as Hq.
  destruct (settle t sh) as [t' sh1]. cbn [fst snd] in *. destruct t' as [a|e|R c k].
  - unfold worker. destruct (workerFrom_budget accessToken (pending sh1) sh1 eq_refl)
      as [b [G1 G2]].
    exists b. split; [exact G1|]. rewrite <- Hq. lia.
  - exists n. cbn [fst snd]. split; [exact Hb|]. rewrite Hq. lia.
  - exists n. cbn [fst snd]. split; [exact Hb|]. rewrite Hq. lia.
Qed.

Lemma spawn_budget (accessToken : string) (k : nat) :
  forall sh : Shared,
    exists budgets,
      Forall2 (atMostOf isRequest) budgets (fst (spawn Number_parse accessToken k sh))
      /\ (list_sum budgets + 5 * length (pending (snd (spawn Number_parse accessToken k sh)))
          <= 5 * length (pending sh))%nat.
Proof.
  induction k as [|k IH]; intros sh.
  - exists []. cbn. split; [constructor|lia].
  - cbn [spawn]. unfold worker.
    destruct (workerFrom_budget accessToken (pending sh) sh eq_refl) as [b [G1 G2]].
    destruct (workerFrom Number_parse accessToken (pending sh) sh) as [t sh1].
    cbn [fst snd] in *.
    destruct (IH sh1) as [budgets [F1 F2]].
    destruct (spawn Number_parse accessToken k sh1) as [ts sh2]. cbn [fst snd] in *.
    exists (b :: budgets). split; [constructor; assumption|].
    change (list_sum (b :: budgets)) with (b + list_sum budgets)%nat. lia.
Qed.

(** The invariant: the requests that the threads can still make, five for
    each message not yet taken, and the requests made are together at most
    five for each message of the batch. *)
Definition Budgeted (total : nat) (p : Pool) : Prop :=
  exists budgets,
    Forall2 (atMostOf isRequest) budgets (workers p)
    /\ (list_sum budgets + 5 * length (pending (shared p))
        + length (requests (List.map snd (calls p))) <= total)%nat.

Lemma start_Budgeted (accessToken : string) (messageIds : list string) :
  Budgeted (5 * length messageIds) (start Number_parse accessToken messageIds).
Proof.
  unfold start, Budgeted.
  destruct (spawn_budget accessToken CONCURRENCY
              {| pending := messageIds; results := []; errors := [] |}) as [budgets [F1 F2]].
  destruct (spawn _ _ _ _) as [ts sh]. cbn [fst snd workers shared calls pending] in *.
  exists budgets. split; [exact F1|]. cbn [List.map requests collect length]. lia.
Qed.

Lemma deliver_Budgeted (env : Env) (accessToken : string) (before : list Event)
    (total : nat) (p : Pool) (i : nat) :
  Budgeted total p -> Budgeted total (deliver Number_parse env accessToken before p i).
Proof.
  intros [budgets [F1 F2]]. unfold deliver.
  destruct (nth_error (workers p) i) as [[a|e0|R c k]|] eqn:En;
    try solve [exists budgets; auto].
  set (r := env R (before ++ List.map snd (calls p)) c). clearbody r.
  destruct (Forall2_nth_error _ _ _ _ _ F1 En) as [n [Hn Ho]].
  cbn [atMostOf] in Ho. specialize (Ho r).
  assert (Hk : exists n', atMostOf isRequest n' (k r)
                          /\ (n' + length (requests [event c r]) <= n)%nat).
  { unfold requests, isRequest in *. cbn [collect].
    destruct (requestOf (event c r)) as [id|].
    - destruct n as [|n']; [contradiction|]. exists n'. split; [exact Ho|cbn; lia].
    - exists n. split; [exact Ho|cbn; lia]. }
  destruct Hk as [n' [Hk Hle]].
  destruct (resume_budget accessToken (k r) (shared p) n' Hk) as [b [G1 G2]].
  destruct (resume Number_parse accessToken (k r) (shared p)) as [t' sh'].
  unfold Budgeted. cbn [fst snd workers shared calls] in *.
  exists (update i b budgets). split; [apply Forall2_update; assumption|].
  pose proof (list_sum_update budgets i n b Hn) as Hsum.
  rewrite map_app. unfold requests in *. rewrite collect_app, length_app.
  cbn [List.map snd]. lia.
Qed.

Lemma getEmailMetadataBatch_Budgeted (env : Env) (accessToken : string)
    (messageIds : list string) (schedule : list nat) (before : list Event) :
  Budgeted (5 * length messageIds)
    (getEmailMetadataBatch Number_parse env accessToken messageIds schedule before).
Proof.
  unfold getEmailMetadataBatch. generalize (start_Budgeted accessToken messageIds).
  generalize (start Number_parse accessToken messageIds).
  induction schedule as [|i schedule IH]; intros p Hp; [exact Hp|].
  cbn [fold_left]. apply IH, deliver_Budgeted, Hp.
Qed.

(** X22. However the provider answers and in whatever order the
    requests of the workers complete, a batch makes at most five requests
    for each of its messages. *)
Theorem batch_requests_at_most_five_each (env : Env) (accessToken : string)
    (messageIds : list string) (schedule : list nat) (before : list Event) :
  (length (requests (List.map snd
             (calls (getEmailMetadataBatch Number_parse env accessToken messageIds schedule
                       before))))
   <= 5 * length messageIds)%nat.
Proof.
  destruct (getEmailMetadataBatch_Budgeted env accessToken messageIds schedule before)
    as [budgets [_ H]].
  lia.
Qed.

End Accounting.

(** A provider behind a gateway that answers 401 in plain text. *)
Definition unauthorizedText : HttpResult := Response 401 None "Unauthorized".

Definition unauthorizedBatch : Pool :=
  getEmailMetadataBatch (fun _ => None) (answering unauthorizedText) "ya29.a0AfH6SMB"
    threeIds [1; 0; 2]%nat [].

Lemma unreadable_401_not_raised_witness :
  run (answering unauthorizedText)
    (fetchOne (fun _ => None) "ya29.a0AfH6SMB" "18c2f0a1b2c3d4e5") []
  = (Returned tt, [event (GmailGet "ya29.a0AfH6SMB" "18c2f0a1b2c3d4e5") unauthorizedText;
                   event (PushError "18c2f0a1b2c3d4e5") tt])
  /\ outcome unauthorizedBatch <> Some (Thrown bodyUnusable)
  /\ fst (fetchMetadataForMessages (fun _ => None) (fun _ _ => 0)
            (answering unauthorizedText) "ya29.a0AfH6SMB" (List.map Some threeIds)
            [[1; 0; 2]%nat]) <> Some (Thrown bodyUnusable).
Proof.
  destruct (unreadable_401_not_raised (fun _ => None) (fun _ _ => 0)
              (answering unauthorizedText) "ya29.a0AfH6SMB") as [H1 H23].
  destruct (H23 (fun _ _ _ => ex_intro _ "Unauthorized" eq_refl)) as [H2 H3].
  split; [exact (H1 "18c2f0a1b2c3d4e5" "Unauthorized" [] eq_refl)|].
  split; [exact (H2 threeIds [1; 0; 2]%nat [] bodyUnusable)|].
  exact (H3 (List.map Some threeIds) [[1; 0; 2]%nat] bodyUnusable).
Defined.

(** The batch above: three requests, no delay, the three identifiers
    recorded as failed, and the empty list returned to the caller, who
    is told of no failure of authentication. *)
Lemma unauthorizedBatch_arrays :
  requests (List.map snd (calls unauthorizedBatch)) =
    ["18c2f0a1b2c3d4e6"; "18c2f0a1b2c3d4e5"; "18c2f0a1b2c3d4e7"]
  /\ sleeps (List.map snd (calls unauthorizedBatch)) = []
  /\ errors (shared unauthorizedBatch) =
       ["18c2f0a1b2c3d4e6"; "18c2f0a1b2c3d4e5"; "18c2f0a1b2c3d4e7"]
  /\ outcome unauthorizedBatch = Some (Returned [])
  /\ fst (fetchMetadataForMessages (fun _ => None) (fun _ _ => 0)
            (answering unauthorizedText) "ya29.a0AfH6SMB" (List.map Some threeIds)
            [[1; 0; 2]%nat]) = Some (Returned []).
Proof. vm_compute. auto 6. Qed.

(** The first of three requests is answered 401 in plain text, the two
    others 401 in the envelope of the provider. *)
Definition unreadableFirst : Env :=
  fun R _ c =>
    match c in Cmd R return R with
    | GmailGet _ id =>
        if String.eqb id "18c2f0a1b2c3d4e5" then unauthorizedText else expired
    | Sleep _ => tt
    | PushResult _ => tt
    | PushError _ => tt
    | OnProgress _ _ _ => tt
    end.

Lemma only_auth_failures_are_thrown_witness :
  let e := responseError "18c2f0a1b2c3d4e6" 401 expiredBody in
  firstAuthFailure
    (snd (fetchMetadataForMessages (fun _ => None) (fun _ _ => 0) unreadableFirst
            "ya29.a0AfH6SMB" (List.map Some threeIds) [[0; 1; 2]%nat])) = Some e
  /\ isGmailAuthError e = Returned true.
Proof.
  exact (only_auth_failures_are_thrown (fun _ => None) (fun _ _ => 0) unreadableFirst
           "ya29.a0AfH6SMB" (List.map Some threeIds) [[0; 1; 2]%nat]
           (responseError "18c2f0a1b2c3d4e6" 401 expiredBody)
           eq_refl).
Defined.

(** In that call the first message is recorded as failed, and it is the
    error of the second request that is thrown. *)
Lemma unreadableFirst_arrays :
  let p := getEmailMetadataBatch (fun _ => None) unreadableFirst "ya29.a0AfH6SMB" threeIds
             [0; 1; 2]%nat [] in
  requests (List.map snd (calls p)) =
    ["18c2f0a1b2c3d4e5"; "18c2f0a1b2c3d4e6"; "18c2f0a1b2c3d4e7"]
  /\ errors (shared p) = ["18c2f0a1b2c3d4e5"]
  /\ outcome p = Some (Thrown (responseError "18c2f0a1b2c3d4e6" 401 expiredBody)).
Proof. vm_compute. auto. Qed.

(** A provider that has the second of three messages no longer: the two
    others are fetched, the second is recorded as failed. *)
Definition welcomeBody : JsVal :=
  JObj [("id", JStr "18c2f0a1b2c3d4e5");
        ("payload",
         JObj [("headers",
                JArr [JObj [("name", JStr "From"); ("value", JStr "Acme <no-reply@acme.com>")];
                      JObj [("name", JStr "Subject"); ("value", JStr "Welcome to Acme")]])])].

Definition goneSecond : Env :=
  fun R _ c =>
    match c in Cmd R return R with
    | GmailGet _ id =>
        if String.eqb id "18c2f0a1b2c3d4e6" then Response 404 None "Not Found"
        else Response 200 (Some welcomeBody) (jsonText welcomeBody)
    | Sleep _ => tt
    | PushResult _ => tt
    | PushError _ => tt
    | OnProgress _ _ _ => tt
    end.

Definition mixedBatch : Pool :=
  getEmailMetadataBatch (fun _ => None) goneSecond "ya29.a0AfH6SMB" threeIds
    [0; 1; 2; 2; 0]%nat [].

Lemma every_message_accounted_for_witness :
  results (shared mixedBatch) = results (shared mixedBatch)
  /\ pending (shared mixedBatch) = []
  /\ (length (results (shared mixedBatch)) + length (errors (shared mixedBatch))
      = length threeIds)%nat.
Proof.
  exact (every_message_accounted_for (fun _ => None) goneSecond "ya29.a0AfH6SMB" threeIds
           [0; 1; 2; 2; 0]%nat [] (results (shared mixedBatch)) eq_refl).
Defined.

Lemma mixedBatch_arrays :
  List.map Store.subject (results (shared mixedBatch)) = ["Welcome to Acme"; "Welcome to Acme"]
  /\ errors (shared mixedBatch) = ["18c2f0a1b2c3d4e6"].
Proof. vm_compute. auto. Qed.

End Fetcher.

(* ===================================================================== *)
(** ** The token vault (encryption.ts) *)
(* ===================================================================== *)

Module Vault.
Import Str Js.
Local Open Scope list_scope.

(** The plaintext of a token and what decryption returns are strings of
    the language: sequences of 16-bit code units.  Buffers are sequences
    of bytes.  The key and the sealed token matter through their base64
    characters only and are strings of 8-bit characters, as elsewhere. *)
Abbreviation CodeUnits := (list Z).
Abbreviation Buffer := (list Z).

Definition isByte (b : Z) : Prop := 0 <= b < 256.

(** *** UTF-8 ([Buffer.from(text, 'utf8')] and [buffer.toString('utf8')]) *)

Definition isHigh (u : Z) : bool := (0xD800 <=? u) && (u <=? 0xDBFF).
Definition isLow (u : Z) : bool := (0xDC00 <=? u) && (u <=? 0xDFFF).

(** [text.isWellFormed()]: code units with no surrogate out of a pair. *)
Fixpoint isWellFormed (s : CodeUnits) : bool :=
  match s with
  | [] => true
  | u :: rest =>
      if isHigh u then
        match rest with
        | v :: rest' => isLow v && isWellFormed rest'
        | [] => false
        end
      else negb (isLow u) && (0 <=? u) && (u <=? 0xFFFF) && isWellFormed rest
  end.

(** The bytes of one code point. *)
Definition utf8Of (cp : Z) : Buffer :=
  if cp <? 0x80 then [cp]
  else if cp <? 0x800 then [0xC0 + cp / 64; 0x80 + cp mod 64]
  else if cp <? 0x10000 then
    [0xE0 + cp / 4096; 0x80 + (cp / 64) mod 64; 0x80 + cp mod 64]
  else
    [0xF0 + cp / 262144; 0x80 + (cp / 4096) mod 64; 0x80 + (cp / 64) mod 64;
     0x80 + cp mod 64].

(** Encoding: a pair of surrogates is one code point, a surrogate out of a
    pair is written as U+FFFD. *)
Fixpoint utf8Encode (s : CodeUnits) : Buffer :=
  match s with
  | [] => []
  | u :: rest =>
      if isHigh u then
        match rest with
        | v :: rest' =>
            if isLow v
            then utf8Of (0x10000 + (u - 0xD800) * 1024 + (v - 0xDC00)) ++ utf8Encode rest'
            else utf8Of 0xFFFD ++ utf8Encode rest
        | [] => utf8Of 0xFFFD
        end
      else if isLow u then utf8Of 0xFFFD ++ utf8Encode rest
      else utf8Of u ++ utf8Encode rest
  end.

(** The code units of one code point. *)
Definition unitsOf (cp : Z) : CodeUnits :=
  if cp <? 0x10000 then [cp]
  else [0xD800 + (cp - 0x10000) / 1024; 0xDC00 + (cp - 0x10000) mod 1024].

Definition isContinuation (b : Z) : bool := (0x80 <=? b) && (b <=? 0xBF).

(** Decoding: bytes that are no encoding of a code point (a stray or
    missing continuation, an overlong form, a surrogate, a code point
    beyond U+10FFFF) are read as U+FFFD, one for each maximal ill-formed
    part. *)
Fixpoint utf8Decode (bs : Buffer) : CodeUnits :=
  match bs with
  | [] => []
  | b0 :: r0 =>
      if b0 <? 0x80 then b0 :: utf8Decode r0
      else if (0xC2 <=? b0) && (b0 <=? 0xDF) then
        match r0 with
        | b1 :: r1 =>
            if isContinuation b1
            then ((b0 - 0xC0) * 64 + (b1 - 0x80)) :: utf8Decode r1
            else 0xFFFD :: utf8Decode r0
        | [] => [0xFFFD]
        end
      else if (0xE0 <=? b0) && (b0 <=? 0xEF) then
        match r0 with
        | b1 :: r1 =>
            if ((if b0 =? 0xE0 then 0xA0 else 0x80) <=? b1)
               && (b1 <=? (if b0 =? 0xED then 0x9F else 0xBF))
            then
              match r1 with
              | b2 :: r2 =>
                  if isContinuation b2
                  then (((b0 - 0xE0) * 64 + (b1 - 0x80)) * 64 + (b2 - 0x80)) :: utf8Decode r2
                  else 0xFFFD :: utf8Decode r1
              | [] => [0xFFFD]
              end
            else 0xFFFD :: utf8Decode r0
        | [] => [0xFFFD]
        end
      else if (0xF0 <=? b0) && (b0 <=? 0xF4) then
        match r0 with
        | b1 :: r1 =>
            if ((if b0 =? 0xF0 then 0x90 else 0x80) <=? b1)
               && (b1 <=? (if b0 =? 0xF4 then 0x8F else 0xBF))
            then
              match r1 with
              | b2 :: r2 =>
                  if isContinuation b2 then
                    match r2 with
                    | b3 :: r3 =>
                        if isContinuation b3
                        then unitsOf ((((b0 - 0xF0) * 64 + (b1 - 0x80)) * 64
                                       + (b2 - 0x80)) * 64 + (b3 - 0x80))
                             ++ utf8Decode r3
                        else 0xFFFD :: utf8Decode r2
                    | [] => [0xFFFD]
                    end
                  else 0xFFFD :: utf8Decode r1
              | [] => [0xFFFD]
              end
            else 0xFFFD :: utf8Decode r0
        | [] => [0xFFFD]
        end
      else 0xFFFD :: utf8Decode r0
  end.

(** *** Base64 ([buffer.toString('base64')] and [Buffer.from(text, 'base64')]) *)

Definition base64Char (v : Z) : ascii :=
  ascii_of_N (Z.to_N (if v <? 26 then v + 65
                      else if v <? 52 then v + 71
                      else if v <? 62 then v - 4
                      else if v =? 62 then 43 else 47)).

Fixpoint base64Encode (bs : Buffer) : string :=
  match bs with
  | [] => EmptyString
  | [a] =>
      String (base64Char (a / 4)) (String (base64Char (a mod 4 * 16)) "==")
  | [a; b] =>
      String (base64Char (a / 4))
        (String (base64Char (a mod 4 * 16 + b / 16))
           (String (base64Char (b mod 16 * 4)) "="))
  | a :: b :: c :: rest =>
      String (base64Char (a / 4))
        (String (base64Char (a mod 4 * 16 + b / 16))
           (String (base64Char (b mod 16 * 4 + c / 64))
              (String (base64Char (c mod 64)) (base64Encode rest))))
  end.

(** The value of a character of the alphabet, or of its URL-safe variant. *)
Definition unbase64 (c : ascii) : option Z :=
  let n := Z.of_N (N_of_ascii c) in
  if (65 <=? n) && (n <=? 90) then Some (n - 65)
  else if (97 <=? n) && (n <=? 122) then Some (n - 71)
  else if (48 <=? n) && (n <=? 57) then Some (n + 4)
  else if (n =? 43) || (n =? 45) then Some 62
  else if (n =? 47) || (n =? 95) then Some 63
  else None.

(** The decoder passes over the characters that are not of the alphabet
    and stops at the padding. *)
Fixpoint sextets (s : string) : list Z :=
  match s with
  | EmptyString => []
  | String c rest =>
      if Ascii.eqb c "=" then []
      else match unbase64 c with
           | Some v => v :: sextets rest
           | None => sextets rest
           end
  end.

Fixpoint pack (vs : list Z) : Buffer :=
  match vs with
  | a :: b :: c :: d :: rest =>
      (a * 4 + b / 16) :: (b mod 16 * 16 + c / 4) :: (c mod 4 * 64 + d) :: pack rest
  | [a; b; c] => [a * 4 + b / 16; b mod 16 * 16 + c / 4]
  | [a; b] => [a * 4 + b / 16]
  | _ => []
  end.

Definition base64Decode (s : string) : Buffer := pack (sextets s).

(** *** AES-256-GCM

    The block cipher is the library's.  [keystreamByte key iv i] is byte
    [i] of the key stream that the counter mode makes of it, and
    [ghash key iv ciphertext] the 128-bit authentication tag. *)
Section WithCipher.

Variable keystreamByte : Buffer -> Buffer -> nat -> ascii.
Variable ghash : Buffer -> Buffer -> Buffer -> N.

Fixpoint xorStream (stream : nat -> ascii) (i : nat) (bs : Buffer) : Buffer :=
  match bs with
  | [] => []
  | b :: rest => Z.lxor b (Z.of_N (N_of_ascii (stream i))) :: xorStream stream (S i) rest
  end.

(** The sixteen bytes of the tag. *)
Definition getAuthTag (key iv ciphertext : Buffer) : Buffer :=
  List.map (fun i => Z.of_N ((ghash key iv ciphertext / 256 ^ N.of_nat (15 - i)) mod 256))
    (seq 0 16).

Definition keyError : JsVal :=
  newError "TOKEN_ENCRYPTION_KEY must be 32 raw bytes (base64-encoded)".

Definition dot : string := ".".

(** [encryptToken]; [iv] is what [randomBytes(12)] returns. *)
Definition encryptToken (plain : CodeUnits) (keyBase64 : string) (iv : Buffer)
    : Outcome string :=
  let key := base64Decode keyBase64 in
  if negb (length key =? 32)%nat then Thrown keyError else
  let encrypted := xorStream (keystreamByte key iv) 0 (utf8Encode plain) in
  let tag := getAuthTag key iv encrypted in
  let ivB64 := base64Encode iv in
  let ctB64 := base64Encode encrypted in
  let tagB64 := base64Encode tag in
  Returned (ivB64 ++ dot ++ ctB64 ++ dot ++ tagB64)%string.

(** The lengths of tag that [setAuthTag] accepts. *)
Definition validTagLength (n : nat) : bool :=
  existsb (Nat.eqb n) [4; 8; 12; 13; 14; 15; 16]%nat.

(** [decryptToken]. *)
Definition decryptToken (enc : string) (keyBase64 : string) : Outcome CodeUnits :=
  match split "." enc with
  | [ivB64; ctB64; tagB64] =>
      let key := base64Decode keyBase64 in
      let iv := base64Decode ivB64 in
      let ciphertext := base64Decode ctB64 in
      let authTag := base64Decode tagB64 in
      if negb (length key =? 32)%nat then Thrown keyError else
      match iv with
      | [] => Thrown (typeError "Invalid initialization vector")
      | _ :: _ =>
          if negb (validTagLength (length authTag)) then
            Thrown (typeError "Invalid authentication tag length")
          else
            let decrypted := xorStream (keystreamByte key iv) 0 ciphertext in
            if list_eq_dec Z.eq_dec authTag
                 (firstn (length authTag) (getAuthTag key iv ciphertext))
            then Returned (utf8Decode decrypted)
            else Thrown (newError "Unsupported state or unable to authenticate data")
      end
  | _ => Thrown (newError "Invalid encrypted token format")
  end.

(** *** Base64 decodes what it encodes *)

Ltac zlia := Z.div_mod_to_equations; lia.

Lemma below_64 (P : Z -> bool) :
  forallb (fun n => P (Z.of_nat n)) (seq 0 64) = true ->
  forall v, 0 <= v < 64 -> P v = true.
Proof.
  intros H v Hv. rewrite forallb_forall in H.
  rewrite <- (Z2Nat.id v) by lia. apply H. apply in_seq. lia.
Qed.

Lemma base64Char_value (v : Z) :
  0 <= v < 64 ->
  unbase64 (base64Char v) = Some v /\
  Ascii.eqb (base64Char v) "=" = false /\
  notChar "." (base64Char v) = true.
Proof.
  intros Hv.
  pose proof (below_64
    (fun v => match unbase64 (base64Char v) with
              | Some w => (w =? v) && negb (Ascii.eqb (base64Char v) "=")
                          && notChar "." (base64Char v)
              | None => false
              end) eq_refl v Hv) as H.
  cbv beta in H. destruct (unbase64 (base64Char v)) as [w|]; [|discriminate].
  apply andb_true_iff in H as [H H3]. apply andb_true_iff in H as [H1 H2].
  apply Z.eqb_eq in H1. apply negb_true_iff in H2. subst w. auto.
Qed.

Lemma sextets_char (v : Z) (rest : string) :
  0 <= v < 64 -> sextets (String (base64Char v) rest) = v :: sextets rest.
Proof.
  intros Hv. destruct (base64Char_value v Hv) as [H1 [H2 _]].
  cbn [sextets]. rewrite H2, H1. reflexivity.
Qed.

Lemma list_ind3 {A : Type} (P : list A -> Prop) :
  P [] -> (forall a, P [a]) -> (forall a b, P [a; b]) ->
  (forall a b c l, P l -> P (a :: b :: c :: l)) ->
  forall l, P l.
Proof.
  intros H0 H1 H2 H3 l.
  assert (H : P l /\ (forall a, P (a :: l)) /\ (forall a b, P (a :: b :: l))).
  { induction l as [|c l [IH0 [IH1 IH2]]]; auto. }
  exact (proj1 H).
Qed.

Lemma base64_round_trip (bs : Buffer) :
  Forall isByte bs -> base64Decode (base64Encode bs) = bs.
Proof.
  unfold base64Decode, isByte.
  induction bs as [|a|a b|a b c rest IH] using list_ind3; intros H.
  - reflexivity.
  - inversion_clear H as [|? ? Ha _].
    cbn [base64Encode]. rewrite !sextets_char by zlia.
    change (sextets "==") with (@nil Z). cbn [pack]. f_equal. zlia.
  - inversion_clear H as [|? ? Ha H']. inversion_clear H' as [|? ? Hb _].
    cbn [base64Encode]. rewrite !sextets_char by zlia.
    change (sextets "=") with (@nil Z). cbn [pack].
    f_equal; [zlia|]. f_equal. zlia.
  - inversion_clear H as [|? ? Ha H']. inversion_clear H' as [|? ? Hb H].
    inversion_clear H as [|? ? Hc Hrest].
    cbn [base64Encode]. rewrite !sextets_char by zlia. cbn [pack].
    rewrite (IH Hrest). f_equal; [zlia|]. f_equal; [zlia|]. f_equal. zlia.
Qed.

Lemma base64Char_no_dot (v : Z) : 0 <= v < 64 -> notChar "." (base64Char v) = true.
Proof. intros Hv. exact (proj2 (proj2 (base64Char_value v Hv))). Qed.

Lemma base64_no_dot (bs : Buffer) :
  Forall isByte bs -> allb (notChar ".") (base64Encode bs) = true.
Proof.
  unfold isByte.
  induction bs as [|a|a b|a b c rest IH] using list_ind3; intros H.
  - reflexivity.
  - inversion_clear H as [|? ? Ha _]. cbn [base64Encode allb].
    rewrite !base64Char_no_dot by zlia. reflexivity.
  - inversion_clear H as [|? ? Ha H']. inversion_clear H' as [|? ? Hb _].
    cbn [base64Encode allb].
    rewrite !base64Char_no_dot by zlia. reflexivity.
  - inversion_clear H as [|? ? Ha H']. inversion_clear H' as [|? ? Hb H].
    inversion_clear H as [|? ? Hc Hrest]. cbn [base64Encode allb].
    rewrite !base64Char_no_dot by zlia. rewrite (IH Hrest). reflexivity.
Qed.

(** *** UTF-8 decodes what it encodes, for well-formed text *)

Ltac decide_test :=
  match goal with
  | |- context [if ?c then _ else _] =>
      first [ replace c with true by (symmetry; zlia)
            | replace c with false by (symmetry; zlia) ]
  end.

Ltac split_test :=
  match goal with
  | |- context [Z.eqb ?a ?b] => destruct (Z.eqb_spec a b)
  end.

Ltac decide_tests := repeat (repeat decide_test; cbv beta match; try split_test).

(** The decoder on the encoding of a code point that is no surrogate. *)
Lemma utf8Decode_utf8Of (cp : Z) (rest : Buffer) :
  0 <= cp < 0x110000 ->
  ~ 0xD800 <= cp <= 0xDFFF ->
  utf8Decode (utf8Of cp ++ rest) = unitsOf cp ++ utf8Decode rest.
Proof.
  intros Hcp Hs. unfold utf8Of, unitsOf.
  destruct (Z.ltb_spec cp 0x80); [|destruct (Z.ltb_spec cp 0x800);
                                    [|destruct (Z.ltb_spec cp 0x10000)]];
    cbn [app].
  - cbn [utf8Decode]. decide_tests. reflexivity.
  - set (r0 := _ :: rest). cbn [utf8Decode]. decide_tests.
    subst r0. unfold isContinuation. decide_tests. cbn [app]. f_equal. zlia.
  - set (r1 := (0x80 + cp mod 64) :: rest). set (r0 := _ :: r1).
    cbn [utf8Decode]. decide_tests; subst r0; decide_tests;
      subst r1; unfold isContinuation; decide_tests; cbn [app]; f_equal; zlia.
  - set (r2 := (0x80 + cp mod 64) :: rest). set (r1 := _ :: r2). set (r0 := _ :: r1).
    cbn [utf8Decode]. decide_tests; subst r0; decide_tests;
      subst r1; unfold isContinuation; decide_tests;
      subst r2; decide_tests; unfold unitsOf; decide_tests;
      cbn [app]; (apply f_equal2; [zlia|apply f_equal2; [zlia|reflexivity]]).
Qed.

Lemma utf8Encode_pair (u v : Z) (rest : CodeUnits) :
  isHigh u = true -> isLow v = true ->
  utf8Encode (u :: v :: rest)
  = utf8Of (0x10000 + (u - 0xD800) * 1024 + (v - 0xDC00)) ++ utf8Encode rest.
Proof. intros Hu Hv. cbn [utf8Encode]. rewrite Hu, Hv. reflexivity. Qed.

Lemma utf8Encode_single (u : Z) (rest : CodeUnits) :
  isHigh u = false -> isLow u = false ->
  utf8Encode (u :: rest) = utf8Of u ++ utf8Encode rest.
Proof. intros Hu Hl. cbn [utf8Encode]. rewrite Hu, Hl. reflexivity. Qed.

Lemma utf8Of_bytes (cp : Z) : 0 <= cp < 0x110000 -> Forall isByte (utf8Of cp).
Proof.
  intros H. unfold utf8Of, isByte.
  destruct (Z.ltb_spec cp 0x80); [|destruct (Z.ltb_spec cp 0x800);
                                    [|destruct (Z.ltb_spec cp 0x10000)]];
    repeat (constructor; [zlia|]); constructor.
Qed.

Lemma isWellFormed_cons (u : Z) (rest : CodeUnits) :
  isWellFormed (u :: rest) =
  if isHigh u then
    match rest with
    | v :: rest' => isLow v && isWellFormed rest'
    | [] => false
    end
  else negb (isLow u) && (0 <=? u) && (u <=? 0xFFFF) && isWellFormed rest.
Proof. reflexivity. Qed.

(** Well-formed text is what the decoder makes of its encoding. *)
Lemma utf8_round_trip (s : CodeUnits) :
  isWellFormed s = true ->
  utf8Decode (utf8Encode s) = s /\ Forall isByte (utf8Encode s).
Proof.
  assert (H : (isWellFormed s = true ->
               utf8Decode (utf8Encode s) = s /\ Forall isByte (utf8Encode s)) /\
              (forall u, isWellFormed (u :: s) = true ->
                         utf8Decode (utf8Encode (u :: s)) = u :: s /\
                         Forall isByte (utf8Encode (u :: s)))).
  { induction s as [|v s [IH1 IH2]].
    - split; [intros _; split; [reflexivity|constructor]|].
      intros u H. rewrite isWellFormed_cons in H.
      destruct (isHigh u) eqn:Hu; [discriminate|].
      destruct (isLow u) eqn:Hl; [discriminate|]. apply andb_true_iff in H as [H _].
      rewrite (utf8Encode_single u [] Hu Hl). unfold isHigh, isLow in *.
      rewrite utf8Decode_utf8Of by lia. cbn [utf8Encode utf8Decode]. rewrite !app_nil_r.
      split; [|apply utf8Of_bytes; lia].
      unfold unitsOf. decide_tests. reflexivity.
    - split; [apply IH2|].
      intros u H. rewrite isWellFormed_cons in H.
      destruct (isHigh u) eqn:Hu.
      + apply andb_true_iff in H as [Hv Hs]. destruct (IH1 Hs) as [E B].
        rewrite (utf8Encode_pair u v s Hu Hv). unfold isHigh, isLow in *.
        rewrite utf8Decode_utf8Of by lia. rewrite E.
        split; [|apply Forall_app; split; [apply utf8Of_bytes; lia|exact B]].
        unfold unitsOf. decide_tests. cbn [app].
        apply f_equal2; [zlia|apply f_equal2; [zlia|reflexivity]].
      + destruct (isLow u) eqn:Hl; [discriminate|].
        apply andb_true_iff in H as [H Hs].
        destruct (IH2 v Hs) as [E B].
        rewrite (utf8Encode_single u (v :: s) Hu Hl). unfold isHigh, isLow in *.
        rewrite utf8Decode_utf8Of by lia. rewrite E.
        split; [|apply Forall_app; split; [apply utf8Of_bytes; lia|exact B]].
        unfold unitsOf. decide_tests. reflexivity. }
  exact (proj1 H).
Qed.

(** *** The cipher *)

Lemma lxor_byte (a b : Z) : isByte a -> isByte b -> isByte (Z.lxor a b).
Proof.
  unfold isByte. intros Ha Hb.
  assert (H0 : 0 <= Z.lxor a b) by (apply Z.lxor_nonneg; lia).
  split; [exact H0|].
  destruct (Z.eq_dec (Z.lxor a b) 0) as [->|Hn]; [lia|].
  change 256 with (2 ^ 8). apply Z.log2_lt_pow2; [lia|].
  assert (La : Z.log2 a < 8).
  { destruct (Z.eq_dec a 0) as [->|]; [reflexivity|apply Z.log2_lt_pow2; lia]. }
  assert (Lb : Z.log2 b < 8).
  { destruct (Z.eq_dec b 0) as [->|]; [reflexivity|apply Z.log2_lt_pow2; lia]. }
  pose proof (Z.log2_lxor a b (proj1 Ha) (proj1 Hb)). lia.
Qed.

Lemma xorStream_involutive (stream : nat -> ascii) (i : nat) (bs : Buffer) :
  xorStream stream i (xorStream stream i bs) = bs.
Proof.
  revert i. induction bs as [|b bs IH]; intros i; cbn [xorStream]; [reflexivity|].
  rewrite IH, Z.lxor_assoc, Z.lxor_nilpotent, Z.lxor_0_r. reflexivity.
Qed.

Lemma xorStream_bytes (stream : nat -> ascii) (i : nat) (bs : Buffer) :
  Forall isByte bs -> Forall isByte (xorStream stream i bs).
Proof.
  intros H. revert i. induction H as [|b bs Hb _ IH]; intros i; cbn [xorStream]; constructor; auto.
  apply lxor_byte; [exact Hb|]. unfold isByte.
  pose proof (N_ascii_bounded (stream i)). lia.
Qed.

Lemma getAuthTag_length (key iv ciphertext : Buffer) :
  length (getAuthTag key iv ciphertext) = 16%nat.
Proof. reflexivity. Qed.

Lemma getAuthTag_bytes (key iv ciphertext : Buffer) :
  Forall isByte (getAuthTag key iv ciphertext).
Proof.
  unfold getAuthTag. apply Forall_forall. intros b Hb. apply in_map_iff in Hb.
  destruct Hb as [i [<- _]]. unfold isByte.
  assert (H : (ghash key iv ciphertext / 256 ^ N.of_nat (15 - i) mod 256 < 256)%N)
    by (apply N.mod_lt; discriminate).
  split; [apply N2Z.is_nonneg|]. change 256 with (Z.of_N 256). apply N2Z.inj_lt. exact H.
Qed.

(** What decryption returns for a sealed text: the text as the decoder
    reads its encoding. *)
Lemma sealed_then_opened (plain : CodeUnits) (keyBytes iv : Buffer) :
  length keyBytes = 32%nat -> Forall isByte keyBytes ->
  iv <> [] -> Forall isByte iv ->
  Forall isByte (utf8Encode plain) ->
  exists enc,
    encryptToken plain (base64Encode keyBytes) iv = Returned enc /\
    decryptToken enc (base64Encode keyBytes) = Returned (utf8Decode (utf8Encode plain)).
Proof.
  intros Hlen Hkey Hiv Hivb Hplain. unfold encryptToken.
  rewrite (base64_round_trip keyBytes Hkey), Hlen. cbn [Nat.eqb negb]. cbv zeta.
  set (encrypted := xorStream (keystreamByte keyBytes iv) 0 (utf8Encode plain)).
  assert (Henc : Forall isByte encrypted) by (apply xorStream_bytes; exact Hplain).
  eexists. split; [reflexivity|]. unfold decryptToken, dot.
  change (base64Encode iv ++ "." ++ base64Encode encrypted ++ "."
          ++ base64Encode (getAuthTag keyBytes iv encrypted))%string
    with (base64Encode iv ++ String "." (base64Encode encrypted ++ String "."
          (base64Encode (getAuthTag keyBytes iv encrypted))))%string.
  rewrite (split_app_sep "." _ _ (base64_no_dot iv Hivb)).
  rewrite (split_app_sep "." _ _ (base64_no_dot encrypted Henc)).
  rewrite (split_no_sep "." _ (base64_no_dot _ (getAuthTag_bytes keyBytes iv encrypted))).
  cbv zeta.
  rewrite (base64_round_trip keyBytes Hkey), (base64_round_trip iv Hivb),
    (base64_round_trip encrypted Henc),
    (base64_round_trip _ (getAuthTag_bytes keyBytes iv encrypted)), Hlen.
  cbn [Nat.eqb negb]. destruct iv as [|b iv']; [contradiction|].
  rewrite getAuthTag_length. change (validTagLength 16) with true. cbn [negb].
  change (firstn 16 (getAuthTag keyBytes (b :: iv') encrypted))
    with (getAuthTag keyBytes (b :: iv') encrypted).
  destruct (list_eq_dec Z.eq_dec _ _) as [_|N]; [|contradiction].
  unfold encrypted. rewrite xorStream_involutive. reflexivity.
Qed.

(** C9 (amended).  A token that is well-formed text -- no surrogate out of a pair --
    is what [decryptToken] returns for what [encryptToken] made of it,
    under every key that is the base64 text of 32 bytes and whatever 12
    bytes the encryption drew as its initialization vector. *)
Theorem token_round_trip (plain : CodeUnits) (keyBytes iv : Buffer) :
  isWellFormed plain = true ->
  length keyBytes = 32%nat -> Forall isByte keyBytes ->
  length iv = 12%nat -> Forall isByte iv ->
  exists enc,
    encryptToken plain (base64Encode keyBytes) iv = Returned enc /\
    decryptToken enc (base64Encode keyBytes) = Returned plain.
Proof.
  intros Hwf Hlen Hkey Hiv Hivb. destruct (utf8_round_trip plain Hwf) as [E B].
  destruct (sealed_then_opened plain keyBytes iv Hlen Hkey) as [enc [H1 H2]]; auto.
  - intros ->. discriminate.
  - exists enc. rewrite E in H2. auto.
Qed.

End WithCipher.

(** *** Tokens *)

Lemma bytes_checked (bs : Buffer) :
  forallb (fun b => (0 <=? b) && (b <? 256)) bs = true -> Forall isByte bs.
Proof.
  intros H. rewrite forallb_forall in H. apply Forall_forall. intros b Hb.
  specialize (H b Hb). unfold isByte. lia.
Qed.

(** The key of bytes 0 to 31 and an initialization vector. *)
Definition sampleKeyBytes : Buffer := List.map Z.of_nat (seq 0 32).
Definition sampleKey : string := "AAECAwQFBgcICQoLDA0ODxAREhMUFRYXGBkaGxwdHh8=".
Definition sampleIv : Buffer := List.map Z.of_nat (seq 100 12).

Lemma sampleKey_encodes : base64Encode sampleKeyBytes = sampleKey.
Proof. reflexivity. Qed.

(** C9 (as stated, refuted).  A text that is one high surrogate comes back
    as U+FFFD, whatever the cipher. *)
Lemma lone_surrogate_not_restored :
  isWellFormed [0xD800] = false /\
  utf8Encode [0xD800] = [0xEF; 0xBF; 0xBD] /\
  forall (keystreamByte : Buffer -> Buffer -> nat -> ascii)
         (ghash : Buffer -> Buffer -> Buffer -> N),
  exists enc,
    encryptToken keystreamByte ghash [0xD800] sampleKey sampleIv = Returned enc /\
    decryptToken keystreamByte ghash enc sampleKey = Returned [0xFFFD].
Proof.
  split; [reflexivity|]. split; [reflexivity|]. intros keystreamByte ghash.
  apply (sealed_then_opened keystreamByte ghash [0xD800] sampleKeyBytes sampleIv).
  - reflexivity.
  - apply bytes_checked. reflexivity.
  - discriminate.
  - apply bytes_checked. reflexivity.
  - apply bytes_checked. reflexivity.
Qed.

(** A stand-in for the cipher, and a token with a character beyond the
    basic plane. *)
Definition standInStream (key iv : Buffer) (i : nat) : ascii :=
  ascii_of_N (Z.to_N ((nth i key 0 + nth (i mod 12) iv 0 + Z.of_nat i) mod 256)).

Definition standInTag (key iv ciphertext : Buffer) : N :=
  Z.to_N (fold_left Z.add (key ++ iv ++ ciphertext) 0).

Definition sampleToken : CodeUnits := [121; 97; 50; 57; 46; 0xD83D; 0xDD11; 233].

Lemma token_round_trip_witness :
  exists enc,
    encryptToken standInStream standInTag sampleToken sampleKey sampleIv = Returned enc /\
    decryptToken standInStream standInTag enc sampleKey = Returned sampleToken.
Proof.
  exact (token_round_trip standInStream standInTag sampleToken sampleKeyBytes sampleIv
           eq_refl eq_refl (bytes_checked sampleKeyBytes eq_refl)
           eq_refl (bytes_checked sampleIv eq_refl)).
Defined.

(** The sealed form of that token has its three parts. *)
Lemma sampleToken_sealed :
  match encryptToken standInStream standInTag sampleToken sampleKey sampleIv with
  | Returned enc => length (split "." enc) = 3%nat
  | Thrown _ => False
  end.
Proof. vm_compute. reflexivity. Qed.

End Vault.

(* ===================================================================== *)
(** ** The message lister (list-emails.ts) *)
(* ===================================================================== *)

Module Lister.
Import Str Js Effects Store.
Local Open Scope list_scope.
Local Open Scope prog_scope.

(** [interface GmailListResponse], as the code declares it. *)
Record GmailListResponse := {
  messages : option (list GmailMessage);
  nextPageToken : option string
}.

(** What the request of a page resolves with: the status, the parsed body
    (or what [res.json()] throws) and the body as text; or the rejection of
    the request. *)
Inductive ListResult : Type :=
| ListNetworkFailure (e : JsVal)
| ListResponse (status : Z) (json : Outcome GmailListResponse) (text : string).

(** The one external call: a page of message identifiers for the query
    [q], with [includeSpamTrash=false]. *)
Inductive Cmd : Type -> Type :=
| GmailList (accessToken q : string) (maxResults : Z) (pageToken : option string)
    : Cmd ListResult.

Abbreviation Prog := (Effects.Prog Cmd).
Abbreviation Env := (Effects.Env Cmd).
Abbreviation Event := (Effects.Event Cmd).

Definition lift {A : Type} (o : Outcome A) : Prog A :=
  match o with
  | Returned a => Ret a
  | Thrown e => Throw e
  end.

Definition isPro (current_plan : Plan) : bool := String.eqb current_plan "pro".
Definition YEARS (current_plan : Plan) : Z := if isPro current_plan then 15 else 10.
Definition PAGE_SIZE : nat := 500.
Definition MAX_PAGES (current_plan : Plan) : nat := if isPro current_plan then 20 else 8.
Definition MAX_MESSAGES (current_plan : Plan) : nat := (MAX_PAGES current_plan * PAGE_SIZE)%nat.
Definition FALLBACK_THRESHOLD : nat := 50.

(** [lastScanDate ? `after:${Math.floor(lastScanDate.getTime() / 1000)}`
                   : `newer_than:${YEARS}y`] *)
Definition dateFilter (current_plan : Plan) (lastScanDate : option Instant) : string :=
  match lastScanDate with
  | Some t => "after:" ++ Z_to_string (t / 1000)
  | None => "newer_than:" ++ Z_to_string (YEARS current_plan) ++ "y"
  end.

Definition quoted (s : string) : string :=
  String Extraction.dquote (s ++ String Extraction.dquote EmptyString).

Definition ONBOARDING : list string :=
  List.map quoted
    ["account created"; "welcome to"; "thanks for signing up"; "registration successful";
     "your account is ready"; "get started with"; "activate your account"; "you're all set";
     "welcome aboard"; "onboarding"].

Definition VERIFICATION : list string :=
  List.map quoted
    ["verify your email"; "confirm your email"; "verify your account"; "email confirmation";
     "click to verify"; "confirm your address"].

Definition SECURITY : list string :=
  List.map quoted
    ["password reset"; "reset your password"; "new device login"; "security alert";
     "unusual activity"; "suspicious activity"; "two-factor"; "2fa"; "verification code";
     "sign-in attempt"].

Definition BILLING : list string :=
  List.map quoted
    ["receipt for your"; "your receipt"; "order confirmation"; "purchase confirmation";
     "your order"; "invoice"; "payment received"; "subscription renewed";
     "subscription confirmed"; "billing update"; "trial started"; "free trial"].

Definition PRIVACY : list string :=
  List.map quoted
    ["privacy policy"; "terms of service"; "terms and conditions"; "data access request";
     "GDPR"; "CCPA"; "your privacy"].

Definition MANAGEMENT : list string :=
  List.map quoted
    ["account closed"; "account deletion"; "account deactivated"; "reactivate your account";
     "we miss you"; "come back"; "subscription cancelled"].

Definition ALL_KEYWORDS : string :=
  join " OR " (ONBOARDING ++ VERIFICATION ++ SECURITY ++ BILLING ++ PRIVACY ++ MANAGEMENT).

Definition KEYWORD_QUERY (filter : string) : string :=
  filter ++ " (" ++ ALL_KEYWORDS ++ ") -category:promotions".

Definition newline : string := String (ascii_of_N 10) EmptyString.

(** The template of the fallback query, line by line. *)
Definition SENDER_QUERY (filter : string) : string :=
  join newline
    [filter ++ " (";
     "      from:noreply OR from:no-reply OR from:noreply@ OR ";
     "      from:notifications OR from:notifications@ OR";
     "      from:accounts OR from:accounts@ OR";
     "      from:support OR from:hello OR from:team OR";
     "      subject:" ++ quoted "verify" ++ " OR subject:" ++ quoted "welcome" ++ " OR ";
     "      subject:" ++ quoted "account" ++ " OR subject:" ++ quoted "receipt" ++ " OR";
     "      subject:" ++ quoted "order" ++ " OR subject:" ++ quoted "confirm";
     "    ) -category:promotions -category:forums"]%string.

Definition authSentinel : JsVal := newError "GMAIL_AUTH_INVALID".

(** What the loop of [fetchMessageIds] makes of the answer to the request
    of a page: the error it throws, or the page. *)
Definition readPage (res : ListResult) : Prog GmailListResponse :=
  match res with
  | ListNetworkFailure e => Throw e
  | ListResponse status json text =>
      if negb (ok status) then
        if (status =? 401) || includes text "Invalid Credentials"
           || includes text "UNAUTHENTICATED"
        then Throw authSentinel
        else Throw (newError ("Gmail list failed: " ++ Z_to_string status ++ " " ++ text))
      else lift json
  end.

(** The loop of [fetchMessageIds] with [pagesLeft] pages to go:
    [while (messages.length < MAX_MESSAGES && pageCount < MAX_PAGES)]. *)
Fixpoint fetchPages (accessToken query : string) (maxMessages : nat) (pagesLeft : nat)
    (found : list GmailMessage) (pageToken : option string) : Prog (list GmailMessage) :=
  match pagesLeft with
  | O => Ret found
  | S pagesLeft' =>
      if negb (length found <? maxMessages)%nat then Ret found else
      let remaining := (maxMessages - length found)%nat in
      let batchSize := Nat.min PAGE_SIZE remaining in
      if (batchSize <=? 0)%nat then Ret found else
      res <- call (GmailList accessToken query (Z.of_nat batchSize) pageToken) ;;
      json <- readPage res ;;
      match messages json with
      | None | Some [] => Ret found
      | Some batch =>
          let found' := found ++ batch in
          match nextPageToken json with
          | Some token =>
              if truthy token
              then fetchPages accessToken query maxMessages pagesLeft' found' (Some token)
              else Ret found'
          | None => Ret found'
          end
      end
  end.

(** [fetchMessageIds]. *)
Definition fetchMessageIds (accessToken : string) (current_plan : Plan) (query : string)
    : Prog (list GmailMessage) :=
  found <- fetchPages accessToken query (MAX_MESSAGES current_plan) (MAX_PAGES current_plan)
             [] None ;;
  Ret (firstn (MAX_MESSAGES current_plan) found).

(** [deduplicateMessages], with the identifiers seen so far. *)
Fixpoint dedupe (seen : list string) (msgs : list GmailMessage) : list GmailMessage :=
  match msgs with
  | [] => []
  | msg :: rest =>
      match msg_id msg with
      | Some id =>
          if negb (truthy id) || mem id seen then dedupe seen rest
          else msg :: dedupe (id :: seen) rest
      | None => dedupe seen rest
      end
  end.

Definition deduplicateMessages (msgs : list GmailMessage) : list GmailMessage :=
  dedupe [] msgs.

(** The [catch] of [listEmails]: the sentinel passes, anything else is
    wrapped. *)
Definition scanFailure (error : JsVal) : JsVal :=
  match error with
  | JError _ _ _ =>
      if isStr (get error "message") "GMAIL_AUTH_INVALID" then error
      else newError ("Failed to scan inbox: " ++ toStr (get error "message"))
  | _ => newError "Failed to scan inbox: Unknown error"
  end.

(** [listEmails]. *)
Definition listEmails (accessToken : string) (current_plan : Plan)
    (lastScanDate : option Instant) : Prog (list GmailMessage) :=
  let filter := dateFilter current_plan lastScanDate in
  tryCatch
    (found <- fetchMessageIds accessToken current_plan (KEYWORD_QUERY filter) ;;
     if (length found <? FALLBACK_THRESHOLD)%nat then
       senderMessages <- fetchMessageIds accessToken current_plan (SENDER_QUERY filter) ;;
       Ret (deduplicateMessages (found ++ senderMessages))
     else Ret found)
    (fun error => Throw (scanFailure error)).


(** *** What the lister guarantees *)

Import Reasoning.

Lemma mem_In (x : string) (l : list string) : mem x l = true <-> In x l.
Proof.
  unfold mem. rewrite existsb_exists. split.
  - intros [y [Hy He]]. apply String.eqb_eq in He. subst. exact Hy.
  - intros H. exists x. split; [exact H|apply String.eqb_refl].
Qed.

Lemma mem_not_In (x : string) (l : list string) : mem x l = false <-> ~ In x l.
Proof.
  rewrite <- mem_In. destruct (mem x l); split; intros H; congruence.
Qed.

Lemma dedupe_fresh (seen : list string) (msgs : list GmailMessage) (msg : GmailMessage) :
  In msg (dedupe seen msgs) ->
  In msg msgs /\ exists id, msg_id msg = Some id /\ truthy id = true /\ ~ In id seen.
Proof.
  revert seen. induction msgs as [|m rest IH]; intros seen H; simpl in H; [contradiction|].
  destruct (msg_id m) as [id|] eqn:Hid.
  - destruct (negb (truthy id) || mem id seen) eqn:Hskip.
    + destruct (IH _ H) as [H1 H2]. split; [right; exact H1|exact H2].
    + apply orb_false_iff in Hskip as [Ht Hm]. apply negb_false_iff in Ht.
      apply mem_not_In in Hm. destruct H as [<-|H].
      * split; [left; reflexivity|]. exists id. auto.
      * destruct (IH _ H) as [H1 [id' [E1 [E2 E3]]]]. split; [right; exact H1|].
        exists id'. repeat split; auto. intros Hin. apply E3. right. exact Hin.
  - destruct (IH _ H) as [H1 H2]. split; [right; exact H1|exact H2].
Qed.

Lemma dedupe_NoDup (seen : list string) (msgs : list GmailMessage) :
  NoDup (map msg_id (dedupe seen msgs)).
Proof.
  revert seen. induction msgs as [|m rest IH]; intros seen; simpl; [constructor|].
  destruct (msg_id m) as [id|] eqn:Hid; [|apply IH].
  destruct (negb (truthy id) || mem id seen); [apply IH|].
  simpl. constructor; [|apply IH].
  rewrite Hid. intros Hin. apply in_map_iff in Hin as [m' [E Hm']].
  apply dedupe_fresh in Hm' as [_ [id' [E1 [_ E3]]]].
  rewrite E1 in E. injection E as ->. apply E3. left. reflexivity.
Qed.

Lemma dedupe_keeps (seen : list string) (msgs : list GmailMessage) (msg : GmailMessage)
    (id : string) :
  In msg msgs -> msg_id msg = Some id -> truthy id = true -> ~ In id seen ->
  In (Some id) (map msg_id (dedupe seen msgs)).
Proof.
  revert seen. induction msgs as [|m rest IH]; intros seen Hin Hid Ht Hs; [contradiction|].
  simpl. destruct Hin as [->|Hin].
  - rewrite Hid, Ht. apply mem_not_In in Hs. rewrite Hs. simpl. left. exact Hid.
  - destruct (msg_id m) as [id'|] eqn:Hid'; [|apply IH; assumption].
    destruct (negb (truthy id') || mem id' seen) eqn:Hskip; [apply IH; assumption|].
    destruct (String.eqb id id') eqn:E.
    + apply String.eqb_eq in E. subst id'. left. exact Hid'.
    + right. apply IH; try assumption. intros [->|H]; [|contradiction].
      rewrite String.eqb_refl in E. discriminate.
Qed.



(** X1. [deduplicateMessages] returns messages of the list it is given,
    each with a non-empty identifier and no identifier twice, and it loses
    no identifier: every non-empty identifier of the list is the identifier
    of a message of the result. *)
Theorem deduplicateMessages_distinct_and_complete (msgs : list GmailMessage) :
  NoDup (map msg_id (deduplicateMessages msgs))
  /\ (forall msg, In msg (deduplicateMessages msgs) ->
        In msg msgs /\ exists id, msg_id msg = Some id /\ truthy id = true)
  /\ (forall msg id, In msg msgs -> msg_id msg = Some id -> truthy id = true ->
        In (Some id) (map msg_id (deduplicateMessages msgs))).
Proof.
  unfold deduplicateMessages. split; [apply dedupe_NoDup|]. split.
  - intros msg H. apply dedupe_fresh in H as [H1 [id [E1 [E2 _]]]].
    split; [exact H1|]. exists id. auto.
  - intros msg id Hin Hid Ht. apply (dedupe_keeps [] msgs msg id); auto.
Qed.

(** The request of a page, as an event asks for it. *)
Definition pageRequest (accessToken : string) (queries : list string) (ev : Event) : Prop :=
  match ev with
  | existT _ _ (c, _) =>
      match c with
      | GmailList token q maxResults _ =>
          token = accessToken /\ In q queries /\ 1 <= maxResults <= 500
      end
  end.

Lemma fetchPages_requests (accessToken query : string) (maxMessages pagesLeft : nat)
    (found : list GmailMessage) (pageToken : option string) :
  always (pageRequest accessToken [query])
    (fetchPages accessToken query maxMessages pagesLeft found pageToken).
Proof.
  revert found pageToken.
  induction pagesLeft as [|n IH]; intros found pageToken; cbn [fetchPages]; [exact I|].
  destruct (negb (length found <? maxMessages)%nat); [exact I|].
  cbv zeta. destruct (Nat.min PAGE_SIZE (maxMessages - length found) <=? 0)%nat eqn:Hb;
    [exact I|].
  apply Nat.leb_gt in Hb.
  apply always_bind.
  - apply always_call. intros r. unfold pageRequest, event. cbv beta iota.
    split; [reflexivity|]. split; [left; reflexivity|]. unfold PAGE_SIZE in *. lia.
  - intros res. apply always_bind.
    + destruct res as [e|status json text]; cbn [readPage]; [exact I|].
      destruct (negb (ok status)).
      * destruct ((status =? 401) || includes text "Invalid Credentials"
                  || includes text "UNAUTHENTICATED"); exact I.
      * destruct json; exact I.
    + intros json. destruct (messages json) as [[|m batch]|]; try exact I.
      destruct (nextPageToken json) as [token|]; [|exact I].
      destruct (truthy token); [apply IH|exact I].
Qed.

Definition anyCall (ev : Event) : bool := true.

Lemma readPage_silent (res : ListResult) : atMostOf anyCall 0 (readPage res).
Proof.
  destruct res as [e|status json text]; cbn [readPage]; [exact I|].
  destruct (negb (ok status)).
  - destruct ((status =? 401) || includes text "Invalid Credentials"
              || includes text "UNAUTHENTICATED"); exact I.
  - destruct json; exact I.
Qed.

Lemma fetchPages_pages (accessToken query : string) (maxMessages pagesLeft : nat)
    (found : list GmailMessage) (pageToken : option string) :
  atMostOf anyCall pagesLeft
    (fetchPages accessToken query maxMessages pagesLeft found pageToken).
Proof.
  revert found pageToken.
  induction pagesLeft as [|n IH]; intros found pageToken; cbn [fetchPages]; [exact I|].
  destruct (negb (length found <? maxMessages)%nat); [exact I|].
  cbv zeta. destruct (Nat.min PAGE_SIZE (maxMessages - length found) <=? 0)%nat; [exact I|].
  cbn [bind call atMostOf anyCall]. intros res.
  apply (atMostOf_bind _ anyCall 0 n); [apply readPage_silent|].
  intros json. destruct (messages json) as [[|m batch]|]; try exact I.
  destruct (nextPageToken json) as [token|]; [|exact I].
  destruct (truthy token); [apply IH|exact I].
Qed.

Lemma fetchMessageIds_pages (accessToken : string) (current_plan : Plan) (query : string) :
  atMostOf anyCall (MAX_PAGES current_plan) (fetchMessageIds accessToken current_plan query).
Proof.
  unfold fetchMessageIds.
  apply atMostOf_le with (n := (MAX_PAGES current_plan + 0)%nat); [lia|].
  apply atMostOf_bind; [apply fetchPages_pages|]. intros found. exact I.
Qed.

Lemma fetchMessageIds_requests (accessToken : string) (current_plan : Plan) (query : string) :
  always (pageRequest accessToken [query]) (fetchMessageIds accessToken current_plan query).
Proof.
  unfold fetchMessageIds. apply always_bind; [apply fetchPages_requests|].
  intros found. exact I.
Qed.


(** X2. Whatever the mail provider answers, [listEmails] asks for at most
    twice [MAX_PAGES] pages (16 on the free plan, 40 on the pro plan); each
    request carries the access token given, one of the two queries, and
    asks for between 1 and 500 messages. *)
Theorem listEmails_request_budget (env : Env) (accessToken : string) (current_plan : Plan)
    (lastScanDate : option Instant) (tr : list Event) :
  exists more,
    snd (run env (listEmails accessToken current_plan lastScanDate) tr) = tr ++ more
    /\ (length more <= 2 * MAX_PAGES current_plan)%nat
    /\ (length more <= if String.eqb current_plan "pro" then 40 else 16)%nat
    /\ Forall (pageRequest accessToken
                 [KEYWORD_QUERY (dateFilter current_plan lastScanDate);
                  SENDER_QUERY (dateFilter current_plan lastScanDate)]) more.
Proof.
  set (kq := KEYWORD_QUERY (dateFilter current_plan lastScanDate)).
  set (sq := SENDER_QUERY (dateFilter current_plan lastScanDate)).
  assert (Hbudget : atMostOf anyCall (2 * MAX_PAGES current_plan)
                      (listEmails accessToken current_plan lastScanDate)).
  { unfold listEmails. cbv zeta.
    apply atMostOf_le with (n := (MAX_PAGES current_plan + MAX_PAGES current_plan + 0)%nat);
      [lia|].
    apply atMostOf_tryCatch; [|intros e; exact I].
    apply atMostOf_bind; [apply fetchMessageIds_pages|].
    intros found. destruct (length found <? FALLBACK_THRESHOLD)%nat.
    - apply atMostOf_le with (n := (MAX_PAGES current_plan + 0)%nat); [lia|].
      apply atMostOf_bind; [apply fetchMessageIds_pages|]. intros; exact I.
    - apply atMostOf_le with (n := 0%nat); [lia|exact I]. }
  assert (Hreq : always (pageRequest accessToken [kq; sq])
                   (listEmails accessToken current_plan lastScanDate)).
  { unfold listEmails. cbv zeta.
    assert (Hw : forall q, In q [kq; sq] ->
              always (pageRequest accessToken [kq; sq])
                (fetchMessageIds accessToken current_plan q)).
    { intros q Hq. eapply always_weaken; [|apply fetchMessageIds_requests].
      intros [R [c r]]. destruct c. cbn. intros [H1 [[<-|[]] H3]]. auto. }
    apply always_tryCatch; [|intros e; exact I].
    apply always_bind; [apply Hw; left; reflexivity|].
    intros found. destruct (length found <? FALLBACK_THRESHOLD)%nat; [|exact I].
    apply always_bind; [apply Hw; right; left; reflexivity|]. intros; exact I. }
  destruct (atMostOf_run _ anyCall _ _ env tr Hbudget) as [more [Hm Hl]].
  destruct (run_after _ _ _ env tr Hreq) as [more' [Hm' HF]].
  assert (more' = more) by (rewrite Hm in Hm'; apply app_inv_head in Hm'; auto). subst more'.
  exists more. split; [exact Hm|].
  assert (Hall : filter anyCall more = more).
  { clear. induction more as [|x l IH]; simpl; [reflexivity|]. rewrite IH. reflexivity. }
  rewrite Hall in Hl. split; [exact Hl|]. split; [|exact HF].
  unfold MAX_PAGES, isPro in Hl. destruct (String.eqb current_plan "pro"); simpl in Hl; lia.
Qed.


(** X4. An error that [listEmails] throws is an [Error] object: either one
    whose message is the sentinel [GMAIL_AUTH_INVALID], thrown as it was
    caught, or a new one whose message starts with [Failed to scan inbox: ]. *)
Theorem listEmails_throws_sentinel_or_wrapped (env : Env) (accessToken : string)
    (current_plan : Plan) (lastScanDate : option Instant) (tr : list Event) :
  match fst (run env (listEmails accessToken current_plan lastScanDate) tr) with
  | Returned _ => True
  | Thrown e =>
      ((exists name message props, e = JError name message props)
       /\ get e "message" = JStr "GMAIL_AUTH_INVALID")
      \/ (exists reason, e = newError ("Failed to scan inbox: " ++ reason))
  end.
Proof.
  apply (ends_run Cmd (fun _ => True)).
  unfold listEmails. cbv zeta.
  apply ends_tryCatch with (E' := fun _ => True); [apply ends_anything|].
  intros e _. cbn [ends]. unfold scanFailure.
  destruct e as [| |b|n|s|items|fields|name message props];
    try (right; eexists; reflexivity).
  destruct (isStr (get (JError name message props) "message") "GMAIL_AUTH_INVALID") eqn:Hs.
  - left. split; [exists name, message, props; reflexivity|].
    destruct (get (JError name message props) "message"); try discriminate.
    cbn [isStr] in Hs. apply String.eqb_eq in Hs. subst. reflexivity.
  - right. eexists. reflexivity.
Qed.

(** The answer to the request of a page that [fetchMessageIds] takes as
    the rejection of the access token. *)
Definition rejectedPage (ev : Event) : bool :=
  match ev with
  | existT _ _ (c, r) =>
      match c in Cmd R return R -> bool with
      | GmailList _ _ _ _ => fun res =>
          match res with
          | ListNetworkFailure _ => false
          | ListResponse status _ text =>
              negb (ok status)
              && ((status =? 401) || includes text "Invalid Credentials"
                  || includes text "UNAUTHENTICATED")
          end
      end r
  end.

Definition sentinelAfterRejection {A : Type} (last : option Event) (out : Outcome A) : Prop :=
  match last with
  | Some ev => rejectedPage ev = true -> out = Thrown authSentinel
  | None => True
  end.

Definition accepted (last : option Event) : Prop :=
  match last with
  | Some ev => rejectedPage ev = false
  | None => True
  end.

Lemma accepted_any {A : Type} (last : option Event) (out : Outcome A) :
  accepted last -> sentinelAfterRejection last out.
Proof.
  destruct last as [ev|]; simpl; [|auto]. intros H1 H2. congruence.
Qed.

Lemma returned_accepted {A : Type} (last : option Event) (a : A) :
  sentinelAfterRejection last (Returned a) -> accepted last.
Proof.
  destruct last as [ev|]; simpl; [|auto]. intros H.
  destruct (rejectedPage ev); [|reflexivity]. specialize (H eq_refl). discriminate.
Qed.

Lemma fetchPages_rejection (accessToken query : string) (maxMessages pagesLeft : nat)
    (found : list GmailMessage) (pageToken : option string) (last : option Event) :
  accepted last ->
  lastly sentinelAfterRejection last
    (fetchPages accessToken query maxMessages pagesLeft found pageToken).
Proof.
  revert found pageToken last.
  induction pagesLeft as [|n IH]; intros found pageToken last Hlast; cbn [fetchPages].
  - apply accepted_any, Hlast.
  - destruct (negb (length found <? maxMessages)%nat); [apply accepted_any, Hlast|].
    cbv zeta.
    destruct (Nat.min PAGE_SIZE (maxMessages - length found) <=? 0)%nat;
      [apply accepted_any, Hlast|].
    cbn [bind call lastly]. intros res.
    set (ev := event (GmailList accessToken query
                        (Z.of_nat (Nat.min PAGE_SIZE (maxMessages - length found)))
                        pageToken) res).
    assert (Hev : rejectedPage ev =
                  match res with
                  | ListNetworkFailure _ => false
                  | ListResponse status _ text =>
                      negb (ok status)
                      && ((status =? 401) || includes text "Invalid Credentials"
                          || includes text "UNAUTHENTICATED")
                  end) by reflexivity.
    clearbody ev.
    destruct res as [e|status json text]; cbn [readPage bind].
    + apply (accepted_any (Some ev)). exact Hev.
    + destruct (negb (ok status)); cbn [andb] in Hev.
      * destruct ((status =? 401) || includes text "Invalid Credentials"
                  || includes text "UNAUTHENTICATED"); cbn [bind lastly].
        -- intros _. reflexivity.
        -- apply (accepted_any (Some ev)). exact Hev.
      * destruct json as [json|e]; cbn [lift bind];
          [|apply (accepted_any (Some ev)); exact Hev].
        destruct (messages json) as [[|m batch]|];
          try (apply (accepted_any (Some ev)); exact Hev).
        destruct (nextPageToken json) as [token|];
          [|apply (accepted_any (Some ev)); exact Hev].
        destruct (truthy token); [|apply (accepted_any (Some ev)); exact Hev].
        apply IH. exact Hev.
Qed.

Lemma fetchMessageIds_rejection (accessToken : string) (current_plan : Plan)
    (query : string) (last : option Event) :
  accepted last ->
  lastly sentinelAfterRejection last (fetchMessageIds accessToken current_plan query).
Proof.
  intros Hlast. unfold fetchMessageIds.
  apply lastly_bind with (R' := sentinelAfterRejection).
  - apply fetchPages_rejection, Hlast.
  - intros l found H. cbn [lastly]. apply accepted_any. exact (returned_accepted _ _ H).
  - intros l e H. exact H.
Qed.

Lemma listEmails_rejection (accessToken : string) (current_plan : Plan)
    (lastScanDate : option Instant) :
  lastly sentinelAfterRejection None (listEmails accessToken current_plan lastScanDate).
Proof.
  unfold listEmails. cbv zeta.
  apply lastly_tryCatch with (R' := sentinelAfterRejection).
  - apply lastly_bind with (R' := sentinelAfterRejection).
    + apply fetchMessageIds_rejection. exact I.
    + intros l found H. apply returned_accepted in H.
      destruct (length found <? FALLBACK_THRESHOLD)%nat; [|apply accepted_any, H].
      apply lastly_bind with (R' := sentinelAfterRejection).
      * apply fetchMessageIds_rejection, H.
      * intros l' senderMessages H'. cbn [lastly]. apply accepted_any.
        exact (returned_accepted _ _ H').
      * intros l' e H'. exact H'.
    + intros l e H. exact H.
  - intros l found H. exact H.
  - intros l e H. cbn [lastly]. destruct l as [ev|]; simpl in *; [|exact I].
    intros Hr. specialize (H Hr). injection H as ->. reflexivity.
Qed.

(** X5. When the last page request of a run of [listEmails] is answered
    with a failure status and either the status 401 or a body that contains
    [Invalid Credentials] or [UNAUTHENTICATED], the run throws
    [Error("GMAIL_AUTH_INVALID")]; the worker's [isGmailAuthError] does not
    take this error for an authentication error. *)
Theorem rejected_token_raises_unrecognised_sentinel (env : Env) (accessToken : string)
    (current_plan : Plan) (lastScanDate : option Instant) (tr more : list Event)
    (ev : Event) :
  snd (run env (listEmails accessToken current_plan lastScanDate) tr) = tr ++ more ++ [ev] ->
  rejectedPage ev = true ->
  fst (run env (listEmails accessToken current_plan lastScanDate) tr) = Thrown authSentinel
  /\ isGmailAuthError authSentinel = Returned false.
Proof.
  intros Htr Hev. split; [|reflexivity].
  destruct (lastly_run _ _ _ _ env tr
              (listEmails_rejection accessToken current_plan lastScanDate))
    as [more' [Hm HR]].
  rewrite Htr in Hm. apply app_inv_head in Hm. subst more'.
  rewrite lastOf_snoc in HR. exact (HR Hev).
Qed.

(** A provider that answers every request with the status 401. *)
Definition unauthorizedEnv : Env :=
  fun R _ c =>
    match c in Cmd R return R with
    | GmailList _ _ _ _ =>
        ListResponse 401 (Thrown (syntaxError "Unexpected end of JSON input"))
          "Invalid Credentials"
    end.

Lemma rejected_token_raises_unrecognised_sentinel_witness :
  fst (run unauthorizedEnv (listEmails "ya29.token" "free" None) []) = Thrown authSentinel
  /\ isGmailAuthError authSentinel = Returned false.
Proof.
  apply (rejected_token_raises_unrecognised_sentinel unauthorizedEnv "ya29.token" "free"
           None [] []
           (event (GmailList "ya29.token" (KEYWORD_QUERY (dateFilter "free" None)) 500 None)
              (unauthorizedEnv _ [] (GmailList "ya29.token"
                                       (KEYWORD_QUERY (dateFilter "free" None)) 500 None))));
    vm_compute; reflexivity.
Defined.

End Lister.

(* ===================================================================== *)
(** ** The cached result of the last sweep (cache.ts) *)
(* ===================================================================== *)

Module Cached.
Import Str Js Effects Store Reasoning.
Local Open Scope list_scope.
Local Open Scope prog_scope.

(** What [getCachedSweepResult] asks of the store and of the clock: the
    most recent completed sweep of the user, and the rows of the user in
    [user_services] and in [user_breaches]. *)
Inductive Cmd : Type -> Type :=
| Now : Cmd Instant
| LastCompletedSweep (userId : string) : Cmd (DbResult SweepRow)
| UserServicesSelect (userId : string) : Cmd (DbResult (list JsVal))
| UserBreachesSelect (userId : string) : Cmd (DbResult (list JsVal)).

Abbreviation Prog := (Effects.Prog Cmd).
Abbreviation Env := (Effects.Env Cmd).
Abbreviation Event := (Effects.Event Cmd).

(** [interface CachedSweepResult]. *)
Record CachedSweepResult := {
  userId : string;
  scanDate : Instant;
  totalAccounts : Z;
  accounts : list JsVal;
  breaches : list JsVal;
  expiresAt : Instant
}.

(** [rows || []] *)
Definition orNone (rows : option (list JsVal)) : list JsVal :=
  match rows with Some l => l | None => [] end.

(** [getCachedSweepResult].  [new Date(null)] is the epoch. *)
Definition getCachedSweepResult (user : string) : Prog (option CachedSweepResult) :=
  r <- call (LastCompletedSweep user) ;;
  match error r, data r with
  | None, Some sweep =>
      let scanDate := match started_at sweep with Some t => t | None => 0 end in
      now <- call Now ;;
      if negb (Qle_bool (Cache.hoursSince now scanDate) (inject_Z 24)) then Ret None else
      services <- call (UserServicesSelect user) ;;
      breaches <- call (UserBreachesSelect user) ;;
      Ret (Some {| userId := user;
                   scanDate := scanDate;
                   totalAccounts := match data services with
                                    | Some l => Z.of_nat (length l)
                                    | None => 0
                                    end;
                   accounts := orNone (data services);
                   breaches := orNone (data breaches);
                   expiresAt := scanDate + 24 * 60 * 60 * 1000 |})
  | _, _ => Ret None
  end.

(** The last reading of the clock. *)
Definition lastReading (seen : option Instant) (ev : Event) : option Instant :=
  match ev with
  | existT _ _ (c, r) =>
      match c in Cmd R return R -> option Instant with
      | Now => fun now => Some now
      | _ => fun _ => seen
      end r
  end.

(** X20. [getCachedSweepResult] never throws, whatever the store
    answers.  A result that it returns is that of a sweep that started at
    most 24 hours before the reading of the clock: it has not expired at
    that reading, it expires 24 hours after the start of the sweep, and its
    count is the number of the accounts it holds. *)
Theorem cached_result_is_fresh (env : Env) (user : string) (tr : list Event) :
  exists more,
    snd (run env (getCachedSweepResult user) tr) = tr ++ more
    /\ match fst (run env (getCachedSweepResult user) tr) with
       | Thrown _ => False
       | Returned None => True
       | Returned (Some cached) =>
           exists now,
             fold_left lastReading more None = Some now
             /\ now <= expiresAt cached
             /\ expiresAt cached = scanDate cached + 86400000
             /\ totalAccounts cached = Z.of_nat (length (accounts cached))
             /\ userId cached = user
       end.
Proof.
  apply (tracks_run Cmd lastReading
           (fun seen out =>
              match out with
              | Thrown _ => False
              | Returned None => True
              | Returned (Some cached) =>
                  exists now,
                    seen = Some now
                    /\ now <= expiresAt cached
                    /\ expiresAt cached = scanDate cached + 86400000
                    /\ totalAccounts cached = Z.of_nat (length (accounts cached))
                    /\ userId cached = user
              end)).
  unfold getCachedSweepResult. cbn [bind call tracks]. intros r.
  destruct (error r); [exact I|]. destruct (data r) as [sweep|]; [|exact I].
  cbv zeta. cbn [bind call tracks]. intros now.
  rewrite Cache.hoursSince_le.
  destruct (Z.leb_spec (now - match started_at sweep with Some t => t | None => 0 end)
              (24 * 3600000)) as [Hle|Hgt]; cbn [negb]; [|exact I].
  cbn [bind call tracks]. intros services breaches.
  exists now. cbn [expiresAt scanDate totalAccounts accounts userId lastReading event].
  split; [reflexivity|]. split; [lia|]. split; [lia|]. split; [|reflexivity].
  destruct (data services); reflexivity.
Qed.

End Cached.

(* ===================================================================== *)
(** ** The poll for the next job (worker.ts) *)
(* ===================================================================== *)

Module Poller.
Import Str Js Effects Store Reasoning.
Local Open Scope list_scope.
Local Open Scope prog_scope.

(** The row of the job, with the columns read. *)
Record Job := {
  job_id : string;
  job_user_id : string
}.

(** The calls of [processNextJob]: the query for the oldest pending job,
    and the calls of the sweep. *)
Inductive Cmd : Type -> Type :=
| OldestPendingJob : Cmd (DbResult Job)
| OfSweep {R : Type} (c : Store.Cmd R) : Cmd R.

Abbreviation Prog := (Effects.Prog Cmd).
Abbreviation Env := (Effects.Env Cmd).
Abbreviation Event := (Effects.Event Cmd).

(** A sweep as a part of the poll. *)
Fixpoint ofSweep {A : Type} (p : Effects.Prog Store.Cmd A) : Prog A :=
  match p with
  | Ret a => Ret a
  | Throw e => Throw e
  | Call c k => Call (OfSweep c) (fun r => ofSweep (k r))
  end.

Section WithConfiguration.

(** The configuration of the worker. *)
Variables GOOGLE_CLIENT_ID GOOGLE_CLIENT_SECRET RESEND_API_KEY LOGO_DEV_PUBLISHABLE_KEY : string.
Variable Date_parse : string -> option Instant.
Variable keyError : option JsVal.
Variable seal : string -> list Z -> string.
Variable decryptToken : string -> Outcome string.
Variable JSON_stringify : JsVal -> string.

Definition processSweep (userId sweepEventId : string) : Prog unit :=
  ofSweep (Worker.processSweep GOOGLE_CLIENT_ID GOOGLE_CLIENT_SECRET RESEND_API_KEY
             LOGO_DEV_PUBLISHABLE_KEY Date_parse keyError seal decryptToken JSON_stringify
             userId sweepEventId).

(** [processNextJob]. *)
Definition processNextJob : Prog bool :=
  tryCatch
    (r <- call OldestPendingJob ;;
     match error r with
     | Some jobErr => Throw jobErr
     | None =>
         match data r with
         | None => Ret false
         | Some job =>
             processSweep (job_user_id job) (job_id job) ;;;
             Ret true
         end
     end)
    (fun _ => Ret false).

(** X21. [processNextJob] never throws: it answers [true] when there
    was a pending job and the sweep of this job returned, and [false] when
    the query failed, when there was no job, and when the sweep threw.  It
    asks for the job once and runs no sweep but that of the job it got. *)
Theorem processNextJob_never_throws (env : Env) (tr : list Event) :
  let r := env _ tr OldestPendingJob in
  let asked := tr ++ [event OldestPendingJob r] in
  match error r, data r with
  | None, Some job =>
      let sweep := run env (processSweep (job_user_id job) (job_id job)) asked in
      run env processNextJob tr
      = (Returned match fst sweep with Returned _ => true | Thrown _ => false end, snd sweep)
  | _, _ => run env processNextJob tr = (Returned false, asked)
  end.
Proof.
  cbv zeta. unfold processNextJob. rewrite run_tryCatch. cbn [bind call run].
  destruct (error (env _ tr OldestPendingJob)); [reflexivity|].
  destruct (data (env _ tr OldestPendingJob)) as [job|]; [|reflexivity].
  rewrite run_bind.
  destruct (run env (processSweep (job_user_id job) (job_id job)) _) as [[[]|e] tr'];
    reflexivity.
Qed.

End WithConfiguration.

End Poller.
